(** * Recall: the MemoryEngine orchestration core

    A shallow embedding of [src/services/MemoryEngine.ts] (the model lifecycle
    manager, the batch indexing pipeline and the search coordinator) and of
    the picker of [src/services/FileProcessor.ts], with the properties the
    specification states about the engine and further properties of the code.

    Conventions of the embedding.
    - A JavaScript [number] is an instance of the class [Number]: the source's
      arithmetic is written once, over the class, and is read at two
      instances, the real numbers (for the general theorems: IEEE rounding,
      NaN and the infinities are outside that reading) and binary64 floats
      (for evaluation: this is what the engine computes bit for bit).
    - A JavaScript string is a [string] of code units below 256; [toLowerCase]
      and the whitespace class are the restrictions of the JavaScript ones to
      that range.
    - An [async] method is a resumption: the code between two [await]s is one
      atomic state transformer, and each [await] hands control back to the
      caller of the resumption together with the operation that is awaited.
      Running a resumption against an oracle for the operations gives the
      sequential behaviour; a scheduler that owns a pool of resumptions gives
      the interleaved behaviour of the single-threaded event loop.
    - Every call of the SDK ([getModels], [download], [init], [destroy],
      [complete], [reset], [embed]) and of the platform (resizing, copying,
      unlinking, text extraction) is answered by the environment and can
      reject.  The statements of the database ([open], [CREATE], [INSERT],
      [SELECT], [DELETE]) are taken to succeed: what the engine does when one
      of them throws is not embedded.  The theorems that conclude that a
      call returns are therefore stated for an engine whose database is
      open, where no statement of [initialize] is run. *)

From Stdlib Require Import List String Ascii Bool Arith Lia ZArith.
From Stdlib Require Import Sorted Permutation.
From Stdlib Require Import Reals Lra.
From Stdlib Require Import Floats.
From Stdlib Require Import DecimalString.
Import ListNotations.

Set Implicit Arguments.
Open Scope string_scope.
Open Scope list_scope.
Open Scope nat_scope.

(* ================================================================== *)
(** ** JavaScript string primitives used by the engine *)
(* ================================================================== *)

Module Js.

(** [/\s/] and the characters removed by [trim], below code unit 256. *)
Definition is_space (c : ascii) : bool :=
  let n := nat_of_ascii c in
  ((9 <=? n) && (n <=? 13)) || (n =? 32) || (n =? 160).

Definition lower_char (c : ascii) : ascii :=
  let n := nat_of_ascii c in
  if ((65 <=? n) && (n <=? 90))
     || ((192 <=? n) && (n <=? 222) && negb (n =? 215))
  then ascii_of_nat (n + 32) else c.

Fixpoint toLowerCase (s : string) : string :=
  match s with
  | EmptyString => EmptyString
  | String c r => String (lower_char c) (toLowerCase r)
  end.

(** [s.split(/\s+/)]: the pieces between maximal runs of whitespace; a
    leading or trailing run leaves an empty piece, and the result is never
    the empty array.  [prev] says that the previous code unit was
    whitespace. *)
Fixpoint split_from (prev : bool) (s : string) : list string :=
  match s with
  | EmptyString => [EmptyString]
  | String c r =>
      if is_space c then
        if prev then split_from true r else EmptyString :: split_from true r
      else
        match split_from false r with
        | t :: ts => String c t :: ts
        | [] => [String c EmptyString]
        end
  end.

Definition split_ws (s : string) : list string := split_from false s.

(** [s.split(sep)] for a one-character separator. *)
Fixpoint split_char (sep : ascii) (s : string) : list string :=
  match s with
  | EmptyString => [EmptyString]
  | String c r =>
      if Ascii.eqb c sep then EmptyString :: split_char sep r
      else
        match split_char sep r with
        | t :: ts => String c t :: ts
        | [] => [String c EmptyString]
        end
  end.

(** [text.includes(word)]. *)
Fixpoint includes (text word : string) : bool :=
  String.prefix word text
  || match text with
     | EmptyString => false
     | String _ r => includes r word
     end.

Definition startsWith (s p : string) : bool := String.prefix p s.

Fixpoint trimStart (s : string) : string :=
  match s with
  | EmptyString => EmptyString
  | String c r => if is_space c then trimStart r else s
  end.

Fixpoint trimEnd (s : string) : string :=
  match s with
  | EmptyString => EmptyString
  | String c r =>
      let r' := trimEnd r in
      if is_space c && String.eqb r' EmptyString then EmptyString
      else String c r'
  end.

Definition trim (s : string) : string := trimEnd (trimStart s).

Definition drop (n : nat) (s : string) : string :=
  String.substring n (String.length s - n) s.

(** [s.replace(pat, rep)] for a literal, non-empty [pat]: the first
    occurrence only. *)
Fixpoint replace_first (pat rep s : string) : string :=
  match s with
  | EmptyString => EmptyString
  | String c r =>
      if String.prefix pat s then (rep ++ drop (String.length pat) s)%string
      else String c (replace_first pat rep r)
  end.

(** [s.replace(/pat/g, rep)] for a literal, non-empty [pat]: every
    occurrence, left to right, without overlap.  [skip] counts the code
    units of the current occurrence that are still to be dropped. *)
Fixpoint replace_all_from (skip : nat) (pat rep s : string) : string :=
  match s with
  | EmptyString => EmptyString
  | String c r =>
      match skip with
      | S k => replace_all_from k pat rep r
      | O =>
          if String.prefix pat s
          then (rep ++ replace_all_from (String.length pat - 1) pat rep r)%string
          else String c (replace_all_from 0 pat rep r)
      end
  end.

Definition replace_all (pat rep s : string) : string :=
  replace_all_from 0 pat rep s.

(** [s.replace(/[_-]/g, ' ')]. *)
Fixpoint unders_to_spaces (s : string) : string :=
  match s with
  | EmptyString => EmptyString
  | String c r =>
      String (if Ascii.eqb c "_" || Ascii.eqb c "-" then " "%char else c)
             (unders_to_spaces r)
  end.

(** [s.replace(/\.pdf$/i, '')]. *)
Fixpoint strip_pdf_suffix (s : string) : string :=
  match s with
  | EmptyString => EmptyString
  | String c r =>
      if String.eqb (toLowerCase s) ".pdf" then EmptyString
      else String c (strip_pdf_suffix r)
  end.

(** [s.replace(/\.[^.]+$/, '')]: the last dot and what follows it, when
    something follows it. *)
Fixpoint has_dot (s : string) : bool :=
  match s with
  | EmptyString => false
  | String c r => Ascii.eqb c "." || has_dot r
  end.

Fixpoint strip_extension (s : string) : string :=
  match s with
  | EmptyString => EmptyString
  | String c r =>
      if Ascii.eqb c "." && negb (has_dot r) && negb (String.eqb r EmptyString)
      then EmptyString
      else String c (strip_extension r)
  end.

(** A falsy string is the empty one: [s || d]. *)
Definition or_else (s d : string) : string :=
  if String.eqb s EmptyString then d else s.

(** [o || d] for a column that may be [null]. *)
Definition opt_or_else (o : option string) (d : string) : string :=
  match o with
  | Some s => or_else s d
  | None => d
  end.

End Js.

(* ================================================================== *)
(** ** JavaScript numbers *)
(* ================================================================== *)

(** The operations of [number] that the engine uses. *)
Class Number (N : Type) : Type := {
  of_nat : nat -> N;
  num_add : N -> N -> N;
  num_sub : N -> N -> N;
  num_mul : N -> N -> N;
  num_div : N -> N -> N;
  num_sqrt : N -> N;            (* Math.sqrt *)
  num_min : N -> N -> N;        (* Math.min *)
  num_max : N -> N -> N;        (* Math.max *)
  num_is_zero : N -> bool;      (* x === 0 *)
  num_ltb : N -> N -> bool;     (* x < y *)
  num_json : N -> N             (* JSON.parse(JSON.stringify(x)), as a number *)
}.

Declare Scope num_scope.
Delimit Scope num_scope with num.
Notation "x + y" := (num_add x y) : num_scope.
Notation "x - y" := (num_sub x y) : num_scope.
Notation "x * y" := (num_mul x y) : num_scope.
Notation "x / y" := (num_div x y) : num_scope.
Notation "x <? y" := (num_ltb x y) : num_scope.

(** The idealised reading: real numbers. *)
#[export] Instance Real : Number R := {|
  of_nat := INR;
  num_add := Rplus;
  num_sub := Rminus;
  num_mul := Rmult;
  num_div := Rdiv;
  num_sqrt := R_sqrt.sqrt;
  num_min := Rmin;
  num_max := Rmax;
  num_is_zero := fun x => if Req_dec_T x 0%R then true else false;
  num_ltb := fun x y => if Rlt_dec x y then true else false;
  num_json := fun x => x
|}.

(** [Math.min] and [Math.max] on binary64: NaN is contagious and -0 is below
    +0. *)
Definition float_min (x y : float) : float :=
  if PrimFloat.is_nan x || PrimFloat.is_nan y then PrimFloat.nan
  else if PrimFloat.ltb x y then x
  else if PrimFloat.ltb y x then y
  else if PrimFloat.get_sign x then x else y.

Definition float_max (x y : float) : float :=
  if PrimFloat.is_nan x || PrimFloat.is_nan y then PrimFloat.nan
  else if PrimFloat.ltb x y then y
  else if PrimFloat.ltb y x then x
  else if PrimFloat.get_sign x then y else x.

(** A number written by [JSON.stringify] and read back by [JSON.parse]: a
    finite number comes back as it is, but for -0, which is written "0"; NaN
    and the infinities are written "null", and [null] is 0 to the products
    and sums of [cosineSimilarity], the only readers of a stored vector. *)
Definition float_json (x : float) : float :=
  if PrimFloat.is_nan x || PrimFloat.is_infinity x then PrimFloat.zero
  else if PrimFloat.eqb x PrimFloat.zero then PrimFloat.zero
  else x.

(** The machine reading: IEEE 754 binary64, the [number] of the engine.
    [of_nat] is exact below 2^53, which covers every count of the engine. *)
#[export] Instance Binary64 : Number float := {|
  of_nat := fun n => PrimFloat.of_uint63 (Uint63.of_Z (Z.of_nat n));
  num_add := PrimFloat.add;
  num_sub := PrimFloat.sub;
  num_mul := PrimFloat.mul;
  num_div := PrimFloat.div;
  num_sqrt := PrimFloat.sqrt;
  num_min := float_min;
  num_max := float_max;
  num_is_zero := fun x => PrimFloat.eqb x PrimFloat.zero;
  num_ltb := PrimFloat.ltb;
  num_json := float_json
|}.

(* ================================================================== *)
(** ** Data model ([src/types/index.ts]) *)
(* ================================================================== *)

Inductive FileType : Type := image | pdf.

Definition FileType_eqb (a b : FileType) : bool :=
  match a, b with
  | image, image | pdf, pdf => true
  | _, _ => false
  end.

Record SelectedFile : Type := {
  sel_uri : string;
  sel_name : string;
  sel_type : FileType;
  sel_mimeType : string;
  sel_size : nat
}.

(** A row of [files]; [caption] and [thumbnail] are nullable columns. *)
Record FileRecord : Type := {
  id : nat;
  uri : string;
  filename : string;
  file_type : FileType;
  caption : option string;
  thumbnail : option string;
  created_at : nat
}.

Inductive ProcessingPhase : Type :=
| idle | selecting | loading_vision | captioning | unloading_vision
| loading_embedding | embedding | saving | complete | error.

Record ProcessingProgress : Type := {
  phase : ProcessingPhase;
  current : nat;
  total : nat;
  message : string;
  percentage : nat
}.

Record CaptionedFile : Type := {
  cf_file : SelectedFile;
  cf_caption : string;
  cf_thumbnail : option string
}.

(* ================================================================== *)
(** ** Configuration ([src/constants/config.ts]) *)
(* ================================================================== *)

Definition DEFAULT_VISION_MODEL : string := "lfm2-vl-450m".
Definition EMBEDDING_MODEL : string := "nomic2-embed-300m".
Definition CONTEXT_SIZE : nat := 128.
Definition EMBEDDING_CONTEXT_SIZE : nat := 1024.
Definition USE_VISION_MODEL : bool := true.
Definition VISION_MAX_TOKENS : nat := 100.
Definition COOL_DOWN_VISION_MS : nat := 5000.
Definition COOL_DOWN_EMBED_MS : nat := 500.
Definition COOL_DOWN_MODEL_SWITCH_MS : nat := 5000.
Definition PDF_MAX_CHARS : nat := 4000.
Definition VISION_CAPTION_PROMPT : string :=
  "Describe this image in detail for search purposes. Include:
- Main subjects (people, objects, animals)
- Actions or activities happening
- Setting or location (indoor/outdoor, room type, place)
- Notable colors, text, or brands visible
- Mood or context of the scene
Be specific and descriptive.".
Definition SEARCH_RESULTS_LIMIT : nat := 10.

(* ================================================================== *)
(** ** Scoring and ranking (the pure part of [executeSearch]) *)
(* ================================================================== *)

Section Scoring.
Context {N : Type} {num : Number N}.
Local Open Scope num_scope.

(** [a[i]]; the loops below only read inside the array. *)
Definition at_index (a : list N) (i : nat) : N := nth i a (of_nat 0).

(** One turn of the loop of [cosineSimilarity] on
    [(dotProduct, normA, normB)]. *)
Definition cosine_step (a b : list N) (acc : N * N * N) (i : nat) : N * N * N :=
  let '(dotProduct, normA, normB) := acc in
  (dotProduct + at_index a i * at_index b i,
   normA + at_index a i * at_index a i,
   normB + at_index b i * at_index b i).

Definition cosineSimilarity (a b : list N) : N :=
  if negb (List.length a =? List.length b)%nat then of_nat 0
  else
    let '(dotProduct, normA, normB) :=
      fold_left (cosine_step a b) (seq 0 (List.length a))
                (of_nat 0, of_nat 0, of_nat 0) in
    let denominator := num_sqrt normA * num_sqrt normB in
    if num_is_zero denominator then of_nat 0 else dotProduct / denominator.

Definition query_words (query : string) : list string :=
  filter (fun w => (2 <? String.length w)%nat)
         (Js.split_ws (Js.toLowerCase query)).

Definition keywordMatchScore (query text : string) : N :=
  let queryWords := query_words query in
  let textLower := Js.toLowerCase text in
  if (List.length queryWords =? 0)%nat then of_nat 0
  else
    let matchCount :=
      fold_left (fun m word => if Js.includes textLower word then S m else m)
                queryWords 0%nat in
    of_nat matchCount / of_nat (List.length queryWords).

(** A row of the join of [files] and [file_vectors], its embedding decoded. *)
Record Row : Type := {
  row_file : FileRecord;
  row_embedding : list N
}.

(** [SearchResult extends FileRecord]. *)
Record SearchResult : Type := {
  record : FileRecord;
  distance : N;
  similarity : N
}.

(** The weights 0.6 and 0.4 and the display boost 1.5. *)
Definition semantic_weight : N := of_nat 6 / of_nat 10.
Definition keyword_weight : N := of_nat 4 / of_nat 10.
Definition display_boost : N := of_nat 15 / of_nat 10.

Definition semanticScore (queryEmbedding : list N) (row : Row) : N :=
  cosineSimilarity queryEmbedding (row_embedding row).

Definition keywordScore (query : string) (row : Row) : N :=
  let captionKeywordScore :=
    keywordMatchScore query (Js.opt_or_else (caption (row_file row)) "") in
  let filenameKeywordScore :=
    keywordMatchScore query (Js.or_else (filename (row_file row)) "") in
  num_max captionKeywordScore filenameKeywordScore.

Definition hybridScore (query : string) (queryEmbedding : list N) (row : Row) : N :=
  semanticScore queryEmbedding row * semantic_weight
  + keywordScore query row * keyword_weight.

(** The callback of [results.rows.map]. *)
Definition score_row (query : string) (queryEmbedding : list N) (row : Row)
  : SearchResult :=
  let displaySimilarity :=
    num_min (of_nat 1) (hybridScore query queryEmbedding row * display_boost) in
  {| record := row_file row;
     distance := of_nat 1 - displaySimilarity;
     similarity := displaySimilarity |}.

(** [Array.prototype.sort] with a comparison function: the sort is stable,
    and [b] goes before [a] exactly when the function is positive on
    [(a, b)].  For a comparison function that is consistent, as the one of
    [executeSearch] is on real similarities, the resulting order does not
    depend on the algorithm; insertion stands for it. *)
Fixpoint insert_by {A : Type} (cmp : A -> A -> N) (x : A) (l : list A) : list A :=
  match l with
  | [] => [x]
  | y :: t => if of_nat 0 <? cmp x y then y :: insert_by cmp x t else x :: l
  end.

Definition sort_by {A : Type} (cmp : A -> A -> N) (l : list A) : list A :=
  fold_right (insert_by cmp) [] l.

(** [(a, b) => b.similarity - a.similarity]. *)
Definition by_similarity (a b : SearchResult) : N := similarity b - similarity a.

(** [scored.sort(...).slice(0, SEARCH_RESULTS_LIMIT)] over the scored rows;
    an empty table gives the empty result before any row is scored. *)
Definition rank (query : string) (queryEmbedding : list N) (rows : list Row)
  : list SearchResult :=
  match rows with
  | [] => []
  | _ =>
      let scored := map (score_row query queryEmbedding) rows in
      firstn SEARCH_RESULTS_LIMIT (sort_by by_similarity scored)
  end.

End Scoring.

(* ================================================================== *)
(** ** The engine state and the resumption monad *)
(* ================================================================== *)

Definition Error : Type := string.

(** How a promise settles. *)
Inductive Reply (T : Type) : Type :=
| Resolved (v : T)
| Rejected (e : Error).
Arguments Resolved {T} v.
Arguments Rejected {T} e.

(** A [CactusLM] object: what it was constructed with, and what the SDK has
    done to it so far. *)
Record CactusLM : Type := {
  model : string;
  contextSize : nat;
  initialized : bool;
  destroyed : bool
}.

(** References into the engine's heaps of [CactusLM] objects and promises. *)
Definition ModelRef : Type := nat.
Definition PromiseRef : Type := nat.

(** An entry of [getModels()]. *)
Record ModelInfo : Type := {
  slug : string;
  isDownloaded : bool
}.

(** An entry of [searchQueue]; [q_promise] stands for the pair
    [resolve]/[reject] of the promise handed to the queued caller. *)
Record QueuedSearch : Type := {
  q_query : string;
  q_promise : PromiseRef
}.

(** What the search coordinator does, in the order it does it: a query is
    queued or taken from the queue where the source logs it, and
    [executeSearch] is entered and left. *)
Inductive TraceEvent : Type :=
| Queued (query : string) (p : PromiseRef)
| Dispatched (query : string) (p : PromiseRef)
| ExecBegin (query : string)
| ExecEnd (query : string).

Section EngineModel.
Context {N : Type} {num : Number N}.

(** What [search] returns. *)
Definition Results : Type := list (@SearchResult N).

Record EmbeddedFile : Type := {
  ef_captioned : CaptionedFile;
  ef_embedding : list N
}.

(** The two tables of the database file.  [last_id] is the AUTOINCREMENT
    counter of [files]. *)
Record Store : Type := {
  files : list FileRecord;
  file_vectors : list (nat * list N);
  last_id : nat
}.

(** The fields of [MemoryEngine], then what the model adds: the database
    file behind the handle [db], the heaps, everything passed to
    [reportProgress] (oldest first), the platform's cache directory, the
    wall clock read by [Date.now()] and the coordinator's trace. *)
Record Engine : Type := {
  db : bool;
  visionModel : option ModelRef;
  embeddingModel : option ModelRef;
  isInitialized : bool;
  embeddingModelLoading : bool;
  embeddingModelLoadPromise : option PromiseRef;
  searchInProgress : bool;
  searchQueue : list QueuedSearch;
  selectedVisionModel : string;
  store : Store;
  heap : list CactusLM;
  load_promises : list (option (Reply unit));
  search_promises : list (option (Reply Results));
  reported : list ProcessingProgress;
  CachesDirectoryPath : string;
  clock : nat;
  trace : list TraceEvent
}.

(** What an [await] waits for.  [Tick] is the await of a promise that is
    already settled.  The operations of the SDK and of the platform are
    answered by the environment; [AwaitLoad] and [AwaitSearch] wait for a
    promise of the engine's own.  [Download] answers with the percentages
    its [onProgress] callback was called with, then its outcome.  Every call
    of the SDK and of the platform can reject; [Delay], a timer, cannot. *)
Inductive Op : Type -> Type :=
| Tick : Op unit
| Delay (ms : nat) : Op unit
| GetModels (m : ModelRef) : Op (Reply (list ModelInfo))
| Download (m : ModelRef) : Op (list nat * Reply unit)
| Init (m : ModelRef) : Op (Reply unit)
| Destroy (m : ModelRef) : Op (Reply unit)
| Complete (m : ModelRef) (prompt imagePath : string) (maxTokens : nat)
  : Op (Reply string)
| Reset (m : ModelRef) : Op (Reply unit)
| Embed (m : ModelRef) (text : string) : Op (Reply (list N))
| CreateResizedImage (uri : string) : Op (Reply string)
| CopyFile (src dst : string) : Op (Reply unit)
| Unlink (path : string) : Op (Reply unit)
| ExtractText (uri : string) (maxChars : nat) : Op (Reply string)
| AwaitLoad (p : PromiseRef) : Op (Reply unit)
| AwaitSearch (p : PromiseRef) : Op (Reply Results).

(** A computation that has run up to its next [await], to its end, or to the
    point where it starts [this.search(query)] without awaiting it, the
    outcome of that search going to the promise [waiter]. *)
Inductive Res (A : Type) : Type :=
| Done (s : Engine) (a : A)
| Fail (s : Engine) (e : Error)
| Wait (s : Engine) (X : Type) (op : Op X) (k : X -> Engine -> Res A)
| Spawn (s : Engine) (query : string) (waiter : PromiseRef) (k : Engine -> Res A).
Arguments Done {A} s a.
Arguments Fail {A} s e.
Arguments Wait {A} s {X} op k.
Arguments Spawn {A} s query waiter k.

Definition Async (A : Type) : Type := Engine -> Res A.

Definition ret {A : Type} (a : A) : Async A := fun s => Done s a.
Definition throw {A : Type} (e : Error) : Async A := fun s => Fail s e.

Fixpoint bind_res {A B : Type} (r : Res A) (f : A -> Async B) : Res B :=
  match r with
  | Done s a => f a s
  | Fail s e => Fail s e
  | Wait s op k => Wait s op (fun x s' => bind_res (k x s') f)
  | Spawn s q w k => Spawn s q w (fun s' => bind_res (k s') f)
  end.

Definition bind {A B : Type} (m : Async A) (f : A -> Async B) : Async B :=
  fun s => bind_res (m s) f.

Fixpoint catch_res {A : Type} (r : Res A) (h : Error -> Async A) : Res A :=
  match r with
  | Done s a => Done s a
  | Fail s e => h e s
  | Wait s op k => Wait s op (fun x s' => catch_res (k x s') h)
  | Spawn s q w k => Spawn s q w (fun s' => catch_res (k s') h)
  end.

(** [try { m } catch (e) { h e }]. *)
Definition try_catch {A : Type} (m : Async A) (h : Error -> Async A) : Async A :=
  fun s => catch_res (m s) h.

Fixpoint finally_res {A : Type} (r : Res A) (fin : Async unit) : Res A :=
  match r with
  | Done s a => bind_res (fin s) (fun _ => ret a)
  | Fail s e => bind_res (fin s) (fun _ => throw e)
  | Wait s op k => Wait s op (fun x s' => finally_res (k x s') fin)
  | Spawn s q w k => Spawn s q w (fun s' => finally_res (k s') fin)
  end.

(** [try { m } finally { fin }]. *)
Definition try_finally {A : Type} (m : Async A) (fin : Async unit) : Async A :=
  fun s => finally_res (m s) fin.

(** Field updates: [set_f v s] is [s] with [f := v]. *)
Definition set_db (v : bool) (s : Engine) : Engine :=
  {| db := v;
     visionModel := visionModel s;
     embeddingModel := embeddingModel s;
     isInitialized := isInitialized s;
     embeddingModelLoading := embeddingModelLoading s;
     embeddingModelLoadPromise := embeddingModelLoadPromise s;
     searchInProgress := searchInProgress s;
     searchQueue := searchQueue s;
     selectedVisionModel := selectedVisionModel s;
     store := store s;
     heap := heap s;
     load_promises := load_promises s;
     search_promises := search_promises s;
     reported := reported s;
     CachesDirectoryPath := CachesDirectoryPath s;
     clock := clock s;
     trace := trace s |}.

Definition set_visionModel (v : option ModelRef) (s : Engine) : Engine :=
  {| db := db s;
     visionModel := v;
     embeddingModel := embeddingModel s;
     isInitialized := isInitialized s;
     embeddingModelLoading := embeddingModelLoading s;
     embeddingModelLoadPromise := embeddingModelLoadPromise s;
     searchInProgress := searchInProgress s;
     searchQueue := searchQueue s;
     selectedVisionModel := selectedVisionModel s;
     store := store s;
     heap := heap s;
     load_promises := load_promises s;
     search_promises := search_promises s;
     reported := reported s;
     CachesDirectoryPath := CachesDirectoryPath s;
     clock := clock s;
     trace := trace s |}.

Definition set_embeddingModel (v : option ModelRef) (s : Engine) : Engine :=
  {| db := db s;
     visionModel := visionModel s;
     embeddingModel := v;
     isInitialized := isInitialized s;
     embeddingModelLoading := embeddingModelLoading s;
     embeddingModelLoadPromise := embeddingModelLoadPromise s;
     searchInProgress := searchInProgress s;
     searchQueue := searchQueue s;
     selectedVisionModel := selectedVisionModel s;
     store := store s;
     heap := heap s;
     load_promises := load_promises s;
     search_promises := search_promises s;
     reported := reported s;
     CachesDirectoryPath := CachesDirectoryPath s;
     clock := clock s;
     trace := trace s |}.

Definition set_isInitialized (v : bool) (s : Engine) : Engine :=
  {| db := db s;
     visionModel := visionModel s;
     embeddingModel := embeddingModel s;
     isInitialized := v;
     embeddingModelLoading := embeddingModelLoading s;
     embeddingModelLoadPromise := embeddingModelLoadPromise s;
     searchInProgress := searchInProgress s;
     searchQueue := searchQueue s;
     selectedVisionModel := selectedVisionModel s;
     store := store s;
     heap := heap s;
     load_promises := load_promises s;
     search_promises := search_promises s;
     reported := reported s;
     CachesDirectoryPath := CachesDirectoryPath s;
     clock := clock s;
     trace := trace s |}.

Definition set_embeddingModelLoading (v : bool) (s : Engine) : Engine :=
  {| db := db s;
     visionModel := visionModel s;
     embeddingModel := embeddingModel s;
     isInitialized := isInitialized s;
     embeddingModelLoading := v;
     embeddingModelLoadPromise := embeddingModelLoadPromise s;
     searchInProgress := searchInProgress s;
     searchQueue := searchQueue s;
     selectedVisionModel := selectedVisionModel s;
     store := store s;
     heap := heap s;
     load_promises := load_promises s;
     search_promises := search_promises s;
     reported := reported s;
     CachesDirectoryPath := CachesDirectoryPath s;
     clock := clock s;
     trace := trace s |}.

Definition set_embeddingModelLoadPromise (v : option PromiseRef) (s : Engine) : Engine :=
  {| db := db s;
     visionModel := visionModel s;
     embeddingModel := embeddingModel s;
     isInitialized := isInitialized s;
     embeddingModelLoading := embeddingModelLoading s;
     embeddingModelLoadPromise := v;
     searchInProgress := searchInProgress s;
     searchQueue := searchQueue s;
     selectedVisionModel := selectedVisionModel s;
     store := store s;
     heap := heap s;
     load_promises := load_promises s;
     search_promises := search_promises s;
     reported := reported s;
     CachesDirectoryPath := CachesDirectoryPath s;
     clock := clock s;
     trace := trace s |}.

Definition set_searchInProgress (v : bool) (s : Engine) : Engine :=
  {| db := db s;
     visionModel := visionModel s;
     embeddingModel := embeddingModel s;
     isInitialized := isInitialized s;
     embeddingModelLoading := embeddingModelLoading s;
     embeddingModelLoadPromise := embeddingModelLoadPromise s;
     searchInProgress := v;
     searchQueue := searchQueue s;
     selectedVisionModel := selectedVisionModel s;
     store := store s;
     heap := heap s;
     load_promises := load_promises s;
     search_promises := search_promises s;
     reported := reported s;
     CachesDirectoryPath := CachesDirectoryPath s;
     clock := clock s;
     trace := trace s |}.

Definition set_searchQueue (v : list QueuedSearch) (s : Engine) : Engine :=
  {| db := db s;
     visionModel := visionModel s;
     embeddingModel := embeddingModel s;
     isInitialized := isInitialized s;
     embeddingModelLoading := embeddingModelLoading s;
     embeddingModelLoadPromise := embeddingModelLoadPromise s;
     searchInProgress := searchInProgress s;
     searchQueue := v;
     selectedVisionModel := selectedVisionModel s;
     store := store s;
     heap := heap s;
     load_promises := load_promises s;
     search_promises := search_promises s;
     reported := reported s;
     CachesDirectoryPath := CachesDirectoryPath s;
     clock := clock s;
     trace := trace s |}.

Definition set_selectedVisionModel (v : string) (s : Engine) : Engine :=
  {| db := db s;
     visionModel := visionModel s;
     embeddingModel := embeddingModel s;
     isInitialized := isInitialized s;
     embeddingModelLoading := embeddingModelLoading s;
     embeddingModelLoadPromise := embeddingModelLoadPromise s;
     searchInProgress := searchInProgress s;
     searchQueue := searchQueue s;
     selectedVisionModel := v;
     store := store s;
     heap := heap s;
     load_promises := load_promises s;
     search_promises := search_promises s;
     reported := reported s;
     CachesDirectoryPath := CachesDirectoryPath s;
     clock := clock s;
     trace := trace s |}.

Definition set_store (v : Store) (s : Engine) : Engine :=
  {| db := db s;
     visionModel := visionModel s;
     embeddingModel := embeddingModel s;
     isInitialized := isInitialized s;
     embeddingModelLoading := embeddingModelLoading s;
     embeddingModelLoadPromise := embeddingModelLoadPromise s;
     searchInProgress := searchInProgress s;
     searchQueue := searchQueue s;
     selectedVisionModel := selectedVisionModel s;
     store := v;
     heap := heap s;
     load_promises := load_promises s;
     search_promises := search_promises s;
     reported := reported s;
     CachesDirectoryPath := CachesDirectoryPath s;
     clock := clock s;
     trace := trace s |}.

Definition set_heap (v : list CactusLM) (s : Engine) : Engine :=
  {| db := db s;
     visionModel := visionModel s;
     embeddingModel := embeddingModel s;
     isInitialized := isInitialized s;
     embeddingModelLoading := embeddingModelLoading s;
     embeddingModelLoadPromise := embeddingModelLoadPromise s;
     searchInProgress := searchInProgress s;
     searchQueue := searchQueue s;
     selectedVisionModel := selectedVisionModel s;
     store := store s;
     heap := v;
     load_promises := load_promises s;
     search_promises := search_promises s;
     reported := reported s;
     CachesDirectoryPath := CachesDirectoryPath s;
     clock := clock s;
     trace := trace s |}.

Definition set_load_promises (v : list (option (Reply unit))) (s : Engine) : Engine :=
  {| db := db s;
     visionModel := visionModel s;
     embeddingModel := embeddingModel s;
     isInitialized := isInitialized s;
     embeddingModelLoading := embeddingModelLoading s;
     embeddingModelLoadPromise := embeddingModelLoadPromise s;
     searchInProgress := searchInProgress s;
     searchQueue := searchQueue s;
     selectedVisionModel := selectedVisionModel s;
     store := store s;
     heap := heap s;
     load_promises := v;
     search_promises := search_promises s;
     reported := reported s;
     CachesDirectoryPath := CachesDirectoryPath s;
     clock := clock s;
     trace := trace s |}.

Definition set_search_promises (v : list (option (Reply Results))) (s : Engine) : Engine :=
  {| db := db s;
     visionModel := visionModel s;
     embeddingModel := embeddingModel s;
     isInitialized := isInitialized s;
     embeddingModelLoading := embeddingModelLoading s;
     embeddingModelLoadPromise := embeddingModelLoadPromise s;
     searchInProgress := searchInProgress s;
     searchQueue := searchQueue s;
     selectedVisionModel := selectedVisionModel s;
     store := store s;
     heap := heap s;
     load_promises := load_promises s;
     search_promises := v;
     reported := reported s;
     CachesDirectoryPath := CachesDirectoryPath s;
     clock := clock s;
     trace := trace s |}.

Definition set_reported (v : list ProcessingProgress) (s : Engine) : Engine :=
  {| db := db s;
     visionModel := visionModel s;
     embeddingModel := embeddingModel s;
     isInitialized := isInitialized s;
     embeddingModelLoading := embeddingModelLoading s;
     embeddingModelLoadPromise := embeddingModelLoadPromise s;
     searchInProgress := searchInProgress s;
     searchQueue := searchQueue s;
     selectedVisionModel := selectedVisionModel s;
     store := store s;
     heap := heap s;
     load_promises := load_promises s;
     search_promises := search_promises s;
     reported := v;
     CachesDirectoryPath := CachesDirectoryPath s;
     clock := clock s;
     trace := trace s |}.

Definition set_CachesDirectoryPath (v : string) (s : Engine) : Engine :=
  {| db := db s;
     visionModel := visionModel s;
     embeddingModel := embeddingModel s;
     isInitialized := isInitialized s;
     embeddingModelLoading := embeddingModelLoading s;
     embeddingModelLoadPromise := embeddingModelLoadPromise s;
     searchInProgress := searchInProgress s;
     searchQueue := searchQueue s;
     selectedVisionModel := selectedVisionModel s;
     store := store s;
     heap := heap s;
     load_promises := load_promises s;
     search_promises := search_promises s;
     reported := reported s;
     CachesDirectoryPath := v;
     clock := clock s;
     trace := trace s |}.

Definition set_clock (v : nat) (s : Engine) : Engine :=
  {| db := db s;
     visionModel := visionModel s;
     embeddingModel := embeddingModel s;
     isInitialized := isInitialized s;
     embeddingModelLoading := embeddingModelLoading s;
     embeddingModelLoadPromise := embeddingModelLoadPromise s;
     searchInProgress := searchInProgress s;
     searchQueue := searchQueue s;
     selectedVisionModel := selectedVisionModel s;
     store := store s;
     heap := heap s;
     load_promises := load_promises s;
     search_promises := search_promises s;
     reported := reported s;
     CachesDirectoryPath := CachesDirectoryPath s;
     clock := v;
     trace := trace s |}.

Definition set_trace (v : list TraceEvent) (s : Engine) : Engine :=
  {| db := db s;
     visionModel := visionModel s;
     embeddingModel := embeddingModel s;
     isInitialized := isInitialized s;
     embeddingModelLoading := embeddingModelLoading s;
     embeddingModelLoadPromise := embeddingModelLoadPromise s;
     searchInProgress := searchInProgress s;
     searchQueue := searchQueue s;
     selectedVisionModel := selectedVisionModel s;
     store := store s;
     heap := heap s;
     load_promises := load_promises s;
     search_promises := search_promises s;
     reported := reported s;
     CachesDirectoryPath := CachesDirectoryPath s;
     clock := clock s;
     trace := v |}.

Definition get : Async Engine := fun s => Done s s.
Definition modify (f : Engine -> Engine) : Async unit := fun s => Done (f s) tt.

(** [await] of an operation: the computation stops here and goes on with the
    state it is resumed in. *)
Definition await {X : Type} (op : Op X) : Async X :=
  fun s => Wait s op (fun x s' => Done s' x).

(** [this.search(query).then(resolve).catch(reject)], not awaited. *)
Definition spawn_search (query : string) (waiter : PromiseRef) : Async unit :=
  fun s => Spawn s query waiter (fun s' => Done s' tt).

Definition settle {T : Type} (r : Reply T) : Async T :=
  match r with
  | Resolved v => ret v
  | Rejected e => throw e
  end.

Local Notation "x <- m ;; k" := (bind m (fun x => k))
  (at level 61, m at next level, right associativity).
Local Notation "m ;; k" := (bind m (fun _ => k))
  (at level 61, right associativity).

(** The outcome of [m] as a value. *)
Definition attempt {A : Type} (m : Async A) : Async (Reply A) :=
  try_catch (a <- m ;; ret (Resolved a)) (fun e => ret (Rejected e)).

(** [await m] for an [async] method [m] of the engine: the method runs up to
    its end, and the caller goes on one tick after that. *)
Definition await_async {A : Type} (m : Async A) : Async A :=
  r <- attempt m ;; await Tick ;; settle r.

(** A loop over an array, the loop's local variables threaded as [acc]. *)
Fixpoint for_loop {A B : Type} (body : nat -> A -> B -> Async B)
         (i : nat) (l : list A) (acc : B) : Async B :=
  match l with
  | [] => ret acc
  | x :: t => acc' <- body i x acc ;; for_loop body (S i) t acc'
  end.

Definition show (n : nat) : string := NilZero.string_of_uint (Nat.to_uint n).

(** Reading a property of [null]. *)
Definition deref (o : option ModelRef) : Async ModelRef :=
  match o with
  | Some m => ret m
  | None => throw "TypeError: Cannot read property of null"
  end.

(** *** The SDK's [CactusLM] *)

Definition new_CactusLM (model_ : string) (contextSize_ : nat) : Async ModelRef :=
  fun s =>
    Done (set_heap (heap s ++ [ {| model := model_; contextSize := contextSize_;
                                   initialized := false; destroyed := false |} ]) s)
         (List.length (heap s)).

Fixpoint update_nth {A : Type} (n : nat) (f : A -> A) (l : list A) : list A :=
  match l, n with
  | [], _ => []
  | x :: t, O => f x :: t
  | x :: t, S k => x :: update_nth k f t
  end.

Definition mark_initialized (c : CactusLM) : CactusLM :=
  {| model := model c; contextSize := contextSize c;
     initialized := true; destroyed := destroyed c |}.

Definition mark_destroyed (c : CactusLM) : CactusLM :=
  {| model := model c; contextSize := contextSize c;
     initialized := initialized c; destroyed := true |}.

Definition cactus_getModels (m : ModelRef) : Async (list ModelInfo) :=
  r <- await (GetModels m) ;; settle r.

Definition cactus_download (m : ModelRef) (onProgress : nat -> Async unit)
  : Async unit :=
  r <- await (Download m) ;;
  for_loop (fun _ pct _ => onProgress pct) 0 (fst r) tt ;;
  settle (snd r).

Definition cactus_init (m : ModelRef) : Async unit :=
  r <- await (Init m) ;;
  settle r ;;
  modify (fun s => set_heap (update_nth m mark_initialized (heap s)) s).

Definition cactus_destroy (m : ModelRef) : Async unit :=
  r <- await (Destroy m) ;;
  settle r ;;
  modify (fun s => set_heap (update_nth m mark_destroyed (heap s)) s).

Definition cactus_complete (m : ModelRef) (prompt imagePath : string)
           (maxTokens : nat) : Async string :=
  r <- await (Complete m prompt imagePath maxTokens) ;; settle r.

Definition cactus_reset (m : ModelRef) : Async unit :=
  r <- await (Reset m) ;; settle r.

Definition cactus_embed (m : ModelRef) (text : string) : Async (list N) :=
  r <- await (Embed m text) ;; settle r.

(** *** Progress *)

(** [Math.round] on a binary64 number that is finite and not negative, the
    only ones [reportProgress] rounds: the nearest integer, a half going
    up.  The number is m * 2^e exactly. *)
Definition math_round (x : float) : nat :=
  match Prim2SF x with
  | S754_finite false m e =>
      if (0 <=? e)%Z then Z.to_nat (Z.shiftl (Zpos m) e)
      else
        let d := Z.shiftl 1 (- e) in
        let q := (Zpos m / d)%Z in
        if (d <=? 2 * (Zpos m mod d))%Z then Z.to_nat (q + 1) else Z.to_nat q
  | _ => 0
  end.

(** [total > 0 ? Math.round((current / total) * 100) : 0], the division and
    the product in binary64 as the engine computes them. *)
Definition percent (current_ total_ : nat) : nat :=
  if (0 <? total_)%nat
  then math_round
         (PrimFloat.mul
            (PrimFloat.div (PrimFloat.of_uint63 (Uint63.of_Z (Z.of_nat current_)))
                           (PrimFloat.of_uint63 (Uint63.of_Z (Z.of_nat total_))))
            (PrimFloat.of_uint63 (Uint63.of_Z 100)))
  else 0.

#[global] Arguments math_round : simpl never.
#[global] Arguments percent : simpl never.

Definition reportProgress (phase_ : ProcessingPhase) (current_ total_ : nat)
           (message_ : string) : Async unit :=
  modify (fun s =>
    set_reported (reported s ++ [ {| phase := phase_; current := current_;
                                     total := total_; message := message_;
                                     percentage := percent current_ total_ |} ]) s).

(** *** Database *)

(** [initialize]: opening the file and creating the tables where they are
    missing leaves the rows as they are.  [open] and the three [CREATE]
    statements are taken to succeed; the [catch] block, which throws their
    error again, is not embedded. *)
Definition initialize : Async unit :=
  s <- get ;;
  if isInitialized s then ret tt
  else modify (fun s => set_isInitialized true (set_db true s)).

(** *** Model lifecycle *)

Definition download_vision_model : Async unit :=
  s <- get ;;
  m <- deref (visionModel s) ;;
  cactus_download m (fun pct =>
    reportProgress loading_vision pct 100
                   ("Downloading vision model: " ++ show pct ++ "%")%string).

Definition loadVisionModel : Async unit :=
  s <- get ;;
  let modelToLoad := selectedVisionModel s in
  reportProgress loading_vision 0 1 ("Loading " ++ modelToLoad ++ "...")%string ;;
  try_catch
    (m <- new_CactusLM modelToLoad CONTEXT_SIZE ;;
     modify (set_visionModel (Some m)) ;;
     try_catch
       (s <- get ;;
        m <- deref (visionModel s) ;;
        models <- cactus_getModels m ;;
        match find (fun i => String.eqb (slug i) modelToLoad) models with
        | Some visionModelInfo =>
            if isDownloaded visionModelInfo then ret tt
            else download_vision_model
        | None => download_vision_model
        end)
       (fun _ => download_vision_model) ;;
     s <- get ;;
     m <- deref (visionModel s) ;;
     cactus_init m ;;
     reportProgress loading_vision 1 1 "Vision model ready")
    (fun e => throw e).

Definition unloadVisionModel : Async unit :=
  s <- get ;;
  match visionModel s with
  | Some m =>
      reportProgress unloading_vision 0 1 "Freeing memory..." ;;
      cactus_destroy m ;;
      modify (set_visionModel None) ;;
      await (Delay COOL_DOWN_MODEL_SWITCH_MS) ;;
      reportProgress unloading_vision 1 1 "Memory freed"
  | None => ret tt
  end.

Definition new_load_promise : Async PromiseRef :=
  fun s => Done (set_load_promises (load_promises s ++ [None]) s)
                (List.length (load_promises s)).

Definition settle_load (p : PromiseRef) (r : Reply unit) : Async unit :=
  modify (fun s =>
    set_load_promises (update_nth p (fun _ => Some r) (load_promises s)) s).

(** The body of the immediately-invoked [async] function of
    [loadEmbeddingModel]. *)
Definition load_embedding_body : Async unit :=
  reportProgress loading_embedding 0 1 "Loading embedding model..." ;;
  try_finally
    (try_catch
       (m <- new_CactusLM EMBEDDING_MODEL EMBEDDING_CONTEXT_SIZE ;;
        modify (set_embeddingModel (Some m)) ;;
        s <- get ;;
        m <- deref (embeddingModel s) ;;
        cactus_download m (fun pct =>
          reportProgress loading_embedding pct 100
                         ("Downloading embedding model: " ++ show pct ++ "%")%string) ;;
        s <- get ;;
        m <- deref (embeddingModel s) ;;
        cactus_init m ;;
        reportProgress loading_embedding 1 1 "Embedding model ready")
       (fun e => modify (set_embeddingModel None) ;; throw e))
    (modify (set_embeddingModelLoading false)).

(** The promise of the immediately-invoked function is the entry [p] of
    [load_promises]: the function's body runs in the caller's own resumption
    and settles [p] when it ends; the caller, like any other caller that
    finds the load in flight, awaits [p]. *)
Definition loadEmbeddingModel : Async unit :=
  s <- get ;;
  match embeddingModel s with
  | Some _ => ret tt
  | None =>
      match embeddingModelLoading s, embeddingModelLoadPromise s with
      | true, Some p => r <- await (AwaitLoad p) ;; settle r
      | _, _ =>
          modify (set_embeddingModelLoading true) ;;
          p <- new_load_promise ;;
          modify (set_embeddingModelLoadPromise (Some p)) ;;
          r <- attempt load_embedding_body ;;
          settle_load p r ;;
          r' <- await (AwaitLoad p) ;;
          settle r'
      end
  end.

Definition unloadEmbeddingModel : Async unit :=
  s <- get ;;
  match embeddingModel s with
  | Some m =>
      cactus_destroy m ;;
      modify (set_embeddingModel None)
  | None => ret tt
  end.

(** *** Captions and embeddings *)

Definition resizeImageForVision (uri_ : string) : Async string :=
  try_catch (r <- await (CreateResizedImage uri_) ;; settle r)
            (fun _ => ret uri_).

Definition getReadableFilePath (uri_ filename_ : string) : Async string :=
  if Js.startsWith uri_ "/" || Js.startsWith uri_ "file://"
  then ret (Js.replace_first "file://" "" uri_)
  else
    s <- get ;;
    let tempDir := CachesDirectoryPath s in
    let tempPath := (tempDir ++ "/" ++ show (clock s) ++ "_" ++ filename_)%string in
    try_catch (r <- await (CopyFile uri_ tempPath) ;; settle r ;; ret tempPath)
              (fun e => throw e).

(** The caption that stands in for a caption the model could not give. *)
Definition fallback_caption (imagePath : string) : string :=
  let filename_ := Js.or_else (last (Js.split_char "/" imagePath) "") "unknown" in
  ("Image file: " ++ filename_)%string.

(** [result.response.trim().replace(/<\|im_end\|>/g, '').trim()]. *)
Definition clean_caption (response : string) : string :=
  Js.trim (Js.replace_all "<|im_end|>" "" (Js.trim response)).

Definition captionImage (imagePath : string) : Async string :=
  s <- get ;;
  match visionModel s with
  | None => throw "Error: Vision model not loaded"
  | Some _ =>
      try_catch
        (s <- get ;;
         m <- deref (visionModel s) ;;
         response <- cactus_complete m VISION_CAPTION_PROMPT imagePath
                                     VISION_MAX_TOKENS ;;
         ret (clean_caption response))
        (fun _ => ret (fallback_caption imagePath))
  end.

Definition extractPdfText (uri_ : string) : Async string :=
  try_catch (r <- await (ExtractText uri_ PDF_MAX_CHARS) ;; settle r)
            (fun _ => ret "").

Definition pdf_clean_name (file : SelectedFile) : string :=
  Js.unders_to_spaces (Js.strip_pdf_suffix (sel_name file)).

Definition generatePdfCaption (file : SelectedFile) : Async string :=
  try_catch
    (extractedText <- await_async (extractPdfText (sel_uri file)) ;;
     if negb (String.eqb extractedText "") && (20 <? String.length extractedText)%nat
     then ret ("PDF: " ++ pdf_clean_name file ++ ". Content: " ++ extractedText)%string
     else ret ("PDF document: " ++ pdf_clean_name file)%string)
    (fun _ => ret ("PDF document: " ++ pdf_clean_name file)%string).

Definition generateEmbedding (text : string) : Async (list N) :=
  s <- get ;;
  match embeddingModel s with
  | None => throw "Error: Embedding model not loaded"
  | Some _ =>
      try_catch (s <- get ;;
                 m <- deref (embeddingModel s) ;;
                 cactus_embed m text)
                (fun e => throw e)
  end.

Definition createThumbnail (_ : string) : Async (option string) := ret None.

(** *** Persistence *)

(** [vectorToJson] and [jsonToVector]: the text of the [embedding] column
    is modelled by the numbers [JSON.parse] reads in it. *)
Definition vectorToJson (vector : list N) : list N := map num_json vector.
Definition jsonToVector (json : list N) : list N := json.

(** The two [INSERT]s of [saveFileToDatabase], both taken to succeed: the
    metadata row, whose id the database assigns, then the vector row under
    that id. *)
Definition insert_file (embedded : EmbeddedFile) (now : nat) (st : Store) : Store :=
  let fileId := S (last_id st) in
  let file := cf_file (ef_captioned embedded) in
  {| files := files st ++ [ {| id := fileId;
                               uri := sel_uri file;
                               filename := sel_name file;
                               file_type := sel_type file;
                               caption := Some (cf_caption (ef_captioned embedded));
                               thumbnail := cf_thumbnail (ef_captioned embedded);
                               created_at := now |} ];
     file_vectors := file_vectors st ++ [ (fileId, vectorToJson (ef_embedding embedded)) ];
     last_id := fileId |}.

Definition saveFileToDatabase (embedded : EmbeddedFile) : Async unit :=
  s <- get ;;
  if negb (db s) then throw "Error: Database not initialized"
  else
    try_catch
      (modify (fun s => set_store (insert_file embedded (clock s) (store s)) s))
      (fun e => throw e).

(** [SELECT ... FROM files f INNER JOIN file_vectors v ON f.id = v.file_id],
    in the order of [files]. *)
Definition select_files_with_vectors (st : Store) : list (@Row N) :=
  flat_map (fun f =>
    map (fun v => {| row_file := f; row_embedding := jsonToVector (snd v) |})
        (filter (fun v => (fst v =? id f)%nat) (file_vectors st)))
    (files st).

(** *** The batch indexing pipeline *)

Definition caption_image_step (n_images : nat) (i : nat) (file : SelectedFile)
           (captionedFiles : list CaptionedFile) : Async (list CaptionedFile) :=
  reportProgress captioning (i + 1) n_images
    ("Analyzing image " ++ show (i + 1) ++ "/" ++ show n_images ++ ": "
     ++ sel_name file)%string ;;
  resizedUri <- await_async (resizeImageForVision (sel_uri file)) ;;
  imagePath <- await_async (getReadableFilePath resizedUri (sel_name file)) ;;
  caption_ <- await_async (captionImage imagePath) ;;
  try_catch
    (if negb (String.eqb resizedUri (sel_uri file))
     then r <- await (Unlink resizedUri) ;; settle r
     else ret tt)
    (fun _ => ret tt) ;;
  thumbnail_ <- await_async (createThumbnail (sel_uri file)) ;;
  let captionedFiles' :=
    captionedFiles ++ [ {| cf_file := file; cf_caption := caption_;
                           cf_thumbnail := thumbnail_ |} ] in
  s <- get ;;
  match visionModel s with
  | Some m => cactus_reset m
  | None => ret tt
  end ;;
  (if (i <? n_images - 1)%nat then await (Delay COOL_DOWN_VISION_MS) else ret tt) ;;
  ret captionedFiles'.

(** The branch taken when the vision model is switched off. *)
Definition filename_caption_step (n_images : nat) (i : nat) (file : SelectedFile)
           (captionedFiles : list CaptionedFile) : Async (list CaptionedFile) :=
  reportProgress captioning (i + 1) n_images
    ("Processing image " ++ show (i + 1) ++ "/" ++ show n_images ++ ": "
     ++ sel_name file)%string ;;
  let cleanName := Js.unders_to_spaces (Js.strip_extension (sel_name file)) in
  thumbnail_ <- await_async (createThumbnail (sel_uri file)) ;;
  ret (captionedFiles ++ [ {| cf_file := file;
                              cf_caption := ("Image: " ++ cleanName)%string;
                              cf_thumbnail := thumbnail_ |} ]).

Definition pdf_step (n_images n_pdfs totalFiles : nat) (i : nat)
           (file : SelectedFile) (captionedFiles : list CaptionedFile)
  : Async (list CaptionedFile) :=
  reportProgress captioning (n_images + i + 1) totalFiles
    ("Extracting text from PDF " ++ show (i + 1) ++ "/" ++ show n_pdfs ++ ": "
     ++ sel_name file)%string ;;
  caption_ <- await_async (generatePdfCaption file) ;;
  ret (captionedFiles ++ [ {| cf_file := file; cf_caption := caption_;
                              cf_thumbnail := None |} ]).

Definition embed_step (n_captioned : nat) (i : nat) (captioned : CaptionedFile)
           (embeddedFiles : list EmbeddedFile) : Async (list EmbeddedFile) :=
  reportProgress embedding (i + 1) n_captioned
    ("Generating vector " ++ show (i + 1) ++ "/" ++ show n_captioned)%string ;;
  embedding_ <- await_async (generateEmbedding (cf_caption captioned)) ;;
  let embeddedFiles' :=
    embeddedFiles ++ [ {| ef_captioned := captioned; ef_embedding := embedding_ |} ] in
  (if (i <? n_captioned - 1)%nat then await (Delay COOL_DOWN_EMBED_MS) else ret tt) ;;
  ret embeddedFiles'.

Definition save_step (n_embedded : nat) (i : nat) (embedded : EmbeddedFile)
           (_ : unit) : Async unit :=
  await_async (saveFileToDatabase embedded) ;;
  reportProgress saving (i + 1) n_embedded
    ("Saved " ++ show (i + 1) ++ "/" ++ show n_embedded)%string.

(** Phase 1 of [indexFiles]. *)
Definition caption_images (images : list SelectedFile) : Async (list CaptionedFile) :=
  if (0 <? List.length images)%nat then
    if USE_VISION_MODEL then
      s <- get ;;
      match embeddingModel s with
      | Some _ => await_async unloadEmbeddingModel ;; await (Delay 2000)
      | None => ret tt
      end ;;
      await_async loadVisionModel ;;
      captionedFiles <-
        for_loop (caption_image_step (List.length images)) 0 images [] ;;
      await_async unloadVisionModel ;;
      ret captionedFiles
    else
      for_loop (filename_caption_step (List.length images)) 0 images []
  else ret [].

(** Phase 2. *)
Definition caption_pdfs (n_images totalFiles : nat) (pdfs : list SelectedFile)
           (captionedFiles : list CaptionedFile) : Async (list CaptionedFile) :=
  if (0 <? List.length pdfs)%nat
  then for_loop (pdf_step n_images (List.length pdfs) totalFiles) 0 pdfs captionedFiles
  else ret captionedFiles.

(** Phases 1 and 2 of [indexFiles]: the captions of the images, then of the
    documents. *)
Definition caption_all (files_ : list SelectedFile) : Async (list CaptionedFile) :=
  let images := filter (fun f => FileType_eqb (sel_type f) image) files_ in
  let pdfs := filter (fun f => FileType_eqb (sel_type f) pdf) files_ in
  let totalFiles := List.length files_ in
  captionedFiles <- caption_images images ;;
  caption_pdfs (List.length images) totalFiles pdfs captionedFiles.

(** Phase 3: the embedding of every caption. *)
Definition embed_all (captionedFiles : list CaptionedFile) : Async (list EmbeddedFile) :=
  await_async loadEmbeddingModel ;;
  for_loop (embed_step (List.length captionedFiles)) 0 captionedFiles [].

(** Phases 4 and 5: the rows, then [complete]. *)
Definition save_all (totalFiles : nat) (embeddedFiles : list EmbeddedFile) : Async unit :=
  reportProgress saving 0 (List.length embeddedFiles) "Saving to database..." ;;
  for_loop (save_step (List.length embeddedFiles)) 0 embeddedFiles tt ;;
  reportProgress complete totalFiles totalFiles
                 (show totalFiles ++ " files indexed")%string.

(** The [try] block of [indexFiles]. *)
Definition index_pipeline (files_ : list SelectedFile) : Async unit :=
  captionedFiles <- caption_all files_ ;;
  embeddedFiles <- embed_all captionedFiles ;;
  save_all (List.length files_) embeddedFiles.

(** Its [catch] block. *)
Definition index_cleanup (e : Error) : Async unit :=
  reportProgress error 0 0 ("Error: " ++ e)%string ;;
  await_async unloadVisionModel ;;
  await_async unloadEmbeddingModel ;;
  throw e.

Definition indexFiles (files_ : list SelectedFile) : Async unit :=
  s <- get ;;
  (if negb (isInitialized s) then await_async initialize else ret tt) ;;
  try_catch (index_pipeline files_) index_cleanup.

(** *** The search coordinator *)

Definition log (ev : TraceEvent) : Async unit :=
  modify (fun s => set_trace (trace s ++ [ev]) s).

(** The [try] block of [executeSearch]. *)
Definition query_rows (query : string) : Async Results :=
  s <- get ;;
  match embeddingModel s with
  | None => await_async loadEmbeddingModel
  | Some _ => ret tt
  end ;;
  queryEmbedding <- await_async (generateEmbedding query) ;;
  s <- get ;;
  if negb (db s) then throw "TypeError: Cannot read property of null"
  else ret (rank query queryEmbedding (select_files_with_vectors (store s))).

Definition executeSearch (query : string) : Async Results :=
  log (ExecBegin query) ;;
  results <- try_catch (query_rows query) (fun _ => ret []) ;;
  log (ExecEnd query) ;;
  ret results.

Definition new_search_promise : Async PromiseRef :=
  fun s => Done (set_search_promises (search_promises s ++ [None]) s)
                (List.length (search_promises s)).

(** What [search] does once the in-flight query is over. *)
Definition search_finally : Async unit :=
  modify (set_searchInProgress false) ;;
  s <- get ;;
  match searchQueue s with
  | next :: rest =>
      modify (set_searchQueue rest) ;;
      log (Dispatched (q_query next) (q_promise next)) ;;
      spawn_search (q_query next) (q_promise next)
  | [] => ret tt
  end.

(** [search] once the database is open. *)
Definition search_gate (query : string) : Async Results :=
  if String.eqb (Js.trim query) "" then ret []
  else
    s <- get ;;
    if searchInProgress s then
      p <- new_search_promise ;;
      modify (set_searchQueue []) ;;
      modify (fun s =>
        set_searchQueue (searchQueue s ++ [ {| q_query := query; q_promise := p |} ]) s) ;;
      log (Queued query p) ;;
      r <- await (AwaitSearch p) ;;
      settle r
    else
      modify (set_searchInProgress true) ;;
      try_finally (await_async (executeSearch query)) search_finally.

Definition search (query : string) : Async Results :=
  s <- get ;;
  (if negb (db s) then await_async initialize else ret tt) ;;
  search_gate query.

(** *** The other public methods *)

(** [ORDER BY created_at DESC]: the newest first, the rows of one
    [created_at] in the order of the table. *)
Fixpoint insert_newest (f : FileRecord) (l : list FileRecord) : list FileRecord :=
  match l with
  | [] => [f]
  | g :: t =>
      if (created_at g <=? created_at f)%nat then f :: l
      else g :: insert_newest f t
  end.

Definition newest_first (l : list FileRecord) : list FileRecord :=
  fold_right insert_newest [] l.

Definition getAllFiles : Async (list FileRecord) :=
  s <- get ;;
  (if negb (db s) then await_async initialize else ret tt) ;;
  try_catch
    (s <- get ;;
     if negb (db s) then throw "TypeError: Cannot read property of null"
     else ret (newest_first (files (store s))))
    (fun _ => ret []).

Definition getFileCount : Async nat :=
  s <- get ;;
  (if negb (db s) then await_async initialize else ret tt) ;;
  try_catch
    (s <- get ;;
     if negb (db s) then throw "TypeError: Cannot read property of null"
     else ret (List.length (files (store s))))
    (fun _ => ret 0).

(** [DELETE FROM file_vectors; DELETE FROM files]: the AUTOINCREMENT counter
    stays. *)
Definition clearAll : Async unit :=
  s <- get ;;
  (if negb (db s) then await_async initialize else ret tt) ;;
  try_catch
    (s <- get ;;
     if negb (db s) then throw "TypeError: Cannot read property of null"
     else modify (fun s =>
            set_store {| files := []; file_vectors := [];
                         last_id := last_id (store s) |} s))
    (fun e => throw e).

Definition setVisionModel (modelSlug : string) (s : Engine) : Engine :=
  set_selectedVisionModel modelSlug s.

(** *** Running a computation *)

(** The environment's answer to each operation. *)
Definition World : Type := forall X : Type, Op X -> X.

(** The answer an [await] gets in state [s], if it can go on: a promise of
    the engine's own must have settled; anything else is the environment's
    to answer. *)
Definition ready {X : Type} (s : Engine) (w : World) (op : Op X) : option X :=
  match op in Op T return option T with
  | AwaitLoad p =>
      match nth_error (load_promises s) p with
      | Some (Some r) => Some r
      | _ => None
      end
  | AwaitSearch p =>
      match nth_error (search_promises s) p with
      | Some (Some r) => Some r
      | _ => None
      end
  | Tick => Some (w _ Tick)
  | Delay ms => Some (w _ (Delay ms))
  | GetModels m => Some (w _ (GetModels m))
  | Download m => Some (w _ (Download m))
  | Init m => Some (w _ (Init m))
  | Destroy m => Some (w _ (Destroy m))
  | Complete m prompt imagePath maxTokens =>
      Some (w _ (Complete m prompt imagePath maxTokens))
  | Reset m => Some (w _ (Reset m))
  | Embed m text => Some (w _ (Embed m text))
  | CreateResizedImage uri_ => Some (w _ (CreateResizedImage uri_))
  | CopyFile src dst => Some (w _ (CopyFile src dst))
  | Unlink path => Some (w _ (Unlink path))
  | ExtractText uri_ maxChars => Some (w _ (ExtractText uri_ maxChars))
  end.

Definition state_of {A : Type} (r : Res A) : Engine :=
  match r with
  | Done s _ => s
  | Fail s _ => s
  | Wait s _ _ => s
  | Spawn s _ _ _ => s
  end.

Inductive Outcome (A : Type) : Type :=
| Returned (s : Engine) (a : A)
| Threw (s : Engine) (e : Error)
| Blocked (s : Engine).
Arguments Returned {A} s a.
Arguments Threw {A} s e.
Arguments Blocked {A} s.

(** One call on its own, nothing else running: the [t]-th await is answered
    by [w t].  It blocks on a promise nobody is there to settle. *)
Fixpoint run {A : Type} (w : nat -> World) (t : nat) (r : Res A) : Outcome A :=
  match r with
  | Done s a => Returned s a
  | Fail s e => Threw s e
  | Wait s op k =>
      match ready s (w t) op with
      | Some x => run w (S t) (k x s)
      | None => Blocked s
      end
  | Spawn s _ _ _ => Blocked s
  end.

(** *** The event loop *)

(** A call in progress: a [search] whose outcome goes to [waiter] when it is
    one the coordinator started itself, or a call of another method. *)
Inductive Task : Type :=
| SearchTask (r : Res Results) (waiter : option PromiseRef)
| OtherTask (A : Type) (r : Res A).

Record System : Type := {
  engine : Engine;
  pool : list Task
}.

(** A step that ends by starting queued searches: each one runs at once up
    to its first await, then the step goes on. *)
Fixpoint advance {A : Type} (r : Res A) : Res A * list Task :=
  match r with
  | Spawn s q w k =>
      let child := search q s in
      let '(r', started) := advance (k (state_of child)) in
      (r', SearchTask child (Some w) :: started)
  | _ => (r, [])
  end.

Definition advance_task (t : Task) : Task * list Task :=
  match t with
  | SearchTask r waiter =>
      let '(r', started) := advance r in (SearchTask r' waiter, started)
  | OtherTask r =>
      let '(r', started) := advance r in (OtherTask r', started)
  end.

Definition task_state (t : Task) : Engine :=
  match t with
  | SearchTask r _ => state_of r
  | OtherTask r => state_of r
  end.

Definition resolve_search (p : PromiseRef) (r : Reply Results)
           (s : Engine) : Engine :=
  set_search_promises (update_nth p (fun _ => Some r) (search_promises s)) s.

(** [.then(next.resolve).catch(next.reject)] on a search that is over. *)
Definition deliver (s : Engine) (t : Task) : Engine :=
  match t with
  | SearchTask (Done _ v) (Some p) => resolve_search p (Resolved v) s
  | SearchTask (Fail _ e) (Some p) => resolve_search p (Rejected e) s
  | _ => s
  end.

Definition put_task (i : nat) (t : Task) (l : list Task) : list Task :=
  if (i <? List.length l)%nat then update_nth i (fun _ => t) l else l ++ [t].

(** Task [i] has run one step and stands at [t]. *)
Definition install (i : nat) (t : Task) (sys : System) : System :=
  let '(t', started) := advance_task t in
  {| engine := fold_left deliver (t' :: started) (task_state t');
     pool := put_task i t' (pool sys) ++ started |}.

(** What happens next: the application calls a public method, or the call
    [i] goes on from the await it stands at, the environment answering with
    [w].  These are the methods the application calls; [destroy], which it
    never calls, is not part of the loop. *)
Inductive Event : Type :=
| CallSearch (query : string)
| CallIndexFiles (files_ : list SelectedFile)
| CallInitialize
| CallGetAllFiles
| CallGetFileCount
| CallClearAll
| CallSetVisionModel (modelSlug : string)
| Resume (i : nat) (w : World).

(** A waiting computation resumed in state [s], when its await can go on. *)
Definition resume {A : Type} (r : Res A) (w : World) (s : Engine) : option (Res A) :=
  match r with
  | Wait _ op k =>
      match ready s w op with
      | Some x => Some (k x s)
      | None => None
      end
  | _ => None
  end.

Definition step (sys : System) (ev : Event) : option System :=
  match ev with
  | CallSearch query =>
      Some (install (List.length (pool sys))
                    (SearchTask (search query (engine sys)) None) sys)
  | CallIndexFiles files_ =>
      Some (install (List.length (pool sys))
                    (OtherTask (indexFiles files_ (engine sys))) sys)
  | CallInitialize =>
      Some (install (List.length (pool sys))
                    (OtherTask (initialize (engine sys))) sys)
  | CallGetAllFiles =>
      Some (install (List.length (pool sys))
                    (OtherTask (getAllFiles (engine sys))) sys)
  | CallGetFileCount =>
      Some (install (List.length (pool sys))
                    (OtherTask (getFileCount (engine sys))) sys)
  | CallClearAll =>
      Some (install (List.length (pool sys))
                    (OtherTask (clearAll (engine sys))) sys)
  | CallSetVisionModel modelSlug =>
      Some {| engine := setVisionModel modelSlug (engine sys); pool := pool sys |}
  | Resume i w =>
      match nth_error (pool sys) i with
      | Some (SearchTask r waiter) =>
          match resume r w (engine sys) with
          | Some r' => Some (install i (SearchTask r' waiter) sys)
          | None => None
          end
      | Some (OtherTask r) =>
          match resume r w (engine sys) with
          | Some r' => Some (install i (OtherTask r') sys)
          | None => None
          end
      | None => None
      end
  end.

Fixpoint exec (sys : System) (evs : list Event) : option System :=
  match evs with
  | [] => Some sys
  | ev :: rest =>
      match step sys ev with
      | Some sys' => exec sys' rest
      | None => None
      end
  end.

(** A new [MemoryEngine] over the database file [st]. *)
Definition new_engine (st : Store) (cache : string) (now : nat) : Engine :=
  {| db := false; visionModel := None; embeddingModel := None;
     isInitialized := false; embeddingModelLoading := false;
     embeddingModelLoadPromise := None; searchInProgress := false;
     searchQueue := []; selectedVisionModel := DEFAULT_VISION_MODEL;
     store := st; heap := []; load_promises := []; search_promises := [];
     reported := []; CachesDirectoryPath := cache; clock := now; trace := [] |}.

Definition boot (st : Store) (cache : string) (now : nat) : System :=
  {| engine := new_engine st cache now; pool := [] |}.

Definition reachable (st : Store) (cache : string) (now : nat) (sys : System) : Prop :=
  exists evs, exec (boot st cache now) evs = Some sys.

End EngineModel.

Arguments Done {N A} s a.
Arguments Fail {N A} s e.
Arguments Wait {N A} s {X} op k.
Arguments Spawn {N A} s query waiter k.
Arguments Returned {N A} s a.
Arguments Threw {N A} s e.
Arguments Blocked {N A} s.

Notation "x <- m ;; k" := (bind m (fun x => k))
  (at level 61, m at next level, right associativity).
Notation "m ;; k" := (bind m (fun _ => k))
  (at level 61, right associativity).

(* ================================================================== *)
(** ** Observing a run, and what every step of a computation keeps *)
(* ================================================================== *)

Section Observing.
Context {N : Type}.

(** An await of the run, with the answer it got. *)
Inductive Answered : Type :=
| Ans (X : Type) (op : @Op N X) (x : X).

(** The awaits of [run w t r], in order. *)
Fixpoint answers {A : Type} (w : nat -> World) (t : nat) (r : Res A)
  : list Answered :=
  match r with
  | Wait s op k =>
      match ready s (w t) op with
      | Some x => Ans op x :: answers w (S t) (k x s)
      | None => []
      end
  | _ => []
  end.

Definition final {A : Type} (o : @Outcome N A) : Engine :=
  match o with
  | Returned s _ => s
  | Threw s _ => s
  | Blocked s => s
  end.

(** [steps_in G okop s0 r]: the computation [r], entered in state [s0], only
    awaits operations in [okop], starts no queued search, and each of its
    atomic steps, from the state it is resumed in to the state it stops in,
    is in [G], however the state was changed while it waited. *)
Fixpoint steps_in {A : Type} (G : @Engine N -> @Engine N -> Prop)
         (okop : forall X : Type, @Op N X -> Prop)
         (s0 : Engine) (r : Res A) : Prop :=
  match r with
  | Done s _ => G s0 s
  | Fail s _ => G s0 s
  | Wait s op k => G s0 s /\ okop _ op /\ forall x s', steps_in G okop s' (k x s')
  | Spawn _ _ _ _ => False
  end.

Definition frame {A : Type} (G : @Engine N -> @Engine N -> Prop)
           (okop : forall X : Type, @Op N X -> Prop) (m : Async A) : Prop :=
  forall s, steps_in G okop s (m s).

(** Everything but [Embed] and the coordinator's own promises. *)
Definition lifecycle_op (X : Type) (op : @Op N X) : Prop :=
  match op with
  | Embed _ _ => False
  | AwaitSearch _ => False
  | _ => True
  end.

(** What the model lifecycle, the captioning phases and the progress
    reporter do to the state is allowed by [G], and what they await by
    [okop]. *)
Record Permits (G : @Engine N -> @Engine N -> Prop)
       (okop : forall X : Type, @Op N X -> Prop) : Prop := {
  permits_refl : forall s, G s s;
  permits_trans : forall a b c, G a b -> G b c -> G a c;
  permits_reported : forall v s, G s (set_reported v s);
  permits_heap : forall v s, G s (set_heap v s);
  permits_visionModel : forall v s, G s (set_visionModel v s);
  permits_embeddingModel : forall v s, G s (set_embeddingModel v s);
  permits_loading : forall v s, G s (set_embeddingModelLoading v s);
  permits_loadPromise : forall v s, G s (set_embeddingModelLoadPromise v s);
  permits_load_promises : forall v s, G s (set_load_promises v s);
  permits_initialize : forall s, G s (set_isInitialized true (set_db true s));
  permits_op : forall X (op : Op X), lifecycle_op op -> okop X op
}.

(** Every value the computation can return is in [P], whatever its awaits
    are answered and however the state is changed while it waits. *)
Fixpoint returns_only {A : Type} (P : A -> Prop) (r : @Res N A) : Prop :=
  match r with
  | Done _ a => P a
  | Fail _ _ => True
  | Wait _ _ k => forall x s', returns_only P (k x s')
  | Spawn _ _ _ k => forall s', returns_only P (k s')
  end.

(** The awaited operation of an answer is in [okop]. *)
Definition answered_in (okop : forall X : Type, @Op N X -> Prop) (a : Answered) : Prop :=
  match a with Ans op _ => okop _ op end.

(** The tables are as they were. *)
Definition keeps_store (s s' : @Engine N) : Prop := store s' = store s.
(** No constraint on a step, none on the awaited operations. *)
Definition any_step (s s' : @Engine N) : Prop := True.
Definition any_op (X : Type) (op : @Op N X) : Prop := True.

(** The awaits of [run w t r], in order, each with the state it was
    answered in. *)
Fixpoint awaits {A : Type} (w : nat -> World) (t : nat) (r : Res A)
  : list (@Engine N * Answered) :=
  match r with
  | Wait s op k =>
      match ready s (w t) op with
      | Some x => (s, Ans op x) :: awaits w (S t) (k x s)
      | None => []
      end
  | _ => []
  end.

(** An [embed] call the SDK rejected: the state it was awaited in, the
    model it was made on and the error. *)
Definition embed_rejection (a : @Engine N * Answered)
  : option (@Engine N * ModelRef * Error) :=
  match snd a with
  | Ans op x =>
      match op in Op T return T -> option (@Engine N * ModelRef * Error) with
      | Embed m _ =>
          fun r => match r with
                   | Rejected e => Some (fst a, m, e)
                   | Resolved _ => None
                   end
      | _ => fun _ => None
      end x
  end.

(** The rejected [embed] calls among the awaits of a run. *)
Definition rejected_embeds (l : list (@Engine N * Answered))
  : list (@Engine N * ModelRef * Error) :=
  flat_map (fun a => match embed_rejection a with Some x => [x] | None => [] end) l.

(** The model of a [destroy] call the SDK carried out. *)
Definition destroyed_model (a : Answered) : option ModelRef :=
  match a with
  | Ans op x =>
      match op in Op T return T -> option ModelRef with
      | Destroy m =>
          fun r => match r with
                   | Resolved _ => Some m
                   | Rejected _ => None
                   end
      | _ => fun _ => None
      end x
  end.

(** The models destroyed in a run, from its answers. *)
Definition destroyed_models (l : list Answered) : list ModelRef :=
  flat_map (fun a => match destroyed_model a with Some m => [m] | None => [] end) l.

(** The models [s] holds a handle on. *)
Definition holds (s : @Engine N) (m : ModelRef) : Prop :=
  visionModel s = Some m \/ embeddingModel s = Some m.

(** The object [m] of the heap, when there is one, has been destroyed. *)
Definition destroyed_in (h : list CactusLM) (m : ModelRef) : Prop :=
  forall c, nth_error h m = Some c -> destroyed c = true.

(** The SDK's [destroy] and [reset] do not fail. *)
Definition destroys_succeed (w : nat -> @World N) : Prop :=
  forall t m, w t _ (Destroy m) = Resolved tt.

Definition resets_succeed (w : nat -> @World N) : Prop :=
  forall t m, w t _ (Reset m) = Resolved tt.

(** What the [catch] block of [indexFiles] reports. *)
Definition error_progress (e : Error) : ProcessingProgress :=
  {| phase := error; current := 0; total := 0;
     message := ("Error: " ++ e)%string; percentage := 0 |}.

(** Copying into the cache does not fail. *)
Definition copies_succeed (w : nat -> @World N) : Prop :=
  forall t src dst, w t _ (CopyFile src dst) = Resolved tt.

(** Every embedding is computed. *)
Definition embeds_succeed (w : nat -> @World N) : Prop :=
  forall t m text, exists v, w t _ (Embed m text) = Resolved v.

(** Both models can be downloaded and initialised. *)
Definition models_load (w : nat -> @World N) : Prop :=
  forall t m, snd (w t _ (Download m)) = Resolved tt /\ w t _ (Init m) = Resolved tt.

(** The path [indexFiles] hands to the vision model for the image [file],
    the resizer having answered [resized]: that of the resized copy, or of
    the file itself when resizing failed; a path that is not one of the file
    system is that of a copy in the cache directory, named after the clock
    and the file. *)
Definition image_path (resized : Reply string) (cache : string) (now : nat)
           (file : SelectedFile) : string :=
  let resizedUri :=
    match resized with
    | Resolved path => path
    | Rejected _ => sel_uri file
    end in
  if Js.startsWith resizedUri "/" || Js.startsWith resizedUri "file://"
  then Js.replace_first "file://" "" resizedUri
  else (cache ++ "/" ++ show now ++ "_" ++ sel_name file)%string.

(** The caption of an image, the vision model having answered [answer] for
    [imagePath]: the answer, trimmed and without its end markers, or, when
    the model rejected the call, "Image file: " followed by the last segment
    of [imagePath], "unknown" standing for an empty one. *)
Definition image_caption (answer : Reply string) (imagePath : string) : string :=
  match answer with
  | Resolved response =>
      Js.trim (Js.replace_all "<|im_end|>" "" (Js.trim response))
  | Rejected _ =>
      ("Image file: "
       ++ Js.or_else (last (Js.split_char "/" imagePath) "") "unknown")%string
  end.

(** The caption of the document [file], the extractor having answered
    [extracted]: its name and the text extracted from it when that is longer
    than 20 characters, its name alone otherwise. *)
Definition document_caption (extracted : Reply string) (file : SelectedFile) : string :=
  match extracted with
  | Resolved extractedText =>
      if (20 <? String.length extractedText)%nat
      then ("PDF: " ++ pdf_clean_name file ++ ". Content: " ++ extractedText)%string
      else ("PDF document: " ++ pdf_clean_name file)%string
  | Rejected _ => ("PDF document: " ++ pdf_clean_name file)%string
  end.

(** [c] is the caption of the image [file] in a run whose awaits were
    answered as [l] says, the vision model being [m]: the run has asked the
    resizer for the uri of that file and the vision model for the path of
    that file, and [c] is made of the answer it got. *)
Definition image_captioned (l : list Answered) (m : ModelRef) (cache : string)
           (now : nat) (file : SelectedFile) (c : string) : Prop :=
  exists resized answer,
    In (Ans (CreateResizedImage (sel_uri file)) resized) l
    /\ In (Ans (Complete m VISION_CAPTION_PROMPT (image_path resized cache now file)
                         VISION_MAX_TOKENS) answer) l
    /\ c = image_caption answer (image_path resized cache now file).

Definition document_captioned (l : list Answered) (file : SelectedFile)
           (c : string) : Prop :=
  exists extracted,
    In (Ans (ExtractText (sel_uri file) PDF_MAX_CHARS) extracted) l
    /\ c = document_caption extracted file.

(** [c] is the caption of a file of a batch. *)
Definition captioned (l : list Answered) (m : ModelRef) (cache : string) (now : nat)
           (file : SelectedFile) (c : string) : Prop :=
  match sel_type file with
  | image => image_captioned l m cache now file c
  | pdf => document_captioned l file c
  end.

(** [s'] is [s] but for the progress reports, the heap and the two model
    handles. *)
Definition models_apart (s s' : @Engine N) : Prop :=
  db s' = db s /\ store s' = store s /\ clock s' = clock s
  /\ CachesDirectoryPath s' = CachesDirectoryPath s
  /\ embeddingModelLoading s' = embeddingModelLoading s
  /\ selectedVisionModel s' = selectedVisionModel s
  /\ List.length (heap s') >= List.length (heap s).

(** What [indexFiles] reports when it starts to save [n] items, and when it
    is done with a batch of [n] files. *)
Definition saving_progress (n : nat) : ProcessingProgress :=
  {| phase := saving; current := 0; total := n;
     message := "Saving to database..."; percentage := percent 0 n |}.

Definition complete_progress (n : nat) : ProcessingProgress :=
  {| phase := complete; current := n; total := n;
     message := (show n ++ " files indexed")%string; percentage := percent n n |}.

(** The embedding model can be downloaded and initialised. *)
Definition embedder_loads (w : nat -> @World N) : Prop :=
  forall t m, snd (w t _ (Download m)) = Resolved tt /\ w t _ (Init m) = Resolved tt.

(** What the download callback of the embedding model reports. *)
Definition download_progress (pct : nat) : ProcessingProgress :=
  {| phase := loading_embedding; current := pct; total := 100;
     message := ("Downloading embedding model: " ++ show pct ++ "%")%string;
     percentage := percent pct 100 |}.

End Observing.

(* ================================================================== *)
(** ** The specification's vocabulary, over the reals *)
(* ================================================================== *)

(** The sum of a list of reals. *)
Definition sum_list (l : list R) : R := fold_right Rplus 0%R l.

Definition dot_product (a b : list R) : R :=
  sum_list (map (fun p => (fst p * snd p)%R) (combine a b)).

Definition euclidean_norm (a : list R) : R :=
  R_sqrt.sqrt (sum_list (map (fun x => (x * x)%R) a)).

(** Cosine similarity, as the specification names it. *)
Definition cosine_similarity (a b : list R) : R :=
  (dot_product a b / (euclidean_norm a * euclidean_norm b))%R.

(** Keyword overlap, in the specification's words: the fraction of the
    whitespace-separated, case-folded query tokens longer than two code units
    that occur in the case-folded text, and 0 when there is no such token. *)
Definition keyword_overlap (query text : string) : R :=
  let tokens :=
    filter (fun w => (2 <? String.length w)%nat)
           (Js.split_ws (Js.toLowerCase query)) in
  match tokens with
  | [] => 0%R
  | _ =>
      (INR (List.length (filter (Js.includes (Js.toLowerCase text)) tokens))
       / INR (List.length tokens))%R
  end.

(** Results in non-increasing order of similarity. *)
Definition sorted_by_similarity (l : list (@SearchResult R)) : Prop :=
  StronglySorted (fun a b => (similarity b <= similarity a)%R) l.

(** The results whose similarity is exactly [v], in the order they have. *)
Definition with_similarity (v : R) (l : list (@SearchResult R))
  : list (@SearchResult R) :=
  filter (fun r => if Req_dec_T (similarity r) v then true else false) l.

(** The text [keywordScore] matches the query against in the caption
    column: the caption, or the empty string for [null]. *)
Definition caption_text (row : @Row R) : string :=
  match caption (row_file row) with
  | Some c => c
  | None => ""
  end.

(* ================================================================== *)
(** ** The coordinator's protocol, read off the trace *)
(* ================================================================== *)

(** What a trace of the coordinator says: the query whose [executeSearch] is
    running, the call in the pending slot, the query handed over whose
    [executeSearch] has yet to begin, the promises of the calls the slot has
    lost to a later call, and those of the calls handed over. *)
Record Watch : Type := {
  running : option string;
  pending : option QueuedSearch;
  starting : option string;
  superseded : list PromiseRef;
  dispatched : list PromiseRef
}.

(** Nothing has happened yet. *)
Definition at_rest : Watch :=
  {| running := None; pending := None; starting := None;
     superseded := []; dispatched := [] |}.

Definition same_entry (x : QueuedSearch) (q : string) (p : PromiseRef) : bool :=
  String.eqb (q_query x) q && Nat.eqb (q_promise x) p.

(** One event of the trace; [None] when the protocol does not allow it: an
    [executeSearch] begins only when none runs, and then either for the
    query just handed over or with the slot empty; it ends the one that
    runs; a call is handed over only when nothing runs and it is the entry
    of the slot; a call that is queued takes the slot, and the entry it
    finds there is superseded. *)
Definition observe (m : Watch) (ev : TraceEvent) : option Watch :=
  match ev with
  | Queued q p =>
      match starting m with
      | Some _ => None
      | None =>
          Some {| running := running m;
                  pending := Some {| q_query := q; q_promise := p |};
                  starting := None;
                  superseded :=
                    match pending m with
                    | Some old => q_promise old :: superseded m
                    | None => superseded m
                    end;
                  dispatched := dispatched m |}
      end
  | Dispatched q p =>
      match running m, starting m, pending m with
      | None, None, Some x =>
          if same_entry x q p then
            Some {| running := None; pending := None; starting := Some q;
                    superseded := superseded m;
                    dispatched := p :: dispatched m |}
          else None
      | _, _, _ => None
      end
  | ExecBegin q =>
      match running m, starting m, pending m with
      | None, Some q', _ =>
          if String.eqb q' q then
            Some {| running := Some q; pending := pending m; starting := None;
                    superseded := superseded m; dispatched := dispatched m |}
          else None
      | None, None, None =>
          Some {| running := Some q; pending := None; starting := None;
                  superseded := superseded m; dispatched := dispatched m |}
      | _, _, _ => None
      end
  | ExecEnd q =>
      match running m, starting m with
      | Some q', None =>
          if String.eqb q' q then
            Some {| running := None; pending := pending m; starting := None;
                    superseded := superseded m; dispatched := dispatched m |}
          else None
      | _, _ => None
      end
  end.

(** What the whole trace says, when the protocol allows every event of it. *)
Definition watch (tr : list TraceEvent) : option Watch :=
  fold_left (fun om ev => match om with Some m => observe m ev | None => None end)
            tr (Some at_rest).


Section Coordinating.
Context {N : Type} {num : Number N}.

(** What everything but the coordinator leaves alone. *)
Definition coordinator_kept (s s' : @Engine N) : Prop :=
  searchInProgress s' = searchInProgress s
  /\ searchQueue s' = searchQueue s
  /\ trace s' = trace s
  /\ search_promises s' = search_promises s
  /\ (db s = true -> db s' = true).

(** The promise of a queued call is awaited by that call only. *)
Definition no_search_promise (X : Type) (op : @Op N X) : Prop :=
  match op with
  | AwaitSearch _ => False
  | _ => True
  end.

(** [search] around the [try] block of [executeSearch], which stands at [r]. *)
Definition around_rows (query : string) (r : @Res N (@Results N))
  : @Res N (@Results N) :=
  finally_res
    (bind_res
       (catch_res
          (bind_res
             (bind_res (catch_res r (fun _ => ret []))
                       (fun results => log (ExecEnd query) ;; ret results))
             (fun a => ret (Resolved a)))
          (fun e => ret (Rejected e)))
       (fun r => await Tick ;; settle r))
    search_finally.

(** The [finally] block of [search], then its return. *)
Definition release (v : @Results N) : @Async N (@Results N) :=
  search_finally ;; ret v.

(** The stage a call in progress is at: a call of another method; a
    [search] opening the database; one parked in the slot; one whose
    [executeSearch] runs; one about to run its [finally] block; one that is
    over. *)
Inductive Kind : Type :=
| KOther
| KInit (query : string)
| KParked
| KExec (query : string)
| KRelease
| KOver.

(** The stages at which a call holds the lock [searchInProgress]. *)
Definition held (k : Kind) : bool :=
  match k with
  | KExec _ | KRelease => true
  | _ => false
  end.

Definition is_wait {A : Type} (r : @Res N A) : Prop :=
  match r with Wait _ _ _ => True | _ => False end.

Definition is_over {A : Type} (r : @Res N A) : Prop :=
  match r with Done _ _ | Fail _ _ => True | _ => False end.

(** A result list is the ranking of some scored rows. *)
Definition ranked (v : @Results N) : Prop :=
  exists query queryEmbedding rows, v = rank query queryEmbedding rows.

Definition reply_ranked (x : Reply (@Results N)) : Prop :=
  match x with
  | Resolved v => ranked v
  | Rejected _ => True
  end.

(** A call that is over, with a ranking when it has returned. *)
Definition over_ranked (r : @Res N (@Results N)) : Prop :=
  match r with
  | Done _ v => ranked v
  | Fail _ _ => True
  | _ => False
  end.

(** What a task at stage [k] does when it is resumed. *)
Definition classify (k : Kind) (t : @Task N) : Prop :=
  match k, t with
  | KOther, OtherTask r => exists s0, steps_in coordinator_kept no_search_promise s0 r
  | KInit query, SearchTask r _ =>
      is_wait r /\ forall w s, resume r w s = Some (search_gate query s)
  | KParked, SearchTask r _ =>
      is_wait r
      /\ exists p, forall w s,
          resume r w s =
          match nth_error (search_promises s) p with
          | Some (Some x) => Some (settle x s)
          | _ => None
          end
  | KExec query, SearchTask r _ =>
      exists s0 r1, steps_in coordinator_kept no_search_promise s0 r1
                    /\ returns_only ranked r1
                    /\ is_wait r1 /\ r = around_rows query r1
  | KRelease, SearchTask r _ =>
      is_wait r
      /\ exists v, ranked v /\ forall w s, resume r w s = Some (release v s)
  | KOver, SearchTask r _ => over_ranked r
  | _, _ => False
  end.

(** The state a call is parked in, and the one the lock is taken in. *)
Definition parked (query : string) (s : @Engine N) : Engine :=
  set_trace (trace s ++ [Queued query (List.length (search_promises s))])
    (set_searchQueue [ {| q_query := query;
                          q_promise := List.length (search_promises s) |} ]
       (set_search_promises (search_promises s ++ [None]) s)).

Definition acquired (query : string) (s : @Engine N) : Engine :=
  set_trace (trace s ++ [ExecBegin query]) (set_searchInProgress true s).

Definition ended (query : string) (s : @Engine N) : Engine :=
  set_trace (trace s ++ [ExecEnd query]) s.

(** The stages that hold the lock, for the lock and the running query. *)
Definition lock_view (locked : bool) (run : option string) : list Kind :=
  match run with
  | Some query => [KExec query]
  | None => if locked then [KRelease] else []
  end.

(** The queue the trace accounts for. *)
Definition slot (m : Watch) : list QueuedSearch :=
  match pending m with
  | Some x => [x]
  | None => []
  end.

(** The promises of the coordinator: those in the slot or superseded are
    allocated and were never handed over, and a settled one was, and holds a
    ranking when it is resolved. *)
Definition ledger (m : Watch) (ps : list (option (Reply (@Results N)))) : Prop :=
  (forall x, pending m = Some x ->
     Js.trim (q_query x) <> "" /\ q_promise x < List.length ps
     /\ ~ In (q_promise x) (superseded m) /\ ~ In (q_promise x) (dispatched m))
  /\ (forall p, In p (superseded m) -> p < List.length ps /\ ~ In p (dispatched m))
  /\ (forall p, In p (dispatched m) -> p < List.length ps)
  /\ (forall p r, nth_error ps p = Some (Some r) -> In p (dispatched m))
  /\ (forall p r, nth_error ps p = Some (Some r) -> reply_ranked r).

(** The states the [finally] block of [search] leaves. *)
Definition released (s : @Engine N) : Engine := set_searchInProgress false s.

Definition handed_over (x : QueuedSearch) (rest : list QueuedSearch)
           (s : @Engine N) : Engine :=
  set_trace (trace s ++ [Dispatched (q_query x) (q_promise x)])
    (set_searchQueue rest (set_searchInProgress false s)).

(** The engine and what its trace says agree. *)
Definition agrees (m : Watch) (st : option string) (s : @Engine N) : Prop :=
  watch (trace s) = Some m
  /\ starting m = st
  /\ searchQueue s = slot m
  /\ ledger m (search_promises s)
  /\ (searchInProgress s = false -> running m = None /\ pending m = None).

(** The promise a call is to settle is one of those handed over. *)
Definition known (disp : list PromiseRef) (waiter : option PromiseRef) : Prop :=
  match waiter with
  | Some p => In p disp
  | None => True
  end.

Definition waiter_known (disp : list PromiseRef) (t : @Task N) : Prop :=
  match t with
  | SearchTask _ waiter => known disp waiter
  | OtherTask _ => True
  end.

(** The calls in progress, each with the stage it is at: one of them holds
    the lock when it is taken, none when it is free. *)
Definition staged (run : option string) (disp : list PromiseRef) (locked : bool)
           (tagged : list (Kind * @Task N)) : Prop :=
  Forall (fun kt => classify (fst kt) (snd kt) /\ waiter_known disp (snd kt)) tagged
  /\ filter held (map fst tagged) = lock_view locked run.

(** The database is open once a call has been made. *)
Definition opened (tagged : list (Kind * @Task N)) (s : @Engine N) : Prop :=
  (tagged = [] -> isInitialized s = false) /\ (tagged <> [] -> db s = true).

(** The invariant of the event loop; [st] is the query handed over in the
    middle of a step, [None] between steps. *)
Definition coordinated_with (st : option string) (sys : @System N) : Prop :=
  exists m tagged,
    pool sys = map snd tagged
    /\ agrees m st (engine sys)
    /\ staged (running m) (dispatched m) (searchInProgress (engine sys)) tagged
    /\ opened tagged (engine sys).

Definition coordinated (sys : @System N) : Prop := coordinated_with None sys.

(** The trace of [sys'] goes on from that of [sys]. *)
Definition extends (sys sys' : @System N) : Prop :=
  exists ext, trace (engine sys') = trace (engine sys) ++ ext.

End Coordinating.

(* ================================================================== *)
(** ** Tables that agree *)
(* ================================================================== *)

Section StoreShape.
Context {N : Type}.

(** The two tables agree: the vector rows are those of the file rows, in the
    same order, an id is used once, and no id is above the AUTOINCREMENT
    counter. *)
Definition store_ok (st : @Store N) : Prop :=
  map fst (file_vectors st) = map id (files st)
  /\ NoDup (map id (files st))
  /\ Forall (fun i => i <= last_id st) (map id (files st)).

(** The row [saveFileToDatabase] writes for [embedded] at time [now] when
    the counter stands at [n]. *)
Definition saved_record (embedded : @EmbeddedFile N) (now n : nat) : FileRecord :=
  {| id := S n;
     uri := sel_uri (cf_file (ef_captioned embedded));
     filename := sel_name (cf_file (ef_captioned embedded));
     file_type := sel_type (cf_file (ef_captioned embedded));
     caption := Some (cf_caption (ef_captioned embedded));
     thumbnail := cf_thumbnail (ef_captioned embedded);
     created_at := now |}.

End StoreShape.

Section SavedRows.
Context {N : Type}.

(** The rows of [files] that saving [embeddedFiles] in order adds when the
    counter stands at [n]. *)
Fixpoint saved_records (now n : nat) (embeddedFiles : list (@EmbeddedFile N))
  : list FileRecord :=
  match embeddedFiles with
  | [] => []
  | embedded :: rest => saved_record embedded now n :: saved_records now (S n) rest
  end.

End SavedRows.

(* ================================================================== *)
(** ** What every call keeps, whatever the interleaving *)
(* ================================================================== *)

Section Upholding.
Context {N : Type}.

(** [upholds I r]: the computation [r] stops only in states that satisfy
    [I], as long as every state it is resumed in satisfies [I]. *)
Fixpoint upholds {A : Type} (I : @Engine N -> Prop) (r : @Res N A) : Prop :=
  match r with
  | Done s _ => I s
  | Fail s _ => I s
  | Wait s _ k => I s /\ forall x s', I s' -> upholds I (k x s')
  | Spawn s _ _ k => I s /\ forall s', I s' -> upholds I (k s')
  end.

Definition maintains {A : Type} (I : @Engine N -> Prop) (m : @Async N A) : Prop :=
  forall s, I s -> upholds I (m s).

Definition task_upholds (I : @Engine N -> Prop) (t : @Task N) : Prop :=
  match t with
  | SearchTask r _ => upholds I r
  | OtherTask r => upholds I r
  end.

(** A property of the tables, as a property of the engine. *)
Definition on_store (P : @Store N -> Prop) (s : @Engine N) : Prop := P (store s).

(** The engine satisfies [I], and so will every call in progress. *)
Definition system_upholds (I : @Engine N -> Prop) (sys : @System N) : Prop :=
  I (engine sys) /\ Forall (task_upholds I) (pool sys).

End Upholding.

(* ================================================================== *)
(** ** Observations of a model load *)
(* ================================================================== *)

Section Listing.
Context {N : Type}.

(** [models.find(m => m.slug === modelToLoad)?.isDownloaded], on what
    [getModels] answered. *)
Definition listed_as_downloaded (modelToLoad : string) (r : Reply (list ModelInfo)) : bool :=
  match r with
  | Resolved models =>
      match find (fun i => String.eqb (slug i) modelToLoad) models with
      | Some visionModelInfo => isDownloaded visionModelInfo
      | None => false
      end
  | Rejected _ => false
  end.

(** The answered await was a [download]. *)
Definition is_download (a : @Answered N) : bool :=
  match a with
  | Ans op _ => match op with Download _ => true | _ => false end
  end.

(** A [CactusLM] object as its constructor makes it. *)
Definition constructed (model_ : string) (contextSize_ : nat) : CactusLM :=
  {| model := model_; contextSize := contextSize_;
     initialized := false; destroyed := false |}.

End Listing.

(* ================================================================== *)
(** ** [destroy], which the application does not call *)
(* ================================================================== *)

Section Destroying.
Context {N : Type}.

Definition destroy : @Async N unit :=
  await_async unloadVisionModel ;;
  await_async unloadEmbeddingModel ;;
  modify (fun s => if db s then set_db false s else s) ;;
  modify (set_isInitialized false).

End Destroying.

(* ================================================================== *)
(** ** Picking and validating files ([src/services/FileProcessor.ts]) *)
(* ================================================================== *)

Definition MAX_FILES : nat := 50.
Definition SUPPORTED_IMAGE_TYPES : list string :=
  ["image/jpeg"; "image/png"; "image/webp"; "image/jpg"].
Definition SUPPORTED_PDF_TYPES : list string := ["application/pdf"].

(** [array.includes(x)] on an array of strings. *)
Definition array_includes (array : list string) (x : string) : bool :=
  existsb (String.eqb x) array.

(** What the document picker gives for one document; [name], [fileCopyUri],
    [type] and [size] may be [null]. *)
Record DocumentPickerResponse : Type := {
  doc_uri : string;
  doc_name : option string;
  doc_fileCopyUri : option string;
  doc_type : option string;
  doc_size : option nat
}.

Definition getFileType (mimeType : string) : option FileType :=
  if array_includes SUPPORTED_IMAGE_TYPES mimeType then Some image
  else if array_includes SUPPORTED_PDF_TYPES mimeType then Some pdf
  else None.

Definition toSelectedFile (doc : DocumentPickerResponse) : option SelectedFile :=
  let mimeType := Js.opt_or_else (doc_type doc) "" in
  match getFileType mimeType with
  | None => None
  | Some fileType =>
      Some {| sel_uri := doc_uri doc;
              sel_name := Js.opt_or_else (doc_name doc) "unknown";
              sel_type := fileType;
              sel_mimeType := mimeType;
              sel_size := match doc_size doc with Some n => n | None => 0 end |}
  end.

(** [{ ...doc, uri }] with [uri = doc.fileCopyUri || doc.uri]. *)
Definition with_copy_uri (doc : DocumentPickerResponse) : DocumentPickerResponse :=
  {| doc_uri := Js.opt_or_else (doc_fileCopyUri doc) (doc_uri doc);
     doc_name := doc_name doc;
     doc_fileCopyUri := doc_fileCopyUri doc;
     doc_type := doc_type doc;
     doc_size := doc_size doc |}.

(** The loop of [pickFiles] over the picked documents, with its [break]. *)
Fixpoint pick_loop (results : list DocumentPickerResponse)
         (selectedFiles : list SelectedFile) : list SelectedFile :=
  match results with
  | [] => selectedFiles
  | doc :: rest =>
      let selectedFiles' :=
        match toSelectedFile (with_copy_uri doc) with
        | Some selected => selectedFiles ++ [selected]
        | None => selectedFiles
        end in
      if (MAX_FILES <=? List.length selectedFiles')%nat then selectedFiles'
      else pick_loop rest selectedFiles'
  end.

(** [pickFiles], as a function of how the promise of [DocumentPicker.pick]
    settles; [isCancel] is [DocumentPicker.isCancel]. *)
Definition pickFiles (isCancel : Error -> bool)
           (picked : Reply (list DocumentPickerResponse)) : Reply (list SelectedFile) :=
  match picked with
  | Resolved results => Resolved (pick_loop results [])
  | Rejected err => if isCancel err then Resolved [] else Rejected err
  end.

Record Validation : Type := {
  valid : bool;
  errors : list string
}.

Definition validateFiles (files_ : list SelectedFile) : Validation :=
  let errors0 : list string := [] in
  let errors1 :=
    if (List.length files_ =? 0)%nat then errors0 ++ ["No files selected"] else errors0 in
  let errors2 :=
    if (MAX_FILES <? List.length files_)%nat
    then errors1 ++ [("Maximum " ++ show MAX_FILES ++ " files allowed")%string]
    else errors1 in
  let unsupported :=
    filter (fun f => negb (existsb (FileType_eqb (sel_type f)) [image; pdf])) files_ in
  let errors3 :=
    if (0 <? List.length unsupported)%nat
    then errors2 ++ [(show (List.length unsupported) ++ " unsupported file(s) detected")%string]
    else errors2 in
  {| valid := (List.length errors3 =? 0)%nat; errors := errors3 |}.

(** The picked documents that [toSelectedFile] accepts, converted. *)
Definition supported (results : list DocumentPickerResponse) : list SelectedFile :=
  flat_map (fun doc => match toSelectedFile (with_copy_uri doc) with
                       | Some selected => [selected]
                       | None => []
                       end) results.

(* ================================================================== *)
(** ** Concrete inputs *)
(* ================================================================== *)

(** A stored image whose embedding is [v]; its caption and file name share no
    word with the query "sunset". *)
Definition dog_row {N : Type} (v : list N) : @Row N :=
  {| row_file := {| id := 1; uri := "/pictures/x.jpg"; filename := "x.jpg";
                    file_type := image; caption := Some "a dog";
                    thumbnail := None; created_at := 0 |};
     row_embedding := v |}.

(** An environment in which every operation succeeds: nothing is downloaded
    yet, the captioner answers "a red bicycle", no text is extracted and
    every embedding is the empty vector. *)
Definition quiet_world {N : Type} : @World N :=
  fun X op =>
    match op in Op T return T with
    | Tick => tt
    | Delay _ => tt
    | GetModels _ => Resolved []
    | Download _ => ([], Resolved tt)
    | Init _ => Resolved tt
    | Destroy _ => Resolved tt
    | Complete _ _ _ _ => Resolved "a red bicycle"
    | Reset _ => Resolved tt
    | Embed _ _ => Resolved []
    | CreateResizedImage _ => Resolved "/cache/resized.jpg"
    | CopyFile _ _ => Resolved tt
    | Unlink _ => Resolved tt
    | ExtractText _ _ => Resolved ""
    | AwaitLoad _ => Resolved tt
    | AwaitSearch _ => Resolved []
    end.

(** The same, but the captioner rejects every call. *)
Definition captioner_fails {N : Type} : @World N :=
  fun X op =>
    match op in Op T return T -> T with
    | Complete _ _ _ _ => fun _ => Rejected "Error: completion failed"
    | _ => fun x => x
    end (quiet_world op).

(** The same, but the embedder rejects the text [text]. *)
Definition embed_fails_on {N : Type} (text : string) : @World N :=
  fun X op =>
    match op in Op T return T -> T with
    | Embed _ t =>
        fun x => if String.eqb t text then Rejected "Error: embedding failed" else x
    | _ => fun x => x
    end (quiet_world op).

(** The world [w], but the SDK rejects every [destroy]. *)
Definition destroy_fails {N : Type} (w : @World N) : @World N :=
  fun X op =>
    match op in Op T return T -> T with
    | Destroy _ => fun _ => Rejected "Error: destroy failed"
    | _ => fun x => x
    end (w X op).

(** The world [w], but the SDK rejects every [reset]. *)
Definition reset_fails {N : Type} (w : @World N) : @World N :=
  fun X op =>
    match op in Op T return T -> T with
    | Reset _ => fun _ => Rejected "Error: reset failed"
    | _ => fun x => x
    end (w X op).

Definition empty_store {N : Type} : @Store N :=
  {| files := []; file_vectors := []; last_id := 0 |}.

(** An engine that has loaded its vision model. *)
Definition vision_loaded : @Engine float :=
  set_heap [ {| model := DEFAULT_VISION_MODEL; contextSize := CONTEXT_SIZE;
                initialized := true; destroyed := false |} ]
    (set_visionModel (Some 0)
       (set_isInitialized true (set_db true (new_engine empty_store "/cache" 0)))).

Definition document (name_ : string) : SelectedFile :=
  {| sel_uri := ("/documents/" ++ name_)%string; sel_name := name_;
     sel_type := pdf; sel_mimeType := "application/pdf"; sel_size := 1000 |}.

Definition picture (name_ : string) : SelectedFile :=
  {| sel_uri := ("content://media/" ++ name_)%string; sel_name := name_;
     sel_type := image; sel_mimeType := "image/jpeg"; sel_size := 1000 |}.

(** The same, but every embedding is the vector [[1]]. *)
Definition unit_embedder : @World float :=
  fun X op =>
    match op in Op T return T -> T with
    | Embed _ _ => fun _ => Resolved [1%float]
    | _ => fun x => x
    end (quiet_world op).

(** A database that holds [dog_row [-1]]. *)
Definition dog_store : @Store float :=
  {| files := [row_file (dog_row (@nil float))];
     file_vectors := [(1, [(-1)%float])];
     last_id := 1 |}.

(** Four stored pictures, all with the empty embedding. *)
Definition pet (n : nat) (name_ caption_ : string) : FileRecord :=
  {| id := n; uri := ("/pictures/" ++ name_)%string; filename := name_;
     file_type := image; caption := Some caption_; thumbnail := None;
     created_at := 0 |}.

Definition pets : @Store float :=
  {| files := [pet 1 "a.jpg" "a cat"; pet 2 "b.jpg" "a dog";
               pet 3 "c.jpg" "a cat asleep"; pet 4 "cat.jpg" "a white cat"];
     file_vectors := [(1, []); (2, []); (3, []); (4, [])];
     last_id := 4 |}.

(** A search, and two more calls while it runs. *)
Definition three_calls : list (@Event float) :=
  [CallSearch "cat"; Resume 0 quiet_world; CallSearch "dog"; CallSearch "cat"].

(** The same, up to the point where the [executeSearch] of the first
    search is over and its [finally] block has yet to run. *)
Definition first_cat_over : list (@Event float) :=
  three_calls ++ repeat (Resume 0 quiet_world) 6.

(** The first search goes to its end, then the one handed over. *)
Definition queued_cat_runs : list (@Event float) :=
  repeat (Resume 0 quiet_world) 7 ++ repeat (Resume 3 quiet_world) 3
  ++ [Resume 2 quiet_world].

Definition is_some {A : Type} (o : option A) : bool :=
  match o with Some _ => true | None => false end.

(** The model behind a handle is initialized and not destroyed. *)
Definition resident {N : Type} (s : @Engine N) (o : option ModelRef) : bool :=
  match o with
  | Some m =>
      match nth_error (heap s) m with
      | Some c => initialized c && negb (destroyed c)
      | None => false
      end
  | None => false
  end.

(** The [embed] call a task waits for: the model and the text. *)
Definition awaited_embed {N : Type} (t : @Task N) : option (ModelRef * string) :=
  match t with
  | OtherTask (Wait _ op _) | SearchTask (Wait _ op _) _ =>
      match op with
      | Embed m text => Some (m, text)
      | _ => None
      end
  | _ => None
  end.

(** A picture being captioned when a search is called. *)
Definition picture_then_search : list (@Event float) :=
  [CallIndexFiles [picture "a.jpg"]; Resume 0 quiet_world; CallSearch "cat"]
  ++ repeat (Resume 0 quiet_world) 3 ++ repeat (Resume 1 quiet_world) 2.

(** A search loading the embedder when a document is indexed. *)
Definition search_then_document : list (@Event float) :=
  [CallSearch "cat"; Resume 0 quiet_world; CallIndexFiles [document "a.pdf"]]
  ++ repeat (Resume 1 quiet_world) 4.

(** A document with its caption and its vector, ready to be saved. *)
Definition embedded_document : @EmbeddedFile float :=
  {| ef_captioned := {| cf_file := document "a.pdf";
                        cf_caption := "PDF document: a";
                        cf_thumbnail := None |};
     ef_embedding := [1%float] |}.

(** Engines whose database is open: over no rows, and over the four
    pictures. *)
Definition open_engine : @Engine float :=
  set_isInitialized true (set_db true (new_engine empty_store "/cache" 0)).

Definition pets_open : @Engine float :=
  set_isInitialized true (set_db true (new_engine pets "/cache" 0)).

(** The same with the embedding model resident. *)
Definition pets_ready : @Engine float :=
  set_heap [ {| model := EMBEDDING_MODEL; contextSize := EMBEDDING_CONTEXT_SIZE;
                initialized := true; destroyed := false |} ]
    (set_embeddingModel (Some 0) pets_open).

(** The world [w], but every image is resized into the file [path]. *)
Definition resized_into {N : Type} (path : string) (w : @World N) : @World N :=
  fun X op =>
    match op in Op T return T -> T with
    | CreateResizedImage _ => fun _ => Resolved path
    | _ => fun x => x
    end (w X op).

(** Two pictures around a document. *)
Definition two_pictures_and_a_document : list SelectedFile :=
  [picture "a.jpg"; document "c.pdf"; picture "b.jpg"].

(** Three documents, and the state the engine is in when the embedding of
    the second one is rejected. *)
Definition three_documents : list SelectedFile :=
  [document "a.pdf"; document "b.pdf"; document "c.pdf"].

Definition second_rejected : @Engine float :=
  Eval vm_compute in
    match rejected_embeds
            (awaits (fun _ => embed_fails_on "PDF document: b") 0
                    (indexFiles three_documents (new_engine empty_store "/cache" 0)))
    with
    | (s2, _, _) :: _ => s2
    | [] => new_engine empty_store "/cache" 0
    end.

(** A batch of two documents, [clearAll] being called when the first one is
    saved and the second one is not. *)
Definition clear_during_batch : list (@Event float) :=
  [CallIndexFiles [document "a.pdf"; document "b.pdf"]]
  ++ repeat (Resume 0 quiet_world) 16 ++ [CallClearAll]
  ++ repeat (Resume 0 quiet_world) 2.

(* ================================================================== *)
(** * Properties *)
(* ================================================================== *)

Example split_ws_leading : Js.split_ws "  red  bicycle " = [""; "red"; "bicycle"; ""].
Proof. reflexivity. Qed.

Example split_char_path : Js.split_char "/" "/cache/a.jpg" = [""; "cache"; "a.jpg"].
Proof. reflexivity. Qed.

Example replace_all_end_marker :
  Js.replace_all "<|im_end|>" "" "a cat<|im_end|> sits<|im_end|>" = "a cat sits".
Proof. reflexivity. Qed.

Example strip_pdf_suffix_ex : Js.strip_pdf_suffix "tax_2024.PDF" = "tax_2024".
Proof. reflexivity. Qed.

Example strip_extension_ex : Js.strip_extension "a.b.jpeg" = "a.b".
Proof. reflexivity. Qed.

Example trim_ex : Js.trim "  a b  " = "a b".
Proof. reflexivity. Qed.

(** Percentages as [reportProgress] rounds them: 23 of 40 is 57.49999999999999
    in binary64, and 29 of 200 is 14.499999999999998. *)
Example percent_in_binary64 :
  map (fun p => percent (fst p) (snd p))
      [(0, 0); (0, 5); (1, 2); (1, 3); (2, 3); (23, 40); (29, 200); (1, 200); (7, 7)]
  = [0; 0; 50; 33; 67; 57; 14; 1; 100].
Proof. vm_compute. reflexivity. Qed.

(* ------------------------------------------------------------------ *)
(** ** Scoring *)
(* ------------------------------------------------------------------ *)

Section ScoringFacts.
Local Open Scope R_scope.

(** Inside the arrays, [a[i + 1]] of [x :: a] is [a[i]]. *)
Lemma cosine_step_shift (x y : R) (a b : list R) (n k : nat) (acc : R * R * R) :
  fold_left (cosine_step (x :: a) (y :: b)) (seq (S k) n) acc
  = fold_left (cosine_step a b) (seq k n) acc.
Proof.
  revert k acc. induction n as [|n IH]; intros k acc; [reflexivity|].
  cbn [seq fold_left]. rewrite IH. f_equal.
Qed.

(** The loop of [cosineSimilarity] adds the dot product and the two sums of
    squares to its three accumulators. *)
Lemma cosine_loop_sums (a : list R) :
  forall (b : list R) (d na nb : R),
    List.length a = List.length b ->
    fold_left (cosine_step a b) (seq 0 (List.length a)) (d, na, nb)
    = (d + dot_product a b,
       na + sum_list (map (fun x => x * x) a),
       nb + sum_list (map (fun x => x * x) b)).
Proof.
  induction a as [|x a IH]; intros [|y b] d na nb Hlen; try discriminate.
  - clear Hlen. cbn. f_equal; [f_equal|]; lra.
  - cbn [List.length seq fold_left].
    rewrite cosine_step_shift.
    injection Hlen as Hlen.
    unfold cosine_step at 2. unfold at_index. cbn [nth num_add num_mul Real].
    rewrite IH by assumption. clear IH Hlen.
    unfold dot_product, sum_list. cbn [combine map fold_right fst snd].
    f_equal; [f_equal|]; lra.
Qed.

Lemma cosineSimilarity_mismatch (a b : list R) :
  List.length a <> List.length b -> cosineSimilarity a b = 0.
Proof.
  intros H. unfold cosineSimilarity.
  apply Nat.eqb_neq in H. rewrite H. reflexivity.
Qed.

Lemma cosineSimilarity_cosine (a b : list R) :
  List.length a = List.length b ->
  euclidean_norm a * euclidean_norm b <> 0 ->
  cosineSimilarity a b = cosine_similarity a b.
Proof.
  intros Hlen Hnz. unfold cosineSimilarity.
  rewrite (proj2 (Nat.eqb_eq _ _) Hlen). cbn [negb].
  change (of_nat 0) with 0.
  rewrite (cosine_loop_sums a b 0 0 0 Hlen).
  rewrite !Rplus_0_l.
  cbn [num_is_zero num_sqrt num_mul num_div Real].
  fold (euclidean_norm a) (euclidean_norm b).
  destruct (Req_dec_T (euclidean_norm a * euclidean_norm b) 0) as [E|_];
    [contradiction|reflexivity].
Qed.

Lemma cosineSimilarity_degenerate (a b : list R) :
  List.length a = List.length b ->
  euclidean_norm a * euclidean_norm b = 0 ->
  cosineSimilarity a b = 0.
Proof.
  intros Hlen Hz. unfold cosineSimilarity.
  rewrite (proj2 (Nat.eqb_eq _ _) Hlen). cbn [negb].
  change (of_nat 0) with 0.
  rewrite (cosine_loop_sums a b 0 0 0 Hlen).
  rewrite !Rplus_0_l.
  cbn [num_is_zero num_sqrt num_mul num_div Real].
  fold (euclidean_norm a) (euclidean_norm b).
  destruct (Req_dec_T (euclidean_norm a * euclidean_norm b) 0) as [_|E];
    [reflexivity|contradiction].
Qed.

(** The counting loop of [keywordMatchScore] counts the words it keeps. *)
Lemma match_count_filter (text : string) (words : list string) (m : nat) :
  fold_left (fun m word => if Js.includes text word then S m else m) words m
  = (m + List.length (filter (Js.includes text) words))%nat.
Proof.
  revert m. induction words as [|w words IH]; intros m; cbn.
  - lia.
  - rewrite IH. destruct (Js.includes text w); cbn; lia.
Qed.

Lemma keywordMatchScore_overlap (query text : string) :
  keywordMatchScore query text = keyword_overlap query text.
Proof.
  unfold keywordMatchScore, keyword_overlap, query_words.
  destruct (filter _ (Js.split_ws (Js.toLowerCase query))) as [|w ws] eqn:E.
  - reflexivity.
  - cbn [List.length Nat.eqb].
    rewrite match_count_filter. reflexivity.
Qed.

End ScoringFacts.

Section ScoreFacts.
Local Open Scope R_scope.

Lemma or_else_empty (s : string) : Js.or_else s "" = s.
Proof. unfold Js.or_else. destruct (String.eqb_spec s ""); congruence. Qed.

Lemma weights_real :
  @semantic_weight R _ = 0.6 /\ @keyword_weight R _ = 0.4 /\ @display_boost R _ = 1.5.
Proof.
  unfold semantic_weight, keyword_weight, display_boost.
  cbn [num_div of_nat Real]. rewrite !INR_IZR_INZ.
  cbn [Z.of_nat Pos.of_succ_nat Pos.succ].
  repeat split; lra.
Qed.

Lemma hybridScore_real (query : string) (queryEmbedding : list R) (row : Row) :
  hybridScore query queryEmbedding row
  = 0.6 * semanticScore queryEmbedding row + 0.4 * keywordScore query row.
Proof.
  destruct weights_real as (Ws & Wk & _).
  unfold hybridScore. rewrite Ws, Wk. cbn [num_add num_mul Real]. lra.
Qed.

Lemma similarity_real (query : string) (queryEmbedding : list R) (row : Row) :
  similarity (score_row query queryEmbedding row)
  = Rmin 1 (1.5 * hybridScore query queryEmbedding row).
Proof.
  destruct weights_real as (_ & _ & Wb).
  unfold score_row. cbn [similarity]. rewrite Wb.
  cbn [num_min num_mul of_nat Real INR]. f_equal. lra.
Qed.

Lemma keywordScore_real (query : string) (row : Row) :
  keywordScore query row
  = Rmax (keyword_overlap query (caption_text row))
         (keyword_overlap query (filename (row_file row))).
Proof.
  unfold keywordScore. rewrite !keywordMatchScore_overlap.
  rewrite or_else_empty. unfold caption_text, Js.opt_or_else.
  destruct (caption (row_file row)); [rewrite or_else_empty|]; reflexivity.
Qed.

Lemma cosine_opposite : cosineSimilarity [1] [-1] = -1.
Proof.
  assert (Hn : euclidean_norm [1] * euclidean_norm [-1] = 1).
  { unfold euclidean_norm, sum_list. cbn [map fold_right].
    replace (1 * 1 + 0) with 1 by lra.
    replace (-1 * -1 + 0) with 1 by lra.
    rewrite sqrt_1. lra. }
  rewrite cosineSimilarity_cosine; [|reflexivity|lra].
  unfold cosine_similarity. rewrite Hn.
  unfold dot_product, sum_list. cbn [combine map fold_right fst snd]. lra.
Qed.

Lemma no_overlap_with_sunset (text : string) :
  Js.includes (Js.toLowerCase text) "sunset" = false ->
  keyword_overlap "sunset" text = 0.
Proof.
  intros H. unfold keyword_overlap.
  replace (filter _ (Js.split_ws (Js.toLowerCase "sunset"))) with ["sunset"%string]
    by (vm_compute; reflexivity).
  cbn [filter]. rewrite H. cbn [List.length INR]. lra.
Qed.

End ScoreFacts.

(* ------------------------------------------------------------------ *)
(** ** Ranking *)
(* ------------------------------------------------------------------ *)

Section RankingFacts.
Local Open Scope R_scope.

(** The comparison function is positive on [(a, b)] exactly when [a] is
    strictly less similar than [b]. *)
Lemma positive_comparison (a b : @SearchResult R) :
  (of_nat 0 <? by_similarity a b)%num = true <-> similarity a < similarity b.
Proof.
  unfold by_similarity. cbn [num_ltb num_sub of_nat Real INR].
  destruct (Rlt_dec 0 (similarity b - similarity a)); split; intros; try lra; try discriminate; reflexivity.
Qed.

Lemma insert_by_perm {A : Type} (cmp : A -> A -> R) (x : A) (l : list A) :
  Permutation (insert_by cmp x l) (x :: l).
Proof.
  induction l as [|y t IH]; cbn [insert_by]; [reflexivity|].
  destruct (_ <? _)%num; [|reflexivity].
  rewrite IH. apply perm_swap.
Qed.

Lemma sort_by_perm {A : Type} (cmp : A -> A -> R) (l : list A) :
  Permutation (sort_by cmp l) l.
Proof.
  induction l as [|x l IH]; cbn; [reflexivity|].
  rewrite insert_by_perm. now constructor.
Qed.

Lemma insert_sorted (x : SearchResult) (l : list SearchResult) :
  sorted_by_similarity l -> sorted_by_similarity (insert_by by_similarity x l).
Proof.
  unfold sorted_by_similarity.
  induction 1 as [|y t Ht IH Hy]; cbn [insert_by].
  - repeat constructor.
  - destruct (_ <? _)%num eqn:E.
    + apply positive_comparison in E. constructor; [exact IH|].
      rewrite (Forall_forall). intros z Hz.
      apply (Permutation_in _ (insert_by_perm by_similarity x t)) in Hz.
      destruct Hz as [<-|Hz]; [lra|].
      rewrite Forall_forall in Hy. now apply Hy.
    + assert (similarity y <= similarity x).
      { destruct (Rle_dec (similarity y) (similarity x)) as [|n]; [assumption|].
        assert (similarity x < similarity y) as L by lra.
        apply positive_comparison in L. congruence. }
      constructor; [now constructor|].
      constructor; [assumption|].
      rewrite Forall_forall in *. intros z Hz. specialize (Hy z Hz). lra.
Qed.

Lemma sort_sorted (l : list SearchResult) :
  sorted_by_similarity (sort_by by_similarity l).
Proof.
  induction l as [|x l IH]; cbn; [constructor|]. now apply insert_sorted.
Qed.

Lemma insert_stable (v : R) (x : SearchResult) (l : list SearchResult) :
  with_similarity v (insert_by by_similarity x l) = with_similarity v (x :: l).
Proof.
  induction l as [|y t IH]; cbn [insert_by]; [reflexivity|].
  destruct (_ <? _)%num eqn:E; [|reflexivity].
  apply positive_comparison in E.
  unfold with_similarity in *. cbn [filter] in *. rewrite IH.
  destruct (Req_dec_T (similarity x) v), (Req_dec_T (similarity y) v); try reflexivity.
  lra.
Qed.

Lemma sort_stable (v : R) (l : list SearchResult) :
  with_similarity v (sort_by by_similarity l) = with_similarity v l.
Proof.
  induction l as [|x l IH]; [reflexivity|].
  cbn [sort_by fold_right]. rewrite insert_stable.
  unfold with_similarity in *. cbn [filter]. fold (sort_by by_similarity l). now rewrite IH.
Qed.

Lemma firstn_sorted (n : nat) (l : list SearchResult) :
  sorted_by_similarity l -> sorted_by_similarity (firstn n l).
Proof.
  unfold sorted_by_similarity. intros H. revert n.
  induction H as [|y t Ht IH Hy]; intros [|n]; cbn; try constructor.
  - apply IH.
  - rewrite Forall_forall in *. intros z Hz. apply Hy.
    rewrite <- (firstn_skipn n t). apply in_or_app. now left.
Qed.

Lemma filter_firstn_prefix {A : Type} (f : A -> bool) (n : nat) (l : list A) :
  exists m, filter f (firstn n l) = firstn m (filter f l).
Proof.
  revert n. induction l as [|x l IH]; intros [|n]; cbn.
  - now exists 0%nat.
  - now exists 0%nat.
  - now exists 0%nat.
  - destruct (IH n) as [m Hm]. destruct (f x).
    + exists (S m). cbn. now rewrite Hm.
    + now exists m.
Qed.

Lemma rank_incl (query : string) (queryEmbedding : list R) (rows : list Row)
      (r : SearchResult) :
  In r (rank query queryEmbedding rows) ->
  In r (map (score_row query queryEmbedding) rows).
Proof.
  unfold rank. destruct rows as [|row rows]; [intros []|].
  intros Hr. apply (Permutation_in _ (sort_by_perm by_similarity _)).
  rewrite <- (firstn_skipn SEARCH_RESULTS_LIMIT (sort_by _ _)).
  apply in_or_app. now left.
Qed.

End RankingFacts.

Section ScoringClaims.
Local Open Scope R_scope.

(** C1.  For a stored row scored by [executeSearch]: the semantic term is
    0 when the dimensions of the query embedding and of the row embedding
    differ, and their cosine similarity when they agree (and that similarity
    is defined); the keyword term is the larger of the keyword overlaps of the
    query with the caption and with the file name; the hybrid score is
    0.6 * semantic + 0.4 * keyword, the similarity min(1, 1.5 * hybrid) and
    the distance 1 - similarity.  Every result of [rank] is such a score of
    one of the rows. *)
Theorem C1_hybrid_score (query : string) (queryEmbedding : list R) (row : Row) :
  let semantic := semanticScore queryEmbedding row in
  let keyword := keywordScore query row in
  let hybrid := 0.6 * semantic + 0.4 * keyword in
  let result := score_row query queryEmbedding row in
  (List.length queryEmbedding <> List.length (row_embedding row) -> semantic = 0)
  /\ (List.length queryEmbedding = List.length (row_embedding row) ->
      euclidean_norm queryEmbedding * euclidean_norm (row_embedding row) <> 0 ->
      semantic = cosine_similarity queryEmbedding (row_embedding row))
  /\ keyword = Rmax (keyword_overlap query (caption_text row))
                    (keyword_overlap query (filename (row_file row)))
  /\ hybridScore query queryEmbedding row = hybrid
  /\ similarity result = Rmin 1 (1.5 * hybrid)
  /\ distance result = 1 - similarity result
  /\ (forall rows r, In r (rank query queryEmbedding rows) ->
        exists row', In row' rows /\ r = score_row query queryEmbedding row').
Proof.
  cbv zeta. split; [|split; [|split; [|split; [|split; [|split]]]]].
  - apply cosineSimilarity_mismatch.
  - apply cosineSimilarity_cosine.
  - apply keywordScore_real.
  - apply hybridScore_real.
  - rewrite similarity_real, hybridScore_real. reflexivity.
  - reflexivity.
  - intros rows r Hr.
    apply rank_incl, in_map_iff in Hr. destruct Hr as (row' & <- & Hrow). eauto.
Qed.

(** [rank], the sort and the slice of [executeSearch]. *)
Lemma rank_top_k (query : string) (queryEmbedding : list R) (rows : list Row) :
  (List.length (rank query queryEmbedding rows) <= SEARCH_RESULTS_LIMIT)%nat
  /\ sorted_by_similarity (rank query queryEmbedding rows).
Proof.
  split.
  - unfold rank. destruct rows; [cbn; lia|apply firstn_le_length].
  - unfold rank. destruct rows; [constructor|]. apply firstn_sorted, sort_sorted.
Qed.

Lemma rank_stable (query : string) (queryEmbedding : list R) (rows : list Row) v :
  exists n,
    with_similarity v (rank query queryEmbedding rows)
    = firstn n (with_similarity v (map (score_row query queryEmbedding) rows)).
Proof.
  unfold rank. destruct rows as [|row rows]; [now exists 0%nat|].
  set (scored := map _ (row :: rows)). unfold with_similarity.
  destruct (filter_firstn_prefix
              (fun r => if Req_dec_T (similarity r) v then true else false)
              SEARCH_RESULTS_LIMIT (sort_by by_similarity scored)) as [m Hm].
  exists m. rewrite Hm. f_equal. apply sort_stable.
Qed.

(** C9.  The similarity of a result can be negative, and its distance above
    1: a stored embedding opposite to the query embedding, no keyword in
    common, gives similarity -0.9 and distance 1.9. *)
Theorem C9_similarity_below_zero :
  similarity (score_row "sunset" [1] (dog_row [-1])) = -0.9
  /\ distance (score_row "sunset" [1] (dog_row [-1])) = 1.9.
Proof.
  assert (S : similarity (score_row "sunset" [1] (dog_row [-1])) = -0.9).
  { rewrite similarity_real, hybridScore_real, keywordScore_real.
    rewrite !no_overlap_with_sunset by reflexivity.
    unfold semanticScore. cbn [row_embedding dog_row].
    rewrite cosine_opposite.
    unfold Rmax. destruct (Rle_dec 0 0); unfold Rmin; destruct (Rle_dec _ _); lra. }
  split; [exact S|].
  change (distance (score_row "sunset" [1] (dog_row [-1])))
    with (1 - similarity (score_row "sunset" [1] (dog_row [-1]))).
  rewrite S. lra.
Qed.

End ScoringClaims.

(** On binary64, as the engine computes it: -0.89999999999999991 and
    1.8999999999999999. *)
Example similarity_below_zero_binary64 :
  similarity (score_row "sunset" [1%float] (dog_row [(-1)%float]))
  = (-0x1.cccccccccccccp-1)%float
  /\ distance (score_row "sunset" [1%float] (dog_row [(-1)%float]))
     = 0x1.e666666666666p+0%float.
Proof. split; vm_compute; reflexivity. Qed.

(* ------------------------------------------------------------------ *)
(** ** Running sequences, handlers and loops *)
(* ------------------------------------------------------------------ *)

Section RunFacts.
Context {N : Type}.
Implicit Types (w : nat -> @World N) (s : @Engine N).

Lemma run_bind {A B : Type} w (f : A -> Async B) (r : Res A) :
  forall t,
    run w t (bind_res r f)
    = match run w t r with
      | Returned s a => run w (t + List.length (answers w t r)) (f a s)
      | Threw s e => Threw s e
      | Blocked s => Blocked s
      end.
Proof.
  induction r as [s a|s e|s X op k IH|s q p k IH]; intros t; cbn [bind_res run answers].
  - cbn. now rewrite Nat.add_0_r.
  - reflexivity.
  - destruct (ready s (w t) op) as [x|]; [|reflexivity].
    rewrite IH. cbn [List.length]. now rewrite Nat.add_succ_r.
  - reflexivity.
Qed.

Lemma answers_bind {A B : Type} w (f : A -> Async B) (r : Res A) :
  forall t,
    answers w t (bind_res r f)
    = answers w t r
      ++ match run w t r with
         | Returned s a => answers w (t + List.length (answers w t r)) (f a s)
         | _ => []
         end.
Proof.
  induction r as [s a|s e|s X op k IH|s q p k IH]; intros t; cbn [bind_res run answers].
  - cbn. now rewrite Nat.add_0_r.
  - reflexivity.
  - destruct (ready s (w t) op) as [x|]; [|reflexivity].
    rewrite IH. cbn [List.length app]. now rewrite Nat.add_succ_r.
  - reflexivity.
Qed.

Lemma run_catch {A : Type} w (h : Error -> Async A) (r : Res A) :
  forall t,
    run w t (catch_res r h)
    = match run w t r with
      | Threw s e => run w (t + List.length (answers w t r)) (h e s)
      | o => o
      end.
Proof.
  induction r as [s a|s e|s X op k IH|s q p k IH]; intros t; cbn [catch_res run answers].
  - reflexivity.
  - cbn. now rewrite Nat.add_0_r.
  - destruct (ready s (w t) op) as [x|]; [|reflexivity].
    rewrite IH. cbn [List.length]. now rewrite Nat.add_succ_r.
  - reflexivity.
Qed.

Lemma answers_catch {A : Type} w (h : Error -> Async A) (r : Res A) :
  forall t,
    answers w t (catch_res r h)
    = answers w t r
      ++ match run w t r with
         | Threw s e => answers w (t + List.length (answers w t r)) (h e s)
         | _ => []
         end.
Proof.
  induction r as [s a|s e|s X op k IH|s q p k IH]; intros t; cbn [catch_res run answers].
  - reflexivity.
  - cbn. now rewrite Nat.add_0_r.
  - destruct (ready s (w t) op) as [x|]; [|reflexivity].
    rewrite IH. cbn [List.length app]. now rewrite Nat.add_succ_r.
  - reflexivity.
Qed.

End RunFacts.

(* ------------------------------------------------------------------ *)
(** ** What every step of the engine's methods keeps *)
(* ------------------------------------------------------------------ *)

Create HintDb frames discriminated.

Section FrameFacts.
Context {N : Type} {num : Number N}.
Variable G : @Engine N -> @Engine N -> Prop.
Variable okop : forall X : Type, @Op N X -> Prop.
Hypothesis permits : Permits G okop.
Hypothesis ok_embed : forall m text, okop (Embed m text).
Hypothesis permits_store : forall v s, G s (set_store v s).


Lemma steps_in_from {A : Type} (r : Res A) (s0 s1 : Engine) :
  G s0 s1 -> steps_in G okop s1 r -> steps_in G okop s0 r.
Proof.
  intros H. pose proof (permits_trans permits) as T.
  destruct r; cbn; intuition eauto.
Qed.

Lemma steps_in_bind {A B : Type} (f : A -> Async B) (r : Res A) :
  forall s0,
    steps_in G okop s0 r ->
    (forall a, frame G okop (f a)) ->
    steps_in G okop s0 (bind_res r f).
Proof.
  induction r as [s a|s e|s X op k IH|s q p k IH]; intros s0 Hr Hf; cbn in *.
  - eapply steps_in_from; [exact Hr|apply Hf].
  - exact Hr.
  - destruct Hr as (H1 & H2 & H3). repeat split; auto.
  - contradiction.
Qed.

Lemma frame_bind {A B : Type} (m : Async A) (f : A -> Async B) :
  frame G okop m -> (forall a, frame G okop (f a)) -> frame G okop (bind m f).
Proof. intros Hm Hf s. apply steps_in_bind; auto. Qed.

Lemma frame_ret {A : Type} (a : A) : frame G okop (ret a).
Proof. intros s. apply (permits_refl permits). Qed.

Lemma frame_throw {A : Type} (e : Error) : frame G okop (@throw N A e).
Proof. intros s. apply (permits_refl permits). Qed.

Lemma frame_get : frame G okop get.
Proof. intros s. apply (permits_refl permits). Qed.

Lemma frame_modify (f : Engine -> Engine) :
  (forall s, G s (f s)) -> frame G okop (modify f).
Proof. intros H s. apply H. Qed.

Lemma frame_await {X : Type} (op : Op X) : okop op -> frame G okop (await op).
Proof.
  intros H s. pose proof (permits_refl permits) as R. cbn. repeat split; auto.
Qed.

Lemma steps_in_catch {A : Type} (h : Error -> Async A) (r : Res A) :
  forall s0,
    steps_in G okop s0 r ->
    (forall e, frame G okop (h e)) ->
    steps_in G okop s0 (catch_res r h).
Proof.
  induction r as [s a|s e|s X op k IH|s q p k IH]; intros s0 Hr Hf; cbn in *.
  - exact Hr.
  - eapply steps_in_from; [exact Hr|apply Hf].
  - destruct Hr as (H1 & H2 & H3). repeat split; auto.
  - contradiction.
Qed.

Lemma frame_try_catch {A : Type} (m : Async A) (h : Error -> Async A) :
  frame G okop m -> (forall e, frame G okop (h e)) -> frame G okop (try_catch m h).
Proof. intros Hm Hh s. apply steps_in_catch; auto. Qed.

Lemma steps_in_finally {A : Type} (fin : Async unit) (r : Res A) :
  forall s0,
    steps_in G okop s0 r ->
    frame G okop fin ->
    steps_in G okop s0 (finally_res r fin).
Proof.
  induction r as [s a|s e|s X op k IH|s q p k IH]; intros s0 Hr Hf; cbn in *.
  - eapply steps_in_from; [exact Hr|].
    apply steps_in_bind; [apply Hf|]. intros _. apply frame_ret.
  - eapply steps_in_from; [exact Hr|].
    apply steps_in_bind; [apply Hf|]. intros _. apply frame_throw.
  - destruct Hr as (H1 & H2 & H3). repeat split; auto.
  - contradiction.
Qed.

Lemma frame_try_finally {A : Type} (m : Async A) (fin : Async unit) :
  frame G okop m -> frame G okop fin -> frame G okop (try_finally m fin).
Proof. intros Hm Hh s. apply steps_in_finally; auto. Qed.

Lemma frame_settle {T : Type} (r : Reply T) : frame G okop (settle r).
Proof. destruct r; [apply frame_ret|apply frame_throw]. Qed.

Lemma frame_attempt {A : Type} (m : Async A) : frame G okop m -> frame G okop (attempt m).
Proof.
  intros H. apply frame_try_catch.
  - apply frame_bind; [exact H|]. intros a. apply frame_ret.
  - intros e. apply frame_ret.
Qed.

Lemma ok_lifecycle {X : Type} (op : Op X) : lifecycle_op op -> okop op.
Proof. apply (permits_op permits). Qed.

Lemma frame_await_async {A : Type} (m : Async A) : frame G okop m -> frame G okop (await_async m).
Proof.
  intros H. apply frame_bind; [now apply frame_attempt|]. intros r.
  apply frame_bind; [apply frame_await, ok_lifecycle; exact I|].
  intros _. apply frame_settle.
Qed.

Lemma frame_for_loop {A B : Type} (body : nat -> A -> B -> Async B) (l : list A) :
  (forall i x acc, frame G okop (body i x acc)) ->
  forall i acc, frame G okop (for_loop body i l acc).
Proof.
  intros H. induction l as [|x l IH]; intros i acc; cbn [for_loop].
  - apply frame_ret.
  - apply frame_bind; [apply H|]. intros acc'. apply IH.
Qed.

Lemma frame_deref (o : option ModelRef) : frame G okop (deref o).
Proof. destruct o; [apply frame_ret|apply frame_throw]. Qed.


Ltac frame_modify_tac :=
  first [ apply (permits_reported permits) | apply (permits_heap permits)
        | apply (permits_visionModel permits) | apply (permits_embeddingModel permits)
        | apply (permits_loading permits) | apply (permits_loadPromise permits)
        | apply (permits_load_promises permits) | apply (permits_initialize permits) ].

Ltac frame_step :=
  lazymatch goal with
  | |- frame _ _ (bind _ _) => apply frame_bind; [|intro]
  | |- frame _ _ (ret _) => apply frame_ret
  | |- frame _ _ (throw _) => apply frame_throw
  | |- frame _ _ get => apply frame_get
  | |- frame _ _ (modify _) => apply frame_modify; intro; frame_modify_tac
  | |- frame _ _ (await _) => apply frame_await; first [apply (permits_op permits); exact I | assumption | auto]
  | |- frame _ _ (try_catch _ _) => apply frame_try_catch; [|intro]
  | |- frame _ _ (try_finally _ _) => apply frame_try_finally
  | |- frame _ _ (attempt _) => apply frame_attempt
  | |- frame _ _ (await_async _) => apply frame_await_async
  | |- frame _ _ (settle _) => apply frame_settle
  | |- frame _ _ (deref _) => apply frame_deref
  | |- frame _ _ (for_loop _ _ _ _) => apply frame_for_loop; intros
  | |- frame _ _ (if ?c then _ else _) => destruct c
  | |- frame _ _ (match ?x with _ => _ end) => destruct x
  | |- frame _ _ _ => solve [auto with frames]
  end.

Ltac frame_auto := repeat frame_step.

Lemma frame_reportProgress ph c t m : frame G okop (reportProgress ph c t m).
Proof. unfold reportProgress. frame_auto. Qed.
#[local] Hint Resolve frame_reportProgress : frames.

Lemma frame_new_CactusLM m c : frame G okop (new_CactusLM m c).
Proof. intros s. apply (permits_heap permits). Qed.
#[local] Hint Resolve frame_new_CactusLM : frames.

Lemma frame_cactus_download m cb :
  (forall pct, frame G okop (cb pct)) -> frame G okop (cactus_download m cb).
Proof. intros H. unfold cactus_download. frame_auto. Qed.

Lemma frame_cactus_init m : frame G okop (cactus_init m).
Proof. unfold cactus_init. frame_auto. Qed.
Lemma frame_cactus_destroy m : frame G okop (cactus_destroy m).
Proof. unfold cactus_destroy. frame_auto. Qed.
Lemma frame_cactus_getModels m : frame G okop (cactus_getModels m).
Proof. unfold cactus_getModels. frame_auto. Qed.
Lemma frame_cactus_complete m p i t : frame G okop (cactus_complete m p i t).
Proof. unfold cactus_complete. frame_auto. Qed.
Lemma frame_cactus_reset m : frame G okop (cactus_reset m).
Proof. unfold cactus_reset. frame_auto. Qed.
Lemma frame_cactus_embed m t : frame G okop (cactus_embed m t).
Proof. unfold cactus_embed. frame_auto. Qed.
#[local] Hint Resolve frame_cactus_init frame_cactus_destroy frame_cactus_getModels
  frame_cactus_complete frame_cactus_reset frame_cactus_embed : frames.

Lemma frame_initialize : frame G okop initialize.
Proof. unfold initialize. frame_auto. Qed.
#[local] Hint Resolve frame_initialize : frames.

Lemma frame_download_vision_model : frame G okop download_vision_model.
Proof.
  unfold download_vision_model. frame_auto.
  apply frame_cactus_download. intros pct. auto with frames.
Qed.
#[local] Hint Resolve frame_download_vision_model : frames.

Lemma frame_loadVisionModel : frame G okop loadVisionModel.
Proof. unfold loadVisionModel. frame_auto. Qed.

Lemma frame_unloadVisionModel : frame G okop unloadVisionModel.
Proof. unfold unloadVisionModel. frame_auto. Qed.

Lemma frame_new_load_promise : frame G okop new_load_promise.
Proof. intros s. apply (permits_load_promises permits). Qed.
#[local] Hint Resolve frame_new_load_promise : frames.

Lemma frame_settle_load p r : frame G okop (settle_load p r).
Proof. unfold settle_load. frame_auto. Qed.
#[local] Hint Resolve frame_settle_load : frames.

Lemma frame_load_embedding_body : frame G okop load_embedding_body.
Proof.
  unfold load_embedding_body. frame_auto.
  apply frame_cactus_download. intros pct. auto with frames.
Qed.
#[local] Hint Resolve frame_load_embedding_body : frames.

Lemma frame_loadEmbeddingModel : frame G okop loadEmbeddingModel.
Proof. unfold loadEmbeddingModel. frame_auto. Qed.

Lemma frame_unloadEmbeddingModel : frame G okop unloadEmbeddingModel.
Proof. unfold unloadEmbeddingModel. frame_auto. Qed.
#[local] Hint Resolve frame_loadVisionModel frame_unloadVisionModel frame_loadEmbeddingModel frame_unloadEmbeddingModel : frames.

Lemma frame_resizeImageForVision u : frame G okop (resizeImageForVision u).
Proof. unfold resizeImageForVision. frame_auto. Qed.
Lemma frame_getReadableFilePath u f : frame G okop (getReadableFilePath u f).
Proof. unfold getReadableFilePath. frame_auto. Qed.
Lemma frame_captionImage p : frame G okop (captionImage p).
Proof. unfold captionImage. frame_auto. Qed.
Lemma frame_extractPdfText u : frame G okop (extractPdfText u).
Proof. unfold extractPdfText. frame_auto. Qed.
#[local] Hint Resolve frame_resizeImageForVision frame_getReadableFilePath frame_captionImage frame_extractPdfText : frames.
Lemma frame_generatePdfCaption f : frame G okop (generatePdfCaption f).
Proof. unfold generatePdfCaption. frame_auto. Qed.
Lemma frame_createThumbnail u : frame G okop (createThumbnail u).
Proof. unfold createThumbnail. frame_auto. Qed.
Lemma frame_generateEmbedding t : frame G okop (generateEmbedding t).
Proof. unfold generateEmbedding. frame_auto. Qed.
#[local] Hint Resolve frame_generatePdfCaption frame_createThumbnail frame_generateEmbedding : frames.

Lemma frame_caption_image_step n i f acc : frame G okop (caption_image_step n i f acc).
Proof. unfold caption_image_step. frame_auto. Qed.
Lemma frame_filename_caption_step n i f acc : frame G okop (filename_caption_step n i f acc).
Proof. unfold filename_caption_step. frame_auto. Qed.
Lemma frame_pdf_step a b c i f acc : frame G okop (pdf_step a b c i f acc).
Proof. unfold pdf_step. frame_auto. Qed.
Lemma frame_embed_step n i f acc : frame G okop (embed_step n i f acc).
Proof. unfold embed_step. frame_auto. Qed.
#[local] Hint Resolve frame_caption_image_step frame_filename_caption_step frame_pdf_step frame_embed_step : frames.

Lemma frame_caption_images l : frame G okop (caption_images l).
Proof. unfold caption_images. frame_auto. Qed.
Lemma frame_caption_pdfs a b l acc : frame G okop (caption_pdfs a b l acc).
Proof. unfold caption_pdfs. frame_auto. Qed.
#[local] Hint Resolve frame_caption_images frame_caption_pdfs : frames.

Lemma frame_saveFileToDatabase e : frame G okop (saveFileToDatabase e).
Proof.
  unfold saveFileToDatabase. frame_auto.
  apply frame_modify. intros s. apply permits_store.
Qed.
#[local] Hint Resolve frame_saveFileToDatabase : frames.
Lemma frame_save_step n i e u : frame G okop (save_step n i e u).
Proof. unfold save_step. frame_auto. Qed.
#[local] Hint Resolve frame_save_step : frames.

Lemma frame_index_cleanup e : frame G okop (index_cleanup e).
Proof. unfold index_cleanup. frame_auto. Qed.

Lemma frame_caption_all files : frame G okop (caption_all files).
Proof. unfold caption_all. cbv zeta. frame_auto. Qed.

Lemma frame_embed_loop n l i acc : frame G okop (for_loop (embed_step n) i l acc).
Proof. frame_auto. Qed.

Lemma frame_embed_all captioned : frame G okop (embed_all captioned).
Proof. unfold embed_all. frame_auto. Qed.

Lemma frame_save_all n embedded : frame G okop (save_all n embedded).
Proof. unfold save_all. frame_auto. Qed.
#[local] Hint Resolve frame_caption_all frame_embed_all frame_save_all : frames.

Lemma frame_index_pipeline files : frame G okop (index_pipeline files).
Proof. unfold index_pipeline. frame_auto. Qed.
#[local] Hint Resolve frame_index_cleanup frame_index_pipeline : frames.

Lemma frame_indexFiles files : frame G okop (indexFiles files).
Proof. unfold indexFiles. frame_auto. Qed.

Lemma frame_query_rows query : frame G okop (query_rows query).
Proof. unfold query_rows. frame_auto. Qed.

Lemma frame_getAllFiles : frame G okop getAllFiles.
Proof. unfold getAllFiles. frame_auto. Qed.

Lemma frame_getFileCount : frame G okop getFileCount.
Proof. unfold getFileCount. frame_auto. Qed.

Lemma frame_clearAll : frame G okop clearAll.
Proof.
  unfold clearAll. frame_auto.
  apply frame_modify. intros s. apply permits_store.
Qed.

End FrameFacts.

(* ------------------------------------------------------------------ *)
(** ** One call on its own *)
(* ------------------------------------------------------------------ *)

Section SequentialFacts.
Context {N : Type}.
Implicit Types (w : nat -> @World N) (s : @Engine N).

Lemma steps_in_run {A : Type} G okop (P : Permits G okop) w (r : Res A) :
  forall s0 t,
    steps_in G okop s0 r ->
    G s0 (final (run w t r)) /\ Forall (answered_in okop) (answers w t r).
Proof.
  induction r as [s a|s e|s X op k IH|s q p k IH]; intros s0 t H; cbn in *.
  - split; [exact H|constructor].
  - split; [exact H|constructor].
  - destruct H as (H1 & H2 & H3).
    destruct (ready s (w t) op) as [x|]; cbn.
    + destruct (IH x s s (S t) (H3 x s)) as [I1 I2].
      split; [eapply (permits_trans P); eassumption|].
      constructor; assumption.
    + split; [exact H1|constructor].
  - contradiction.
Qed.

Lemma run_await_async {A : Type} w (m : Async A) s t :
  run w t (await_async m s) = run w t (m s).
Proof.
  unfold await_async, attempt, try_catch, bind.
  rewrite run_bind, run_catch, run_bind.
  destruct (run w t (m s)) as [s1 a|s1 e|s1]; cbn; reflexivity.
Qed.

Lemma answers_await_async {A : Type} w (m : Async A) s t :
  exists tick,
    answers w t (await_async m s) = answers w t (m s) ++ tick
    /\ Forall (answered_in lifecycle_op) tick.
Proof.
  unfold await_async, attempt, try_catch, bind.
  rewrite answers_bind, run_catch, run_bind, answers_catch, answers_bind, run_bind.
  destruct (run w t (m s)) as [s1 a|s1 e|s1]; cbn.
  - rewrite ?app_nil_r. eexists. split; [reflexivity|]. repeat constructor.
  - rewrite ?app_nil_r. eexists. split; [reflexivity|]. repeat constructor.
  - exists []. split; [now rewrite !app_nil_r|constructor].
Qed.

Lemma run_bind_at {A B : Type} w (m : Async A) (f : A -> Async B) s t :
  run w t ((bind m f) s)
  = match run w t (m s) with
    | Returned s1 a => run w (t + List.length (answers w t (m s))) (f a s1)
    | Threw s1 e => Threw s1 e
    | Blocked s1 => Blocked s1
    end.
Proof. apply run_bind. Qed.

Lemma answers_bind_at {A B : Type} w (m : Async A) (f : A -> Async B) s t :
  answers w t ((bind m f) s)
  = answers w t (m s)
    ++ match run w t (m s) with
       | Returned s1 a => answers w (t + List.length (answers w t (m s))) (f a s1)
       | _ => []
       end.
Proof. apply answers_bind. Qed.

Lemma run_try_catch_at {A : Type} w (m : Async A) (h : Error -> Async A) s t :
  run w t ((try_catch m h) s)
  = match run w t (m s) with
    | Threw s1 e => run w (t + List.length (answers w t (m s))) (h e s1)
    | o => o
    end.
Proof. apply run_catch. Qed.

Lemma answers_try_catch_at {A : Type} w (m : Async A) (h : Error -> Async A) s t :
  answers w t ((try_catch m h) s)
  = answers w t (m s)
    ++ match run w t (m s) with
       | Threw s1 e => answers w (t + List.length (answers w t (m s))) (h e s1)
       | _ => []
       end.
Proof. apply answers_catch. Qed.

End SequentialFacts.

(* ------------------------------------------------------------------ *)
(** ** The batch pipeline: a rejected embedding *)
(* ------------------------------------------------------------------ *)

Section BatchFacts.
Context {N : Type} {num : Number N}.
Implicit Types (w : nat -> @World N) (s : @Engine N).

Lemma permits_keeps_store : Permits (@keeps_store N) (@any_op N).
Proof.
  split; unfold keeps_store, any_op; intros; cbn; try reflexivity; try exact I.
  congruence.
Qed.

Lemma permits_lifecycle : Permits (@any_step N) (@lifecycle_op N).
Proof. split; unfold any_step; intros; auto. Qed.

Lemma awaits_answers {A : Type} w (r : Res A) :
  forall t, map snd (awaits w t r) = answers w t r.
Proof.
  induction r as [s a|s e|s X op k IH|s q p k IH]; intros t; cbn [awaits answers map];
    try reflexivity.
  destruct (ready s (w t) op) as [x|]; [|reflexivity].
  cbn [map snd]. now rewrite IH.
Qed.

Lemma awaits_length {A : Type} w (r : Res A) t :
  List.length (awaits w t r) = List.length (answers w t r).
Proof. now rewrite <- awaits_answers, length_map. Qed.

Lemma awaits_bind {A B : Type} w (f : A -> Async B) (r : Res A) :
  forall t,
    awaits w t (bind_res r f)
    = awaits w t r
      ++ match run w t r with
         | Returned s a => awaits w (t + List.length (answers w t r)) (f a s)
         | _ => []
         end.
Proof.
  induction r as [s a|s e|s X op k IH|s q p k IH]; intros t;
    cbn [bind_res run answers awaits].
  - cbn. now rewrite Nat.add_0_r.
  - reflexivity.
  - destruct (ready s (w t) op) as [x|]; [|reflexivity].
    rewrite IH. cbn [List.length app]. now rewrite Nat.add_succ_r.
  - reflexivity.
Qed.

Lemma awaits_catch {A : Type} w (h : Error -> Async A) (r : Res A) :
  forall t,
    awaits w t (catch_res r h)
    = awaits w t r
      ++ match run w t r with
         | Threw s e => awaits w (t + List.length (answers w t r)) (h e s)
         | _ => []
         end.
Proof.
  induction r as [s a|s e|s X op k IH|s q p k IH]; intros t;
    cbn [catch_res run answers awaits].
  - reflexivity.
  - cbn. now rewrite Nat.add_0_r.
  - destruct (ready s (w t) op) as [x|]; [|reflexivity].
    rewrite IH. cbn [List.length app]. now rewrite Nat.add_succ_r.
  - reflexivity.
Qed.

Lemma awaits_bind_at {A B : Type} w (m : Async A) (f : A -> Async B) s t :
  awaits w t ((bind m f) s)
  = awaits w t (m s)
    ++ match run w t (m s) with
       | Returned s1 a => awaits w (t + List.length (answers w t (m s))) (f a s1)
       | _ => []
       end.
Proof. apply awaits_bind. Qed.

Lemma awaits_try_catch_at {A : Type} w (m : Async A) (h : Error -> Async A) s t :
  awaits w t ((try_catch m h) s)
  = awaits w t (m s)
    ++ match run w t (m s) with
       | Threw s1 e => awaits w (t + List.length (answers w t (m s))) (h e s1)
       | _ => []
       end.
Proof. apply awaits_catch. Qed.

Lemma awaits_await_async {A : Type} w (m : Async A) s t :
  exists tick,
    awaits w t (await_async m s) = awaits w t (m s) ++ tick
    /\ Forall (answered_in lifecycle_op) (map snd tick).
Proof.
  unfold await_async, attempt, try_catch, bind.
  rewrite awaits_bind, run_catch, run_bind, awaits_catch, awaits_bind, run_bind.
  destruct (run w t (m s)) as [s1 a|s1 e|s1]; cbn.
  - rewrite ?app_nil_r. eexists. split; [reflexivity|]. repeat constructor.
  - rewrite ?app_nil_r. eexists. split; [reflexivity|]. repeat constructor.
  - exists []. split; [now rewrite !app_nil_r|constructor].
Qed.

Lemma rejected_embeds_app (l1 l2 : list (@Engine N * @Answered N)) :
  rejected_embeds (l1 ++ l2) = rejected_embeds l1 ++ rejected_embeds l2.
Proof. apply flat_map_app. Qed.

Lemma lifecycle_no_rejected_embed (l : list (@Engine N * @Answered N)) :
  Forall (answered_in lifecycle_op) (map snd l) -> rejected_embeds l = [].
Proof.
  induction l as [|[s0 a] l IH]; [reflexivity|].
  cbn [map snd]. intros H. inversion H as [|? ? Ha Hl]; subst.
  unfold rejected_embeds in *. cbn [flat_map]. rewrite (IH Hl), app_nil_r.
  destruct a as [X op x]. unfold embed_rejection. cbn [snd fst].
  destruct op; cbn in *; try reflexivity; contradiction.
Qed.

(** A computation of the lifecycle rejects no embed call. *)
Lemma frame_no_rejected_embed {A : Type} w (m : Async A) s t :
  frame any_step lifecycle_op m -> rejected_embeds (awaits w t (m s)) = [].
Proof.
  intros H. apply lifecycle_no_rejected_embed. rewrite awaits_answers.
  apply (steps_in_run permits_lifecycle w (m s) s t (H s)).
Qed.

Lemma frame_keeps_store {A : Type} w (m : Async A) s t :
  frame keeps_store any_op m -> store (final (run w t (m s))) = store s.
Proof.
  intros H. apply (steps_in_run permits_keeps_store w (m s) s t (H s)).
Qed.

Lemma destroyed_models_app (l1 l2 : list (@Answered N)) :
  destroyed_models (l1 ++ l2) = destroyed_models l1 ++ destroyed_models l2.
Proof. apply flat_map_app. Qed.

(** A rejected embed call: the model is the one the engine holds, and the
    call throws in the state it was made in. *)
Lemma generateEmbedding_rejected w text s t s2 m e :
  In (s2, m, e) (rejected_embeds (awaits w t (generateEmbedding text s))) ->
  run w t (generateEmbedding text s) = Threw s2 e /\ embeddingModel s2 = Some m.
Proof.
  unfold generateEmbedding. cbn.
  destruct (embeddingModel s) as [m'|] eqn:E; cbn; [|intros []].
  rewrite E. cbn.
  destruct (w t _ (Embed m' text)) as [v|e']; cbn; [intros []|].
  intros [[= <- <- <-]|[]]. auto.
Qed.

Lemma embed_step_rejected w n i c acc s t s2 m e :
  In (s2, m, e) (rejected_embeds (awaits w t (embed_step n i c acc s))) ->
  run w t (embed_step n i c acc s) = Threw s2 e /\ embeddingModel s2 = Some m.
Proof.
  unfold embed_step.
  rewrite awaits_bind_at, run_bind_at.
  cbn [reportProgress modify run answers awaits app List.length].
  rewrite Nat.add_0_r.
  set (s1 := set_reported _ s).
  rewrite awaits_bind_at, run_bind_at, run_await_async.
  destruct (awaits_await_async w (generateEmbedding (cf_caption c)) s1 t)
    as (tick & -> & Htick).
  rewrite !rejected_embeds_app, (lifecycle_no_rejected_embed _ Htick), app_nil_r.
  intros H. apply in_app_or in H. destruct H as [H|H].
  - apply generateEmbedding_rejected in H. destruct H as [-> E]. auto.
  - destruct (run w t (generateEmbedding (cf_caption c) s1)) as [s3 v|s3 e3|s3];
      try contradiction.
    exfalso. revert H.
    destruct (i <? n - 1)%nat; cbn; tauto.
Qed.

Lemma embed_loop_rejected w n (l : list CaptionedFile) :
  forall i acc s t s2 m e,
    In (s2, m, e) (rejected_embeds (awaits w t (for_loop (embed_step n) i l acc s))) ->
    run w t (for_loop (embed_step n) i l acc s) = Threw s2 e
    /\ embeddingModel s2 = Some m.
Proof.
  induction l as [|c l IH]; intros i acc s t s2 m e; cbn [for_loop].
  - intros [].
  - rewrite awaits_bind_at, run_bind_at, rejected_embeds_app.
    intros H. apply in_app_or in H. destruct H as [H|H].
    + apply embed_step_rejected in H. destruct H as [-> E]. auto.
    + destruct (run w t (embed_step n i c acc s)) as [s3 v|s3 e3|s3]; try contradiction.
      now apply IH.
Qed.

Lemma destroyed_update_nth (h : list CactusLM) (m : ModelRef) :
  destroyed_in (update_nth m mark_destroyed h) m.
Proof.
  revert m. induction h as [|c h IH]; intros [|m] c'; cbn; try discriminate.
  - intros [= <-]. reflexivity.
  - apply IH.
Qed.

Lemma destroyed_stays (h : list CactusLM) (m x : ModelRef) :
  destroyed_in h x -> destroyed_in (update_nth m mark_destroyed h) x.
Proof.
  revert m x. induction h as [|c h IH]; intros [|m] [|x] H c'; cbn; try discriminate.
  - intros [= <-]. reflexivity.
  - intros E. apply (H c'). exact E.
  - intros [= <-]. apply (H c). reflexivity.
  - apply IH. intros c0 E. apply (H c0). exact E.
Qed.

(** [unloadVisionModel] when the SDK destroys the model: the handle is
    null, and the object it held is destroyed. *)
Lemma unloadVisionModel_run w s t :
  destroys_succeed w ->
  exists s',
    run w t (unloadVisionModel s) = Returned s' tt
    /\ visionModel s' = None
    /\ embeddingModel s' = embeddingModel s
    /\ store s' = store s
    /\ (forall p, In p (reported s) -> In p (reported s'))
    /\ (forall x, destroyed_in (heap s) x -> destroyed_in (heap s') x)
    /\ (forall x, visionModel s = Some x ->
          In x (destroyed_models (answers w t (unloadVisionModel s)))
          /\ destroyed_in (heap s') x).
Proof.
  intros D. unfold unloadVisionModel. unfold bind at 1 3. cbn [get bind_res].
  destruct (visionModel s) as [m|] eqn:E.
  - unfold cactus_destroy. cbn. rewrite D. cbn.
    eexists. split; [reflexivity|]. cbn.
    split; [reflexivity|]. split; [reflexivity|]. split; [reflexivity|].
    split; [intros p Hp; rewrite !in_app_iff; auto|].
    split; [intros x Hx; now apply destroyed_stays|].
    intros x [= <-]. split; [|apply destroyed_update_nth].
    rewrite ?E. cbn. rewrite ?D. cbn. left. reflexivity.
  - cbn. exists s.
    do 6 (split; [auto|]). intros x [=].
Qed.

Lemma unloadEmbeddingModel_run w s t :
  destroys_succeed w ->
  exists s',
    run w t (unloadEmbeddingModel s) = Returned s' tt
    /\ embeddingModel s' = None
    /\ visionModel s' = visionModel s
    /\ store s' = store s
    /\ reported s' = reported s
    /\ (forall x, destroyed_in (heap s) x -> destroyed_in (heap s') x)
    /\ (forall x, embeddingModel s = Some x ->
          In x (destroyed_models (answers w t (unloadEmbeddingModel s)))
          /\ destroyed_in (heap s') x).
Proof.
  intros D. unfold unloadEmbeddingModel. unfold bind at 1 3. cbn [get bind_res].
  destruct (embeddingModel s) as [m|] eqn:E.
  - unfold cactus_destroy. cbn. rewrite D. cbn.
    eexists. split; [reflexivity|]. cbn.
    split; [reflexivity|]. split; [reflexivity|]. split; [reflexivity|].
    split; [reflexivity|].
    split; [intros x Hx; now apply destroyed_stays|].
    intros x [= <-]. split; [|apply destroyed_update_nth].
    rewrite ?E. cbn. rewrite ?D. cbn. left. reflexivity.
  - cbn. exists s.
    do 6 (split; [auto|]). intros x [=].
Qed.

(** The [catch] block of [indexFiles] when the SDK destroys the models:
    it reports the error, destroys the models the engine holds and throws
    the error again. *)
Lemma index_cleanup_run w e s t :
  destroys_succeed w ->
  exists s',
    run w t (index_cleanup e s) = Threw s' e
    /\ visionModel s' = None
    /\ embeddingModel s' = None
    /\ store s' = store s
    /\ In (error_progress e) (reported s')
    /\ (forall x, holds s x ->
          In x (destroyed_models (answers w t (index_cleanup e s)))
          /\ destroyed_in (heap s') x).
Proof.
  intros D. unfold index_cleanup.
  rewrite run_bind_at, answers_bind_at.
  cbn [reportProgress modify run answers List.length app].
  set (s1 := set_reported _ s).
  rewrite run_bind_at, answers_bind_at, run_await_async.
  destruct (answers_await_async w unloadVisionModel s1 (t + 0)) as (tick1 & -> & _).
  destruct (unloadVisionModel_run s1 (t + 0) D) as (s2 & -> & V2 & E2 & S2 & R2 & K2 & H2).
  rewrite run_bind_at, answers_bind_at, run_await_async.
  match goal with |- context [run w ?t' (unloadEmbeddingModel s2)] =>
    destruct (answers_await_async w unloadEmbeddingModel s2 t') as (tick2 & -> & _);
    destruct (unloadEmbeddingModel_run s2 t' D) as (s3 & -> & E3 & V3 & S3 & R3 & K3 & H3)
  end.
  cbn [throw run]. exists s3. split; [reflexivity|].
  split; [congruence|]. split; [assumption|]. split; [rewrite S3, S2; reflexivity|].
  split.
  { rewrite R3. apply R2. subst s1. cbn. apply in_or_app. right. now left. }
  intros x [Hx|Hx].
  - destruct (H2 x Hx) as [I2 J2]. split.
    + rewrite !destroyed_models_app, !in_app_iff. auto.
    + apply K3, J2.
  - assert (Hx' : embeddingModel s2 = Some x) by (rewrite E2; exact Hx).
    destruct (H3 x Hx') as [I3 J3]. split.
    + rewrite !destroyed_models_app, !in_app_iff. auto.
    + exact J3.
Qed.

(** The [catch] block never returns. *)
Lemma index_cleanup_no_return w e s t s' :
  run w t (index_cleanup e s) <> Returned s' tt.
Proof.
  unfold index_cleanup.
  rewrite run_bind_at. cbn [reportProgress modify run answers List.length].
  rewrite run_bind_at.
  destruct (run w _ (await_async unloadVisionModel _)) as [s2 []|s2 e2|s2];
    try discriminate.
  rewrite run_bind_at.
  destruct (run w _ (await_async unloadEmbeddingModel _)) as [s3 []|s3 e3|s3];
    discriminate.
Qed.

Lemma any_op_embed : forall (m : ModelRef) (text : string), @any_op N _ (Embed m text).
Proof. intros; exact I. Qed.

Lemma any_step_store : forall (v : Store) s, any_step s (set_store v s).
Proof. intros; exact I. Qed.

(** A rejected embed call ends the embedding phase with its error, and the
    tables are as they were. *)
Lemma embed_all_rejected w captioned s t s2 m e :
  In (s2, m, e) (rejected_embeds (awaits w t (embed_all captioned s))) ->
  run w t (embed_all captioned s) = Threw s2 e
  /\ embeddingModel s2 = Some m /\ store s2 = store s.
Proof.
  intros H.
  pose proof (frame_keeps_store w s t
                (frame_embed_all permits_keeps_store any_op_embed captioned)) as K.
  revert H K. unfold embed_all.
  rewrite awaits_bind_at, run_bind_at, run_await_async, rejected_embeds_app.
  rewrite (frame_no_rejected_embed w s t
             (frame_await_async permits_lifecycle (frame_loadEmbeddingModel permits_lifecycle))).
  cbn [app].
  destruct (run w t (loadEmbeddingModel s)) as [s1 []|s1 e1|s1]; try (intros []).
  intros H K. apply embed_loop_rejected in H. destruct H as [E M].
  rewrite E in *. auto.
Qed.

Lemma index_pipeline_rejected w files_ s t s2 m e :
  In (s2, m, e) (rejected_embeds (awaits w t (index_pipeline files_ s))) ->
  run w t (index_pipeline files_ s) = Threw s2 e
  /\ embeddingModel s2 = Some m /\ store s2 = store s.
Proof.
  unfold index_pipeline.
  rewrite awaits_bind_at, run_bind_at, rejected_embeds_app.
  rewrite (frame_no_rejected_embed w s t
             (frame_caption_all permits_lifecycle files_)).
  pose proof (frame_keeps_store w s t
                (frame_caption_all permits_keeps_store files_)) as K1.
  cbn [app].
  destruct (run w t (caption_all files_ s)) as [s1 captioned|s1 e1|s1]; try (intros []).
  cbn [final] in K1.
  rewrite awaits_bind_at, run_bind_at, rejected_embeds_app.
  intros H. apply in_app_or in H. destruct H as [H|H].
  - apply embed_all_rejected in H. destruct H as (-> & M & K2).
    split; [reflexivity|]. split; [exact M|congruence].
  - exfalso.
    destruct (run w _ (embed_all captioned s1)) as [s3 embedded|s3 e3|s3]; try contradiction.
    rewrite (frame_no_rejected_embed w s3 _
               (frame_save_all permits_lifecycle any_step_store _ embedded)) in H.
    exact H.
Qed.


End BatchFacts.

(* ------------------------------------------------------------------ *)
(** ** The batch pipeline: a caption the model could not give *)
(* ------------------------------------------------------------------ *)

Section CaptionFacts.
Context {N : Type}.
Implicit Types (w : nat -> @World N) (s : @Engine N).

Lemma captionImage_run w imagePath s t m :
  visionModel s = Some m ->
  run w t (captionImage imagePath s)
  = Returned s
      match w t _ (Complete m VISION_CAPTION_PROMPT imagePath VISION_MAX_TOKENS) with
      | Resolved response => clean_caption response
      | Rejected _ => fallback_caption imagePath
      end.
Proof.
  intros H. unfold captionImage. unfold bind at 1. cbn [get bind_res].
  rewrite H. cbn. rewrite H. cbn.
  destruct (w t _ (Complete m VISION_CAPTION_PROMPT imagePath VISION_MAX_TOKENS)); reflexivity.
Qed.

Lemma resizeImageForVision_run w uri_ s t :
  run w t (resizeImageForVision uri_ s)
  = Returned s match w t _ (CreateResizedImage uri_) with
               | Resolved p => p
               | Rejected _ => uri_
               end.
Proof.
  unfold resizeImageForVision. cbn.
  destruct (w t _ (CreateResizedImage uri_)); reflexivity.
Qed.

Lemma getReadableFilePath_run w uri_ filename_ s t :
  copies_succeed w ->
  run w t (getReadableFilePath uri_ filename_ s)
  = Returned s
      (if Js.startsWith uri_ "/" || Js.startsWith uri_ "file://"
       then Js.replace_first "file://" "" uri_
       else (CachesDirectoryPath s ++ "/" ++ show (clock s) ++ "_" ++ filename_)%string).
Proof.
  intros C. unfold getReadableFilePath.
  destruct (_ || _); [reflexivity|].
  cbn. rewrite C. reflexivity.
Qed.

Lemma unlink_ignored w (resizedUri uri_ : string) s t :
  run w t (try_catch
             (if negb (String.eqb resizedUri uri_)
              then r <- await (Unlink resizedUri) ;; settle r
              else ret tt)
             (fun _ => ret tt) s)
  = Returned s tt.
Proof.
  destruct (negb _); [|reflexivity].
  cbn. destruct (w t _ (Unlink resizedUri)) as [[]|]; reflexivity.
Qed.

End CaptionFacts.

(* ------------------------------------------------------------------ *)
(** ** The batch pipeline: an empty batch *)
(* ------------------------------------------------------------------ *)

Section EmptyBatch.
Context {N : Type} {num : Number N}.
Implicit Types (w : nat -> @World N) (s : @Engine N).

Lemma caption_all_nil s : caption_all [] s = Done s [].
Proof. reflexivity. Qed.

Lemma save_all_nil n s :
  save_all n [] s
  = Done (set_reported ((reported s ++ [saving_progress 0]) ++ [complete_progress n]) s) tt.
Proof. reflexivity. Qed.

Lemma empty_batch_resident w s t m :
  embeddingModel s = Some m ->
  exists s',
    run w t (indexFiles [] s) = Returned s' tt
    /\ reported s' = reported s ++ [saving_progress 0; complete_progress 0]
    /\ visionModel s' = visionModel s
    /\ embeddingModel s' = embeddingModel s
    /\ heap s' = heap s
    /\ store s' = store s.
Proof.
  intros E. unfold indexFiles.
  rewrite run_bind_at. cbn [get run answers List.length].
  rewrite run_bind_at.
  assert (I : exists s1, run w (t + 0) ((if negb (isInitialized s) then await_async initialize else ret tt) s) = Returned s1 tt
              /\ reported s1 = reported s /\ visionModel s1 = visionModel s /\ embeddingModel s1 = embeddingModel s /\ heap s1 = heap s /\ store s1 = store s).
  { destruct (isInitialized s) eqn:Hi; cbn [negb].
    - exists s. repeat split.
    - rewrite run_await_async. unfold initialize. cbn. rewrite Hi. cbn. eexists. repeat split. }
  destruct I as (s1 & -> & R1 & V1 & E1 & H1 & S1).
  rewrite run_try_catch_at. unfold index_pipeline.
  rewrite run_bind_at, caption_all_nil. cbn [run answers List.length].
  rewrite run_bind_at. unfold embed_all.
  rewrite run_bind_at, run_await_async.
  unfold loadEmbeddingModel at 1. unfold bind at 1. cbn [get bind_res].
  rewrite E1, E. cbn [ret run for_loop].
  rewrite save_all_nil. cbn [run].
  eexists. split; [reflexivity|]. cbn.
  rewrite R1, <- app_assoc. repeat split; congruence.
Qed.

Lemma nth_error_update_nth_end {A : Type} (l : list A) (x y : A) :
  nth_error (update_nth (List.length l) (fun _ => y) (l ++ [x])) (List.length l) = Some y.
Proof. induction l as [|a l IH]; cbn; auto. Qed.

Lemma report_loop w (pcts : list nat) :
  forall i s t,
    run w t (for_loop (fun _ pct (_ : unit) =>
               reportProgress loading_embedding pct 100
                 ("Downloading embedding model: " ++ show pct ++ "%")%string) i pcts tt s)
    = Returned (set_reported (reported s ++ map download_progress pcts) s) tt
    /\ answers w t (for_loop (fun _ pct (_ : unit) =>
               reportProgress loading_embedding pct 100
                 ("Downloading embedding model: " ++ show pct ++ "%")%string) i pcts tt s) = [].
Proof.
  induction pcts as [|pct pcts IH]; intros i s t; cbn [for_loop map].
  - cbn. rewrite app_nil_r. destruct s; split; reflexivity.
  - rewrite run_bind_at, answers_bind_at.
    cbn [reportProgress modify run answers List.length app].
    match goal with |- context [run w ?t' (for_loop _ _ pcts tt ?s')] =>
      destruct (IH (S i) s' t') as [-> ->] end.
    unfold set_reported. cbn. rewrite <- app_assoc. split; reflexivity.
Qed.

Lemma run_finally {A : Type} w (fin : Async unit) (r : Res A) :
  forall t,
    run w t (finally_res r fin)
    = match run w t r with
      | Returned s a =>
          match run w (t + List.length (answers w t r)) (fin s) with
          | Returned s' _ => Returned s' a
          | Threw s' e => Threw s' e
          | Blocked s' => Blocked s'
          end
      | Threw s e =>
          match run w (t + List.length (answers w t r)) (fin s) with
          | Returned s' _ => Threw s' e
          | Threw s' e' => Threw s' e'
          | Blocked s' => Blocked s'
          end
      | Blocked s => Blocked s
      end.
Proof.
  induction r as [s a|s e|s X op k IH|s q p k IH]; intros t; cbn [finally_res run answers].
  - cbn [List.length]. rewrite Nat.add_0_r, run_bind.
    destruct (run w t (fin s)); reflexivity.
  - cbn [List.length]. rewrite Nat.add_0_r, run_bind.
    destruct (run w t (fin s)); reflexivity.
  - destruct (ready s (w t) op) as [x|]; [|reflexivity].
    rewrite IH. cbn [List.length]. now rewrite Nat.add_succ_r.
  - reflexivity.
Qed.

Lemma run_try_finally_at {A : Type} w (m : Async A) (fin : Async unit) s t :
  run w t ((try_finally m fin) s)
  = match run w t (m s) with
    | Returned s1 a =>
        match run w (t + List.length (answers w t (m s))) (fin s1) with
        | Returned s' _ => Returned s' a
        | Threw s' e => Threw s' e
        | Blocked s' => Blocked s'
        end
    | Threw s1 e =>
        match run w (t + List.length (answers w t (m s))) (fin s1) with
        | Returned s' _ => Threw s' e
        | Threw s' e' => Threw s' e'
        | Blocked s' => Blocked s'
        end
    | Blocked s1 => Blocked s1
    end.
Proof. apply run_finally. Qed.

Ltac run_step :=
  first [ rewrite run_bind_at | rewrite run_try_catch_at
        | rewrite run_try_finally_at | rewrite run_await_async
        | progress cbn [run answers ready List.length get modify ret throw await
                        settle deref reportProgress new_CactusLM new_load_promise
                        settle_load fst snd
                        db visionModel embeddingModel isInitialized embeddingModelLoading embeddingModelLoadPromise searchInProgress searchQueue selectedVisionModel store heap load_promises search_promises reported CachesDirectoryPath clock trace set_db set_visionModel set_embeddingModel set_isInitialized set_embeddingModelLoading set_embeddingModelLoadPromise set_searchInProgress set_searchQueue set_selectedVisionModel set_store set_heap set_load_promises set_search_promises set_reported set_CachesDirectoryPath set_clock set_trace] ].

Lemma load_embedding_body_run w s t :
  embedder_loads w ->
  exists s' loading,
    run w t (load_embedding_body s) = Returned s' tt
    /\ reported s' = reported s ++ loading
    /\ loading <> []
    /\ Forall (fun p => phase p = loading_embedding) loading
    /\ embeddingModel s' = Some (List.length (heap s))
    /\ visionModel s' = visionModel s
    /\ store s' = store s
    /\ load_promises s' = load_promises s
    /\ db s' = db s
    /\ clock s' = clock s.
Proof.
  intros W. unfold load_embedding_body, cactus_download, cactus_init.
  repeat run_step.
  match goal with |- context [run w ?t' (for_loop ?b 0 ?l tt ?s')] =>
    destruct (report_loop w l 0 s' t') as [-> ->] end.
  rewrite (proj1 (W _ _)).
  repeat run_step.
  rewrite (proj2 (W _ _)).
  repeat run_step.
  eexists. eexists. split; [reflexivity|].
  cbn. rewrite <- !app_assoc.
  split; [reflexivity|]. split; [discriminate|]. split; [|auto 10].
  cbn [app]. constructor; [reflexivity|].
  apply Forall_app. split; [|repeat constructor].
  apply Forall_forall. intros p Hp. apply in_map_iff in Hp.
  destruct Hp as (pct & <- & _). reflexivity.
Qed.

Lemma loadEmbeddingModel_fresh w s t :
  embeddingModel s = None ->
  embeddingModelLoading s = false ->
  embedder_loads w ->
  exists s' loading,
    run w t (loadEmbeddingModel s) = Returned s' tt
    /\ reported s' = reported s ++ loading
    /\ loading <> []
    /\ Forall (fun p => phase p = loading_embedding) loading
    /\ embeddingModel s' = Some (List.length (heap s))
    /\ visionModel s' = visionModel s
    /\ store s' = store s
    /\ db s' = db s
    /\ clock s' = clock s.
Proof.
  intros E L W. unfold loadEmbeddingModel.
  rewrite run_bind_at. cbn [get run answers List.length]. rewrite E, L.
  unfold attempt.
  repeat run_step.
  match goal with |- context [run w ?t' (load_embedding_body ?s1)] =>
    destruct (load_embedding_body_run s1 t' W)
      as (s2 & loading & -> & R2 & Hne & Hall & E2 & V2 & S2 & P2 & D2 & C2) end.
  repeat run_step.
  cbn in R2, E2, V2, S2, P2, D2, C2. rewrite P2.
  rewrite nth_error_update_nth_end.
  repeat run_step.
  exists (set_load_promises
            (update_nth (List.length (load_promises s)) (fun _ => Some (Resolved tt))
                        (load_promises s ++ [None])) s2), loading.
  split; [reflexivity|]. cbn in *. auto 10.
Qed.

(** C8, amended.  An empty batch on an initialized engine, no load of the
    embedding model being in flight and the model being loadable:
    [indexFiles] returns; it reports [saving] (0 of 0) then [complete], and
    before them nothing but the [loading_embedding] progress of the
    embedding model, which it loads exactly when the model is not resident;
    the vision model and the tables are as they were. *)
Theorem C8_empty_batch w s t :
  isInitialized s = true ->
  embeddingModelLoading s = false ->
  embedder_loads w ->
  exists s' loading,
    run w t (indexFiles [] s) = Returned s' tt
    /\ reported s' = reported s ++ loading ++ [saving_progress 0; complete_progress 0]
    /\ Forall (fun p => phase p = loading_embedding) loading
    /\ (embeddingModel s <> None ->
        loading = [] /\ embeddingModel s' = embeddingModel s /\ heap s' = heap s)
    /\ (embeddingModel s = None ->
        loading <> [] /\ embeddingModel s' = Some (List.length (heap s)))
    /\ visionModel s' = visionModel s
    /\ store s' = store s.
Proof.
  intros Hi L W.
  destruct (embeddingModel s) as [m|] eqn:E.
  - destruct (empty_batch_resident w s t E) as (s' & R & Rp & V & E' & H & S).
    exists s', []. cbn [app]. rewrite E in E'. repeat split; auto; discriminate.
  - unfold indexFiles.
    rewrite run_bind_at. cbn [get run answers List.length].
    rewrite Hi. cbn [negb]. rewrite run_bind_at. cbn [ret run answers List.length].
    rewrite run_try_catch_at. unfold index_pipeline.
    rewrite run_bind_at, caption_all_nil. cbn [run answers List.length].
    rewrite run_bind_at. unfold embed_all.
    rewrite run_bind_at, run_await_async.
    match goal with |- context [run w ?t' (loadEmbeddingModel s)] =>
      destruct (loadEmbeddingModel_fresh s t' E L W)
        as (s2 & loading & -> & R2 & Hne & Hall & E2 & V2 & S2 & _) end.
    cbn [ret run for_loop].
    rewrite save_all_nil. cbn [run].
    eexists. exists loading. split; [reflexivity|]. cbn.
    rewrite R2, <- !app_assoc. cbn [app].
    repeat split; auto; try congruence.
Qed.
End EmptyBatch.

(* ------------------------------------------------------------------ *)
(** ** The batch pipeline: the claims on concrete batches *)
(* ------------------------------------------------------------------ *)



(** An empty batch on an engine whose database is open and that has no
    model loaded: [indexFiles] loads the embedding model and reports
    [loading_embedding] and [saving] before [complete]. *)
Lemma C8_empty_batch_loads_embedder :
  exists s',
    run (fun _ => quiet_world) 0 (indexFiles [] open_engine)
    = Returned s' tt
    /\ map phase (reported s') = [loading_embedding; loading_embedding; saving; complete]
    /\ embeddingModel s' = Some 0
    /\ heap s' = [ {| model := EMBEDDING_MODEL; contextSize := EMBEDDING_CONTEXT_SIZE;
                      initialized := true; destroyed := false |} ].
Proof.
  eexists. split; [vm_compute; reflexivity|]. vm_compute. auto.
Qed.

(** The empty batch on that engine, as C8 is amended. *)
Lemma C8_empty_batch_on_open_engine :
  exists s' loading,
    run (fun _ => quiet_world) 0 (indexFiles [] open_engine)
    = Returned s' tt
    /\ reported s' = [] ++ loading ++ [saving_progress 0; complete_progress 0]
    /\ Forall (fun p => phase p = loading_embedding) loading
    /\ (@None ModelRef <> None ->
        loading = [] /\ embeddingModel s' = None /\ heap s' = [])
    /\ (@None ModelRef = None ->
        loading <> [] /\ embeddingModel s' = Some 0)
    /\ visionModel s' = None
    /\ store s' = empty_store.
Proof.
  apply (@C8_empty_batch float Binary64 (fun _ => quiet_world) open_engine 0).
  - reflexivity.
  - reflexivity.
  - intros t m. split; reflexivity.
Defined.

(* ------------------------------------------------------------------ *)
(** ** The search coordinator: the protocol *)
(* ------------------------------------------------------------------ *)

Section CoordinatorFacts.
Context {N : Type} {num : Number N}.
Implicit Types (s e : @Engine N) (m : Watch).
Implicit Types (ps : list (option (Reply (@Results N)))).

Lemma permits_coordinator : Permits (@coordinator_kept N) (@no_search_promise N).
Proof.
  constructor; unfold coordinator_kept; intros; cbn; try tauto.
  - intuition congruence.
  - destruct op; cbn in *; tauto.
Qed.

Lemma coordinator_kept_store v s : coordinator_kept s (set_store v s).
Proof. unfold coordinator_kept; cbn; tauto. Qed.

Lemma no_search_promise_embed mr text : no_search_promise (@Embed N mr text).
Proof. exact I. Qed.

Lemma watch_app tr ev :
  watch (tr ++ [ev]) =
  match watch tr with Some m => observe m ev | None => None end.
Proof. unfold watch. rewrite fold_left_app. reflexivity. Qed.

Lemma steps_in_state {A : Type} G okop s0 (r : @Res N A) :
  steps_in G okop s0 r -> G s0 (state_of r) /\ advance r = (r, []).
Proof. destruct r; cbn; intuition. Qed.

Lemma length_update_nth {A : Type} (f : A -> A) (l : list A) :
  forall n, List.length (update_nth n f l) = List.length l.
Proof. induction l; destruct n; cbn; auto. Qed.

Lemma nth_error_update_nth {A : Type} (f : A -> A) (l : list A) :
  forall n i y,
    nth_error (update_nth n f l) i = Some y ->
    (i = n /\ exists x, nth_error l i = Some x /\ y = f x) \/ nth_error l i = Some y.
Proof.
  induction l as [|a l IH]; intros [|n] [|i] y H; cbn in *; auto.
  - left. split; auto. exists a. split; congruence.
  - destruct (IH _ _ _ H) as [[-> (x & Hx & ->)]|Hr]; eauto.
Qed.

Lemma update_nth_split {A : Type} (f : A -> A) (pre : list A) x post :
  update_nth (List.length pre) f (pre ++ x :: post) = pre ++ f x :: post.
Proof. induction pre; cbn; congruence. Qed.

Lemma ledger_same m m' ps :
  pending m' = pending m -> superseded m' = superseded m ->
  dispatched m' = dispatched m -> ledger m ps -> ledger m' ps.
Proof. unfold ledger. intros -> -> ->. auto. Qed.

Lemma ledger_resolve m ps p r :
  ledger m ps -> In p (dispatched m) -> reply_ranked r ->
  ledger m (update_nth p (fun _ => Some r) ps).
Proof.
  unfold ledger. intros (H1 & H2 & H3 & H4 & H5) Hp Hr.
  rewrite length_update_nth. refine (conj H1 (conj H2 (conj H3 (conj _ _)))).
  - intros p0 r0 H. apply nth_error_update_nth in H as [[-> _]|H]; eauto.
  - intros p0 r0 H. apply nth_error_update_nth in H as [[-> (x & _ & E)]|H]; eauto.
    injection E as ->. exact Hr.
Qed.

Lemma ledger_pending m ps p :
  ledger m ps -> (In p (superseded m) \/ exists x, pending m = Some x /\ q_promise x = p) ->
  nth_error ps p = Some None.
Proof.
  intros (H1 & H2 & H3 & H4 & H5) Hp.
  assert (p < List.length ps /\ ~ In p (dispatched m)) as [Hlt Hn].
  { destruct Hp as [Hp|(x & Hx & <-)]; [apply H2; auto|]. apply H1 in Hx. tauto. }
  destruct (nth_error ps p) as [[r|]|] eqn:E; auto.
  - exfalso. eauto.
  - apply nth_error_None in E. lia.
Qed.

Lemma observe_queued m ps query :
  starting m = None -> ledger m ps -> Js.trim query <> "" ->
  exists m',
    observe m (Queued query (List.length ps)) = Some m'
    /\ running m' = running m
    /\ pending m' = Some {| q_query := query; q_promise := List.length ps |}
    /\ starting m' = None
    /\ dispatched m' = dispatched m
    /\ ledger m' (ps ++ [None]).
Proof.
  intros Hs (H1 & H2 & H3 & H4 & H5) Hq. cbn. rewrite Hs.
  eexists. split; [reflexivity|]. cbn.
  assert (forall p, In p match pending m with
                         | Some old => q_promise old :: superseded m
                         | None => superseded m
                         end ->
                    p < List.length ps /\ ~ In p (dispatched m)) as Hsup.
  { intros p Hp. destruct (pending m) as [old|] eqn:E; [|auto].
    destruct Hp as [<-|Hp]; [|auto]. destruct (H1 _ eq_refl) as (_ & ? & _ & ?); auto. }
  do 4 (split; [reflexivity|]).
  assert (forall p r, nth_error (ps ++ [None]) p = Some (Some r) ->
                      nth_error ps p = Some (Some r)) as Hold.
  { intros p r Hp.
    destruct (Nat.lt_ge_cases p (List.length ps)) as [Hlt|Hge].
    - rewrite nth_error_app1 in Hp by lia. exact Hp.
    - rewrite nth_error_app2 in Hp by lia.
      destruct (p - List.length ps) as [|[|n]]; cbn in Hp; discriminate. }
  unfold ledger; cbn. rewrite length_app; cbn.
  refine (conj _ (conj _ (conj _ (conj _ _)))).
  - intros x [= <-]. cbn. refine (conj Hq (conj _ (conj _ _))); [lia| |].
    + intros Hin. apply Hsup in Hin. lia.
    + intros Hin. apply H3 in Hin. lia.
  - intros p Hp. apply Hsup in Hp. split; [lia|tauto].
  - intros p Hp. apply H3 in Hp. lia.
  - intros p r Hp. eauto.
  - intros p r Hp. eauto.
Qed.

Lemma observe_dispatched m ps x :
  running m = None -> starting m = None -> pending m = Some x -> ledger m ps ->
  exists m',
    observe m (Dispatched (q_query x) (q_promise x)) = Some m'
    /\ running m' = None /\ pending m' = None
    /\ starting m' = Some (q_query x)
    /\ superseded m' = superseded m
    /\ dispatched m' = q_promise x :: dispatched m
    /\ ledger m' ps.
Proof.
  intros Hr Hs Hp (H1 & H2 & H3 & H4 & H5). cbn. rewrite Hr, Hs, Hp.
  unfold same_entry. rewrite String.eqb_refl, Nat.eqb_refl. cbn.
  eexists. split; [reflexivity|]. cbn.
  do 5 (split; [reflexivity|]).
  destruct (H1 _ Hp) as (_ & Hlt & Hns & Hnd).
  unfold ledger; cbn. refine (conj _ (conj _ (conj _ (conj _ H5)))).
  - discriminate.
  - intros p Hin. split; [apply H2; auto|].
    intros [<-|Hd]; [tauto|apply H2 in Hin; tauto].
  - intros p [<-|Hin]; auto.
  - eauto.
Qed.

Lemma observe_begin m query :
  running m = None -> (starting m = Some query \/ starting m = None /\ pending m = None) ->
  exists m',
    observe m (ExecBegin query) = Some m'
    /\ running m' = Some query /\ pending m' = pending m
    /\ starting m' = None
    /\ superseded m' = superseded m
    /\ dispatched m' = dispatched m.
Proof.
  intros Hr [Hs|[Hs Hp]]; cbn; rewrite Hr, Hs.
  - rewrite String.eqb_refl. eexists. split; [reflexivity|]. cbn. auto.
  - rewrite Hp. eexists. split; [reflexivity|]. cbn. auto.
Qed.

Lemma observe_end m query :
  running m = Some query -> starting m = None ->
  exists m',
    observe m (ExecEnd query) = Some m'
    /\ running m' = None /\ pending m' = pending m
    /\ starting m' = None
    /\ superseded m' = superseded m
    /\ dispatched m' = dispatched m.
Proof.
  intros Hr Hs; cbn; rewrite Hr, Hs, String.eqb_refl.
  eexists. split; [reflexivity|]. cbn. auto.
Qed.

End CoordinatorFacts.

Section ShellFacts.
Context {N : Type} {num : Number N}.
Implicit Types (s e : @Engine N) (m : Watch).


Lemma ranked_nil : @ranked N num [].
Proof. exists "", [], []. reflexivity. Qed.

Lemma returns_only_bind {A B : Type} (P : B -> Prop) (f : A -> @Async N B)
      (r : @Res N A) :
  (forall a s, returns_only P (f a s)) -> returns_only P (bind_res r f).
Proof.
  intros Hf. induction r as [s a|s e|s X op k IH|s q p k IH]; cbn; auto.
Qed.

Lemma query_rows_ranked query s : returns_only ranked (query_rows query s).
Proof.
  unfold query_rows, bind.
  apply returns_only_bind. intros s1 s2.
  apply returns_only_bind. intros _ s3.
  apply returns_only_bind. intros queryEmbedding s4.
  apply returns_only_bind. intros s5 s6.
  destruct (negb (db s5)); cbn; [exact I|].
  exists query, queryEmbedding, (select_files_with_vectors (store s5)). reflexivity.
Qed.

Lemma classify_done k s v waiter :
  classify k (@SearchTask N (Done s v) waiter) -> ranked v.
Proof.
  destruct k; cbn; try tauto.
  intros (s0 & r1 & _ & _ & Hw & E). destruct r1; cbn in Hw; try contradiction.
  discriminate.
Qed.

(** Where [search] stands when the [try] block of [executeSearch] stands
    at [r1]. *)
Lemma around_rows_kind query s0 (r1 : @Res N (@Results N)) :
  steps_in coordinator_kept no_search_promise s0 r1 ->
  returns_only ranked r1 ->
  advance (around_rows query r1) = (around_rows query r1, [])
  /\ ~ is_over (around_rows query r1)
  /\ ((coordinator_kept s0 (state_of (around_rows query r1))
       /\ forall waiter, classify (KExec query) (SearchTask (around_rows query r1) waiter))
      \/ (exists e1, coordinator_kept s0 e1 /\ state_of (around_rows query r1) = ended query e1)
         /\ forall waiter, classify KRelease (SearchTask (around_rows query r1) waiter)).
Proof.
  intros H R. destruct r1 as [s a|s err|s X op k|]; cbn in H; [| | |contradiction].
  - split; [reflexivity|]. split; [cbn; tauto|]. right. split.
    + exists s. split; [exact H|reflexivity].
    + intros waiter. split; [exact I|]. exists a. split; [exact R|].
      intros w s'. reflexivity.
  - split; [reflexivity|]. split; [cbn; tauto|]. right. split.
    + exists s. split; [exact H|reflexivity].
    + intros waiter. split; [exact I|]. exists []. split; [apply ranked_nil|].
      intros w s'. reflexivity.
  - split; [reflexivity|]. split; [cbn; tauto|]. left. split; [tauto|].
    intros waiter. exists s0, (Wait s op k). cbn. tauto.
Qed.

Lemma resume_around_rows query s1 X (op : @Op N X) k1 w e :
  resume (around_rows query (Wait s1 op k1)) w e
  = match ready e w op with
    | Some x => Some (around_rows query (k1 x e))
    | None => None
    end.
Proof. reflexivity. Qed.

Lemma search_gate_blank query s :
  Js.trim query = "" -> search_gate query s = Done s [].
Proof. intros H. unfold search_gate. rewrite H. reflexivity. Qed.

Lemma search_gate_busy query s :
  Js.trim query <> "" -> searchInProgress s = true ->
  state_of (search_gate query s) = parked query s
  /\ advance (search_gate query s) = (search_gate query s, [])
  /\ ~ is_over (search_gate query s)
  /\ forall waiter, classify KParked (SearchTask (search_gate query s) waiter).
Proof.
  intros Hq Hb. unfold search_gate.
  destruct (String.eqb_spec (Js.trim query) ""); [contradiction|].
  cbn. rewrite Hb. cbn. repeat split; auto.
  exists (List.length (search_promises s)). intros w s'.
  destruct (nth_error (search_promises s') (List.length (search_promises s))) as [[x|]|];
    reflexivity.
Qed.

Lemma search_gate_free query s :
  Js.trim query <> "" -> searchInProgress s = false ->
  search_gate query s = around_rows query (query_rows query (acquired query s)).
Proof.
  intros Hq Hb. unfold search_gate.
  destruct (String.eqb_spec (Js.trim query) ""); [contradiction|].
  cbn. rewrite Hb. reflexivity.
Qed.

Lemma search_closed query s :
  db s = false -> isInitialized s = false ->
  state_of (search query s) = set_isInitialized true (set_db true s)
  /\ advance (search query s) = (search query s, [])
  /\ ~ is_over (search query s)
  /\ forall waiter, classify (KInit query) (SearchTask (search query s) waiter).
Proof.
  intros H Hi. unfold search. cbn. rewrite H. cbn. rewrite Hi. cbn.
  split; [reflexivity|]. split; [reflexivity|]. split; [tauto|].
  intros waiter. split; [exact I|]. intros w s'. reflexivity.
Qed.

Lemma search_open query s :
  db s = true -> search query s = search_gate query s.
Proof. intros H. unfold search. cbn. rewrite H. reflexivity. Qed.

End ShellFacts.

Section AgreementFacts.
Context {N : Type} {num : Number N}.
Implicit Types (s e : @Engine N) (m : Watch).

Ltac agrees_intro := unfold agrees; refine (conj _ (conj _ (conj _ (conj _ _)))).

Lemma agrees_kept m st e e' :
  agrees m st e -> coordinator_kept e e' -> agrees m st e'.
Proof.
  unfold agrees, coordinator_kept.
  intros (H1 & H2 & H3 & H4 & H5) (G1 & G2 & G3 & G4 & G5).
  rewrite G1, G2, G3, G4. auto.
Qed.

Lemma agrees_deliver m st e k (t : @Task N) :
  agrees m st e -> waiter_known (dispatched m) t -> classify k t ->
  agrees m st (deliver e t).
Proof.
  intros (H1 & H2 & H3 & H4 & H5) Hw Hc.
  destruct t as [[s v|s err|s X op k0|s q p k0] [p0|]|B r];
    cbn [deliver resolve_search search_promises set_search_promises trace
         searchQueue searchInProgress];
    agrees_intro; try assumption; cbn; apply ledger_resolve; try assumption.
  - cbn. eapply classify_done; eassumption.
  - exact I.
Qed.

Lemma agrees_parked m e query :
  agrees m None e -> searchInProgress e = true -> Js.trim query <> "" ->
  exists m',
    agrees m' None (parked query e)
    /\ running m' = running m /\ dispatched m' = dispatched m.
Proof.
  intros (H1 & H2 & H3 & H4 & H5) Hb Hq.
  destruct (observe_queued query H2 H4 Hq) as (m' & O & R & P & S & D & L).
  exists m'. split; [|auto].
  agrees_intro; unfold parked; cbn -[watch observe]; auto.
  - rewrite watch_app, H1. exact O.
  - unfold slot. rewrite P. reflexivity.
  - congruence.
Qed.

Lemma agrees_acquired m st e query :
  agrees m st e -> searchInProgress e = false ->
  st = Some query \/ st = None ->
  exists m',
    agrees m' None (acquired query e)
    /\ running m' = Some query /\ dispatched m' = dispatched m.
Proof.
  intros (H1 & H2 & H3 & H4 & H5) Hb Hst.
  destruct (H5 Hb) as [Hr Hp].
  destruct (@observe_begin m query Hr) as (m' & O & R & P & S & U & D).
  { destruct Hst as [->| ->]; auto. }
  exists m'. split; [|auto].
  agrees_intro; unfold acquired; cbn -[watch observe]; auto.
  - rewrite watch_app, H1. exact O.
  - unfold slot. rewrite P. exact H3.
  - eapply ledger_same; eauto.
  - discriminate.
Qed.

Lemma agrees_ended m e query :
  agrees m None e -> running m = Some query ->
  exists m',
    agrees m' None (ended query e)
    /\ running m' = None /\ dispatched m' = dispatched m.
Proof.
  intros (H1 & H2 & H3 & H4 & H5) Hr.
  destruct (@observe_end m query Hr H2) as (m' & O & R & P & S & U & D).
  exists m'. split; [|auto].
  agrees_intro; unfold ended; cbn -[watch observe]; auto.
  - rewrite watch_app, H1. exact O.
  - unfold slot. rewrite P. exact H3.
  - eapply ledger_same; eauto.
  - rewrite P. intros Hb. destruct (H5 Hb). congruence.
Qed.

Lemma agrees_released m e :
  agrees m None e -> running m = None -> searchQueue e = [] ->
  agrees m None (released e).
Proof.
  intros (H1 & H2 & H3 & H4 & H5) Hr Hq.
  agrees_intro; unfold released; cbn; auto. intros _. split; [assumption|].
  rewrite Hq in H3. unfold slot in H3. destruct (pending m); [discriminate|reflexivity].
Qed.

Lemma agrees_handed_over m e x rest :
  agrees m None e -> running m = None -> searchQueue e = x :: rest ->
  rest = []
  /\ Js.trim (q_query x) <> ""
  /\ exists m',
       agrees m' (Some (q_query x)) (handed_over x rest e)
       /\ running m' = None /\ dispatched m' = q_promise x :: dispatched m.
Proof.
  intros (H1 & H2 & H3 & H4 & H5) Hr Hq.
  rewrite Hq in H3. unfold slot in H3.
  destruct (pending m) as [y|] eqn:P; [|discriminate].
  injection H3 as -> ->.
  destruct (observe_dispatched Hr H2 P H4) as (m' & O & R' & P' & S & U & D & L).
  split; [reflexivity|]. split; [apply H4; exact P|].
  exists m'. split; [|auto].
  agrees_intro; unfold handed_over; cbn -[watch observe]; auto.
  - rewrite watch_app, H1. exact O.
  - unfold slot. rewrite P'. reflexivity.
Qed.

End AgreementFacts.

(* ------------------------------------------------------------------ *)
(** ** The search coordinator: the stages of the calls in progress *)
(* ------------------------------------------------------------------ *)

Section StageFacts.
Context {N : Type} {num : Number N}.
Implicit Types (s e : @Engine N) (m : Watch).
Implicit Types (tagged tpre told tpost : list (Kind * @Task N)).

Lemma waiter_known_incl disp disp' (t : @Task N) :
  incl disp disp' -> waiter_known disp t -> waiter_known disp' t.
Proof. intros H. destruct t as [r [p|]|B r]; cbn; auto. Qed.

Lemma staged_put run disp locked run' disp' locked' tpre told tpost k' (t' : @Task N) :
  staged run disp locked (tpre ++ told ++ tpost) ->
  classify k' t' -> waiter_known disp' t' -> incl disp disp' ->
  (forall fpre fpost,
      fpre ++ filter held (map fst told) ++ fpost = lock_view locked run ->
      fpre ++ filter held [k'] ++ fpost = lock_view locked' run') ->
  staged run' disp' locked' (tpre ++ (k', t') :: tpost).
Proof.
  intros [C L] Hc Hw Hi Hl. split.
  - apply Forall_app in C as [C1 C]. apply Forall_app in C as [_ C2].
    apply Forall_app. split; [|constructor; [split; assumption|]].
    + eapply Forall_impl; [|exact C1]. cbn. intros a [? ?].
      split; [assumption|]. eapply waiter_known_incl; eassumption.
    + eapply Forall_impl; [|exact C2]. cbn. intros a [? ?].
      split; [assumption|]. eapply waiter_known_incl; eassumption.
  - rewrite !map_app, !filter_app in L.
    change ((k', t') :: tpost) with ([(k', t')] ++ tpost).
    rewrite !map_app, !filter_app. apply (Hl _ _ L).
Qed.

Lemma staged_known run disp locked tagged k (t : @Task N) :
  staged run disp locked tagged -> In (k, t) tagged ->
  classify k t /\ waiter_known disp t.
Proof.
  intros [C _] H. rewrite Forall_forall in C. apply (C _ H).
Qed.

Lemma pool_split tagged i (t : @Task N) :
  nth_error (map snd tagged) i = Some t ->
  exists tpre k tpost,
    tagged = tpre ++ [(k, t)] ++ tpost
    /\ forall k' t', put_task i t' (map snd tagged) = map snd (tpre ++ (k', t') :: tpost).
Proof.
  intros H. rewrite nth_error_map in H.
  destruct (nth_error tagged i) as [[k t0]|] eqn:E; [|discriminate].
  cbn in H. injection H as ->.
  destruct (nth_error_split _ _ E) as (tpre & tpost & -> & Hlen).
  exists tpre, k, tpost. split; [reflexivity|].
  intros k' t'. unfold put_task. rewrite length_map, length_app.
  cbn [List.length].
  destruct (Nat.ltb_spec i (List.length tpre + S (List.length tpost))); [|lia].
  rewrite !map_app. cbn [map snd]. rewrite <- Hlen, <- (length_map snd tpre).
  apply (update_nth_split (fun _ => t')).
Qed.

Lemma pool_end tagged k' (t' : @Task N) :
  put_task (List.length (map snd tagged)) t' (map snd tagged)
  = map snd (tagged ++ (k', t') :: []).
Proof.
  unfold put_task. rewrite Nat.ltb_irrefl, map_app. reflexivity.
Qed.

Lemma opened_put tpre told tpost kt e e' :
  opened (tpre ++ told ++ tpost) e -> db e' = true ->
  opened (tpre ++ kt :: tpost) e'.
Proof.
  intros _ H. split; [|auto]. intros E. destruct tpre; discriminate.
Qed.

End StageFacts.

Section PlacingFacts.
Context {N : Type} {num : Number N}.
Implicit Types (s e : @Engine N) (m : Watch).
Implicit Types (tagged tpre told tpost : list (Kind * @Task N)).

Lemma staged_rest run disp locked tpre told tpost :
  staged run disp locked (tpre ++ told ++ tpost) ->
  Forall (fun kt => classify (fst kt) (snd kt) /\ waiter_known disp (snd kt))
         (tpre ++ tpost).
Proof.
  intros [C _]. apply Forall_app in C as [C1 C]. apply Forall_app in C as [_ C2].
  apply Forall_app. auto.
Qed.

Lemma staged_free disp tpre told tpost :
  staged None disp false (tpre ++ told ++ tpost) ->
  filter held (map fst (tpre ++ tpost)) = [] /\ filter held (map fst told) = [].
Proof.
  intros [_ L]. rewrite !map_app, !filter_app in L. cbn in L.
  apply app_eq_nil in L as [L1 L]. apply app_eq_nil in L as [L2 L3].
  rewrite map_app, filter_app, L1, L3. auto.
Qed.

Lemma staged_holder_exec run disp locked tpre query (t : @Task N) tpost :
  staged run disp locked (tpre ++ [(KExec query, t)] ++ tpost) ->
  run = Some query /\ filter held (map fst (tpre ++ tpost)) = [].
Proof.
  intros [_ L]. rewrite !map_app, !filter_app in L. cbn in L.
  rewrite map_app, filter_app.
  destruct (filter held (map fst tpre)) as [|a [|b l]];
    destruct (filter held (map fst tpost)) as [|a' l'];
    destruct run as [q0|]; destruct locked; cbn in *; try discriminate.
  all: injection L as ->; auto.
Qed.

Lemma staged_holder_release run disp locked tpre (t : @Task N) tpost :
  staged run disp locked (tpre ++ [(KRelease, t)] ++ tpost) ->
  run = None /\ locked = true /\ filter held (map fst (tpre ++ tpost)) = [].
Proof.
  intros [_ L]. rewrite !map_app, !filter_app in L. cbn in L.
  rewrite map_app, filter_app.
  destruct (filter held (map fst tpre)) as [|a [|b l]];
    destruct (filter held (map fst tpost)) as [|a' l'];
    destruct run as [q0|]; destruct locked; cbn in *; try discriminate.
  auto.
Qed.

Lemma staged_build run disp disp' locked tpre tpost k' (t' : @Task N) :
  Forall (fun kt => classify (fst kt) (snd kt) /\ waiter_known disp (snd kt))
         (tpre ++ tpost) ->
  incl disp disp' ->
  filter held (map fst (tpre ++ tpost)) = [] ->
  classify k' t' -> waiter_known disp' t' ->
  filter held [k'] = lock_view locked run ->
  staged run disp' locked (tpre ++ (k', t') :: tpost).
Proof.
  intros C Hi F Hc Hw Hl. split.
  - apply Forall_app in C as [C1 C2].
    apply Forall_app. split; [|constructor; [split; assumption|]].
    + eapply Forall_impl; [|exact C1]. cbn. intros a [? ?].
      split; [assumption|]. eapply waiter_known_incl; eassumption.
    + eapply Forall_impl; [|exact C2]. cbn. intros a [? ?].
      split; [assumption|]. eapply waiter_known_incl; eassumption.
  - rewrite map_app, filter_app in F. apply app_eq_nil in F as [F1 F2].
    change ((k', t') :: tpost) with ([(k', t')] ++ tpost).
    rewrite !map_app, !filter_app, F1, F2, app_nil_r. exact Hl.
Qed.

Lemma deliver_fields e (t : @Task N) :
  searchInProgress (deliver e t) = searchInProgress e
  /\ db (deliver e t) = db e /\ trace (deliver e t) = trace e.
Proof.
  destruct t as [[s v|s err|s X op k|s q p k] [p0|]|B r]; cbn; auto.
Qed.

Lemma deliver_waiting e r waiter :
  ~ is_over r -> deliver e (@SearchTask N r waiter) = e.
Proof. destruct r, waiter; cbn; tauto. Qed.

Lemma deliver_holds st m tagged e k (t : @Task N) :
  agrees m st e ->
  staged (running m) (dispatched m) (searchInProgress e) tagged ->
  In (k, t) tagged ->
  agrees m st (deliver e t)
  /\ staged (running m) (dispatched m) (searchInProgress (deliver e t)) tagged.
Proof.
  intros A S Hin. destruct (deliver_fields e t) as (F1 & F2 & F3).
  split.
  - destruct (staged_known _ _ S Hin) as [Hc Hw]. eapply agrees_deliver; eassumption.
  - rewrite F1. exact S.
Qed.

Lemma coordinated_intro st m tagged e kt :
  agrees m st e ->
  staged (running m) (dispatched m) (searchInProgress e) tagged ->
  db e = true -> In kt tagged ->
  coordinated_with st {| engine := e; pool := map snd tagged |}.
Proof.
  intros A S D Hin. exists m, tagged. cbn.
  split; [reflexivity|]. split; [exact A|split; [exact S|]].
  split; [|auto]. intros ->. destruct Hin.
Qed.

Lemma install_quiet i (t : @Task N) sys :
  advance_task t = (t, []) ->
  install i t sys = {| engine := deliver (task_state t) t;
                       pool := put_task i t (pool sys) |}.
Proof. intros H. unfold install. rewrite H. cbn. rewrite app_nil_r. reflexivity. Qed.

Lemma place_quiet m st e e' tpre told tpost k' (t' : @Task N) :
  agrees m st e ->
  staged (running m) (dispatched m) (searchInProgress e) (tpre ++ told ++ tpost) ->
  coordinator_kept e e' ->
  classify k' t' -> waiter_known (dispatched m) t' ->
  filter held (map fst told) = filter held [k'] ->
  agrees m st e'
  /\ staged (running m) (dispatched m) (searchInProgress e') (tpre ++ (k', t') :: tpost)
  /\ trace e' = trace e.
Proof.
  intros A S K Hc Hw Hf. split; [eapply agrees_kept; eassumption|].
  destruct K as (-> & _ & K3 & _). split; [|exact K3].
  eapply staged_put; try eassumption.
  - apply incl_refl.
  - intros fpre fpost. rewrite Hf. auto.
Qed.

(** The call that holds the lock stops at an await of [executeSearch], or
    at the tick before its [finally] block, [executeSearch] being over. *)
Lemma place_holder m e query tpre tpost r1 waiter :
  agrees m None e -> running m = Some query -> searchInProgress e = true ->
  Forall (fun kt => classify (fst kt) (snd kt) /\ waiter_known (dispatched m) (snd kt))
         (tpre ++ tpost) ->
  filter held (map fst (tpre ++ tpost)) = [] ->
  steps_in coordinator_kept no_search_promise e r1 ->
  returns_only ranked r1 ->
  known (dispatched m) waiter ->
  exists m' k',
    agrees m' None (state_of (around_rows query r1))
    /\ staged (running m') (dispatched m')
              (searchInProgress (state_of (around_rows query r1)))
              (tpre ++ (k', SearchTask (around_rows query r1) waiter) :: tpost)
    /\ dispatched m' = dispatched m
    /\ (db e = true -> db (state_of (around_rows query r1)) = true)
    /\ advance (around_rows query r1) = (around_rows query r1, [])
    /\ ~ is_over (around_rows query r1)
    /\ exists ext, trace (state_of (around_rows query r1)) = trace e ++ ext.
Proof.
  intros A R B C F Hs Hr Hw.
  destruct (around_rows_kind query _ _ Hs Hr)
    as (Ha & Ho & [[K Hc]|[(e1 & K & E) Hc]]).
  - exists m, (KExec query). split; [eapply agrees_kept; eassumption|].
    destruct K as (K1 & K2 & K3 & K4 & K5). rewrite K1, B, R.
    split; [eapply staged_build; eauto using incl_refl|].
    do 4 (split; [auto|]). exists []. rewrite app_nil_r. exact K3.
  - pose proof (agrees_kept A K) as A1.
    destruct (agrees_ended A1 R) as (m' & A' & R' & D').
    exists m', KRelease. rewrite E. split; [exact A'|].
    destruct K as (K1 & K2 & K3 & K4 & K5).
    cbn [ended searchInProgress set_trace db trace]. rewrite K1, B, R', D'.
    split; [eapply staged_build; eauto using incl_refl|].
    do 4 (split; [auto|]). exists [ExecEnd query]. rewrite K3. reflexivity.
Qed.

Lemma install_spawn i s0 query p v waiter (sys : @System N) :
  install i (SearchTask (Spawn s0 query p (fun s' => Done s' v)) waiter) sys
  = {| engine :=
         deliver (deliver (state_of (search query s0))
                          (SearchTask (Done (state_of (search query s0)) v) waiter))
                 (SearchTask (search query s0) (Some p));
       pool := put_task i (SearchTask (Done (state_of (search query s0)) v) waiter)
                        (pool sys)
               ++ [SearchTask (search query s0) (Some p)] |}.
Proof. reflexivity. Qed.

Lemma release_empty v e :
  searchQueue e = [] -> release v e = Done (released e) v.
Proof.
  intros Q. unfold release, search_finally, bind, modify, get. cbn. rewrite Q.
  reflexivity.
Qed.

Lemma release_next v e x rest :
  searchQueue e = x :: rest ->
  release v e
  = Spawn (handed_over x rest e) (q_query x) (q_promise x) (fun s' => Done s' v).
Proof.
  intros Q. unfold release, search_finally, bind, modify, get. cbn. rewrite Q.
  reflexivity.
Qed.

Lemma steps_in_resume {A : Type} G okop s0 (r r' : @Res N A) w e :
  steps_in G okop s0 r -> resume r w e = Some r' -> steps_in G okop e r'.
Proof.
  destruct r as [| |s X op k|]; cbn; try discriminate.
  intros (_ & _ & H). destruct (ready e w op); [|discriminate].
  intros [= <-]. apply H.
Qed.

Lemma indexFiles_opens files e :
  isInitialized e = false -> db (state_of (indexFiles files e)) = true.
Proof.
  intros H. unfold indexFiles. cbn. rewrite H. cbn. rewrite H. reflexivity.
Qed.

End PlacingFacts.

Section GateFacts.
Context {N : Type} {num : Number N}.
Implicit Types (s e : @Engine N) (m : Watch).
Implicit Types (tagged tpre told tpost : list (Kind * @Task N)).

Lemma coordinator_kept_refl e : coordinator_kept e e.
Proof. apply (permits_refl permits_coordinator). Qed.

(** A call at [search_gate]: it returns at once for a blank query, takes
    the slot when a search is in progress, and the lock otherwise. *)
Lemma place_gate m st e query tpre told tpost waiter :
  agrees m st e ->
  staged (running m) (dispatched m) (searchInProgress e) (tpre ++ told ++ tpost) ->
  filter held (map fst told) = [] ->
  st = None \/ (st = Some query /\ Js.trim query <> "" /\ searchInProgress e = false) ->
  known (dispatched m) waiter ->
  exists m' k',
    agrees m' None (state_of (search_gate query e))
    /\ staged (running m') (dispatched m')
              (searchInProgress (state_of (search_gate query e)))
              (tpre ++ (k', SearchTask (search_gate query e) waiter) :: tpost)
    /\ dispatched m' = dispatched m
    /\ (db e = true -> db (state_of (search_gate query e)) = true)
    /\ advance (search_gate query e) = (search_gate query e, [])
    /\ exists ext, trace (state_of (search_gate query e)) = trace e ++ ext.
Proof.
  intros A S F Hst Hw.
  destruct (String.eqb_spec (Js.trim query) "") as [Hq|Hq].
  - destruct Hst as [->|(_ & Hn & _)]; [|contradiction].
    rewrite (search_gate_blank _ _ Hq). exists m, KOver. cbn [state_of advance].
    destruct (@place_quiet _ _ m None e e tpre told tpost KOver
                (SearchTask (Done e []) waiter) A S) as (A' & S' & _);
      auto using coordinator_kept_refl; [apply ranked_nil|].
    do 5 (split; [auto|]). exists []. rewrite app_nil_r. reflexivity.
  - destruct (searchInProgress e) eqn:B.
    + destruct Hst as [->|(_ & _ & Hn)]; [|discriminate].
      destruct (search_gate_busy query e Hq B) as (E & Ha & Ho & Hc).
      destruct (agrees_parked query A B Hq) as (m' & A' & R' & D').
      exists m', KParked. rewrite E. split; [exact A'|].
      cbn [parked searchInProgress set_trace set_searchQueue set_search_promises db
           trace].
      rewrite R', D', B. split.
      { eapply staged_put; try eassumption; auto using incl_refl.
        intros fpre fpost. rewrite F. auto. }
      do 3 (split; [auto|]). eexists. reflexivity.
    + destruct (agrees_acquired (query := query) A B) as (m1 & A1 & R1 & D1).
      { destruct Hst as [->|(-> & _)]; auto. }
      assert (running m = None) as Rm by (apply A; exact B).
      rewrite Rm in S. pose proof (staged_rest _ _ _ S) as C.
      destruct (staged_free _ _ _ S) as [F0 _].
      rewrite (search_gate_free _ _ Hq B).
      destruct (@place_holder _ _ m1 (acquired query e) query tpre tpost
                  (query_rows query (acquired query e)) waiter A1 R1 eq_refl)
        as (m' & k' & A' & S' & D' & Hdb & Ha & Ho & ext & Ht).
      * rewrite D1. exact C.
      * exact F0.
      * apply (frame_query_rows permits_coordinator no_search_promise_embed).
      * apply query_rows_ranked.
      * rewrite D1. exact Hw.
      * exists m', k'. split; [exact A'|]. split; [exact S'|].
        split; [congruence|]. split; [exact Hdb|]. split; [exact Ha|].
        exists (ExecBegin query :: ext). rewrite Ht. unfold acquired. cbn [trace set_trace].
        rewrite <- app_assoc. reflexivity.
Qed.

End GateFacts.

(* ------------------------------------------------------------------ *)
(** ** The search coordinator: every step of the event loop *)
(* ------------------------------------------------------------------ *)

Section StepFacts.
Context {N : Type} {num : Number N}.
Implicit Types (s e : @Engine N) (m : Watch) (sys : @System N).
Implicit Types (tagged tpre told tpost : list (Kind * @Task N)).

(** A task that stops without starting a search is put back. *)
Lemma put_quiet m e' tagged' k' t' i sys :
  agrees m None e' ->
  staged (running m) (dispatched m) (searchInProgress e') tagged' ->
  db e' = true -> In (k', t') tagged' ->
  advance_task t' = (t', []) -> task_state t' = e' ->
  put_task i t' (pool sys) = map snd tagged' ->
  (exists ext, trace e' = trace (engine sys) ++ ext) ->
  coordinated (install i t' sys) /\ extends sys (install i t' sys).
Proof.
  intros A S D Hin Ha Hs Hp (ext & Ht).
  rewrite (install_quiet _ _ Ha), Hs, Hp.
  destruct (deliver_holds _ _ A S Hin) as [A' S'].
  destruct (deliver_fields e' t') as (F1 & F2 & F3).
  split.
  - eapply coordinated_intro; eauto; congruence.
  - exists ext. cbn. congruence.
Qed.

Lemma step_gate m e tpre told tpost query waiter i sys :
  engine sys = e ->
  agrees m None e ->
  staged (running m) (dispatched m) (searchInProgress e) (tpre ++ told ++ tpost) ->
  filter held (map fst told) = [] ->
  known (dispatched m) waiter ->
  db e = true ->
  (forall k' t', put_task i t' (pool sys) = map snd (tpre ++ (k', t') :: tpost)) ->
  coordinated (install i (SearchTask (search_gate query e) waiter) sys)
  /\ extends sys (install i (SearchTask (search_gate query e) waiter) sys).
Proof.
  intros He A S F Hw D Hp.
  destruct (@place_gate _ _ m None e query tpre told tpost waiter A S F)
    as (m' & k' & A' & S' & D' & Hdb & Ha & Ht); auto.
  eapply put_quiet; eauto.
  - apply in_elt.
  - unfold advance_task. rewrite Ha. reflexivity.
  - rewrite He. exact Ht.
Qed.

(** The [finally] block: the lock is released and, when a call is queued,
    it is handed over and takes the lock in the same step. *)
Lemma step_release m e tpre t0 tpost v waiter i sys :
  engine sys = e ->
  agrees m None e ->
  staged (running m) (dispatched m) (searchInProgress e)
         (tpre ++ [(KRelease, t0)] ++ tpost) ->
  known (dispatched m) waiter ->
  ranked v ->
  db e = true ->
  (forall k' t', put_task i t' (pool sys) = map snd (tpre ++ (k', t') :: tpost)) ->
  coordinated (install i (SearchTask (release v e) waiter) sys)
  /\ extends sys (install i (SearchTask (release v e) waiter) sys).
Proof.
  intros He A S Hw Hv D Hp.
  destruct (staged_holder_release _ _ _ S) as (R & B & F).
  pose proof (staged_rest _ _ _ S) as C.
  destruct (searchQueue e) as [|x rest] eqn:Q.
  - rewrite (release_empty _ _ Q).
    eapply (@put_quiet m (released e) (tpre ++ (KOver, _) :: tpost) KOver); eauto.
    + apply agrees_released; assumption.
    + cbn [released searchInProgress set_searchInProgress].
      eapply staged_build; eauto using incl_refl.
      rewrite R. reflexivity.
    + apply in_elt.
    + exists []. rewrite app_nil_r, He. reflexivity.
  - destruct (agrees_handed_over A R Q) as (-> & Hq & m3 & A3 & R3 & D3).
    rewrite (release_next _ _ Q), install_spawn.
    set (e3 := handed_over x [] e) in *.
    assert (db e3 = true) as Db3 by exact D.
    rewrite (search_open _ _ Db3).
    set (parent := SearchTask (Done (state_of (search_gate (q_query x) e3)) v) waiter).
    assert (staged (running m3) (dispatched m3) (searchInProgress e3)
                   ((tpre ++ (KOver, parent) :: tpost) ++ [] ++ [])) as S3.
    { rewrite !app_nil_r, R3, D3. eapply staged_build; eauto.
      - apply incl_tl, incl_refl.
      - cbn. destruct waiter; cbn in *; auto. }
    destruct (@place_gate _ _ m3 (Some (q_query x)) e3 (q_query x) _ [] []
                (Some (q_promise x)) A3 S3)
      as (m' & k' & A' & S' & D' & Hdb & Ha & ext & Ht); auto.
    { rewrite D3. left. reflexivity. }
    set (child := SearchTask (search_gate (q_query x) e3) (Some (q_promise x))) in *.
    rewrite (Hp KOver).
    replace (map snd (tpre ++ (KOver, parent) :: tpost) ++ [child])
      with (map snd ((tpre ++ (KOver, parent) :: tpost) ++ [(k', child)]))
      by (rewrite map_app; reflexivity).
    assert (In (KOver, parent) ((tpre ++ (KOver, parent) :: tpost) ++ [(k', child)]))
      as In1 by (apply in_or_app; left; apply in_elt).
    assert (In (k', child) ((tpre ++ (KOver, parent) :: tpost) ++ [(k', child)]))
      as In2 by (apply in_or_app; right; left; reflexivity).
    destruct (deliver_holds _ _ A' S' In1) as [A1 S1].
    destruct (deliver_fields (state_of (search_gate (q_query x) e3)) parent)
      as (F1 & F2 & F3).
    destruct (deliver_holds _ _ A1 S1 In2) as [A2 S2].
    destruct (deliver_fields (deliver (state_of (search_gate (q_query x) e3)) parent) child)
      as (G1 & G2 & G3).
    split.
    + eapply coordinated_intro; eauto; rewrite G2, F2; auto.
    + exists (Dispatched (q_query x) (q_promise x) :: ext). cbn [engine].
      rewrite G3, F3, Ht, He. unfold e3, handed_over. cbn [trace set_trace].
      rewrite <- app_assoc. reflexivity.
Qed.

Lemma query_rows_waits query s : is_wait (query_rows query s).
Proof.
  unfold query_rows, loadEmbeddingModel, generateEmbedding. cbn.
  destruct (embeddingModel s) as [m0|] eqn:E; cbn.
  - rewrite E. cbn. rewrite E. cbn. exact I.
  - destruct (embeddingModelLoading s), (embeddingModelLoadPromise s); cbn;
      rewrite ?E; cbn; exact I.
Qed.

Lemma deliver_queue e (t : @Task N) : searchQueue (deliver e t) = searchQueue e.
Proof.
  destruct t as [[s v|s err|s X op k|s q p k] [p0|]|B r]; cbn; auto.
Qed.

Lemma held_single tagged k :
  filter held (map fst tagged) = [k] ->
  exists tpre t0 tpost, tagged = tpre ++ [(k, t0)] ++ tpost.
Proof.
  induction tagged as [|[k0 t0] tagged IH]; cbn [map fst filter]; [discriminate|].
  destruct (held k0) eqn:H.
  - intros [= -> _]. exists [], t0, tagged. reflexivity.
  - intros E. destruct (IH E) as (tpre & t1 & tpost & ->).
    exists ((k0, t0) :: tpre), t1, tpost. reflexivity.
Qed.

(** What the [finally] block leaves: with nothing queued the lock is free
    and the trace as it was; with a call queued, that call is handed over,
    its [executeSearch] has begun, the lock is held and the slot is empty. *)
Lemma release_step_engine m e v waiter i sys :
  agrees m None e -> running m = None -> db e = true ->
  let sys' := install i (SearchTask (release v e) waiter) sys in
  searchQueue (engine sys') = []
  /\ match searchQueue e with
     | [] =>
         searchInProgress (engine sys') = false
         /\ trace (engine sys') = trace e
     | next :: _ =>
         searchInProgress (engine sys') = true
         /\ trace (engine sys')
            = trace e ++ [Dispatched (q_query next) (q_promise next);
                          ExecBegin (q_query next)]
     end.
Proof.
  intros A R D. cbv zeta.
  destruct (searchQueue e) as [|x rest] eqn:Q.
  - rewrite (release_empty _ _ Q), install_quiet by reflexivity.
    cbn [engine task_state state_of].
    destruct (deliver_fields (released e) (SearchTask (Done (released e) v) waiter))
      as (F1 & _ & F3).
    rewrite deliver_queue, F1, F3. cbn. auto.
  - destruct (agrees_handed_over A R Q) as (-> & Hq & _).
    rewrite (release_next _ _ Q), install_spawn. cbn [engine].
    set (e3 := handed_over x [] e).
    assert (db e3 = true) as Db3 by exact D.
    rewrite (search_open _ _ Db3).
    rewrite (search_gate_free _ _ Hq) by reflexivity.
    pose proof (query_rows_waits (q_query x) (acquired (q_query x) e3)) as Hw.
    pose proof (frame_query_rows permits_coordinator no_search_promise_embed
                  (q_query x) (acquired (q_query x) e3)) as Hs.
    destruct (query_rows (q_query x) (acquired (q_query x) e3))
      as [| |s1 X op k|]; try contradiction.
    destruct Hs as ((K1 & K2 & K3 & _) & _).
    cbn [around_rows finally_res bind_res catch_res state_of].
    rewrite !deliver_queue.
    repeat match goal with
           | |- context [deliver ?a ?b] =>
               destruct (deliver_fields a b) as (-> & _ & ->)
           end.
    rewrite K1, K2, K3. unfold e3, acquired, handed_over. cbn.
    rewrite <- app_assoc. auto.
Qed.

End StepFacts.

Section ReachableFacts.
Context {N : Type} {num : Number N}.
Implicit Types (s e : @Engine N) (m : Watch) (sys : @System N).
Implicit Types (tagged tpre told tpost : list (Kind * @Task N)).

(** A call of another method stops: it has kept what the coordinator
    owns. *)
Lemma step_other {B : Type} m e tpre told tpost (r' : @Res N B) i sys :
  engine sys = e ->
  agrees m None e ->
  staged (running m) (dispatched m) (searchInProgress e) (tpre ++ told ++ tpost) ->
  filter held (map fst told) = [] ->
  steps_in coordinator_kept no_search_promise e r' ->
  db (state_of r') = true ->
  (forall k' t', put_task i t' (pool sys) = map snd (tpre ++ (k', t') :: tpost)) ->
  coordinated (install i (OtherTask r') sys)
  /\ extends sys (install i (OtherTask r') sys).
Proof.
  intros He A S F Hs D Hp.
  destruct (steps_in_state _ _ _ _ Hs) as [K Ha].
  destruct (@place_quiet _ _ m None e (state_of r') tpre told tpost KOther
              (OtherTask r') A S K) as (A' & S' & T').
  { exists e. exact Hs. }
  { exact I. }
  { rewrite F. reflexivity. }
  eapply put_quiet; eauto.
  - apply in_elt.
  - unfold advance_task. rewrite Ha. reflexivity.
  - exists []. rewrite app_nil_r, He. exact T'.
Qed.

(** A call of a method that keeps what the coordinator owns, and opens the
    database when it finds it closed. *)
Lemma call_other {B : Type} (method : @Async N B) sys :
  coordinated sys ->
  frame coordinator_kept no_search_promise method ->
  (isInitialized (engine sys) = false ->
   db (state_of (method (engine sys))) = true) ->
  coordinated (install (List.length (pool sys)) (OtherTask (method (engine sys))) sys)
  /\ extends sys (install (List.length (pool sys)) (OtherTask (method (engine sys))) sys).
Proof.
  intros (m & tagged & Hp & A & S & O) Hf Hopen. rewrite Hp.
  pose proof (Hf (engine sys)) as Hs.
  eapply (@step_other _ m (engine sys) tagged [] []); eauto.
  - rewrite app_nil_r. exact S.
  - destruct tagged as [|kt tagged].
    + apply Hopen. apply O. reflexivity.
    + apply steps_in_state in Hs as [(_ & _ & _ & _ & K) _].
      apply K, O. discriminate.
  - intros k' t'. rewrite Hp. apply pool_end.
Qed.

Lemma getAllFiles_opens e :
  isInitialized e = false -> db (state_of (getAllFiles e)) = true.
Proof.
  intros H. unfold getAllFiles. cbn.
  destruct (db e) eqn:D; cbn; [rewrite D; cbn; exact D|rewrite H; reflexivity].
Qed.

Lemma getFileCount_opens e :
  isInitialized e = false -> db (state_of (getFileCount e)) = true.
Proof.
  intros H. unfold getFileCount. cbn.
  destruct (db e) eqn:D; cbn; [rewrite D; cbn; exact D|rewrite H; reflexivity].
Qed.

Lemma clearAll_opens e :
  isInitialized e = false -> db (state_of (clearAll e)) = true.
Proof.
  intros H. unfold clearAll. cbn.
  destruct (db e) eqn:D; cbn; [rewrite D; cbn; exact D|rewrite H; reflexivity].
Qed.

(** Every step of the event loop keeps the invariant, and the trace goes
    on. *)
Lemma step_coordinated sys ev sys' :
  coordinated sys -> step sys ev = Some sys' ->
  coordinated sys' /\ extends sys sys'.
Proof.
  intros Hc0 Hstep. pose proof Hc0 as (m & tagged & Hp & A & S & O).
  destruct ev as [query|files| | | | |modelSlug|i w]; unfold step in Hstep.
  - injection Hstep as <-. rewrite Hp.
    destruct (db (engine sys)) eqn:D.
    + rewrite (search_open _ _ D).
      eapply (@step_gate _ _ m (engine sys) tagged [] []); eauto.
      * rewrite app_nil_r. exact S.
      * exact I.
      * intros k' t'. rewrite Hp. apply pool_end.
    + assert (tagged = []) as ->.
      { destruct tagged; [reflexivity|]. destruct O as [_ O].
        rewrite O in D; discriminate. }
      destruct O as [O _]. specialize (O eq_refl).
      destruct (search_closed query _ D O) as (E & Ha & Ho & Hc).
      destruct (@place_quiet _ _ m None (engine sys) (state_of (search query (engine sys)))
                  [] [] [] (KInit query) (SearchTask (search query (engine sys)) None)
                  A S) as (A' & S' & T'); auto.
      { rewrite E. apply (permits_initialize permits_coordinator). }
      { exact I. }
      eapply (@put_quiet _ _ m _ ([] ++ [(KInit query, _)]));
        [exact A'|exact S'|rewrite E; reflexivity|left; reflexivity
        |unfold advance_task; rewrite Ha; reflexivity|reflexivity|rewrite Hp; reflexivity
        |exists []; rewrite app_nil_r; exact T'].
  - injection Hstep as <-. apply call_other; [exact Hc0| |].
    + apply (frame_indexFiles permits_coordinator no_search_promise_embed
                              coordinator_kept_store).
    + apply indexFiles_opens.
  - injection Hstep as <-. apply call_other; [exact Hc0| |].
    + apply (frame_initialize permits_coordinator).
    + intros H. unfold initialize. cbn. rewrite H. reflexivity.
  - injection Hstep as <-. apply call_other; [exact Hc0| |].
    + apply (frame_getAllFiles permits_coordinator).
    + apply getAllFiles_opens.
  - injection Hstep as <-. apply call_other; [exact Hc0| |].
    + apply (frame_getFileCount permits_coordinator).
    + apply getFileCount_opens.
  - injection Hstep as <-. apply call_other; [exact Hc0| |].
    + apply (frame_clearAll permits_coordinator coordinator_kept_store).
    + apply clearAll_opens.
  - injection Hstep as <-. split.
    + exists m, tagged. cbn [engine pool]. split; [exact Hp|]. split; [|split].
      * eapply agrees_kept; [exact A|]. unfold coordinator_kept. cbn. tauto.
      * exact S.
      * exact O.
    + exists []. rewrite app_nil_r. reflexivity.
  - destruct (nth_error (pool sys) i) as [t|] eqn:E; [|discriminate].
    rewrite Hp in E.
    destruct (pool_split _ _ E) as (tpre & k & tpost & -> & Hput).
    rewrite <- Hp in Hput.
    assert (db (engine sys) = true) as D.
    { apply O. destruct tpre; discriminate. }
    pose proof S as [C _]. apply Forall_app in C as [_ C].
    apply Forall_inv in C. cbn [fst snd] in C. destruct C as [Hc Hw].
    destruct t as [r waiter|B r].
    + destruct (resume r w (engine sys)) as [r'|] eqn:R; [|discriminate].
      injection Hstep as <-. cbn in Hw.
      destruct k; cbn in Hc; try contradiction.
      * destruct Hc as (_ & Hc). rewrite Hc in R. injection R as <-.
        eapply (@step_gate _ _ m (engine sys) tpre [(KInit query, _)] tpost); eauto.
      * destruct Hc as (_ & p & Hc). rewrite Hc in R.
        destruct (nth_error (search_promises (engine sys)) p) as [[x|]|] eqn:Ex;
          try discriminate.
        injection R as <-.
        assert (reply_ranked x) as Hx.
        { destruct A as (_ & _ & _ & (_ & _ & _ & _ & L) & _). exact (L _ _ Ex). }
        assert (over_ranked (settle x (engine sys))
                /\ state_of (settle x (engine sys)) = engine sys
                /\ advance (settle x (engine sys)) = (settle x (engine sys), []))
          as (Ho & Es & Ha) by (destruct x; cbn; auto).
        destruct (@place_quiet _ _ m None (engine sys) (engine sys) tpre
                    [(KParked, SearchTask r waiter)] tpost KOver
                    (SearchTask (settle x (engine sys)) waiter) A S)
          as (A' & S' & T'); auto using coordinator_kept_refl.
        eapply (@put_quiet _ _ m (engine sys)
                  (tpre ++ (KOver, SearchTask (settle x (engine sys)) waiter) :: tpost));
          [exact A'|exact S'|exact D|apply in_elt
          |unfold advance_task; rewrite Ha; reflexivity|exact Es|apply Hput
          |exists []; rewrite app_nil_r; reflexivity].
      * destruct Hc as (s0 & r1 & Hs & Hr & Hwait & ->).
        destruct r1 as [| |s1 X op k1|]; try contradiction.
        rewrite resume_around_rows in R.
        destruct (ready (engine sys) w op) as [x|]; [|discriminate].
        injection R as <-.
        destruct Hs as (_ & _ & Hs). specialize (Hs x (engine sys)).
        specialize (Hr x (engine sys)).
        pose proof S as S0. apply staged_holder_exec in S0 as [Rm F].
        assert (searchInProgress (engine sys) = true) as B.
        { destruct (searchInProgress (engine sys)) eqn:B; [reflexivity|].
          destruct A as (_ & _ & _ & _ & A). destruct (A B). congruence. }
        destruct (@place_holder _ _ m (engine sys) query tpre tpost
                    (k1 x (engine sys)) waiter A Rm B (staged_rest _ _ _ S) F Hs Hr Hw)
          as (m' & k' & A' & S' & D' & Hdb & Ha & Ho & Ht).
        eapply (@put_quiet _ _ m' _ _ k');
          [exact A'|exact S'|auto|apply in_elt
          |unfold advance_task; rewrite Ha; reflexivity|reflexivity|apply Hput
          |exact Ht].
      * destruct Hc as (_ & v & Hv & Hc). rewrite Hc in R. injection R as <-.
        eapply step_release; eauto.
      * destruct r; cbn in Hc, R; try contradiction; discriminate.
    + destruct (resume r w (engine sys)) as [r'|] eqn:R; [|discriminate].
      injection Hstep as <-.
      destruct k; cbn in Hc; try contradiction.
      destruct Hc as (s0 & Hs).
      pose proof (steps_in_resume _ _ _ _ _ _ Hs R) as Hs'.
      eapply (@step_other _ m (engine sys) tpre [(KOther, _)] tpost); eauto.
      apply steps_in_state in Hs' as [(_ & _ & _ & _ & K) _]. auto.
Qed.

End ReachableFacts.

Section ReachableClaims.
Context {N : Type} {num : Number N}.
Implicit Types (s e : @Engine N) (m : Watch) (sys : @System N).

Lemma boot_coordinated st cache now : coordinated (@boot N st cache now).
Proof.
  exists at_rest, []. cbn. split; [reflexivity|]. split; [|split].
  - unfold agrees. cbn. refine (conj _ (conj _ (conj _ (conj _ _)))); auto.
    unfold ledger. cbn. refine (conj _ (conj _ (conj _ (conj _ _)))).
    + discriminate.
    + contradiction.
    + contradiction.
    + intros [|p] r; discriminate.
    + intros [|p] r; discriminate.
  - split; [constructor|reflexivity].
  - split; [reflexivity|]. intros H; contradiction.
Qed.

Lemma extends_refl sys : extends sys sys.
Proof. exists []. rewrite app_nil_r. reflexivity. Qed.

Lemma extends_trans sys1 sys2 sys3 :
  extends sys1 sys2 -> extends sys2 sys3 -> extends sys1 sys3.
Proof.
  intros [a Ha] [b Hb]. exists (a ++ b). rewrite Hb, Ha, app_assoc. reflexivity.
Qed.

Lemma exec_coordinated evs :
  forall sys sys',
    coordinated sys -> exec sys evs = Some sys' ->
    coordinated sys' /\ extends sys sys'.
Proof.
  induction evs as [|ev evs IH]; intros sys sys' C H; cbn in H.
  - injection H as <-. split; [exact C|apply extends_refl].
  - destruct (step sys ev) as [sys1|] eqn:E; [|discriminate].
    destruct (step_coordinated _ C E) as [C1 X1].
    destruct (IH _ _ C1 H) as [C2 X2].
    split; [exact C2|eapply extends_trans; eassumption].
Qed.

(** The invariant holds in every reachable state. *)
Lemma reachable_coordinated st cache now sys :
  reachable st cache now sys -> coordinated sys.
Proof.
  intros [evs H]. eapply exec_coordinated; [apply boot_coordinated|exact H].
Qed.

Lemma observe_grows m ev m' :
  observe m ev = Some m' ->
  incl (superseded m) (superseded m') /\ incl (dispatched m) (dispatched m').
Proof.
  destruct ev as [q p|q p|q|q]; cbn.
  - destruct (starting m); [discriminate|]. intros [= <-]. cbn.
    split; [|apply incl_refl].
    destruct (pending m); [apply incl_tl|]; apply incl_refl.
  - destruct (running m), (starting m), (pending m) as [x|]; try discriminate.
    destruct (same_entry x q p); [|discriminate]. intros [= <-]. cbn.
    split; [apply incl_refl|apply incl_tl, incl_refl].
  - destruct (running m); [discriminate|].
    destruct (starting m) as [q'|].
    + destruct (String.eqb q' q); [|discriminate]. intros [= <-]. cbn.
      split; apply incl_refl.
    + destruct (pending m); [discriminate|]. intros [= <-]. cbn.
      split; apply incl_refl.
  - destruct (running m) as [q'|]; [|discriminate].
    destruct (starting m); [discriminate|].
    destruct (String.eqb q' q); [|discriminate]. intros [= <-]. cbn.
    split; apply incl_refl.
Qed.

(** A call that is superseded, or handed over, stays so. *)
Lemma watch_grows tr ext :
  forall m', watch (tr ++ ext) = Some m' ->
  exists m, watch tr = Some m
            /\ incl (superseded m) (superseded m')
            /\ incl (dispatched m) (dispatched m').
Proof.
  induction ext as [|ev ext IH] using rev_ind; intros m' H.
  - rewrite app_nil_r in H. exists m'. auto using incl_refl.
  - rewrite app_assoc, watch_app in H.
    destruct (watch (tr ++ ext)) as [m1|] eqn:E; [|discriminate].
    destruct (IH _ eq_refl) as (m & Hm & I1 & I2).
    destruct (observe_grows _ _ H) as [J1 J2].
    exists m. split; [exact Hm|]. split; eapply incl_tran; eassumption.
Qed.

Lemma coordinated_open sys :
  coordinated sys -> searchInProgress (engine sys) = true -> db (engine sys) = true.
Proof.
  intros (m & tagged & Hp & A & [_ L] & O) B. apply O.
  intros ->. rewrite B in L. cbn in L. destruct (running m); discriminate.
Qed.

(** A call made while a search is in progress is parked. *)
Lemma call_while_busy sys query :
  db (engine sys) = true -> searchInProgress (engine sys) = true ->
  Js.trim query <> "" ->
  exists sys',
    step sys (CallSearch query) = Some sys'
    /\ engine sys' = parked query (engine sys).
Proof.
  intros D B Hq. eexists. split; [reflexivity|].
  rewrite (search_open _ _ D).
  destruct (search_gate_busy query (engine sys) Hq B) as (E & Ha & Ho & _).
  rewrite install_quiet by (unfold advance_task; rewrite Ha; reflexivity).
  cbn [engine task_state]. rewrite deliver_waiting by exact Ho. exact E.
Qed.

(** The call that holds the lock when [executeSearch] is over runs the
    [finally] block at its next step. *)
Lemma holder_releases sys m :
  coordinated sys -> watch (trace (engine sys)) = Some m ->
  searchInProgress (engine sys) = true -> running m = None ->
  exists i, forall w, exists sys',
    step sys (Resume i w) = Some sys'
    /\ searchQueue (engine sys') = []
    /\ match searchQueue (engine sys) with
       | [] =>
           searchInProgress (engine sys') = false
           /\ trace (engine sys') = trace (engine sys)
       | next :: _ =>
           searchInProgress (engine sys') = true
           /\ trace (engine sys')
              = trace (engine sys) ++ [Dispatched (q_query next) (q_promise next);
                                       ExecBegin (q_query next)]
       end.
Proof.
  intros (m0 & tagged & Hp & A & S & O) W B Rm.
  assert (m0 = m) as -> by (destruct A as (W0 & _); congruence).
  pose proof S as [C L]. rewrite B, Rm in L. cbn [lock_view] in L.
  destruct (held_single _ L) as (tpre & t0 & tpost & ->).
  apply Forall_app in C as [_ C]. apply Forall_inv in C. cbn [fst snd] in C.
  destruct C as [Hc _].
  destruct t0 as [r waiter|X r]; cbn in Hc; [|contradiction].
  destruct Hc as (_ & v & _ & Hres).
  assert (db (engine sys) = true) as D by (apply O; destruct tpre; discriminate).
  exists (List.length tpre). intros w. unfold step.
  rewrite Hp, map_app, nth_error_app2 by (rewrite length_map; lia).
  rewrite length_map, Nat.sub_diag. cbn [app map snd nth_error].
  rewrite Hres. eexists. split; [reflexivity|].
  now apply (@release_step_engine _ _ m).
Qed.

(** What [search] returns, and what a promise is resolved with, is a
    ranking. *)
Lemma reachable_ranked st cache now sys :
  reachable st cache now sys ->
  (forall s v waiter, In (SearchTask (Done s v) waiter) (pool sys) -> ranked v)
  /\ (forall p v, nth_error (search_promises (engine sys)) p = Some (Some (Resolved v)) ->
        ranked v).
Proof.
  intros R. destruct (reachable_coordinated R) as (m & tagged & Hp & A & S & O).
  split.
  - intros s v waiter Hin. rewrite Hp in Hin. apply in_map_iff in Hin.
    destruct Hin as ((k & t) & E & Hin). cbn in E. subst t.
    destruct (staged_known _ _ S Hin) as [Hc _].
    eapply classify_done; eassumption.
  - intros p v Hv. destruct A as (_ & _ & _ & (_ & _ & _ & _ & L) & _).
    apply (L _ _ Hv).
Qed.

End ReachableClaims.

(* ------------------------------------------------------------------ *)
(** ** The search coordinator and the model lifecycle: the claims *)
(* ------------------------------------------------------------------ *)

Section CoordinatorClaims.
Context {N : Type} {num : Number N}.
Implicit Types (sys : @System N).


(** C10. The promise of a queued call that a later call has overwritten
    is never settled: whatever calls of [search] and of the other public
    methods of the event loop follow and however they interleave, in every
    state reached from then on it is still pending, and it is not one the
    coordinator has handed over.  The promises that are settled are those of
    calls handed over. *)
Theorem C10_superseded_promise_never_settles st cache now sys evs sys' :
  reachable st cache now sys -> exec sys evs = Some sys' ->
  exists m m',
    watch (trace (engine sys)) = Some m
    /\ watch (trace (engine sys')) = Some m'
    /\ (forall p, In p (superseded m) ->
          nth_error (search_promises (engine sys')) p = Some None
          /\ ~ In p (dispatched m'))
    /\ (forall p r, nth_error (search_promises (engine sys')) p = Some (Some r) ->
          In p (dispatched m')).
Proof.
  intros R E. pose proof (reachable_coordinated R) as C.
  destruct (exec_coordinated _ C E) as [C' [ext X]].
  destruct C' as (m' & tagged' & Hp' & (W' & St' & Q' & L' & F') & S' & O').
  rewrite X in W'. destruct (watch_grows _ _ W') as (m & W & I1 & I2).
  exists m, m'. rewrite X. split; [exact W|]. split; [exact W'|]. split.
  - intros p Hp. split.
    + eapply ledger_pending; [exact L'|]. left. apply I1, Hp.
    + apply L'. apply I1, Hp.
  - apply L'.
Qed.

End CoordinatorClaims.

Section RankingClaims.
Local Open Scope R_scope.

(** C2.  [rank], the sort and the slice of [executeSearch], gives at most
    [SEARCH_RESULTS_LIMIT] results, in non-increasing order of similarity,
    each the score of one of the rows, and among the scored rows of one
    similarity the results are the first ones, in the order of the rows.
    And whatever the calls made on the engine and however they interleave,
    a list that a [search] call has returned, or that the promise of a queued
    call was resolved with, is such a ranking: [[]], as for a blank query or
    after an error, is the ranking of no rows. *)
Theorem C2_top_k_sorted_stable :
  (forall (query : string) (queryEmbedding : list R) (rows : list Row),
      let scored := map (score_row query queryEmbedding) rows in
      let results := rank query queryEmbedding rows in
      (List.length results <= SEARCH_RESULTS_LIMIT)%nat
      /\ sorted_by_similarity results
      /\ (forall r, In r results -> In r scored)
      /\ (forall v, exists n,
            with_similarity v results = firstn n (with_similarity v scored)))
  /\ (forall st cache now (sys : @System R),
        reachable st cache now sys ->
        (forall s results waiter,
            In (SearchTask (Done s results) waiter) (pool sys) ->
            exists query queryEmbedding rows,
              results = rank query queryEmbedding rows)
        /\ (forall p results,
              nth_error (search_promises (engine sys)) p = Some (Some (Resolved results)) ->
              exists query queryEmbedding rows,
                results = rank query queryEmbedding rows)).
Proof.
  split.
  - intros query queryEmbedding rows. cbv zeta.
    destruct (rank_top_k query queryEmbedding rows) as [Hlen Hsorted].
    split; [exact Hlen|]. split; [exact Hsorted|]. split.
    + apply rank_incl.
    + intros v. apply rank_stable.
  - intros st cache now sys Hr.
    destruct (reachable_ranked Hr) as [Hpool Hpromises]. split.
    + intros s results waiter Hin. exact (Hpool _ _ _ Hin).
    + intros p results Hp. exact (Hpromises _ _ Hp).
Qed.

End RankingClaims.

(** [search] returns that result: similarity -0.89999999999999991 and
    distance 1.8999999999999999 on binary64. *)
Example search_returns_negative_similarity :
  match run (fun _ => unit_embedder) 0 (search "sunset" (new_engine dog_store "/cache" 0)) with
  | Returned _ results =>
      map (fun r => (similarity r, distance r)) results
      = [((-0x1.cccccccccccccp-1)%float, 0x1.e666666666666p+0%float)]
  | _ => False
  end.
Proof. vm_compute. reflexivity. Qed.

(** A search over four stored pictures: the one matching both words first,
    the two matching one word next, in the order of the rows. *)
Example search_white_cat :
  match run (fun _ => quiet_world) 0 (search "white cat" (new_engine pets "/cache" 0)) with
  | Returned _ results => map (fun r => id (record r)) results = [4; 1; 3; 2]
  | _ => False
  end.
Proof. vm_compute. reflexivity. Qed.


(** There the lock is held, no [executeSearch] runs and the third call is in
    the slot. *)
Example first_cat_over_state :
  option_map (fun sys => (trace (engine sys), searchInProgress (engine sys),
                          searchQueue (engine sys),
                          option_map running (watch (trace (engine sys)))))
             (exec (boot empty_store "/cache" 0) first_cat_over)
  = Some ([ExecBegin "cat"; Queued "dog" 0; Queued "cat" 1; ExecEnd "cat"], true,
          [ {| q_query := "cat"; q_promise := 1 |} ], Some None).
Proof. vm_compute. reflexivity. Qed.

(** The next step of the first call hands the third call over. *)
Example first_cat_hands_over :
  option_map (fun sys => (trace (engine sys), searchInProgress (engine sys),
                          searchQueue (engine sys)))
             (exec (boot empty_store "/cache" 0) (first_cat_over ++ [Resume 0 quiet_world]))
  = Some ([ExecBegin "cat"; Queued "dog" 0; Queued "cat" 1; ExecEnd "cat";
           Dispatched "cat" 1; ExecBegin "cat"], true, []).
Proof. vm_compute. reflexivity. Qed.

Example three_calls_trace :
  option_map (fun sys => (trace (engine sys), searchQueue (engine sys)))
             (exec (boot empty_store "/cache" 0) three_calls)
  = Some ([ExecBegin "cat"; Queued "dog" 0; Queued "cat" 1],
          [ {| q_query := "cat"; q_promise := 1 |} ]).
Proof. vm_compute. reflexivity. Qed.

Example queued_cat_runs_trace :
  option_map (fun sys => (trace (engine sys), search_promises (engine sys)))
             (exec (boot empty_store "/cache" 0) (three_calls ++ queued_cat_runs))
  = Some ([ExecBegin "cat"; Queued "dog" 0; Queued "cat" 1; ExecEnd "cat";
           Dispatched "cat" 1; ExecBegin "cat"; ExecEnd "cat"],
          [None; Some (Resolved [])]).
Proof. vm_compute. reflexivity. Qed.

Lemma C10_dog_superseded :
  exists sys sys',
    exec (boot empty_store "/cache" 0) three_calls = Some sys
    /\ exec sys queued_cat_runs = Some sys'
    /\ exists m m',
      watch (trace (engine sys)) = Some m
      /\ watch (trace (engine sys')) = Some m'
      /\ (forall p, In p (superseded m) ->
            nth_error (search_promises (engine sys')) p = Some None
            /\ ~ In p (dispatched m'))
      /\ (forall p r, nth_error (search_promises (engine sys')) p = Some (Some r) ->
            In p (dispatched m')).
Proof.
  destruct (exec (boot empty_store "/cache" 0) three_calls) as [sys|] eqn:E.
  - destruct (exec sys queued_cat_runs) as [sys'|] eqn:E'.
    + exists sys, sys'. split; [reflexivity|]. split; [exact E'|].
      apply (@C10_superseded_promise_never_settles
               float Binary64 empty_store "/cache" 0 sys queued_cat_runs sys').
      * exists three_calls. exact E.
      * exact E'.
    + assert (is_some match exec (boot empty_store "/cache" 0) three_calls with
                      | Some s => exec s queued_cat_runs
                      | None => None
                      end = true) as H by (vm_compute; reflexivity).
      rewrite E, E' in H. discriminate.
  - apply (f_equal is_some) in E. vm_compute in E. discriminate.
Defined.

(** C5. Both models are resident at once: [indexFiles] has loaded the
    vision model for its captioning phase, a [search] called meanwhile has
    loaded the embedder, and neither load unloads the other model. *)
Theorem C5_both_models_resident :
  option_map
    (fun sys =>
       (visionModel (engine sys), resident (engine sys) (visionModel (engine sys)),
        embeddingModel (engine sys), resident (engine sys) (embeddingModel (engine sys)),
        load_promises (engine sys)))
    (exec (boot empty_store "/cache" 0) picture_then_search)
  = Some (Some 0, true, Some 1, true, [Some (Resolved tt)]).
Proof. vm_compute. reflexivity. Qed.

(** C6. A call of [loadEmbeddingModel] made while the embedder is being
    loaded does not wait for it: the handle is set before the download, so
    the call returns at once, and [indexFiles] goes on to embed with a model
    that is not initialized yet. *)
Theorem C6_load_in_flight_not_awaited :
  (forall (s : @Engine float) m,
      embeddingModel s = Some m -> loadEmbeddingModel s = Done s tt)
  /\ option_map
       (fun sys =>
          (embeddingModelLoading (engine sys), load_promises (engine sys),
           embeddingModel (engine sys), resident (engine sys) (embeddingModel (engine sys)),
           map awaited_embed (pool sys)))
       (exec (boot empty_store "/cache" 0) search_then_document)
     = Some (true, [None], Some 0, false, [None; Some (0, "PDF document: a")]).
Proof.
  split.
  - intros s m H. unfold loadEmbeddingModel. cbn. rewrite H. reflexivity.
  - vm_compute. reflexivity.
Qed.

(* ================================================================== *)
(** * Further properties of the code *)
(* ================================================================== *)

(* ------------------------------------------------------------------ *)
(** ** Scoring: bounds and symmetry *)
(* ------------------------------------------------------------------ *)

Section ScoreBounds.
Local Open Scope R_scope.

Lemma sum_list_cons (x : R) (l : list R) : sum_list (x :: l) = x + sum_list l.
Proof. reflexivity. Qed.

Lemma sum_squares_nonneg (a : list R) : 0 <= sum_list (map (fun x => x * x) a).
Proof.
  induction a as [|x a IH]; [cbn; lra|].
  cbn [map]. rewrite sum_list_cons. pose proof (Rle_0_sqr x) as H.
  unfold Rsqr in H. lra.
Qed.

(** Cauchy-Schwarz, on lists of one length. *)
Lemma dot_product_squared (a : list R) :
  forall b : list R,
    List.length a = List.length b ->
    dot_product a b * dot_product a b
    <= sum_list (map (fun x => x * x) a) * sum_list (map (fun x => x * x) b).
Proof.
  induction a as [|x a IH]; intros [|y b] Hlen; try discriminate.
  - cbn. lra.
  - injection Hlen as Hlen. specialize (IH b Hlen).
    pose proof (sum_squares_nonneg a) as Ha.
    pose proof (sum_squares_nonneg b) as Hb.
    unfold dot_product in *. cbn [combine map fst snd]. rewrite !sum_list_cons.
    set (D := sum_list (map (fun p => fst p * snd p) (combine a b))) in *.
    set (A := sum_list (map (fun x => x * x) a)) in *.
    set (B := sum_list (map (fun x => x * x) b)) in *.
    assert (K : 2 * (x * y) * D <= x * x * B + y * y * A).
    { destruct (Req_dec A 0) as [A0|A0].
      - assert (D = 0) by (rewrite A0 in IH; nra).
        subst D. rewrite H, A0. nra.
      - assert (0 < A) by lra.
        apply Rmult_le_reg_l with A; [assumption|].
        pose proof (Rle_0_sqr (x * D - y * A)) as Q. unfold Rsqr in Q. nra. }
    nra.
Qed.

Lemma dot_product_sym (a : list R) :
  forall b : list R, dot_product a b = dot_product b a.
Proof.
  unfold dot_product.
  induction a as [|x a IH]; intros [|y b]; try reflexivity.
  cbn [combine map fst snd]. rewrite !sum_list_cons, IH. lra.
Qed.

Lemma dot_product_self (a : list R) :
  dot_product a a = sum_list (map (fun x => x * x) a).
Proof.
  unfold dot_product. induction a as [|x a IH]; [reflexivity|].
  cbn [combine map fst snd]. now rewrite !sum_list_cons, IH.
Qed.

Lemma norm_zero_all_zero (a : list R) :
  euclidean_norm a = 0 <-> Forall (fun x => x = 0) a.
Proof.
  unfold euclidean_norm. split.
  - intros H. apply sqrt_eq_0 in H; [|apply sum_squares_nonneg].
    induction a as [|x a IH]; [constructor|].
    cbn [map] in H. rewrite sum_list_cons in H.
    pose proof (sum_squares_nonneg a). pose proof (Rle_0_sqr x) as Q.
    unfold Rsqr in Q.
    constructor; [nra|]. apply IH. nra.
  - intros H. replace (sum_list _) with 0; [apply sqrt_0|].
    induction H as [|x a Hx _ IH]; [reflexivity|].
    cbn [map]. rewrite sum_list_cons, <- IH, Hx. lra.
Qed.

(** Where the cosine is defined it is between -1 and 1. *)
Lemma cosine_similarity_bounds (a b : list R) :
  List.length a = List.length b ->
  euclidean_norm a * euclidean_norm b <> 0 ->
  -1 <= cosine_similarity a b <= 1.
Proof.
  intros Hlen Z. unfold cosine_similarity.
  pose proof (dot_product_squared a b Hlen) as CS.
  pose proof (sum_squares_nonneg a) as Ha.
  pose proof (sum_squares_nonneg b) as Hb.
  unfold euclidean_norm in *.
  set (A := sum_list (map (fun x => x * x) a)) in *.
  set (B := sum_list (map (fun x => x * x) b)) in *.
  set (D := dot_product a b) in *.
  pose proof (sqrt_pos A) as PA. pose proof (sqrt_pos B) as PB.
  pose proof (sqrt_sqrt A Ha) as SA. pose proof (sqrt_sqrt B Hb) as SB.
  assert (P : 0 < R_sqrt.sqrt A * R_sqrt.sqrt B) by nra.
  assert (Q : D * D <= (R_sqrt.sqrt A * R_sqrt.sqrt B) * (R_sqrt.sqrt A * R_sqrt.sqrt B)) by nra.
  split.
  - apply Rmult_le_reg_r with (R_sqrt.sqrt A * R_sqrt.sqrt B); [exact P|].
    unfold Rdiv. rewrite Rmult_assoc, Rinv_l by lra. nra.
  - apply Rmult_le_reg_r with (R_sqrt.sqrt A * R_sqrt.sqrt B); [exact P|].
    unfold Rdiv. rewrite Rmult_assoc, Rinv_l by lra. nra.
Qed.

(** X1.  Over the reals, [cosineSimilarity] is between -1 and 1 for every
    pair of arrays, those of different lengths and the zero vectors
    included. *)
Theorem X1_cosine_between_minus_one_and_one (a b : list R) :
  -1 <= cosineSimilarity a b <= 1.
Proof.
  destruct (Nat.eq_dec (List.length a) (List.length b)) as [Hlen|Hlen];
    [|rewrite (cosineSimilarity_mismatch _ _ Hlen); lra].
  destruct (Req_dec (euclidean_norm a * euclidean_norm b) 0) as [Z|Z];
    [rewrite (cosineSimilarity_degenerate _ _ Hlen Z); lra|].
  rewrite (cosineSimilarity_cosine _ _ Hlen Z).
  now apply cosine_similarity_bounds.
Qed.

(** X2.  Over the reals, [cosineSimilarity] does not depend on the order of
    its arguments, and the similarity of an array with itself is 1, or 0 when
    all its entries are 0 (the empty array included). *)
Theorem X2_cosine_symmetric_and_reflexive (a b : list R) :
  cosineSimilarity a b = cosineSimilarity b a
  /\ (Forall (fun x => x = 0) a -> cosineSimilarity a a = 0)
  /\ (~ Forall (fun x => x = 0) a -> cosineSimilarity a a = 1).
Proof.
  split; [|split].
  - destruct (Nat.eq_dec (List.length a) (List.length b)) as [Hlen|Hlen].
    + destruct (Req_dec (euclidean_norm a * euclidean_norm b) 0) as [Z|Z].
      * rewrite (cosineSimilarity_degenerate _ _ Hlen Z).
        rewrite cosineSimilarity_degenerate; [reflexivity|now symmetry|].
        rewrite Rmult_comm. exact Z.
      * rewrite (cosineSimilarity_cosine _ _ Hlen Z).
        rewrite cosineSimilarity_cosine; [|now symmetry|rewrite Rmult_comm; exact Z].
        unfold cosine_similarity. rewrite dot_product_sym.
        now rewrite (Rmult_comm (euclidean_norm a)).
    + rewrite (cosineSimilarity_mismatch _ _ Hlen).
      rewrite cosineSimilarity_mismatch; [reflexivity|congruence].
  - intros H. apply cosineSimilarity_degenerate; [reflexivity|].
    apply norm_zero_all_zero in H. rewrite H. lra.
  - intros H.
    assert (Z : euclidean_norm a <> 0) by (intros Z; apply H, norm_zero_all_zero, Z).
    rewrite cosineSimilarity_cosine; [|reflexivity|nra].
    unfold cosine_similarity. rewrite dot_product_self.
    unfold euclidean_norm in *.
    rewrite (sqrt_sqrt _ (sum_squares_nonneg a)).
    field. intros A0. apply Z. rewrite A0. apply sqrt_0.
Qed.

End ScoreBounds.

Section KeywordFacts.
Local Open Scope R_scope.

Lemma filter_length_all {A : Type} (f : A -> bool) (l : list A) :
  List.length (filter f l) = List.length l <-> forall x, In x l -> f x = true.
Proof.
  induction l as [|x l IH]; cbn [filter List.length In]; [tauto|].
  pose proof (filter_length_le f l) as Hle.
  destruct (f x) eqn:E; cbn [List.length]; split.
  - intros H y [<-|Hy]; [exact E|]. apply IH; [lia|exact Hy].
  - intros H. f_equal. apply IH. auto.
  - lia.
  - intros H. specialize (H x (or_introl eq_refl)). congruence.
Qed.

Lemma filter_length_none {A : Type} (f : A -> bool) (l : list A) :
  List.length (filter f l) = 0%nat <-> forall x, In x l -> f x = false.
Proof.
  induction l as [|x l IH]; cbn [filter List.length In]; [tauto|].
  destruct (f x) eqn:E; cbn [List.length]; split.
  - discriminate.
  - intros H. specialize (H x (or_introl eq_refl)). congruence.
  - intros H y [<-|Hy]; [exact E|]. now apply IH.
  - intros H. apply IH. auto.
Qed.

(** The score as a quotient of two counts. *)
Lemma keywordMatchScore_counts (query text : string) :
  query_words query <> [] ->
  keywordMatchScore query text
  = INR (List.length (filter (Js.includes (Js.toLowerCase text)) (query_words query)))
    / INR (List.length (query_words query)).
Proof.
  intros H. unfold keywordMatchScore.
  destruct (query_words query) as [|w ws] eqn:E; [contradiction|].
  cbn [List.length Nat.eqb]. rewrite match_count_filter. reflexivity.
Qed.

Lemma keywordMatchScore_no_words (query text : string) :
  query_words query = [] -> keywordMatchScore query text = 0.
Proof. intros H. unfold keywordMatchScore. rewrite H. reflexivity. Qed.

Lemma keywordMatchScore_bounds (query text : string) :
  0 <= keywordMatchScore query text <= 1.
Proof.
  destruct (query_words query) as [|w ws] eqn:E.
  - rewrite keywordMatchScore_no_words by assumption. lra.
  - rewrite keywordMatchScore_counts by congruence. rewrite E.
    set (words := w :: ws).
    pose proof (filter_length_le (Js.includes (Js.toLowerCase text)) words) as Hle.
    assert (0 < INR (List.length words)) as Hpos by (apply lt_0_INR; cbn; lia).
    apply le_INR in Hle.
    pose proof (pos_INR (List.length (filter (Js.includes (Js.toLowerCase text)) words))).
    split.
    + apply Rmult_le_reg_r with (INR (List.length words)); [assumption|].
      unfold Rdiv. rewrite Rmult_assoc, Rinv_l by lra. lra.
    + apply Rmult_le_reg_r with (INR (List.length words)); [assumption|].
      unfold Rdiv. rewrite Rmult_assoc, Rinv_l by lra. lra.
Qed.

(** X3.  Over the reals, [keywordMatchScore] is between 0 and 1; it is 0 for
    a query without a word of more than two characters; otherwise it is 1
    exactly when every such word of the lower-cased query occurs in the
    lower-cased text, and 0 exactly when none does. *)
Theorem X3_keyword_score_is_a_fraction (query text : string) :
  let words := query_words query in
  let occurs := Js.includes (Js.toLowerCase text) in
  0 <= keywordMatchScore query text <= 1
  /\ (words = [] -> keywordMatchScore query text = 0)
  /\ (words <> [] ->
      (keywordMatchScore query text = 1 <-> forall w, In w words -> occurs w = true)
      /\ (keywordMatchScore query text = 0 <-> forall w, In w words -> occurs w = false)).
Proof.
  cbv zeta. split; [apply keywordMatchScore_bounds|].
  split; [apply keywordMatchScore_no_words|].
  intros H. rewrite keywordMatchScore_counts by assumption.
  set (words := query_words query) in *.
  set (occurs := Js.includes (Js.toLowerCase text)).
  assert (0 < INR (List.length words)) as Hpos.
  { apply lt_0_INR. destruct words; [contradiction|cbn; lia]. }
  split.
  - rewrite <- filter_length_all. split.
    + intros E. apply INR_eq.
      apply (f_equal (fun x => x * INR (List.length words))) in E.
      unfold Rdiv in E. rewrite Rmult_assoc, Rinv_l in E by lra. lra.
    + intros ->. field. lra.
  - rewrite <- filter_length_none. split.
    + intros E. apply INR_eq.
      apply (f_equal (fun x => x * INR (List.length words))) in E.
      unfold Rdiv in E. rewrite Rmult_assoc, Rinv_l in E by lra. cbn [INR]. lra.
    + intros ->. cbn [INR]. field. lra.
Qed.

End KeywordFacts.

Section CaseFacts.
Context {N : Type} {num : Number N}.

Lemma lower_char_idem (c : ascii) : Js.lower_char (Js.lower_char c) = Js.lower_char c.
Proof. destruct c as [[] [] [] [] [] [] [] []]; vm_compute; reflexivity. Qed.

Lemma toLowerCase_idem (s : string) :
  Js.toLowerCase (Js.toLowerCase s) = Js.toLowerCase s.
Proof.
  induction s as [|c s IH]; [reflexivity|].
  cbn [Js.toLowerCase]. now rewrite lower_char_idem, IH.
Qed.

(** X4.  [keywordMatchScore] ignores case: lower-casing the query, the text
    or both gives the same score, for real and for binary64 numbers alike. *)
Theorem X4_keyword_score_ignores_case (query text : string) :
  keywordMatchScore (Js.toLowerCase query) text = keywordMatchScore query text
  /\ keywordMatchScore query (Js.toLowerCase text) = keywordMatchScore query text.
Proof.
  unfold keywordMatchScore, query_words. now rewrite !toLowerCase_idem.
Qed.

End CaseFacts.

Section SimilarityRange.
Local Open Scope R_scope.

Lemma keywordScore_bounds (query : string) (row : Row) :
  0 <= keywordScore query row <= 1.
Proof.
  unfold keywordScore. cbn [num_max Real].
  pose proof (keywordMatchScore_bounds query (Js.opt_or_else (caption (row_file row)) "")).
  pose proof (keywordMatchScore_bounds query (Js.or_else (filename (row_file row)) "")).
  unfold Rmax. destruct (Rle_dec _ _); lra.
Qed.

(** X5.  Over the reals, every scored row has a similarity between -0.9 and
    1 and a distance between 0 and 1.9; when the cosine similarity of the
    two embeddings is not negative, the similarity is not negative either
    and the distance is at most 1. *)
Theorem X5_similarity_and_distance_range
        (query : string) (queryEmbedding : list R) (row : Row) :
  let result := score_row query queryEmbedding row in
  -0.9 <= similarity result <= 1
  /\ 0 <= distance result <= 1.9
  /\ (0 <= semanticScore queryEmbedding row ->
      0 <= similarity result /\ distance result <= 1).
Proof.
  cbv zeta.
  change (distance (score_row query queryEmbedding row))
    with (1 - similarity (score_row query queryEmbedding row)).
  rewrite similarity_real, hybridScore_real.
  assert (C : -1 <= semanticScore queryEmbedding row <= 1).
  { unfold semanticScore.
    destruct (Nat.eq_dec (List.length queryEmbedding) (List.length (row_embedding row)))
      as [Hlen|Hlen]; [|rewrite (cosineSimilarity_mismatch _ _ Hlen); lra].
    destruct (Req_dec (euclidean_norm queryEmbedding * euclidean_norm (row_embedding row)) 0)
      as [Z|Z]; [rewrite (cosineSimilarity_degenerate _ _ Hlen Z); lra|].
    rewrite (cosineSimilarity_cosine _ _ Hlen Z). now apply cosine_similarity_bounds. }
  pose proof (keywordScore_bounds query row) as K.
  unfold Rmin. destruct (Rle_dec _ _); repeat split; try lra.
Qed.

End SimilarityRange.

Section TopK.
Local Open Scope R_scope.

Lemma sorted_app_le (l1 l2 : list (@SearchResult R)) :
  sorted_by_similarity (l1 ++ l2) ->
  forall r x, In r l1 -> In x l2 -> similarity x <= similarity r.
Proof.
  unfold sorted_by_similarity.
  induction l1 as [|y l1 IH]; intros H r x Hr Hx; [destruct Hr|].
  cbn in H. apply StronglySorted_inv in H. destruct H as [H1 H2].
  destruct Hr as [<-|Hr].
  - rewrite Forall_forall in H2. apply H2, in_or_app. now right.
  - now apply IH.
Qed.

(** X6.  [rank] returns exactly min(SEARCH_RESULTS_LIMIT, number of rows)
    results, and they are the best ones: the scored rows are the results
    together with the rows left out, and no row left out has a similarity
    above that of a result. *)
Theorem X6_rank_keeps_the_best
        (query : string) (queryEmbedding : list R) (rows : list Row) :
  let scored := map (score_row query queryEmbedding) rows in
  let results := rank query queryEmbedding rows in
  List.length results = Nat.min SEARCH_RESULTS_LIMIT (List.length rows)
  /\ exists rest,
       Permutation scored (results ++ rest)
       /\ forall r x, In r results -> In x rest -> similarity x <= similarity r.
Proof.
  cbv zeta. unfold rank. destruct rows as [|row rows].
  - split; [reflexivity|]. exists []. split; [constructor|]. intros r x [].
  - set (scored := map _ (row :: rows)).
    set (sorted := sort_by by_similarity scored).
    assert (P : Permutation sorted scored) by apply sort_by_perm.
    split.
    + rewrite length_firstn, (Permutation_length P). unfold scored.
      now rewrite length_map.
    + exists (skipn SEARCH_RESULTS_LIMIT sorted). split.
      * rewrite firstn_skipn. now symmetry.
      * apply sorted_app_le. rewrite firstn_skipn. apply sort_sorted.
Qed.

End TopK.

(* ------------------------------------------------------------------ *)
(** ** The tables *)
(* ------------------------------------------------------------------ *)

Section StoreFacts.
Context {N : Type} {num : Number N}.
Implicit Types (st : @Store N).

Lemma join_fresh_file (f : FileRecord) (vs : list (nat * list N)) :
  ~ In (id f) (map fst vs) ->
  filter (fun v => (fst v =? id f)%nat) vs = [].
Proof.
  induction vs as [|v vs IH]; [reflexivity|].
  cbn [map In filter]. intros H.
  destruct (Nat.eqb_spec (fst v) (id f)) as [E|E]; [tauto|]. apply IH. tauto.
Qed.

Lemma join_fresh_vector (fs : list FileRecord) (v : nat * list N) :
  ~ In (fst v) (map id fs) ->
  forall vs,
    flat_map (fun f =>
      map (fun v => {| row_file := f; row_embedding := jsonToVector (snd v) |})
          (filter (fun v => (fst v =? id f)%nat) (vs ++ [v]))) fs
    = flat_map (fun f =>
      map (fun v => {| row_file := f; row_embedding := jsonToVector (snd v) |})
          (filter (fun v => (fst v =? id f)%nat) vs)) fs.
Proof.
  intros H vs. induction fs as [|f fs IH]; [reflexivity|].
  cbn [map In flat_map] in *. rewrite IH by tauto. f_equal.
  rewrite filter_app. cbn [filter].
  destruct (Nat.eqb_spec (fst v) (id f)) as [E|E];
    [exfalso; apply H; left; now symmetry|].
  now rewrite app_nil_r.
Qed.

Lemma ids_below_counter st n :
  store_ok st -> last_id st < n -> ~ In n (map id (files st)).
Proof.
  intros (_ & _ & Hle) Hn Hin. rewrite Forall_forall in Hle.
  specialize (Hle n Hin). lia.
Qed.

Lemma select_after_insert (embedded : EmbeddedFile) (now : nat) st :
  store_ok st ->
  select_files_with_vectors (insert_file embedded now st)
  = select_files_with_vectors st
    ++ [ {| row_file := saved_record embedded now (last_id st);
            row_embedding := map num_json (ef_embedding embedded) |} ].
Proof.
  intros H. pose proof (ids_below_counter H (Nat.lt_succ_diag_r _)) as Hnew.
  unfold select_files_with_vectors, insert_file.
  cbn [files file_vectors].
  rewrite flat_map_app. cbn [flat_map]. rewrite app_nil_r.
  rewrite join_fresh_vector by exact Hnew. f_equal.
  rewrite filter_app.
  rewrite join_fresh_file; [|cbn [id]; destruct H as (-> & _); exact Hnew].
  cbn [filter fst id app]. rewrite Nat.eqb_refl. reflexivity.
Qed.

Lemma store_ok_insert (embedded : EmbeddedFile) (now : nat) st :
  store_ok st -> store_ok (insert_file embedded now st).
Proof.
  intros H. pose proof (ids_below_counter H (Nat.lt_succ_diag_r _)) as Hnew.
  destruct H as (Hv & Hd & Hle).
  unfold store_ok, insert_file. cbn [files file_vectors last_id].
  rewrite !map_app. cbn [map fst id]. split; [now rewrite Hv|]. split.
  - apply NoDup_app; [exact Hd|repeat constructor; intros []|].
    intros x Hx [<-|[]]. contradiction.
  - apply Forall_app. split.
    + eapply Forall_impl; [|exact Hle]. cbn. intros; lia.
    + repeat constructor.
Qed.

Lemma store_ok_cleared (n : nat) :
  store_ok ({| files := []; file_vectors := []; last_id := n |} : @Store N).
Proof. repeat split; constructor. Qed.

Lemma join_skip_vector (fs : list FileRecord) (v : nat * list N) (vs : list (nat * list N)) :
  ~ In (fst v) (map id fs) ->
  flat_map (fun f =>
      map (fun v => {| row_file := f; row_embedding := jsonToVector (snd v) |})
          (filter (fun v => (fst v =? id f)%nat) (v :: vs))) fs
  = flat_map (fun f =>
      map (fun v => {| row_file := f; row_embedding := jsonToVector (snd v) |})
          (filter (fun v => (fst v =? id f)%nat) vs)) fs.
Proof.
  intros H. induction fs as [|f fs IH]; [reflexivity|].
  cbn [map In flat_map filter] in *. rewrite IH by tauto. f_equal.
  destruct (Nat.eqb_spec (fst v) (id f)) as [E|E];
    [exfalso; apply H; left; now symmetry|reflexivity].
Qed.

(** On tables that agree, the join has the file rows, once each and in
    their order. *)
Lemma select_files st :
  store_ok st -> map row_file (select_files_with_vectors st) = files st.
Proof.
  intros (Hv & Hd & _). unfold select_files_with_vectors.
  destruct st as [fs vs n]. cbn [files file_vectors] in *.
  revert vs Hv. induction fs as [|f fs IH]; intros vs Hv; [reflexivity|].
  destruct vs as [|v vs]; [discriminate|].
  cbn [map] in Hv. injection Hv as Hf Hv.
  cbn [map] in Hd. apply NoDup_cons_iff in Hd. destruct Hd as [Hf' Hd].
  cbn [flat_map].
  rewrite join_skip_vector by (rewrite Hf; exact Hf').
  rewrite map_app, (IH Hd vs Hv).
  cbn [filter]. rewrite Hf, Nat.eqb_refl.
  rewrite join_fresh_file by (rewrite Hv; exact Hf').
  reflexivity.
Qed.

(** X7.  On tables that agree ([store_ok]: one vector row per file row, ids
    used once and not above the counter), the two INSERTs of
    [saveFileToDatabase], taken to succeed, keep them so, and the join that
    [executeSearch] reads afterwards is the join from before followed by
    exactly one row for the new file.  That row carries the vector as
    [JSON.parse] reads it back from the text [JSON.stringify] wrote: each
    number as [num_json] gives it, so the vector that was saved when JSON
    keeps each of its numbers.  The join has every file row once, in table
    order. *)
Theorem X7_saved_file_is_searchable (embedded : EmbeddedFile) (now : nat) st :
  store_ok st ->
  store_ok (insert_file embedded now st)
  /\ select_files_with_vectors (insert_file embedded now st)
     = select_files_with_vectors st
       ++ [ {| row_file := saved_record embedded now (last_id st);
               row_embedding := map num_json (ef_embedding embedded) |} ]
  /\ (Forall (fun x => num_json x = x) (ef_embedding embedded) ->
      map num_json (ef_embedding embedded) = ef_embedding embedded)
  /\ map row_file (select_files_with_vectors st) = files st.
Proof.
  intros H. split; [now apply store_ok_insert|].
  split; [now apply select_after_insert|].
  split; [|now apply select_files].
  induction 1 as [|x l Hx _ IH]; [reflexivity|].
  cbn [map]. now rewrite Hx, IH.
Qed.

End StoreFacts.

Section UpholdingFacts.
Context {N : Type} {num : Number N}.
Variable P : @Store N -> Prop.
Hypothesis P_insert : forall embedded now st, P st -> P (insert_file embedded now st).
Hypothesis P_clear :
  forall st, P st -> P {| files := []; file_vectors := []; last_id := last_id st |}.

Lemma upholds_state {A : Type} (r : @Res N A) : upholds (on_store P) r -> (on_store P) (state_of r).
Proof. destruct r; cbn; tauto. Qed.

Lemma upholds_bind {A B : Type} (f : A -> @Async N B) (r : @Res N A) :
  upholds (on_store P) r -> (forall a, maintains (on_store P) (f a)) ->
  upholds (on_store P) (bind_res r f).
Proof.
  intros H Hf. induction r as [s a|s e|s X op k IH|s q p k IH]; cbn in *.
  - now apply Hf.
  - exact H.
  - split; [tauto|]. intros x s' Hs. apply IH. now apply H.
  - split; [tauto|]. intros s' Hs. apply IH. now apply H.
Qed.

Lemma upholds_catch {A : Type} (h : Error -> @Async N A) (r : @Res N A) :
  upholds (on_store P) r -> (forall e, maintains (on_store P) (h e)) ->
  upholds (on_store P) (catch_res r h).
Proof.
  intros H Hh. induction r as [s a|s e|s X op k IH|s q p k IH]; cbn in *.
  - exact H.
  - now apply Hh.
  - split; [tauto|]. intros x s' Hs. apply IH. now apply H.
  - split; [tauto|]. intros s' Hs. apply IH. now apply H.
Qed.

Lemma upholds_finally {A : Type} (fin : @Async N unit) (r : @Res N A) :
  upholds (on_store P) r -> maintains (on_store P) fin ->
  upholds (on_store P) (finally_res r fin).
Proof.
  intros H Hf. induction r as [s a|s e|s X op k IH|s q p k IH]; cbn in *.
  - apply upholds_bind; [now apply Hf|]. intros _ s' Hs. exact Hs.
  - apply upholds_bind; [now apply Hf|]. intros _ s' Hs. exact Hs.
  - split; [tauto|]. intros x s' Hs. apply IH. now apply H.
  - split; [tauto|]. intros s' Hs. apply IH. now apply H.
Qed.

Lemma maintains_bind {A B : Type} (m : @Async N A) (f : A -> @Async N B) :
  maintains (on_store P) m -> (forall a, maintains (on_store P) (f a)) ->
  maintains (on_store P) (bind m f).
Proof. intros Hm Hf s Hs. apply upholds_bind; auto. Qed.

Lemma maintains_try_catch {A : Type} (m : @Async N A) (h : Error -> @Async N A) :
  maintains (on_store P) m -> (forall e, maintains (on_store P) (h e)) ->
  maintains (on_store P) (try_catch m h).
Proof. intros Hm Hh s Hs. apply upholds_catch; auto. Qed.

Lemma maintains_try_finally {A : Type} (m : @Async N A) (fin : @Async N unit) :
  maintains (on_store P) m -> maintains (on_store P) fin ->
  maintains (on_store P) (try_finally m fin).
Proof. intros Hm Hf s Hs. apply upholds_finally; auto. Qed.

Lemma maintains_ret {A : Type} (a : A) : maintains (on_store P) (@ret N A a).
Proof. intros s Hs. exact Hs. Qed.

Lemma maintains_throw {A : Type} (e : Error) : maintains (on_store P) (@throw N A e).
Proof. intros s Hs. exact Hs. Qed.

Lemma maintains_get : maintains (on_store P) (@get N).
Proof. intros s Hs. exact Hs. Qed.

Lemma maintains_modify (f : @Engine N -> @Engine N) :
  (forall s, (on_store P) s -> (on_store P) (f s)) -> maintains (on_store P) (modify f).
Proof. intros Hf s Hs. now apply Hf. Qed.

Lemma maintains_await {X : Type} (op : @Op N X) : maintains (on_store P) (await op).
Proof. intros s Hs. split; [exact Hs|]. intros x s' Hs'. exact Hs'. Qed.

Lemma maintains_settle {T : Type} (r : Reply T) : maintains (on_store P) (@settle N T r).
Proof. destruct r; [apply maintains_ret|apply maintains_throw]. Qed.

Lemma maintains_await_async {A : Type} (m : @Async N A) :
  maintains (on_store P) m -> maintains (on_store P) (await_async m).
Proof.
  intros Hm. unfold await_async, attempt.
  apply maintains_bind.
  - apply maintains_try_catch; [|intros e; apply maintains_ret].
    apply maintains_bind; [exact Hm|]. intros a. apply maintains_ret.
  - intros r. apply maintains_bind; [apply maintains_await|].
    intros _. apply maintains_settle.
Qed.

Lemma maintains_for_loop {A B : Type} (body : nat -> A -> B -> @Async N B) (l : list A) :
  (forall i x acc, maintains (on_store P) (body i x acc)) ->
  forall i acc, maintains (on_store P) (for_loop body i l acc).
Proof.
  intros Hb. induction l as [|x l IH]; intros i acc; cbn [for_loop].
  - apply maintains_ret.
  - apply maintains_bind; [apply Hb|]. intros acc'. apply IH.
Qed.

(** What keeps the tables as they are upholds any property of the tables. *)
Lemma steps_in_upholds {A : Type} okop (r : @Res N A) :
  forall s0, steps_in keeps_store okop s0 r -> (on_store P) s0 -> upholds (on_store P) r.
Proof.
  unfold on_store, keeps_store.
  induction r as [s a|s e|s X op k IH|s q p k IH]; intros s0 H H0; cbn in *.
  - now rewrite H.
  - now rewrite H.
  - destruct H as (H1 & _ & H2). split; [now rewrite H1|].
    intros x s' Hs'. exact (IH x s' s' (H2 x s') Hs').
  - contradiction.
Qed.

Lemma frame_maintains {A : Type} okop (m : @Async N A) :
  frame keeps_store okop m -> maintains (on_store P) m.
Proof. intros H s Hs. eapply steps_in_upholds; [apply H|exact Hs]. Qed.

Lemma maintains_reportProgress ph c t msg :
  maintains (on_store P) (reportProgress ph c t msg).
Proof. intros s Hs. exact Hs. Qed.

Lemma maintains_initialize : maintains (on_store P) (@initialize N).
Proof. apply (frame_maintains (frame_initialize permits_keeps_store)). Qed.

Lemma maintains_opening : 
  maintains (on_store P)
    (s <- @get N ;; (if negb (db s) then await_async initialize else ret tt)).
Proof.
  apply maintains_bind; [apply maintains_get|]. intros s.
  destruct (negb (db s)); [|apply maintains_ret].
  apply maintains_await_async, maintains_initialize.
Qed.

Lemma maintains_saveFileToDatabase embedded :
  maintains (on_store P) (saveFileToDatabase embedded).
Proof.
  unfold saveFileToDatabase.
  apply maintains_bind; [apply maintains_get|]. intros s.
  destruct (negb (db s)); [apply maintains_throw|].
  apply maintains_try_catch; [|intros e; apply maintains_throw].
  apply maintains_modify. intros s' Hs'. apply P_insert. exact Hs'.
Qed.

Lemma maintains_save_all n embeddedFiles :
  maintains (on_store P) (save_all n embeddedFiles).
Proof.
  unfold save_all.
  apply maintains_bind; [apply maintains_reportProgress|]. intros _.
  apply maintains_bind; [|intros _; apply maintains_reportProgress].
  apply maintains_for_loop. intros i x acc. unfold save_step.
  apply maintains_bind; [|intros _; apply maintains_reportProgress].
  apply maintains_await_async, maintains_saveFileToDatabase.
Qed.

Lemma maintains_indexFiles files_ : maintains (on_store P) (indexFiles files_).
Proof.
  unfold indexFiles.
  apply maintains_bind; [apply maintains_get|]. intros s.
  apply maintains_bind.
  - destruct (negb (isInitialized s)); [|apply maintains_ret].
    apply maintains_await_async, maintains_initialize.
  - intros _. apply maintains_try_catch.
    + unfold index_pipeline.
      apply maintains_bind;
        [apply (frame_maintains (frame_caption_all permits_keeps_store files_))|].
      intros captionedFiles.
      apply maintains_bind;
        [apply (frame_maintains
                  (frame_embed_all permits_keeps_store (@any_op_embed N) captionedFiles))|].
      intros embeddedFiles. apply maintains_save_all.
    + intros e. apply (frame_maintains (frame_index_cleanup permits_keeps_store e)).
Qed.

Lemma maintains_clearAll : maintains (on_store P) (@clearAll N).
Proof.
  unfold clearAll.
  apply maintains_bind; [apply maintains_get|]. intros s.
  apply maintains_bind.
  - destruct (negb (db s)); [|apply maintains_ret].
    apply maintains_await_async, maintains_initialize.
  - intros _. apply maintains_try_catch; [|intros e; apply maintains_throw].
    apply maintains_bind; [apply maintains_get|]. intros s'.
    destruct (negb (db s')); [apply maintains_throw|].
    apply maintains_modify. intros s1 Hs1. apply P_clear. exact Hs1.
Qed.

Lemma maintains_getAllFiles : maintains (on_store P) (@getAllFiles N).
Proof.
  unfold getAllFiles.
  apply maintains_bind; [apply maintains_get|]. intros s.
  apply maintains_bind.
  - destruct (negb (db s)); [|apply maintains_ret].
    apply maintains_await_async, maintains_initialize.
  - intros _. apply maintains_try_catch; [|intros e; apply maintains_ret].
    apply maintains_bind; [apply maintains_get|]. intros s'.
    destruct (negb (db s')); [apply maintains_throw|apply maintains_ret].
Qed.

Lemma maintains_getFileCount : maintains (on_store P) (@getFileCount N).
Proof.
  unfold getFileCount.
  apply maintains_bind; [apply maintains_get|]. intros s.
  apply maintains_bind.
  - destruct (negb (db s)); [|apply maintains_ret].
    apply maintains_await_async, maintains_initialize.
  - intros _. apply maintains_try_catch; [|intros e; apply maintains_ret].
    apply maintains_bind; [apply maintains_get|]. intros s'.
    destruct (negb (db s')); [apply maintains_throw|apply maintains_ret].
Qed.

Lemma maintains_log ev : maintains (on_store P) (@log N ev).
Proof. intros s Hs. exact Hs. Qed.

Lemma maintains_executeSearch query : maintains (on_store P) (executeSearch query).
Proof.
  unfold executeSearch.
  apply maintains_bind; [apply maintains_log|]. intros _.
  apply maintains_bind.
  - apply maintains_try_catch; [|intros e; apply maintains_ret].
    apply (frame_maintains
             (frame_query_rows permits_keeps_store (@any_op_embed N) query)).
  - intros results. apply maintains_bind; [apply maintains_log|].
    intros _. apply maintains_ret.
Qed.

Lemma maintains_search_finally : maintains (on_store P) (@search_finally N).
Proof.
  unfold search_finally.
  apply maintains_bind; [apply maintains_modify; intros s Hs; exact Hs|]. intros _.
  apply maintains_bind; [apply maintains_get|]. intros s.
  destruct (searchQueue s) as [|next rest]; [apply maintains_ret|].
  apply maintains_bind; [apply maintains_modify; intros s' Hs'; exact Hs'|]. intros _.
  apply maintains_bind; [apply maintains_log|]. intros _.
  intros s' Hs'. split; [exact Hs'|]. intros s2 Hs2. exact Hs2.
Qed.

Lemma maintains_search query : maintains (on_store P) (search query).
Proof.
  unfold search.
  apply maintains_bind; [apply maintains_get|]. intros s.
  apply maintains_bind.
  - destruct (negb (db s)); [|apply maintains_ret].
    apply maintains_await_async, maintains_initialize.
  - intros _. unfold search_gate.
    destruct (String.eqb _ _); [apply maintains_ret|].
    apply maintains_bind; [apply maintains_get|]. intros s'.
    destruct (searchInProgress s').
    + apply maintains_bind; [intros s1 Hs1; exact Hs1|]. intros p.
      apply maintains_bind; [apply maintains_modify; intros s1 Hs1; exact Hs1|]. intros _.
      apply maintains_bind; [apply maintains_modify; intros s1 Hs1; exact Hs1|]. intros _.
      apply maintains_bind; [apply maintains_log|]. intros _.
      apply maintains_bind; [apply maintains_await|]. intros r.
      apply maintains_settle.
    + apply maintains_bind; [apply maintains_modify; intros s1 Hs1; exact Hs1|]. intros _.
      apply maintains_try_finally; [|apply maintains_search_finally].
      apply maintains_await_async, maintains_executeSearch.
Qed.

Lemma advance_upholds {A : Type} (r : @Res N A) :
  upholds (on_store P) r ->
  upholds (on_store P) (fst (advance r))
  /\ Forall (task_upholds (on_store P)) (snd (advance r)).
Proof.
  induction r as [s a|s e|s X op k IH|s q p k IH]; intros H;
    try (split; [exact H|constructor]).
  cbn [advance]. destruct H as [Hs Hk].
  pose proof (maintains_search q Hs) as Hchild.
  specialize (IH _ (Hk _ (upholds_state _ Hchild))).
  destruct (advance (k (state_of (search q s)))) as [r' started].
  cbn [fst snd] in *. split; [tauto|]. constructor; [exact Hchild|tauto].
Qed.

Lemma deliver_on_store (s : @Engine N) (t : @Task N) :
  (on_store P) s -> (on_store P) (deliver s t).
Proof.
  intros H. destruct t as [[? ?|? ?|? ? ? ?|? ? ? ?] [p|]|B r]; exact H.
Qed.

Lemma deliver_all_on_store (l : list (@Task N)) :
  forall s, (on_store P) s -> (on_store P) (fold_left deliver l s).
Proof.
  induction l as [|t l IH]; intros s H; [exact H|].
  cbn [fold_left]. apply IH, deliver_on_store, H.
Qed.

Lemma update_nth_Forall {A : Type} (Q : A -> Prop) (x : A) (l : list A) :
  Q x -> Forall Q l -> forall i, Forall Q (update_nth i (fun _ => x) l).
Proof.
  intros Hx Hl. induction Hl as [|y l Hy Hl IH]; intros [|i]; cbn; constructor; auto.
Qed.

Lemma install_upholds i (t : @Task N) sys :
  task_upholds (on_store P) t -> (system_upholds (on_store P)) sys -> (system_upholds (on_store P)) (install i t sys).
Proof.
  intros Ht [He Hp]. unfold install.
  assert (K : task_upholds (on_store P) (fst (advance_task t))
              /\ Forall (task_upholds (on_store P)) (snd (advance_task t))).
  { destruct t as [r waiter|B r]; cbn [advance_task task_upholds] in *;
      pose proof (advance_upholds _ Ht) as K;
      destruct (advance r) as [r' started]; exact K. }
  destruct (advance_task t) as [t' started]. cbn [fst snd] in K.
  destruct K as [K1 K2]. split; cbn [engine pool].
  - apply deliver_all_on_store.
    destruct t' as [r waiter|B r]; cbn [task_state]; apply upholds_state, K1.
  - apply Forall_app. split; [|exact K2].
    unfold put_task. destruct (_ <? _)%nat.
    + now apply update_nth_Forall.
    + apply Forall_app. split; [exact Hp|]. now constructor.
Qed.

Lemma resume_upholds {A : Type} (r r' : @Res N A) w s :
  upholds (on_store P) r -> (on_store P) s -> resume r w s = Some r' -> upholds (on_store P) r'.
Proof.
  destruct r as [? ?|? ?|s0 X op k|? ? ? ?]; cbn; try discriminate.
  intros [_ Hk] Hs. destruct (ready s w op) as [x|]; [|discriminate].
  intros [= <-]. now apply Hk.
Qed.

Lemma step_upholds sys ev sys' :
  (system_upholds (on_store P)) sys -> step sys ev = Some sys' -> (system_upholds (on_store P)) sys'.
Proof.
  intros H. pose proof H as [He Hp].
  destruct ev as [query|files_| | | | |modelSlug|i w]; cbn [step].
  - intros [= <-]. apply install_upholds; [|exact H]. now apply maintains_search.
  - intros [= <-]. apply install_upholds; [|exact H]. now apply maintains_indexFiles.
  - intros [= <-]. apply install_upholds; [|exact H]. now apply maintains_initialize.
  - intros [= <-]. apply install_upholds; [|exact H]. now apply maintains_getAllFiles.
  - intros [= <-]. apply install_upholds; [|exact H]. now apply maintains_getFileCount.
  - intros [= <-]. apply install_upholds; [|exact H]. now apply maintains_clearAll.
  - intros [= <-]. split; [exact He|exact Hp].
  - destruct (nth_error (pool sys) i) as [[r waiter|B r]|] eqn:E; [| |discriminate].
    + destruct (resume r w (engine sys)) as [r'|] eqn:R; [|discriminate].
      intros [= <-]. apply install_upholds; [|exact H].
      apply nth_error_In in E. rewrite Forall_forall in Hp.
      exact (resume_upholds _ _ (Hp _ E) He R).
    + destruct (resume r w (engine sys)) as [r'|] eqn:R; [|discriminate].
      intros [= <-]. apply install_upholds; [|exact H].
      apply nth_error_In in E. rewrite Forall_forall in Hp.
      exact (resume_upholds _ _ (Hp _ E) He R).
Qed.

Lemma exec_upholds evs :
  forall sys sys', (system_upholds (on_store P)) sys -> exec sys evs = Some sys' -> (system_upholds (on_store P)) sys'.
Proof.
  induction evs as [|ev evs IH]; intros sys sys' H; cbn [exec].
  - now intros [= <-].
  - destruct (step sys ev) as [sys1|] eqn:E; [|discriminate].
    apply IH. exact (step_upholds _ H E).
Qed.

Lemma reachable_upholds st cache now sys :
  P st -> reachable st cache now sys -> (on_store P) (engine sys).
Proof.
  intros H [evs E].
  assert ((system_upholds (on_store P)) (boot st cache now)) as B by (split; [exact H|constructor]).
  exact (proj1 (exec_upholds _ B E)).
Qed.

End UpholdingFacts.

Section StoreInvariant.
Context {N : Type} {num : Number N}.

(** X8.  Whatever methods the application calls and however the calls
    interleave, the two tables agree in every state the engine reaches from
    a database whose tables agree: one vector row per file row, ids used
    once and not above the counter.  So the join read by [executeSearch] has
    every stored file exactly once.  (The SQL statements are taken to
    succeed, as in the whole embedding.) *)
Theorem X8_tables_agree_in_every_reachable_state
        (st : @Store N) (cache : string) (now : nat) (sys : @System N) :
  store_ok st ->
  reachable st cache now sys ->
  store_ok (store (engine sys))
  /\ map row_file (select_files_with_vectors (store (engine sys)))
     = files (store (engine sys)).
Proof.
  intros H R.
  assert (K : store_ok (store (engine sys))).
  { apply (@reachable_upholds N num store_ok) with (st := st) (cache := cache) (now := now);
      [intros; now apply store_ok_insert|intros; apply store_ok_cleared|exact H|exact R]. }
  split; [exact K|now apply select_files].
Qed.

End StoreInvariant.

Section DistinctResults.
Context {N : Type} {num : Number N}.

Lemma insert_by_perm_any {A : Type} (cmp : A -> A -> N) (x : A) (l : list A) :
  Permutation (insert_by cmp x l) (x :: l).
Proof.
  induction l as [|y l IH]; cbn [insert_by]; [reflexivity|].
  destruct (_ <? _)%num; [|reflexivity].
  rewrite IH. apply perm_swap.
Qed.

Lemma sort_by_perm_any {A : Type} (cmp : A -> A -> N) (l : list A) :
  Permutation (sort_by cmp l) l.
Proof.
  induction l as [|x l IH]; [reflexivity|].
  cbn [sort_by fold_right]. fold (sort_by cmp l).
  rewrite insert_by_perm_any. now constructor.
Qed.

Lemma NoDup_firstn {A : Type} (k : nat) (l : list A) : NoDup l -> NoDup (firstn k l).
Proof.
  intros H. rewrite <- (firstn_skipn k l) in H. now apply NoDup_app_remove_r in H.
Qed.

(** X9.  Over tables that agree, the ranking of [executeSearch] never has
    the same file twice, and every result is a row of the [files] table
    (with real and with binary64 numbers alike). *)
Theorem X9_results_are_distinct_stored_files
        (query : string) (queryEmbedding : list N) (st : @Store N) :
  store_ok st ->
  let results := rank query queryEmbedding (select_files_with_vectors st) in
  NoDup (map (fun r => id (record r)) results)
  /\ forall r, In r results -> In (record r) (files st).
Proof.
  intros Ok. cbv zeta. pose proof (select_files Ok) as Hrows.
  destruct Ok as (_ & Hd & _). rewrite <- Hrows in Hd |- *.
  set (rows := select_files_with_vectors st) in *. clearbody rows. clear Hrows.
  unfold rank. destruct rows as [|row rows]; [split; [constructor|intros r []]|].
  set (scored := map (score_row query queryEmbedding) (row :: rows)).
  assert (R : map record scored = map row_file (row :: rows)).
  { unfold scored. rewrite map_map. reflexivity. }
  pose proof (sort_by_perm_any by_similarity scored) as P.
  split.
  - rewrite <- firstn_map. apply NoDup_firstn.
    apply (Permutation_NoDup (l := map (fun r => id (record r)) scored)).
    + symmetry. now apply Permutation_map.
    + rewrite <- (map_map record id), R. rewrite map_map in Hd. rewrite map_map. exact Hd.
  - intros r Hr. rewrite <- R. apply in_map.
    apply (Permutation_in _ P).
    rewrite <- (firstn_skipn SEARCH_RESULTS_LIMIT (sort_by _ _)).
    apply in_or_app. now left.
Qed.

End DistinctResults.

(* ------------------------------------------------------------------ *)
(** ** One search on its own *)
(* ------------------------------------------------------------------ *)

Section SearchRun.
Context {N : Type} {num : Number N}.
Implicit Types (w : nat -> @World N) (s : @Engine N).

Lemma generateEmbedding_returns w text s t s' v :
  run w t (generateEmbedding text s) = Returned s' v ->
  s' = s /\ exists m, embeddingModel s = Some m /\ w t _ (Embed m text) = Resolved v.
Proof.
  unfold generateEmbedding. rewrite run_bind_at. cbn [get run answers List.length].
  destruct (embeddingModel s) as [m|] eqn:E; [|discriminate].
  rewrite run_try_catch_at, run_bind_at. cbn [get run answers List.length].
  rewrite E. rewrite run_bind_at. cbn [deref ret run answers List.length].
  unfold cactus_embed. rewrite run_bind_at. cbn [await run ready answers List.length].
  rewrite !Nat.add_0_r.
  destruct (w t _ (Embed m text)) as [v'|e] eqn:W; cbn [settle ret throw run].
  - intros [= <- <-]. split; [reflexivity|]. now exists m.
  - discriminate.
Qed.

(** What the [try] block of [executeSearch] returns: the ranking, for the
    embedding the SDK gave for the query, of the rows stored when it was
    called. *)
Lemma query_rows_returns w query s t s' r :
  run w t (query_rows query s) = Returned s' r ->
  store s' = store s
  /\ exists queryEmbedding m t',
       w t' _ (Embed m query) = Resolved queryEmbedding
       /\ r = rank query queryEmbedding (select_files_with_vectors (store s)).
Proof.
  intros H.
  pose proof (frame_keeps_store w s t
                (frame_query_rows permits_keeps_store (@any_op_embed N) query)) as K.
  rewrite H in K. cbn [final] in K. split; [exact K|].
  revert H. unfold query_rows.
  rewrite run_bind_at. cbn [get run answers List.length].
  rewrite run_bind_at.
  destruct (run w (t + 0) _) as [s1 []|s1 e|s1] eqn:E1; try discriminate.
  rewrite run_bind_at, run_await_async.
  destruct (run w _ (generateEmbedding query s1)) as [s2 v|s2 e|s2] eqn:E2;
    try discriminate.
  apply generateEmbedding_returns in E2. destruct E2 as (-> & m & _ & W).
  rewrite run_bind_at. cbn [get run answers List.length].
  destruct (negb (db s1)); cbn [throw ret run]; [discriminate|].
  intros [= <- <-]. exists v, m. eexists. split; [exact W|]. now rewrite K.
Qed.

Lemma query_rows_no_spawn query :
  frame (@keeps_store N) (@any_op N) (query_rows query).
Proof. apply (frame_query_rows permits_keeps_store (@any_op_embed N)). Qed.

(** [executeSearch] run on its own: it does not throw, and it returns the
    ranking of the stored rows, or the empty list. *)
Lemma executeSearch_run w query s t :
  match run w t (executeSearch query s) with
  | Returned s' r =>
      store s' = store s
      /\ searchInProgress s' = searchInProgress s
      /\ searchQueue s' = searchQueue s
      /\ (r = []
          \/ exists queryEmbedding m t',
               w t' _ (Embed m query) = Resolved queryEmbedding
               /\ r = rank query queryEmbedding (select_files_with_vectors (store s)))
  | Threw _ _ => False
  | Blocked _ => True
  end.
Proof.
  unfold executeSearch, log.
  rewrite run_bind_at. cbn [modify run answers List.length].
  rewrite run_bind_at, run_try_catch_at.
  set (s0 := set_trace _ s).
  pose proof (steps_in_run permits_coordinator w (query_rows query s0) s0 (t + 0)
                (frame_query_rows permits_coordinator (@no_search_promise_embed N)
                                  query s0)) as [C _].
  pose proof (frame_keeps_store w s0 (t + 0) (query_rows_no_spawn query)) as K.
  destruct (run w (t + 0) (query_rows query s0)) as [s1 r|s1 e|s1] eqn:E1.
  - rewrite run_bind_at. cbn [modify ret run answers List.length].
    apply query_rows_returns in E1. destruct E1 as (_ & R).
    cbn [final] in *. destruct C as (C1 & C2 & _).
    split; [exact K|]. split; [exact C1|]. split; [exact C2|]. right. exact R.
  - cbn [ret run]. rewrite run_bind_at. cbn [modify ret run answers List.length].
    cbn [final] in *. destruct C as (C1 & C2 & _).
    split; [exact K|]. split; [exact C1|]. split; [exact C2|]. now left.
  - exact I.
Qed.

Lemma search_finally_run w s t :
  searchQueue s = [] ->
  run w t (search_finally s) = Returned (set_searchInProgress false s) tt.
Proof.
  intros Q. unfold search_finally.
  rewrite run_bind_at. cbn [modify run answers List.length].
  rewrite run_bind_at. cbn [get run answers List.length searchQueue set_searchInProgress].
  rewrite Q. reflexivity.
Qed.

Lemma search_finally_blocked w s t :
  searchQueue s <> [] -> exists s', run w t (search_finally s) = Blocked s'.
Proof.
  intros Q. unfold search_finally.
  rewrite run_bind_at. cbn [modify run answers List.length].
  rewrite run_bind_at. cbn [get run answers List.length searchQueue set_searchInProgress].
  destruct (searchQueue s) as [|next rest]; [contradiction|].
  rewrite run_bind_at. cbn [modify run answers List.length].
  unfold log. rewrite run_bind_at. cbn [modify run answers List.length].
  cbn. eauto.
Qed.

(** [search] once the database is open, run on its own. *)
Lemma search_gate_run w query s t :
  match run w t (search_gate query s) with
  | Returned s' r =>
      store s' = store s
      /\ searchInProgress s' = searchInProgress s
      /\ (Js.trim query = "" -> s' = s /\ r = [])
      /\ (r = []
          \/ exists queryEmbedding m t',
               w t' _ (Embed m query) = Resolved queryEmbedding
               /\ r = rank query queryEmbedding (select_files_with_vectors (store s)))
  | Threw _ _ => False
  | Blocked _ => Js.trim query <> ""
  end.
Proof.
  unfold search_gate.
  destruct (String.eqb_spec (Js.trim query) "") as [B|B].
  { cbn [ret run]. repeat split; auto. }
  rewrite run_bind_at. cbn [get run answers List.length].
  destruct (searchInProgress s) eqn:Busy.
  - unfold new_search_promise, log. cbn.
    rewrite nth_error_app2, Nat.sub_diag by lia. cbn. exact B.
  - rewrite run_bind_at. cbn [modify run answers List.length].
    rewrite run_try_finally_at, run_await_async.
    set (s0 := set_searchInProgress true s).
    pose proof (executeSearch_run w query s0 (t + 0 + 0)) as E.
    destruct (run w (t + 0 + 0) (executeSearch query s0)) as [s1 r|s1 e|s1];
      [|contradiction|exact B].
    destruct E as (E1 & E2 & E3 & E4).
    destruct (searchQueue s) as [|next rest] eqn:Q.
    + rewrite search_finally_run by (rewrite E3; exact Q).
      cbn [store searchInProgress set_searchInProgress].
      split; [exact E1|]. split; [reflexivity|]. split; [contradiction|exact E4].
    + destruct (@search_finally_blocked w s1 (t + 0 + 0 + List.length (answers w (t + 0 + 0) (await_async (executeSearch query) s0))))
        as [s2 ->]; [rewrite E3; cbn; rewrite Q; discriminate|exact B].
Qed.

(** X10.  A [search] call run on its own on an open database does not throw.
    When it returns, the tables and the [searchInProgress] flag are as they
    were, and the result is the empty list or the ranking, for the embedding
    the SDK gave for the query, of the rows stored when it was called; a
    blank query changes nothing and gives the empty list.  It returns
    whenever no search is in progress, none is queued and the embedding
    model is resident. *)
Theorem X10_search_on_its_own w query s t :
  db s = true ->
  match run w t (search query s) with
  | Returned s' results =>
      store s' = store s
      /\ searchInProgress s' = searchInProgress s
      /\ (Js.trim query = "" -> s' = s /\ results = [])
      /\ (results = []
          \/ exists queryEmbedding m t',
               w t' _ (Embed m query) = Resolved queryEmbedding
               /\ results
                  = rank query queryEmbedding (select_files_with_vectors (store s)))
  | Threw _ _ => False
  | Blocked _ => Js.trim query <> ""
  end
  /\ (searchInProgress s = false -> searchQueue s = [] -> embeddingModel s <> None ->
      exists s' results, run w t (search query s) = Returned s' results).
Proof.
  intros D. split.
  - rewrite search_open by exact D. apply search_gate_run.
  - intros Busy Q M. rewrite search_open by exact D.
    unfold search_gate.
    destruct (String.eqb_spec (Js.trim query) "") as [B|B]; [cbn; eauto|].
    rewrite run_bind_at. cbn [get run answers List.length]. rewrite Busy.
    rewrite run_bind_at. cbn [modify run answers List.length].
    rewrite run_try_finally_at, run_await_async.
    set (s0 := set_searchInProgress true s).
    assert (R : exists s1 r, run w (t + 0 + 0) (executeSearch query s0) = Returned s1 r).
    { unfold executeSearch, log.
      rewrite run_bind_at. cbn [modify run answers List.length].
      rewrite run_bind_at, run_try_catch_at.
      set (s1 := set_trace _ s0).
      assert (R : exists s2, (exists r, run w (t + 0 + 0 + 0) (query_rows query s1) = Returned s2 r)
                             \/ (exists e, run w (t + 0 + 0 + 0) (query_rows query s1) = Threw s2 e)).
      { unfold query_rows.
        rewrite run_bind_at. cbn [get run answers List.length].
        rewrite run_bind_at.
        destruct (embeddingModel s) as [m|] eqn:Em; [|contradiction].
        cbn [embeddingModel s1 s0 set_trace set_searchInProgress]. rewrite Em.
        cbn [ret run answers List.length].
        rewrite run_bind_at, run_await_async.
        unfold generateEmbedding at 1 3.
        rewrite !run_bind_at. cbn [get run answers List.length].
        cbn [embeddingModel s1 s0 set_trace set_searchInProgress]. rewrite Em.
        rewrite !run_try_catch_at, !run_bind_at. cbn [get run answers List.length].
        cbn [embeddingModel s1 s0 set_trace set_searchInProgress]. rewrite Em.
        rewrite !run_bind_at. cbn [deref ret run answers List.length].
        unfold cactus_embed. rewrite !run_bind_at.
        cbn [await run ready answers List.length].
        destruct (w _ _ (Embed m query)) as [v|e]; cbn [settle ret throw run].
        - rewrite run_bind_at. cbn [get run answers List.length].
          cbn [db s1 s0 set_trace set_searchInProgress]. rewrite D.
          cbn. eauto.
        - cbn. eauto. }
      destruct R as (s2 & [[r ->]|[e ->]]).
      - rewrite run_bind_at. cbn. eauto.
      - cbn [ret run]. rewrite run_bind_at. cbn. eauto. }
    destruct R as (s1 & r & R).
    pose proof (executeSearch_run w query s0 (t + 0 + 0)) as E.
    rewrite R in *. destruct E as (_ & _ & E3 & _).
    rewrite search_finally_run by (rewrite E3; exact Q). eauto.
Qed.

End SearchRun.

(* ------------------------------------------------------------------ *)
(** ** Listing, counting and clearing *)
(* ------------------------------------------------------------------ *)

Section ListingFacts.
Context {N : Type} {num : Number N}.
Implicit Types (w : nat -> @World N) (s : @Engine N).

Lemma insert_newest_perm (f : FileRecord) (l : list FileRecord) :
  Permutation (insert_newest f l) (f :: l).
Proof.
  induction l as [|g l IH]; cbn [insert_newest]; [reflexivity|].
  destruct (_ <=? _)%nat; [reflexivity|].
  rewrite IH. apply perm_swap.
Qed.

Lemma newest_first_perm (l : list FileRecord) : Permutation (newest_first l) l.
Proof.
  induction l as [|f l IH]; [reflexivity|].
  cbn [newest_first fold_right]. fold (newest_first l).
  rewrite insert_newest_perm. now constructor.
Qed.

Lemma insert_newest_sorted (f : FileRecord) (l : list FileRecord) :
  StronglySorted (fun a b => created_at b <= created_at a) l ->
  StronglySorted (fun a b => created_at b <= created_at a) (insert_newest f l).
Proof.
  induction 1 as [|g l Hl IH Hg]; cbn [insert_newest].
  - repeat constructor.
  - destruct (Nat.leb_spec (created_at g) (created_at f)) as [L|L].
    + constructor; [now constructor|].
      constructor; [exact L|].
      eapply Forall_impl; [|exact Hg]. cbn. intros; lia.
    + constructor; [exact IH|].
      rewrite Forall_forall. intros x Hx.
      apply (Permutation_in _ (insert_newest_perm f l)) in Hx.
      destruct Hx as [<-|Hx]; [lia|].
      rewrite Forall_forall in Hg. now apply Hg.
Qed.

Lemma newest_first_sorted (l : list FileRecord) :
  StronglySorted (fun a b => created_at b <= created_at a) (newest_first l).
Proof.
  induction l as [|f l IH]; [constructor|].
  cbn [newest_first fold_right]. now apply insert_newest_sorted.
Qed.

Lemma getAllFiles_open s :
  db s = true -> getAllFiles s = Done s (newest_first (files (store s))).
Proof. intros D. unfold getAllFiles. cbn. rewrite D. cbn. rewrite D. reflexivity. Qed.

Lemma getFileCount_open s :
  db s = true -> getFileCount s = Done s (List.length (files (store s))).
Proof. intros D. unfold getFileCount. cbn. rewrite D. cbn. rewrite D. reflexivity. Qed.

(** X11.  On an open database, the SQL statements being taken to succeed,
    [getAllFiles] and [getFileCount] answer without an await and leave the
    engine as it is: the list has the rows of the [files] table, each once,
    with no row before one created later, and the count is the length of
    that list. *)
Theorem X11_listing_and_count_agree s :
  db s = true ->
  exists listed,
    getAllFiles s = Done s listed
    /\ Permutation listed (files (store s))
    /\ StronglySorted (fun a b => created_at b <= created_at a) listed
    /\ getFileCount s = Done s (List.length listed).
Proof.
  intros D. exists (newest_first (files (store s))).
  split; [now apply getAllFiles_open|].
  split; [apply newest_first_perm|].
  split; [apply newest_first_sorted|].
  rewrite (Permutation_length (newest_first_perm _)). now apply getFileCount_open.
Qed.

Lemma clearAll_returns w s t s' :
  run w t (clearAll s) = Returned s' tt ->
  db s' = true
  /\ store s' = {| files := []; file_vectors := []; last_id := last_id (store s) |}.
Proof.
  unfold clearAll. rewrite run_bind_at. cbn [get run answers List.length].
  rewrite run_bind_at.
  assert (I : exists s1, run w (t + 0) ((if negb (db s) then await_async initialize else ret tt) s)
                         = Returned s1 tt /\ store s1 = store s).
  { destruct (db s); cbn [negb].
    - exists s. split; reflexivity.
    - rewrite run_await_async. unfold initialize. cbn.
      destruct (isInitialized s); cbn; eexists; split; reflexivity. }
  destruct I as (s1 & -> & S1).
  rewrite run_try_catch_at, run_bind_at. cbn [get run answers List.length].
  destruct (db s1) eqn:D1; cbn [negb throw modify run].
  - intros [= <-]. cbn. rewrite D1, S1. split; reflexivity.
  - discriminate.
Qed.

(** X12.  When [clearAll] has returned, both tables are empty and the
    database is open; the id counter is where it was, so ids are not used
    again.  From there [getFileCount] gives 0, [getAllFiles] the empty list,
    and a search that returns, whatever the query and the answers of the
    SDK, gives no result. *)
Theorem X12_nothing_left_after_clearAll w s t s' :
  run w t (clearAll s) = Returned s' tt ->
  db s' = true
  /\ files (store s') = []
  /\ file_vectors (store s') = []
  /\ last_id (store s') = last_id (store s)
  /\ getFileCount s' = Done s' 0
  /\ getAllFiles s' = Done s' []
  /\ forall w' t' query,
       match run w' t' (search query s') with
       | Returned _ results => results = []
       | Threw _ _ => False
       | Blocked _ => True
       end.
Proof.
  intros H. apply clearAll_returns in H. destruct H as [D S].
  split; [exact D|]. rewrite S. cbn [files file_vectors last_id].
  split; [reflexivity|]. split; [reflexivity|]. split; [reflexivity|].
  split; [rewrite (getFileCount_open _ D), S; reflexivity|].
  split; [rewrite (getAllFiles_open _ D), S; reflexivity|].
  intros w' t' query. rewrite search_open by exact D.
  pose proof (search_gate_run w' query s' t') as G.
  destruct (run w' t' (search_gate query s')) as [s2 r|s2 e|s2]; [|exact G|exact I].
  destruct G as (_ & _ & _ & [->|(qe & m & t2 & _ & ->)]); [reflexivity|].
  rewrite S. reflexivity.
Qed.

End ListingFacts.

(* ------------------------------------------------------------------ *)
(** ** The model lifecycle *)
(* ------------------------------------------------------------------ *)

Ltac run_go :=
  first [ rewrite run_bind_at | rewrite run_try_catch_at
        | rewrite run_try_finally_at | rewrite run_await_async
        | rewrite answers_bind_at | rewrite answers_try_catch_at
        | progress cbn [run answers ready List.length get modify ret throw await
                        settle deref reportProgress new_CactusLM new_load_promise
                        settle_load fst snd app negb
                        db visionModel embeddingModel isInitialized embeddingModelLoading embeddingModelLoadPromise searchInProgress searchQueue selectedVisionModel store heap load_promises search_promises reported CachesDirectoryPath clock trace set_db set_visionModel set_embeddingModel set_isInitialized set_embeddingModelLoading set_embeddingModelLoadPromise set_searchInProgress set_searchQueue set_selectedVisionModel set_store set_heap set_load_promises set_search_promises set_reported set_CachesDirectoryPath set_clock set_trace] ].

Section LifecycleFacts.
Context {N : Type}.
Implicit Types (w : nat -> @World N) (s : @Engine N).

Lemma update_nth_end {A : Type} (f : A -> A) (l : list A) (x : A) :
  update_nth (List.length l) f (l ++ [x]) = l ++ [f x].
Proof. induction l as [|a l IH]; cbn; [reflexivity|]. now rewrite IH. Qed.

(** The progress callbacks of a download: no await, nothing but reports. *)
Lemma progress_loop w (ph : ProcessingPhase) (msg : nat -> string) (pcts : list nat) :
  forall i s t,
    exists s',
      run w t (for_loop (fun _ pct (_ : unit) => reportProgress ph pct 100 (msg pct))
                        i pcts tt s) = Returned s' tt
      /\ answers w t (for_loop (fun _ pct (_ : unit) => reportProgress ph pct 100 (msg pct))
                               i pcts tt s) = []
      /\ s' = set_reported (reported s') s.
Proof.
  induction pcts as [|pct pcts IH]; intros i s t; cbn [for_loop].
  - exists s. cbn. split; [reflexivity|]. split; [reflexivity|]. now destruct s.
  - rewrite run_bind_at, answers_bind_at. cbn [reportProgress modify run answers List.length app].
    rewrite Nat.add_0_r.
    destruct (IH (S i) (set_reported
                          (reported s ++ [ {| phase := ph; current := pct; total := 100;
                                              message := msg pct;
                                              percentage := percent pct 100 |} ]) s) t)
      as (s' & R & A & E).
    exists s'. rewrite R, A. split; [reflexivity|]. split; [reflexivity|].
    rewrite E. cbn. reflexivity.
Qed.

End LifecycleFacts.

Section EmbeddingLoad.
Context {N : Type}.
Implicit Types (w : nat -> @World N) (s : @Engine N).

Lemma load_embedding_body_outcome w s t :
  exists s',
    embeddingModelLoading s' = false
    /\ load_promises s' = load_promises s
    /\ visionModel s' = visionModel s
    /\ store s' = store s
    /\ match snd (w t _ (Download (List.length (heap s)))) with
       | Rejected e =>
           run w t (load_embedding_body s) = Threw s' e /\ embeddingModel s' = None
       | Resolved _ =>
           match w (S t) _ (Init (List.length (heap s))) with
           | Rejected e =>
               run w t (load_embedding_body s) = Threw s' e /\ embeddingModel s' = None
           | Resolved _ =>
               run w t (load_embedding_body s) = Returned s' tt
               /\ embeddingModel s' = Some (List.length (heap s))
               /\ heap s'
                  = heap s ++ [mark_initialized
                                 (constructed EMBEDDING_MODEL EMBEDDING_CONTEXT_SIZE)]
           end
       end.
Proof.
  unfold load_embedding_body, cactus_download, cactus_init.
  repeat run_go.
  rewrite !Nat.add_0_r.
  match goal with |- context [run w ?t' (for_loop ?b 0 ?l tt ?s')] =>
    destruct (progress_loop w loading_embedding
                (fun pct => ("Downloading embedding model: " ++ show pct ++ "%")%string)
                l 0 s' t') as (s1 & R & A & E) end.
  rewrite R, A. clear R A.
  pose proof (f_equal embeddingModel E) as Em.
  pose proof (f_equal heap E) as Eh.
  pose proof (f_equal embeddingModelLoading E) as El.
  pose proof (f_equal load_promises E) as Ep.
  pose proof (f_equal visionModel E) as Ev.
  pose proof (f_equal store E) as Es.
  cbn in Em, Eh, El, Ep, Ev, Es. clear E.
  destruct (snd (w t _ (Download (List.length (heap s))))) as [[]|e] eqn:D.
  - repeat run_go. rewrite !Nat.add_0_r. replace (t + 1) with (S t) by lia.
    rewrite Em. repeat run_go. rewrite ?Nat.add_0_r.
    destruct (w (S t) _ (Init (List.length (heap s)))) as [[]|e] eqn:I.
    + repeat run_go. eexists. refine (conj _ (conj _ (conj _ (conj _ _)))).
      5: { split; [reflexivity|]. cbn. rewrite Eh, update_nth_end. auto. }
      all: cbn; auto.
    + repeat run_go. eexists. refine (conj _ (conj _ (conj _ (conj _ _)))).
      5: { split; [reflexivity|]. reflexivity. }
      all: cbn; auto.
  - repeat run_go. eexists. refine (conj _ (conj _ (conj _ (conj _ _)))).
    5: { split; [reflexivity|]. reflexivity. }
    all: cbn; auto.
Qed.

(** X13.  A call of [loadEmbeddingModel] that finds no model and no load in
    flight either returns, with the handle at a new instance of the embedding
    model that [init] has initialized, or throws the error of the download or
    of [init], with the handle null again; in both cases the loading flag is
    false afterwards (so the next call starts a new load) and the vision
    model and the tables are untouched. *)
Theorem X13_embedding_load_succeeds_or_resets w s t :
  embeddingModel s = None ->
  embeddingModelLoading s = false ->
  exists s',
    embeddingModelLoading s' = false
    /\ visionModel s' = visionModel s
    /\ store s' = store s
    /\ match snd (w t _ (Download (List.length (heap s)))) with
       | Rejected e =>
           run w t (loadEmbeddingModel s) = Threw s' e /\ embeddingModel s' = None
       | Resolved _ =>
           match w (S t) _ (Init (List.length (heap s))) with
           | Rejected e =>
               run w t (loadEmbeddingModel s) = Threw s' e /\ embeddingModel s' = None
           | Resolved _ =>
               run w t (loadEmbeddingModel s) = Returned s' tt
               /\ embeddingModel s' = Some (List.length (heap s))
               /\ heap s'
                  = heap s ++ [mark_initialized
                                 (constructed EMBEDDING_MODEL EMBEDDING_CONTEXT_SIZE)]
           end
       end.
Proof.
  intros E L. unfold loadEmbeddingModel.
  rewrite run_bind_at. cbn [get run answers List.length]. rewrite E, L.
  unfold attempt. repeat run_go. rewrite !Nat.add_0_r.
  match goal with |- context [run w t (load_embedding_body ?s0)] =>
    destruct (load_embedding_body_outcome w s0 t)
      as (s1 & L1 & P1 & V1 & S1 & O) end.
  cbn [heap load_promises visionModel store set_embeddingModelLoadPromise set_load_promises
       set_embeddingModelLoading] in O, P1, V1, S1.
  destruct (snd (w t _ (Download (List.length (heap s))))) as [[]|e];
    [destruct (w (S t) _ (Init (List.length (heap s)))) as [[]|e]|].
  - destruct O as (-> & O1 & O2). repeat run_go.
    rewrite P1, nth_error_update_nth_end. repeat run_go.
    eexists. refine (conj _ (conj _ (conj _ _))).
    4: { split; [reflexivity|]. cbn. auto. }
    all: cbn; auto.
  - destruct O as (-> & O1). repeat run_go.
    rewrite P1, nth_error_update_nth_end. repeat run_go.
    eexists. refine (conj _ (conj _ (conj _ _))).
    4: { split; [reflexivity|]. cbn. auto. }
    all: cbn; auto.
  - destruct O as (-> & O1). repeat run_go.
    rewrite P1, nth_error_update_nth_end. repeat run_go.
    eexists. refine (conj _ (conj _ (conj _ _))).
    4: { split; [reflexivity|]. cbn. auto. }
    all: cbn; auto.
Qed.

End EmbeddingLoad.

Ltac run_on :=
  repeat first
    [ run_go
    | rewrite Nat.add_0_r
    | rewrite Nat.add_succ_r
    | match goal with
      | H : ?w _ _ _ = _ |- _ => rewrite H
      | H : snd _ = _ |- _ => rewrite H
      | H : find _ _ = _ |- _ => rewrite H
      | H : isDownloaded _ = _ |- _ => rewrite H
      | H : visionModel _ = _ |- _ => rewrite H
      | H : embeddingModel _ = _ |- _ => rewrite H
      | H : run _ _ _ = _ |- _ => rewrite H
      | H : answers _ _ _ = _ |- _ => rewrite H
      end
    | progress cbn [filter is_download app List.length] ].

Ltac finish_check :=
  split; [assumption|];
  split; [reflexivity|];
  split; [reflexivity|];
  split; [intros; first [discriminate | reflexivity]|];
  split; [intros; first [discriminate | reflexivity]|];
  eauto.

Section VisionLoad.
Context {N : Type}.
Implicit Types (w : nat -> @World N) (s : @Engine N).

Lemma download_vision_model_outcome w s t m :
  visionModel s = Some m ->
  exists s',
    s' = set_reported (reported s') s
    /\ answers w t (download_vision_model s) = [Ans (Download m) (w t _ (Download m))]
    /\ run w t (download_vision_model s)
       = match snd (w t _ (Download m)) with
         | Resolved _ => Returned s' tt
         | Rejected e => Threw s' e
         end.
Proof.
  intros V. unfold download_vision_model, cactus_download.
  repeat run_go. rewrite V. repeat run_go. rewrite !Nat.add_0_r.
  match goal with |- context [run w ?t' (for_loop ?b 0 ?l tt ?s')] =>
    destruct (progress_loop w loading_vision
                (fun pct => ("Downloading vision model: " ++ show pct ++ "%")%string)
                l 0 s' t') as (s1 & R & A & E) end.
  rewrite R, A. clear R A. exists s1. split; [exact E|].
  destruct (snd (w t _ (Download m))) as [[]|e]; repeat run_go; split; reflexivity.
Qed.

Lemma vision_init_outcome w s t m :
  visionModel s = Some m ->
  run w t ((s0 <- get ;; m0 <- deref (visionModel s0) ;; cactus_init m0 ;;
            reportProgress loading_vision 1 1 "Vision model ready") s)
  = match w t _ (Init m) with
    | Resolved _ =>
        Returned (set_reported
                    (reported s ++ [ {| phase := loading_vision; current := 1; total := 1;
                                        message := "Vision model ready";
                                        percentage := percent 1 1 |} ])
                    (set_heap (update_nth m mark_initialized (heap s)) s)) tt
    | Rejected e => Threw s e
    end
  /\ filter is_download
       (answers w t ((s0 <- get ;; m0 <- deref (visionModel s0) ;; cactus_init m0 ;;
                      reportProgress loading_vision 1 1 "Vision model ready") s)) = [].
Proof.
  intros V. unfold cactus_init. repeat run_go. rewrite V. repeat run_go.
  rewrite !Nat.add_0_r.
  destruct (w t _ (Init m)) as [[]|e]; repeat run_go; split; reflexivity.
Qed.

(** The check of [loadVisionModel] for a downloaded model, with the
    downloads it leads to. *)
Lemma vision_check_outcome w s0 t m modelToLoad :
  visionModel s0 = Some m ->
  let piece :=
    try_catch
      (s <- get ;;
       m <- deref (visionModel s) ;;
       models <- cactus_getModels m ;;
       match find (fun i => String.eqb (slug i) modelToLoad) models with
       | Some visionModelInfo =>
           if isDownloaded visionModelInfo then ret tt else download_vision_model
       | None => download_vision_model
       end)
      (fun _ => download_vision_model) in
  exists s1 n,
    s1 = set_reported (reported s1) s0
    /\ List.length (answers w t (piece s0)) = S n
    /\ List.length (filter is_download (answers w t (piece s0))) = n
    /\ (listed_as_downloaded modelToLoad (w t _ (GetModels m)) = true -> n = 0)
    /\ (listed_as_downloaded modelToLoad (w t _ (GetModels m)) = false ->
        match w t _ (GetModels m), snd (w (S t) _ (Download m)) with
        | Resolved _, Rejected _ => n = 2
        | _, _ => n = 1
        end)
    /\ (run w t (piece s0) = Returned s1 tt \/ exists e, run w t (piece s0) = Threw s1 e).
Proof.
  intros V. cbv zeta. unfold cactus_getModels.
  assert (Same : s0 = set_reported (reported s0) s0) by now destruct s0.
  destruct (download_vision_model_outcome w s0 (S t) V) as (s1 & E1 & A1 & R1).
  assert (V1 : visionModel s1 = Some m) by (rewrite E1; exact V).
  destruct (download_vision_model_outcome w s1 (S (S t)) V1) as (s2 & E2 & A2 & R2).
  assert (E2' : s2 = set_reported (reported s2) s0) by (rewrite E2, E1; reflexivity).
  clear E2 V1.
  destruct (w t _ (GetModels m)) as [models|e] eqn:G; cbn [listed_as_downloaded].
  - destruct (find (fun i => String.eqb (slug i) modelToLoad) models) as [info|] eqn:F;
      [destruct (isDownloaded info) eqn:D|].
    + exists s0, 0. run_on. now finish_check.
    + destruct (snd (w (S t) _ (Download m))) as [[]|e] eqn:D1.
      * exists s1, 1. run_on. now finish_check.
      * destruct (snd (w (S (S t)) _ (Download m))) as [[]|e2] eqn:D2;
          exists s2, 2; run_on; now finish_check.
    + destruct (snd (w (S t) _ (Download m))) as [[]|e] eqn:D1.
      * exists s1, 1. run_on. now finish_check.
      * destruct (snd (w (S (S t)) _ (Download m))) as [[]|e2] eqn:D2;
          exists s2, 2; run_on; now finish_check.
  - destruct (snd (w (S t) _ (Download m))) as [[]|e1] eqn:D1;
      exists s1, 1; run_on; now finish_check.
Qed.

Lemma vision_body_outcome w s0 t m modelToLoad :
  visionModel s0 = Some m ->
  let body :=
    try_catch
      (s <- get ;;
       m <- deref (visionModel s) ;;
       models <- cactus_getModels m ;;
       match find (fun i => String.eqb (slug i) modelToLoad) models with
       | Some visionModelInfo =>
           if isDownloaded visionModelInfo then ret tt else download_vision_model
       | None => download_vision_model
       end)
      (fun _ => download_vision_model) ;;
    s <- get ;;
    m <- deref (visionModel s) ;;
    cactus_init m ;;
    reportProgress loading_vision 1 1 "Vision model ready" in
  exists s' n,
    List.length (filter is_download (answers w t (body s0))) = n
    /\ (listed_as_downloaded modelToLoad (w t _ (GetModels m)) = true -> n = 0)
    /\ (listed_as_downloaded modelToLoad (w t _ (GetModels m)) = false ->
        match w t _ (GetModels m), snd (w (S t) _ (Download m)) with
        | Resolved _, Rejected _ => n = 2
        | _, _ => n = 1
        end)
    /\ visionModel s' = Some m
    /\ embeddingModel s' = embeddingModel s0
    /\ store s' = store s0
    /\ ((run w t (body s0) = Returned s' tt
         /\ heap s' = update_nth m mark_initialized (heap s0))
        \/ (exists e, run w t (body s0) = Threw s' e)).
Proof.
  intros V. cbv zeta.
  destruct (vision_check_outcome w s0 t modelToLoad V)
    as (s1 & n & E1 & L & F & H1 & H2 & R).
  cbv zeta in *.
  rewrite run_bind_at, answers_bind_at, filter_app, length_app, F, L.
  assert (V1 : visionModel s1 = Some m) by (rewrite E1; exact V).
  destruct (vision_init_outcome w s1 (t + S n) V1) as [RI AI].
  destruct R as [R|[e R]]; rewrite R.
  - rewrite RI, AI.
    destruct (w (t + S n) _ (Init m)) as [[]|e].
    + eexists. exists n.
      refine (conj _ (conj H1 (conj H2 (conj _ (conj _ (conj _ _)))))).
      5: { left. split; [reflexivity|]. cbn. rewrite E1. reflexivity. }
      all: cbn; try lia; rewrite E1; cbn; auto.
    + exists s1, n. split; [cbn; lia|]. split; [exact H1|]. split; [exact H2|].
      rewrite E1. cbn. split; [exact V|]. split; [reflexivity|].
      split; [reflexivity|]. right. eauto.
  - exists s1, n. split; [cbn; lia|]. split; [exact H1|]. split; [exact H2|].
    rewrite E1. cbn. split; [exact V|]. split; [reflexivity|].
    split; [reflexivity|]. right. eauto.
Qed.

(** X14.  [loadVisionModel] constructs a [CactusLM] for the selected model
    and asks [getModels]: it awaits no download when the model is listed as
    downloaded, one when [getModels] fails or the model is not listed as
    downloaded, and a second one when that download, made after a successful
    [getModels], fails.  It ends with the handle at the new instance, the
    embedding model and the tables untouched: either it returns and the
    instance is initialized, or it throws. *)
Theorem X14_vision_load_downloads_when_needed w s t :
  let m := List.length (heap s) in
  let listing := w t _ (GetModels m) in
  let downloads :=
    List.length (filter is_download (answers w t (loadVisionModel s))) in
  (listed_as_downloaded (selectedVisionModel s) listing = true -> downloads = 0)
  /\ (listed_as_downloaded (selectedVisionModel s) listing = false ->
      match listing, snd (w (S t) _ (Download m)) with
      | Resolved _, Rejected _ => downloads = 2
      | _, _ => downloads = 1
      end)
  /\ exists s',
       visionModel s' = Some m
       /\ embeddingModel s' = embeddingModel s
       /\ store s' = store s
       /\ ((run w t (loadVisionModel s) = Returned s' tt
            /\ heap s'
               = heap s ++ [mark_initialized
                              (constructed (selectedVisionModel s) CONTEXT_SIZE)])
           \/ (exists e, run w t (loadVisionModel s) = Threw s' e)).
Proof.
  cbv zeta. unfold loadVisionModel.
  rewrite run_bind_at, answers_bind_at. cbn [get run answers List.length app].
  rewrite run_bind_at, answers_bind_at.
  cbn [reportProgress modify run answers List.length app].
  rewrite run_try_catch_at, answers_try_catch_at.
  rewrite run_bind_at, answers_bind_at.
  cbn [new_CactusLM run answers List.length app].
  rewrite run_bind_at, answers_bind_at.
  cbn [modify run answers List.length app]. rewrite !Nat.add_0_r.
  match goal with |- context [run w t (bind ?piece ?rest ?s0)] =>
    destruct (@vision_body_outcome w s0 t (List.length (heap s)) (selectedVisionModel s)
                eq_refl) as (s' & n & F & H1 & H2 & V & E & S & R)
  end.
  cbv zeta in *. cbn [embeddingModel store heap set_visionModel set_heap set_reported] in *.
  destruct R as [[R Hh]|[e R]]; rewrite R in *.
  - rewrite app_nil_r, F.
    split; [exact H1|]. split; [exact H2|]. exists s'.
    split; [exact V|]. split; [exact E|]. split; [exact S|]. left.
    split; [reflexivity|]. rewrite Hh. apply update_nth_end.
  - cbn [throw run answers app]. rewrite app_nil_r, F.
    split; [exact H1|]. split; [exact H2|]. exists s'.
    split; [exact V|]. split; [exact E|]. split; [exact S|]. right. eauto.
Qed.

End VisionLoad.

(* ------------------------------------------------------------------ *)
(** ** A batch that succeeds, a batch that fails *)
(* ------------------------------------------------------------------ *)

Section IndexRun.
Context {N : Type} {num : Number N}.
Implicit Types (w : nat -> @World N) (s : @Engine N).

Lemma returns_only_run {A : Type} (P : A -> Prop) w (r : @Res N A) :
  forall t s a, returns_only P r -> run w t r = Returned s a -> P a.
Proof.
  induction r as [s0 a0|s0 e|s0 X op k IH|s0 q p k IH]; intros t s a H; cbn.
  - intros [= _ <-]. exact H.
  - discriminate.
  - destruct (ready s0 (w t) op) as [x|]; [|discriminate]. apply IH, H.
  - discriminate.
Qed.

Lemma returns_only_catch {A : Type} (P : A -> Prop) (h : Error -> @Async N A)
      (r : @Res N A) :
  returns_only P r -> (forall e s, returns_only P (h e s)) ->
  returns_only P (catch_res r h).
Proof.
  intros H Hh. induction r as [s a|s e|s X op k IH|s q p k IH]; cbn in *; auto.
Qed.

Lemma returns_only_await_async {A : Type} (P : A -> Prop) (m : @Async N A) s :
  returns_only P (m s) -> returns_only P (await_async m s).
Proof.
  intros H. unfold await_async, attempt, bind, try_catch.
  assert (K : returns_only (fun r => match r with Resolved a => P a | Rejected _ => True end)
                (catch_res (bind_res (m s) (fun a => ret (Resolved a)))
                           (fun e => ret (Rejected e)))).
  { apply returns_only_catch; [|intros e s'; exact I].
    induction (m s) as [s0 a|s0 e|s0 X op k IH|s0 q p k IH]; cbn in *; auto. }
  revert K. generalize (catch_res (bind_res (m s) (fun a => ret (Resolved a)))
                                  (fun e => ret (Rejected e))).
  intros r K. induction r as [s0 a|s0 e|s0 X op k IH|s0 q p k IH]; cbn in *; auto.
  intros [] s'. destruct a; cbn; auto.
Qed.

(** A loop that adds one item to its accumulator per turn returns the
    accumulator followed by one item per element, in order. *)
Lemma returns_only_for_loop {A B : Type} (Q : A -> B -> Prop)
      (body : nat -> A -> list B -> @Async N (list B)) (l : list A) :
  (forall i x acc s,
      returns_only (fun acc' => exists y, acc' = acc ++ [y] /\ Q x y) (body i x acc s)) ->
  forall i acc s,
    returns_only (fun r => exists ys, r = acc ++ ys /\ Forall2 Q l ys)
                 (for_loop body i l acc s).
Proof.
  intros Hb. induction l as [|x l IH]; intros i acc s; cbn [for_loop].
  - exists []. split; [now rewrite app_nil_r|constructor].
  - unfold bind.
    assert (K : forall r : @Res N (list B),
               returns_only (fun acc' => exists y, acc' = acc ++ [y] /\ Q x y) r ->
               returns_only (fun r => exists ys, r = acc ++ ys /\ Forall2 Q (x :: l) ys)
                            (bind_res r (fun acc' => for_loop body (S i) l acc'))).
    { intros r. induction r as [s0 a|s0 e|s0 X op k IHr|s0 q p k IHr]; cbn; auto.
      intros (y & -> & Hy).
      specialize (IH (S i) (acc ++ [y]) s0). revert IH.
      generalize (for_loop body (S i) l (acc ++ [y]) s0). intros r IH.
      induction r as [s1 a|s1 e|s1 X op k IHr|s1 q p k IHr]; cbn in *; auto.
      destruct IH as (ys & -> & Hys). exists (y :: ys).
      split; [now rewrite <- app_assoc|now constructor]. }
    apply K, Hb.
Qed.

Lemma returns_only_bind_with {A B : Type} (Q : A -> Prop) (P : B -> Prop)
      (f : A -> @Async N B) (r : @Res N A) :
  returns_only Q r -> (forall a s, Q a -> returns_only P (f a s)) ->
  returns_only P (bind_res r f).
Proof.
  intros H Hf. induction r as [s a|s e|s X op k IH|s q p k IH]; cbn in *; auto.
Qed.

Lemma returns_only_weaken {A : Type} (P Q : A -> Prop) (r : @Res N A) :
  (forall a, P a -> Q a) -> returns_only P r -> returns_only Q r.
Proof.
  intros HPQ. induction r as [s a|s e|s X op k IH|s q p k IH]; cbn in *; auto.
Qed.

Ltac skip_bind :=
  match goal with
  | |- returns_only _ (bind _ _ _) => unfold bind at 1
  | _ => idtac
  end;
  apply returns_only_bind; intros ? ?.

Ltac skip_binds :=
  repeat (first [ apply returns_only_bind; intros ? ?
                | match goal with |- returns_only _ (bind _ _ _) => unfold bind at 1 end ]).

Lemma caption_image_step_adds n i file acc s :
  returns_only (fun acc' => exists y, acc' = acc ++ [y] /\ cf_file y = file)
               (caption_image_step n i file acc s).
Proof.
  unfold caption_image_step. skip_binds. cbn. eexists. split; reflexivity.
Qed.

Lemma filename_caption_step_adds n i file acc s :
  returns_only (fun acc' => exists y, acc' = acc ++ [y] /\ cf_file y = file)
               (filename_caption_step n i file acc s).
Proof.
  unfold filename_caption_step. skip_binds. cbn. eexists. split; reflexivity.
Qed.

Lemma pdf_step_adds a b c i file acc s :
  returns_only (fun acc' => exists y, acc' = acc ++ [y] /\ cf_file y = file)
               (pdf_step a b c i file acc s).
Proof.
  unfold pdf_step. skip_binds. cbn. eexists. split; reflexivity.
Qed.

Lemma embed_step_adds n i captioned acc s :
  returns_only (fun acc' => exists y, acc' = acc ++ [y] /\ ef_captioned y = captioned)
               (embed_step n i captioned acc s).
Proof.
  unfold embed_step. skip_binds. cbn. eexists. split; reflexivity.
Qed.

Lemma Forall2_map_eq {A B : Type} (f : B -> A) (l : list A) (ys : list B) :
  Forall2 (fun x y => f y = x) l ys -> map f ys = l.
Proof. induction 1; cbn; congruence. Qed.

Lemma caption_images_files images s :
  returns_only (fun c => map cf_file c = images) (caption_images images s).
Proof.
  unfold caption_images. destruct (0 <? List.length images)%nat eqn:E.
  - change USE_VISION_MODEL with true. cbv iota. do 3 skip_bind.
    unfold bind at 1. eapply returns_only_bind_with.
    + apply (returns_only_for_loop (fun f y => cf_file y = f)).
      intros. apply caption_image_step_adds.
    + intros c s' (ys & -> & H). skip_binds. cbn. now apply Forall2_map_eq.
  - destruct images; [reflexivity|discriminate].
Qed.

Lemma caption_all_files files_ s :
  returns_only
    (fun c => map cf_file c
              = filter (fun f => FileType_eqb (sel_type f) image) files_
                ++ filter (fun f => FileType_eqb (sel_type f) pdf) files_)
    (caption_all files_ s).
Proof.
  unfold caption_all. cbv zeta. unfold bind at 1.
  eapply returns_only_bind_with; [apply caption_images_files|].
  intros c s' Hc. unfold caption_pdfs.
  destruct (0 <? List.length _)%nat eqn:E.
  - eapply returns_only_weaken;
      [|apply (returns_only_for_loop (fun f y => cf_file y = f)); intros; apply pdf_step_adds].
    cbn beta. intros r (ys & -> & H). rewrite map_app, Hc. f_equal.
    now apply Forall2_map_eq.
  - cbn. destruct (filter _ files_) as [|? ?] eqn:F in E |- *; [|discriminate].
    now rewrite app_nil_r.
Qed.

Lemma embed_all_captions captioned s :
  returns_only (fun e => map ef_captioned e = captioned) (embed_all captioned s).
Proof.
  unfold embed_all. skip_binds.
  eapply returns_only_weaken;
    [|apply (returns_only_for_loop (fun c y => ef_captioned y = c)); intros;
      apply embed_step_adds].
  cbn beta. intros r (ys & -> & H). now apply Forall2_map_eq.
Qed.

End IndexRun.

Section IndexSuccess.
Context {N : Type} {num : Number N}.
Implicit Types (w : nat -> @World N) (s : @Engine N).

Lemma save_step_run w n i embedded s t :
  run w t (save_step n i embedded tt s)
  = if db s
    then Returned
           (set_reported
              (reported s ++ [ {| phase := saving; current := i + 1; total := n;
                                  message := ("Saved " ++ show (i + 1) ++ "/" ++ show n)%string;
                                  percentage := percent (i + 1) n |} ])
              (set_store (insert_file embedded (clock s) (store s)) s)) tt
    else Threw s "Error: Database not initialized".
Proof.
  unfold save_step, saveFileToDatabase. repeat run_go.
  destruct (db s); repeat run_go; reflexivity.
Qed.

Lemma save_loop_returns w n (l : list EmbeddedFile) :
  forall i s t s',
    run w t (for_loop (save_step n) i l tt s) = Returned s' tt ->
    store s' = fold_left (fun st e => insert_file e (clock s) st) l (store s)
    /\ clock s' = clock s.
Proof.
  induction l as [|e l IH]; intros i s t s'; cbn [for_loop fold_left].
  - cbn. intros [= <-]. split; reflexivity.
  - rewrite run_bind_at, save_step_run.
    destruct (db s); [|discriminate].
    intros H. apply IH in H. cbn in H. exact H.
Qed.

Lemma saved_fold (now : nat) (l : list (@EmbeddedFile N)) :
  forall st,
    let st' := fold_left (fun st e => insert_file e now st) l st in
    files st' = files st ++ saved_records now (last_id st) l
    /\ file_vectors st'
       = file_vectors st
         ++ combine (map id (saved_records now (last_id st) l))
                    (map (fun e => vectorToJson (ef_embedding e)) l)
    /\ last_id st' = last_id st + List.length l.
Proof.
  induction l as [|e l IH]; intros st; cbn [fold_left saved_records map combine List.length].
  - rewrite !app_nil_r, Nat.add_0_r. auto.
  - destruct (IH (insert_file e now st)) as (F & V & L). cbv zeta in *.
    rewrite F, V, L. cbn [insert_file files file_vectors last_id saved_record id].
    rewrite <- !app_assoc. cbn [app]. repeat split. lia.
Qed.

Lemma saved_records_ids (now n : nat) (l : list (@EmbeddedFile N)) :
  map id (saved_records now n l) = seq (S n) (List.length l).
Proof.
  revert n. induction l as [|e l IH]; intros n; [reflexivity|].
  cbn [saved_records map List.length seq saved_record id]. now rewrite IH.
Qed.

Lemma saved_records_fields (now n : nat) (l : list (@EmbeddedFile N)) :
  map uri (saved_records now n l) = map (fun e => sel_uri (cf_file (ef_captioned e))) l
  /\ map filename (saved_records now n l)
     = map (fun e => sel_name (cf_file (ef_captioned e))) l
  /\ map file_type (saved_records now n l)
     = map (fun e => sel_type (cf_file (ef_captioned e))) l
  /\ Forall (fun r => caption r <> None) (saved_records now n l).
Proof.
  revert n. induction l as [|e l IH]; intros n; [cbn; auto|].
  destruct (IH (S n)) as (U & F & T & C).
  cbn [saved_records map saved_record uri filename file_type].
  rewrite U, F, T. repeat split. constructor; [discriminate|exact C].
Qed.

Lemma map_fst_zip {A B : Type} (l1 : list A) :
  forall l2 : list B,
    List.length l1 = List.length l2 -> map fst (combine l1 l2) = l1.
Proof.
  induction l1 as [|x l1 IH]; intros [|y l2] H; try discriminate; [reflexivity|].
  cbn. f_equal. apply IH. now injection H.
Qed.

Lemma images_then_pdfs (files_ : list SelectedFile) :
  Permutation (filter (fun f => FileType_eqb (sel_type f) image) files_
               ++ filter (fun f => FileType_eqb (sel_type f) pdf) files_)
              files_.
Proof.
  induction files_ as [|f l IH]; [constructor|].
  cbn [filter]. destruct (sel_type f); cbn [FileType_eqb app].
  - now constructor.
  - rewrite <- Permutation_middle. now constructor.
Qed.

Lemma save_all_returns w n embeddedFiles s t s' :
  run w t (save_all n embeddedFiles s) = Returned s' tt ->
  store s' = fold_left (fun st e => insert_file e (clock s) st) embeddedFiles (store s)
  /\ exists before, reported s' = before ++ [complete_progress n].
Proof.
  unfold save_all. rewrite run_bind_at.
  cbn [reportProgress modify run answers List.length].
  rewrite run_bind_at.
  destruct (run w (t + 0) _) as [s1 []|s1 e|s1] eqn:L; try discriminate.
  apply save_loop_returns in L. cbn in L. destruct L as [L _].
  cbn [reportProgress modify run]. intros [= <-]. cbn. split; [exact L|].
  eexists. reflexivity.
Qed.

Lemma index_pipeline_returns w files_ s t s' :
  run w t (index_pipeline files_ s) = Returned s' tt ->
  exists embeddedFiles now,
    map (fun e => cf_file (ef_captioned e)) embeddedFiles
    = filter (fun f => FileType_eqb (sel_type f) image) files_
      ++ filter (fun f => FileType_eqb (sel_type f) pdf) files_
    /\ store s' = fold_left (fun st e => insert_file e now st) embeddedFiles (store s)
    /\ exists before, reported s' = before ++ [complete_progress (List.length files_)].
Proof.
  unfold index_pipeline. rewrite run_bind_at.
  pose proof (frame_keeps_store w s t
                (frame_caption_all permits_keeps_store files_)) as K1.
  destruct (run w t (caption_all files_ s)) as [s1 captioned|s1 e|s1] eqn:R1;
    try discriminate.
  apply (returns_only_run _ w _ t (caption_all_files files_ s)) in R1.
  cbn [final] in K1. rewrite run_bind_at.
  match goal with |- context [run w ?t' (embed_all captioned s1)] =>
    pose proof (frame_keeps_store w s1 t'
                  (frame_embed_all permits_keeps_store (@any_op_embed N) captioned)) as K2;
    destruct (run w t' (embed_all captioned s1)) as [s2 embedded|s2 e|s2] eqn:R2;
      try discriminate;
    apply (returns_only_run _ w _ t' (embed_all_captions captioned s1)) in R2
  end.
  cbn [final] in K2. intros H. apply save_all_returns in H.
  destruct H as (S & P). exists embedded, (clock s2).
  split; [rewrite <- R1, <- R2; now rewrite map_map|].
  split; [rewrite S, K2, K1; reflexivity|exact P].
Qed.


Lemma indexFiles_returns w files_ s t s' :
  run w t (indexFiles files_ s) = Returned s' tt ->
  exists embeddedFiles now,
    map (fun e => cf_file (ef_captioned e)) embeddedFiles
    = filter (fun f => FileType_eqb (sel_type f) image) files_
      ++ filter (fun f => FileType_eqb (sel_type f) pdf) files_
    /\ store s' = fold_left (fun st e => insert_file e now st) embeddedFiles (store s)
    /\ exists before, reported s' = before ++ [complete_progress (List.length files_)].
Proof.
  unfold indexFiles.
  rewrite run_bind_at. cbn [get run answers List.length].
  rewrite run_bind_at.
  assert (I : exists s1, run w (t + 0) ((if negb (isInitialized s) then await_async initialize
                                         else ret tt) s) = Returned s1 tt
                         /\ store s1 = store s).
  { destruct (isInitialized s) eqn:Hi; cbn [negb].
    - exists s. split; reflexivity.
    - rewrite run_await_async. unfold initialize. cbn. rewrite Hi. cbn.
      eexists. split; reflexivity. }
  destruct I as (s1 & -> & S1).
  rewrite run_try_catch_at.
  destruct (run w _ (index_pipeline files_ s1)) as [s2 []|s2 e|s2] eqn:R.
  - intros [= <-]. apply index_pipeline_returns in R.
    destruct R as (embedded & now & M & S & P).
    exists embedded, now. rewrite <- S1. auto.
  - intros H. now apply index_cleanup_no_return in H.
  - discriminate.
Qed.

Lemma store_ok_saved (now : nat) (l : list (@EmbeddedFile N)) :
  forall st, store_ok st -> store_ok (fold_left (fun st e => insert_file e now st) l st).
Proof.
  induction l as [|e l IH]; intros st H; [exact H|].
  cbn [fold_left]. apply IH. now apply store_ok_insert.
Qed.

(** X16.  When [indexFiles] has returned, the tables hold the rows from
    before followed by one new file row and one new vector row per selected
    file, the images first and then the PDFs, each group in the order of the
    selection: the new ids are the next values of the counter, the vector
    rows carry the same ids, each new row has the uri, name and type of its
    file and a caption, and the last progress report is [complete] with the
    number of files. *)
Theorem X16_indexed_files_are_saved_in_order w files_ s t s' :
  run w t (indexFiles files_ s) = Returned s' tt ->
  let selected :=
    filter (fun f => FileType_eqb (sel_type f) image) files_
    ++ filter (fun f => FileType_eqb (sel_type f) pdf) files_ in
  Permutation selected files_
  /\ exists rows vectors,
       files (store s') = files (store s) ++ rows
       /\ file_vectors (store s') = file_vectors (store s) ++ vectors
       /\ last_id (store s') = last_id (store s) + List.length files_
       /\ map id rows = seq (S (last_id (store s))) (List.length files_)
       /\ map fst vectors = map id rows
       /\ map uri rows = map sel_uri selected
       /\ map filename rows = map sel_name selected
       /\ map file_type rows = map sel_type selected
       /\ Forall (fun r => caption r <> None) rows
       /\ exists before, reported s' = before ++ [complete_progress (List.length files_)].
Proof.
  intros H. cbv zeta. split; [apply images_then_pdfs|].
  apply indexFiles_returns in H. destruct H as (embedded & now & M & S & P).
  assert (Hlen : List.length embedded = List.length files_).
  { rewrite <- (Permutation_length (images_then_pdfs files_)), <- M.
    now rewrite length_map. }
  destruct (saved_fold now embedded (store s)) as (F & V & L). cbv zeta in *.
  rewrite <- S in F, V, L.
  destruct (saved_records_fields now (last_id (store s)) embedded) as (U & Fn & T & C).
  exists (saved_records now (last_id (store s)) embedded).
  exists (combine (map id (saved_records now (last_id (store s)) embedded))
                  (map (fun e => vectorToJson (ef_embedding e)) embedded)).
  split; [exact F|]. split; [exact V|]. split; [now rewrite L, Hlen|].
  split; [now rewrite saved_records_ids, Hlen|].
  split.
  { apply map_fst_zip. rewrite !length_map.
    rewrite <- (length_map id), saved_records_ids. apply length_seq. }
  rewrite <- M, !map_map. auto.
Qed.

(** X17.  When [indexFiles] has returned on tables that agreed, the tables
    agree again, and the join that [executeSearch] reads has the file rows
    from before followed by one row for each selected file, the images first
    and then the PDFs: every file of the batch can be found by a search from
    then on, and none twice. *)
Theorem X17_indexed_files_become_searchable w files_ s t s' :
  store_ok (store s) ->
  run w t (indexFiles files_ s) = Returned s' tt ->
  store_ok (store s')
  /\ exists rows,
       map row_file (select_files_with_vectors (store s')) = files (store s) ++ rows
       /\ map filename rows
          = map sel_name
              (filter (fun f => FileType_eqb (sel_type f) image) files_
               ++ filter (fun f => FileType_eqb (sel_type f) pdf) files_)
       /\ map uri rows
          = map sel_uri
              (filter (fun f => FileType_eqb (sel_type f) image) files_
               ++ filter (fun f => FileType_eqb (sel_type f) pdf) files_).
Proof.
  intros Ok H. apply indexFiles_returns in H.
  destruct H as (embedded & now & M & S & _).
  assert (Ok' : store_ok (store s')) by (rewrite S; now apply store_ok_saved).
  split; [exact Ok'|].
  exists (saved_records now (last_id (store s)) embedded).
  rewrite (select_files Ok').
  destruct (saved_fold now embedded (store s)) as (F & _). cbv zeta in F.
  rewrite <- S in F.
  destruct (saved_records_fields now (last_id (store s)) embedded) as (U & Fn & _).
  split; [exact F|]. rewrite <- M, !map_map. auto.
Qed.

End IndexSuccess.

(* ------------------------------------------------------------------ *)
(** ** Captions of documents, paths of images *)
(* ------------------------------------------------------------------ *)

Section PdfCaption.
Context {N : Type}.
Implicit Types (w : nat -> @World N) (s : @Engine N).

(** X18.  [generatePdfCaption] does not throw and leaves the engine as it
    is.  When the native extractor gives more than 20 characters the caption
    is "PDF: <name>. Content: <text>"; when it gives 20 characters or fewer,
    or fails, the caption is "PDF document: <name>", the name being the file
    name without a final ".pdf" (in any case) and with spaces for its
    underscores and hyphens. *)
Theorem X18_pdf_caption_from_text_or_name w (file : SelectedFile) s t :
  run w t (generatePdfCaption file s)
  = Returned s
      match w t _ (ExtractText (sel_uri file) PDF_MAX_CHARS) with
      | Resolved extractedText =>
          if (20 <? String.length extractedText)%nat
          then ("PDF: " ++ pdf_clean_name file ++ ". Content: " ++ extractedText)%string
          else ("PDF document: " ++ pdf_clean_name file)%string
      | Rejected _ => ("PDF document: " ++ pdf_clean_name file)%string
      end.
Proof.
  unfold generatePdfCaption, extractPdfText.
  repeat run_go. rewrite ?Nat.add_0_r.
  destruct (w t _ (ExtractText (sel_uri file) PDF_MAX_CHARS)) as [text|e];
    repeat run_go.
  - destruct text as [|c text]; [reflexivity|].
    cbn [String.eqb negb andb]. 
    destruct (20 <? String.length (String c text))%nat; reflexivity.
  - reflexivity.
Qed.

End PdfCaption.

Section ReadablePath.
Context {N : Type}.
Implicit Types (w : nat -> @World N) (s : @Engine N).

Lemma substring_all (s : string) : String.substring 0 (String.length s) s = s.
Proof. induction s as [|c s IH]; cbn; [reflexivity|]. now rewrite IH. Qed.

Lemma replace_first_absent (pat rep s : string) :
  Js.includes s pat = false -> Js.replace_first pat rep s = s.
Proof.
  induction s as [|c s IH]; [reflexivity|].
  cbn [Js.includes Js.replace_first]. intros H.
  apply orb_false_iff in H. destruct H as [H1 H2].
  rewrite H1. f_equal. now apply IH.
Qed.

Lemma strip_file_scheme (path : string) :
  Js.replace_first "file://" "" ("file://" ++ path) = path.
Proof.
  cbn. replace (String.prefix "" path) with true by (now destruct path).
  unfold Js.drop. cbn. rewrite ?Nat.sub_0_r. apply substring_all.
Qed.

(** X19.  [getReadableFilePath] gives the path behind a "file://" uri, and
    an absolute path without "file://" in it as it is, in both cases without
    an await; any other uri is copied into the cache directory under the
    name "<time>_<filename>" and that path is returned, a failure of the copy
    being thrown to the caller.  The engine is left as it is. *)
Theorem X19_readable_path_of_a_uri w (uri_ filename_ : string) s t :
  (forall path, getReadableFilePath ("file://" ++ path) filename_ s = Done s path)
  /\ (Js.startsWith uri_ "/" = true -> Js.includes uri_ "file://" = false ->
      getReadableFilePath uri_ filename_ s = Done s uri_)
  /\ (Js.startsWith uri_ "/" = false -> Js.startsWith uri_ "file://" = false ->
      let tempPath :=
        (CachesDirectoryPath s ++ "/" ++ show (clock s) ++ "_" ++ filename_)%string in
      run w t (getReadableFilePath uri_ filename_ s)
      = match w t _ (CopyFile uri_ tempPath) with
        | Resolved _ => Returned s tempPath
        | Rejected e => Threw s e
        end).
Proof.
  split; [|split].
  - intros path. unfold getReadableFilePath.
    assert (P : Js.startsWith ("file://" ++ path) "/"
                || Js.startsWith ("file://" ++ path) "file://" = true)
      by (cbn; now destruct path).
    rewrite P. unfold ret. now rewrite strip_file_scheme.
  - intros H1 H2. unfold getReadableFilePath. rewrite H1. cbn [orb].
    unfold ret. now rewrite replace_first_absent.
  - intros H1 H2. cbv zeta. unfold getReadableFilePath. rewrite H1, H2. cbn [orb].
    repeat run_go. rewrite ?Nat.add_0_r.
    destruct (w t _ (CopyFile uri_ _)) as [[]|e]; repeat run_go; reflexivity.
Qed.

End ReadablePath.

(* ------------------------------------------------------------------ *)
(** ** A batch in which captions fail *)
(* ------------------------------------------------------------------ *)

Section CaptionedBatch.
Context {N : Type} {num : Number N}.
Implicit Types (w : nat -> @World N) (s : @Engine N).

Lemma models_apart_refl s : models_apart s s.
Proof. unfold models_apart. auto 10. Qed.

Lemma models_apart_trans s1 s2 s3 :
  models_apart s1 s2 -> models_apart s2 s3 -> models_apart s1 s3.
Proof.
  unfold models_apart.
  intros (A1 & A2 & A3 & A4 & A5 & A6 & A7) (B1 & B2 & B3 & B4 & B5 & B6 & B7).
  repeat split; try congruence. lia.
Qed.

Lemma models_apart_reported rep s : models_apart s (set_reported rep s).
Proof. unfold models_apart. cbn. auto 10. Qed.

(** [loadVisionModel] when the model can be downloaded and initialised. *)
Lemma vision_check_loads w s0 t m modelToLoad :
  models_load w ->
  visionModel s0 = Some m ->
  exists s1,
    s1 = set_reported (reported s1) s0
    /\ run w t
         (try_catch
            (s <- get ;;
             m <- deref (visionModel s) ;;
             models <- cactus_getModels m ;;
             match find (fun i => String.eqb (slug i) modelToLoad) models with
             | Some visionModelInfo =>
                 if isDownloaded visionModelInfo then ret tt else download_vision_model
             | None => download_vision_model
             end)
            (fun _ => download_vision_model) s0)
       = Returned s1 tt.
Proof.
  intros L V. unfold cactus_getModels.
  assert (Same : s0 = set_reported (reported s0) s0) by now destruct s0.
  destruct (download_vision_model_outcome w s0 (S t) V) as (s1 & E1 & _ & R1).
  rewrite (proj1 (L _ _)) in R1.
  destruct (w t _ (GetModels m)) as [models|e] eqn:G.
  - destruct (find (fun i => String.eqb (slug i) modelToLoad) models) as [info|] eqn:F;
      [destruct (isDownloaded info) eqn:D|].
    + exists s0. split; [exact Same|]. run_on. reflexivity.
    + exists s1. split; [exact E1|]. run_on. reflexivity.
    + exists s1. split; [exact E1|]. run_on. reflexivity.
  - exists s1. split; [exact E1|]. run_on. reflexivity.
Qed.

Lemma loadVisionModel_loads w s t :
  models_load w ->
  exists s1,
    run w t (loadVisionModel s) = Returned s1 tt
    /\ models_apart s s1
    /\ visionModel s1 = Some (List.length (heap s))
    /\ embeddingModel s1 = embeddingModel s.
Proof.
  intros L. unfold loadVisionModel.
  rewrite run_bind_at. cbn [get run answers List.length].
  rewrite run_bind_at. cbn [reportProgress modify run answers List.length].
  rewrite run_try_catch_at, run_bind_at. cbn [new_CactusLM run answers List.length].
  rewrite run_bind_at. cbn [modify run answers List.length]. rewrite !Nat.add_0_r.
  rewrite run_bind_at.
  match goal with |- context [run w t (try_catch ?a ?b ?s0)] =>
    destruct (@vision_check_loads w s0 t (List.length (heap s)) (selectedVisionModel s)
                L eq_refl) as (s1 & E1 & ->)
  end.
  assert (V1 : visionModel s1 = Some (List.length (heap s))) by (rewrite E1; reflexivity).
  match goal with |- context [run w ?t' (bind get ?k s1)] =>
    destruct (vision_init_outcome w s1 t' V1) as [RI _]
  end.
  rewrite RI, (proj2 (L _ _)).
  eexists. split; [reflexivity|]. rewrite E1. unfold models_apart. cbn.
  rewrite length_update_nth, length_app. cbn. repeat split; lia.
Qed.

Lemma unloadVisionModel_unloads w s t m :
  destroys_succeed w ->
  visionModel s = Some m ->
  exists s1,
    run w t (unloadVisionModel s) = Returned s1 tt
    /\ models_apart s s1
    /\ visionModel s1 = None
    /\ embeddingModel s1 = embeddingModel s.
Proof.
  intros D V. unfold unloadVisionModel, cactus_destroy.
  rewrite run_bind_at. cbn [get run answers List.length]. rewrite V.
  repeat run_go. rewrite !D. repeat run_go.
  eexists. split; [reflexivity|]. unfold models_apart. cbn.
  rewrite length_update_nth. repeat split; lia.
Qed.

Lemma unloadEmbeddingModel_unloads w s t m :
  destroys_succeed w ->
  embeddingModel s = Some m ->
  exists s1,
    run w t (unloadEmbeddingModel s) = Returned s1 tt
    /\ models_apart s s1
    /\ List.length (heap s1) = List.length (heap s)
    /\ visionModel s1 = visionModel s
    /\ embeddingModel s1 = None.
Proof.
  intros D V. unfold unloadEmbeddingModel, cactus_destroy.
  rewrite run_bind_at. cbn [get run answers List.length]. rewrite V.
  repeat run_go. rewrite !D. repeat run_go.
  eexists. split; [reflexivity|]. unfold models_apart. cbn.
  rewrite length_update_nth. repeat split; lia.
Qed.

Lemma run_optional_delay w (b : bool) (ms : nat) s t :
  run w t ((if b then await (Delay ms) else ret tt) s) = Returned s tt.
Proof. destruct b; cbn; [destruct (w t _ (Delay ms))|]; reflexivity. Qed.

Lemma generatePdfCaption_run w (file : SelectedFile) s t :
  run w t (generatePdfCaption file s)
  = Returned s
      match w t _ (ExtractText (sel_uri file) PDF_MAX_CHARS) with
      | Resolved extractedText =>
          if (20 <? String.length extractedText)%nat
          then ("PDF: " ++ pdf_clean_name file ++ ". Content: " ++ extractedText)%string
          else ("PDF document: " ++ pdf_clean_name file)%string
      | Rejected _ => ("PDF document: " ++ pdf_clean_name file)%string
      end.
Proof.
  unfold generatePdfCaption, extractPdfText.
  repeat run_go. rewrite ?Nat.add_0_r.
  destruct (w t _ (ExtractText (sel_uri file) PDF_MAX_CHARS)) as [text|e];
    repeat run_go.
  - destruct text as [|c text]; [reflexivity|].
    cbn [String.eqb negb andb].
    destruct (20 <? String.length (String c text))%nat; reflexivity.
  - reflexivity.
Qed.

Lemma incl_answers_bind_l {A B : Type} w (m : Async A) (f : A -> Async B) s t :
  incl (answers w t (m s)) (answers w t ((bind m f) s)).
Proof. rewrite answers_bind_at. apply incl_appl, incl_refl. Qed.

Lemma incl_answers_bind_r {A B : Type} w (m : Async A) (f : A -> Async B) s t s1 a :
  run w t (m s) = Returned s1 a ->
  incl (answers w (t + List.length (answers w t (m s))) (f a s1))
       (answers w t ((bind m f) s)).
Proof. intros R. rewrite answers_bind_at, R. apply incl_appr, incl_refl. Qed.

Lemma incl_answers_await_async {A : Type} w (m : Async A) s t :
  incl (answers w t (m s)) (answers w t (await_async m s)).
Proof.
  destruct (answers_await_async w m s t) as (tick & -> & _).
  apply incl_appl, incl_refl.
Qed.

Lemma incl_answers_try_catch {A : Type} w (m : Async A) (h : Error -> Async A) s t :
  incl (answers w t (m s)) (answers w t ((try_catch m h) s)).
Proof. rewrite answers_try_catch_at. apply incl_appl, incl_refl. Qed.

Lemma image_captioned_incl (l l' : list (@Answered N)) m cache now file c :
  incl l l' -> image_captioned l m cache now file c ->
  image_captioned l' m cache now file c.
Proof.
  intros H (resized & answer & H1 & H2 & E).
  exists resized, answer. auto.
Qed.

Lemma document_captioned_incl (l l' : list (@Answered N)) file c :
  incl l l' -> document_captioned l file c -> document_captioned l' file c.
Proof. intros H (extracted & H1 & E). exists extracted. auto. Qed.

Lemma captioned_incl (l l' : list (@Answered N)) m cache now file c :
  incl l l' -> captioned l m cache now file c -> captioned l' m cache now file c.
Proof.
  unfold captioned. destruct (sel_type file);
    [apply image_captioned_incl|apply document_captioned_incl].
Qed.

Lemma resizeImageForVision_answers w uri_ s t :
  answers w t (resizeImageForVision uri_ s)
  = [Ans (CreateResizedImage uri_) (w t _ (CreateResizedImage uri_))].
Proof.
  unfold resizeImageForVision. cbn.
  destruct (w t _ (CreateResizedImage uri_)); reflexivity.
Qed.

Lemma captionImage_answers w imagePath s t m :
  visionModel s = Some m ->
  answers w t (captionImage imagePath s)
  = [Ans (Complete m VISION_CAPTION_PROMPT imagePath VISION_MAX_TOKENS)
         (w t _ (Complete m VISION_CAPTION_PROMPT imagePath VISION_MAX_TOKENS))].
Proof.
  intros H. unfold captionImage. unfold bind at 1. cbn [get bind_res].
  rewrite H. cbn. rewrite H. cbn.
  destruct (w t _ (Complete m VISION_CAPTION_PROMPT imagePath VISION_MAX_TOKENS));
    reflexivity.
Qed.

Lemma generatePdfCaption_answers w (file : SelectedFile) s t :
  In (Ans (ExtractText (sel_uri file) PDF_MAX_CHARS)
          (w t _ (ExtractText (sel_uri file) PDF_MAX_CHARS)))
     (answers w t (generatePdfCaption file s)).
Proof.
  unfold generatePdfCaption.
  apply incl_answers_try_catch, incl_answers_bind_l, incl_answers_await_async.
  unfold extractPdfText.
  apply incl_answers_try_catch, incl_answers_bind_l.
  cbn. left. reflexivity.
Qed.

Variable w : nat -> @World N.
Hypothesis loads : models_load w.
Hypothesis destroys : destroys_succeed w.
Hypothesis resets : resets_succeed w.
Hypothesis copies : copies_succeed w.
Hypothesis embeds : embeds_succeed w.

Lemma caption_image_step_exact n i file acc s t m :
  visionModel s = Some m ->
  exists rep c,
    run w t (caption_image_step n i file acc s)
    = Returned (set_reported rep s)
        (acc ++ [ {| cf_file := file; cf_caption := c; cf_thumbnail := None |} ])
    /\ image_captioned (answers w t (caption_image_step n i file acc s))
                       m (CachesDirectoryPath s) (clock s) file c.
Proof.
  intros V. unfold caption_image_step.
  rewrite run_bind_at, answers_bind_at.
  cbn [reportProgress modify run answers List.length app].
  set (s1 := set_reported _ s).
  assert (V1 : visionModel s1 = Some m) by exact V.
  rewrite run_bind_at, answers_bind_at, run_await_async, resizeImageForVision_run.
  destruct (answers_await_async w (resizeImageForVision (sel_uri file)) s1 (t + 0))
    as (tick1 & -> & _).
  rewrite resizeImageForVision_answers.
  set (resized := w (t + 0) (CreateResizedImage (sel_uri file))).
  rewrite run_bind_at, answers_bind_at, run_await_async,
    (getReadableFilePath_run _ _ _ _ copies).
  match goal with |- context [answers w ?t' (await_async (getReadableFilePath ?u ?f) s1)] =>
    set (l2 := answers w t' (await_async (getReadableFilePath u f) s1)) end.
  change (if Js.startsWith match resized with Resolved p => p | Rejected _ => sel_uri file end "/"
             || Js.startsWith match resized with Resolved p => p | Rejected _ => sel_uri file end
                              "file://"
          then Js.replace_first "file://" ""
                 match resized with Resolved p => p | Rejected _ => sel_uri file end
          else (CachesDirectoryPath s1 ++ "/" ++ show (clock s1) ++ "_" ++ sel_name file)%string)
    with (image_path resized (CachesDirectoryPath s) (clock s) file).
  set (imagePath := image_path resized (CachesDirectoryPath s) (clock s) file).
  rewrite run_bind_at, answers_bind_at, run_await_async, (captionImage_run _ _ _ _ V1).
  match goal with |- context [answers w ?t' (await_async (captionImage imagePath) s1)] =>
    destruct (answers_await_async w (captionImage imagePath) s1 t') as (tick3 & -> & _);
    rewrite (captionImage_answers w imagePath s1 t' V1);
    set (answer := w t' (Complete m VISION_CAPTION_PROMPT imagePath VISION_MAX_TOKENS))
  end.
  rewrite run_bind_at, unlink_ignored.
  rewrite run_bind_at, run_await_async. cbn [createThumbnail ret run].
  rewrite run_bind_at. cbn [get run answers List.length].
  rewrite run_bind_at. rewrite V1. unfold cactus_reset.
  rewrite run_bind_at. cbn [await run answers ready List.length].
  rewrite resets. cbn [settle ret run answers List.length].
  rewrite run_bind_at, run_optional_delay. cbn [ret run].
  exists (reported s1), (image_caption answer imagePath). split; [reflexivity|].
  exists resized, answer. fold imagePath.
  split; [|split; [|reflexivity]].
  - rewrite !in_app_iff. left. left. left. reflexivity.
  - rewrite !in_app_iff. right. right. left. left. left. reflexivity.
Qed.

Lemma caption_loop_exact n (images : list SelectedFile) :
  forall i acc s t m,
    visionModel s = Some m ->
    exists rep captionedFiles,
      run w t (for_loop (caption_image_step n) i images acc s)
      = Returned (set_reported rep s) (acc ++ captionedFiles)
      /\ map cf_file captionedFiles = images
      /\ Forall2 (fun f c =>
                    image_captioned
                      (answers w t (for_loop (caption_image_step n) i images acc s))
                      m (CachesDirectoryPath s) (clock s) f (cf_caption c))
                 images captionedFiles.
Proof.
  induction images as [|file images IH]; intros i acc s t m V; cbn [for_loop].
  - exists (reported s), []. rewrite app_nil_r. cbn.
    split; [now destruct s|]. split; [reflexivity|constructor].
  - rewrite run_bind_at.
    destruct (caption_image_step_exact n i file acc s t V) as (rep1 & c & R & Hc).
    rewrite R.
    match goal with |- context [run w ?t' (for_loop _ _ _ ?a (set_reported rep1 s))] =>
      destruct (IH (S i) a (set_reported rep1 s) t' m V) as (rep2 & l & -> & Hf & Hl) end.
    exists rep2. eexists (_ :: l). rewrite <- app_assoc.
    split; [reflexivity|]. cbn [map cf_file]. rewrite Hf.
    split; [reflexivity|]. constructor.
    + eapply image_captioned_incl; [|exact Hc]. apply incl_answers_bind_l.
    + eapply Forall2_impl; [|exact Hl]. intros f c0.
      apply image_captioned_incl.
      eapply incl_answers_bind_r, R.
Qed.

Lemma pdf_loop_exact a b c (pdfs : list SelectedFile) :
  forall i acc s t,
    exists rep captionedFiles,
      run w t (for_loop (pdf_step a b c) i pdfs acc s)
      = Returned (set_reported rep s) (acc ++ captionedFiles)
      /\ map cf_file captionedFiles = pdfs
      /\ Forall2 (fun f c0 =>
                    document_captioned
                      (answers w t (for_loop (pdf_step a b c) i pdfs acc s))
                      f (cf_caption c0))
                 pdfs captionedFiles.
Proof.
  induction pdfs as [|file pdfs IH]; intros i acc s t; cbn [for_loop].
  - exists (reported s), []. rewrite app_nil_r. cbn.
    split; [now destruct s|]. split; [reflexivity|constructor].
  - assert (Hstep : exists s1 c0,
               run w t (pdf_step a b c i file acc s)
               = Returned s1 (acc ++ [ {| cf_file := file; cf_caption := c0;
                                          cf_thumbnail := None |} ])
               /\ s1 = set_reported (reported s1) s
               /\ document_captioned (answers w t (pdf_step a b c i file acc s)) file c0).
    { unfold pdf_step.
      rewrite run_bind_at, answers_bind_at.
      cbn [reportProgress modify run answers List.length app].
      rewrite run_bind_at, answers_bind_at, run_await_async, generatePdfCaption_run.
      cbn [ret run].
      eexists. eexists. split; [reflexivity|]. split; [reflexivity|].
      eexists. split; [|reflexivity].
      apply in_or_app. left. apply incl_answers_await_async.
      apply generatePdfCaption_answers. }
    destruct Hstep as (s1 & c0 & R & E1 & Hc).
    rewrite run_bind_at, R.
    match goal with |- context [run w ?t' (for_loop _ _ _ ?a0 s1)] =>
      destruct (IH (S i) a0 s1 t') as (rep2 & l & -> & Hf & Hl) end.
    exists rep2. eexists (_ :: l). rewrite <- app_assoc.
    split; [rewrite E1; reflexivity|]. cbn [map cf_file]. rewrite Hf.
    split; [reflexivity|]. constructor.
    + eapply document_captioned_incl; [|exact Hc]. apply incl_answers_bind_l.
    + eapply Forall2_impl; [|exact Hl]. intros f c1.
      apply document_captioned_incl.
      eapply incl_answers_bind_r, R.
Qed.

Lemma generateEmbedding_exact text s t m :
  embeddingModel s = Some m ->
  exists v, run w t (generateEmbedding text s) = Returned s v.
Proof.
  intros E. unfold generateEmbedding, cactus_embed.
  repeat run_go. rewrite E. repeat run_go. rewrite E. repeat run_go.
  destruct (embeds (t + 0 + 0 + 0) m text) as [v ->]. exists v. reflexivity.
Qed.

Lemma embed_loop_exact n (l : list CaptionedFile) :
  forall i acc s t m,
    embeddingModel s = Some m ->
    exists rep embeddedFiles,
      run w t (for_loop (embed_step n) i l acc s)
      = Returned (set_reported rep s) (acc ++ embeddedFiles)
      /\ map (@ef_captioned N) embeddedFiles = l.
Proof.
  induction l as [|c l IH]; intros i acc s t m E; cbn [for_loop].
  - exists (reported s), []. rewrite app_nil_r. cbn.
    split; [now destruct s|reflexivity].
  - rewrite run_bind_at. unfold embed_step at 1 2.
    rewrite run_bind_at. cbn [reportProgress modify run answers List.length].
    set (s1 := set_reported _ s).
    assert (E1 : embeddingModel s1 = Some m) by exact E.
    rewrite run_bind_at, run_await_async.
    destruct (generateEmbedding_exact (cf_caption c) s1 (t + 0) E1) as (v & ->).
    rewrite run_bind_at, run_optional_delay. cbn [ret run].
    match goal with |- context [run w ?t' (for_loop _ _ _ ?a s1)] =>
      destruct (IH (S i) a s1 t' m E1) as (rep2 & l2 & -> & Hl) end.
    exists rep2. eexists (_ :: l2). rewrite <- app_assoc.
    split; [reflexivity|]. cbn [map ef_captioned]. now rewrite Hl.
Qed.

Lemma save_loop_exact n (l : list EmbeddedFile) :
  forall i s t,
    db s = true ->
    exists rep,
      run w t (for_loop (save_step n) i l tt s)
      = Returned (set_reported rep
                    (set_store (fold_left (fun st e => insert_file e (clock s) st) l (store s))
                               s)) tt.
Proof.
  induction l as [|e l IH]; intros i s t D; cbn [for_loop fold_left].
  - exists (reported s). cbn. now destruct s.
  - rewrite run_bind_at, save_step_run, D.
    match goal with |- context [run w ?t' (for_loop _ _ _ tt ?s1)] =>
      destruct (IH (S i) s1 t' D) as (rep2 & ->) end.
    exists rep2. reflexivity.
Qed.

(** Phase 1: every image gets the caption of the vision model or the
    fallback for its own path, and both models are unloaded at the end. *)
Lemma caption_images_exact (images : list SelectedFile) s t :
  images <> [] ->
  exists s1 captionedFiles,
    run w t (caption_images images s) = Returned s1 captionedFiles
    /\ map cf_file captionedFiles = images
    /\ Forall2 (fun f c =>
                  image_captioned (answers w t (caption_images images s))
                                  (List.length (heap s)) (CachesDirectoryPath s)
                                  (clock s) f (cf_caption c))
               images captionedFiles
    /\ models_apart s s1
    /\ embeddingModel s1 = None.
Proof.
  intros Hne. unfold caption_images.
  destruct images as [|f0 rest]; [contradiction|].
  set (images := f0 :: rest).
  change (0 <? List.length images)%nat with true. cbv iota.
  change USE_VISION_MODEL with true. cbv iota.
  rewrite run_bind_at, answers_bind_at. cbn [get run answers List.length app].
  set (unload := fun s0 : @Engine N =>
                   match embeddingModel s0 return @Async N unit with
                   | Some _ => await_async unloadEmbeddingModel ;; await (Delay 2000)
                   | None => ret tt
                   end).
  assert (U : exists s0,
             run w (t + 0) (unload s s) = Returned s0 tt
             /\ models_apart s s0
             /\ List.length (heap s0) = List.length (heap s)
             /\ embeddingModel s0 = None).
  { unfold unload. destruct (embeddingModel s) as [me|] eqn:E.
    - rewrite run_bind_at, run_await_async.
      destruct (unloadEmbeddingModel_unloads s (t + 0) destroys E)
        as (s0 & -> & A0 & H0 & _ & E0).
      cbn [await run ready].
      match goal with |- context [Returned s0 ?u] => destruct u end.
      exists s0. auto.
    - exists s. cbn. auto using models_apart_refl. }
  destruct U as (s0 & R0 & A0 & H0 & E0).
  change (match embeddingModel s with
          | Some _ => await_async unloadEmbeddingModel ;; await (Delay 2000)
          | None => ret tt
          end) with (unload s).
  rewrite run_bind_at, answers_bind_at, R0.
  set (t1 := t + 0 + List.length (answers w (t + 0) (unload s s))).
  rewrite run_bind_at, answers_bind_at, run_await_async.
  destruct (loadVisionModel_loads s0 t1 loads) as (s1 & R1 & A1 & V1 & E1).
  rewrite R1.
  set (t2 := t1 + List.length (answers w t1 (await_async loadVisionModel s0))).
  rewrite run_bind_at, answers_bind_at.
  destruct (caption_loop_exact (List.length images) images 0 [] s1 t2 V1)
    as (rep & l & R2 & Hf & Hl).
  rewrite R2.
  rewrite run_bind_at, run_await_async.
  match goal with |- context [run w ?t' (unloadVisionModel ?s2)] =>
    destruct (unloadVisionModel_unloads s2 t' destroys V1) as (s3 & -> & A3 & V3 & E3)
  end.
  cbn [ret run app]. exists s3, l. split; [reflexivity|]. split; [exact Hf|].
  split.
  - eapply Forall2_impl; [|exact Hl]. intros f c Hc.
    rewrite <- H0.
    destruct A0 as (_ & _ & C0 & P0 & _), A1 as (_ & _ & C1 & P1 & _).
    rewrite <- C0, <- P0, <- C1, <- P1.
    eapply image_captioned_incl; [|exact Hc].
    apply incl_appr, incl_appr, incl_appl, incl_refl.
  - split; [|cbn in E3; congruence].
    eapply models_apart_trans; [exact A0|].
    eapply models_apart_trans; [exact A1|].
    eapply models_apart_trans; [apply (models_apart_reported rep)|exact A3].
Qed.

Lemma Forall2_impl_in {A B : Type} (R1 R2 : A -> B -> Prop) (l : list A) :
  forall l',
    (forall a b, In a l -> R1 a b -> R2 a b) ->
    Forall2 R1 l l' -> Forall2 R2 l l'.
Proof.
  induction l as [|a l IH]; intros l' H F; inversion F; subst; constructor.
  - apply H; [now left|assumption].
  - apply IH; [|assumption]. intros a' b' Hin. apply H. now right.
Qed.

Lemma caption_all_exact (files_ : list SelectedFile) s t :
  exists s1 captionedFiles,
    run w t (caption_all files_ s) = Returned s1 captionedFiles
    /\ map cf_file captionedFiles
       = filter (fun f => FileType_eqb (sel_type f) image) files_
         ++ filter (fun f => FileType_eqb (sel_type f) pdf) files_
    /\ Forall2 (fun f c =>
                  captioned (answers w t (caption_all files_ s))
                            (List.length (heap s)) (CachesDirectoryPath s) (clock s)
                            f (cf_caption c))
               (filter (fun f => FileType_eqb (sel_type f) image) files_
                ++ filter (fun f => FileType_eqb (sel_type f) pdf) files_)
               captionedFiles
    /\ models_apart s s1.
Proof.
  unfold caption_all. cbv zeta.
  set (images := filter (fun f => FileType_eqb (sel_type f) image) files_).
  set (pdfs := filter (fun f => FileType_eqb (sel_type f) pdf) files_).
  rewrite run_bind_at, answers_bind_at.
  assert (P1 : exists s1 l1,
             run w t (caption_images images s) = Returned s1 l1
             /\ map cf_file l1 = images
             /\ Forall2 (fun f c =>
                           captioned (answers w t (caption_images images s))
                                     (List.length (heap s)) (CachesDirectoryPath s)
                                     (clock s) f (cf_caption c)) images l1
             /\ models_apart s s1).
  { destruct images as [|f0 rest] eqn:Ei.
    - exists s, []. split; [reflexivity|]. split; [reflexivity|].
      split; [constructor|apply models_apart_refl].
    - destruct (@caption_images_exact (f0 :: rest) s t) as (s1 & l1 & R & Hf & Hl & A & _);
        [discriminate|].
      exists s1, l1. split; [exact R|]. split; [exact Hf|]. split; [|exact A].
      eapply Forall2_impl_in; [|exact Hl]. intros f c Hin Hc.
      rewrite <- Ei in Hin. apply filter_In in Hin. destruct Hin as [_ Hin].
      unfold captioned. destruct (sel_type f); [exact Hc|discriminate]. }
  destruct P1 as (s1 & l1 & R1 & Hf1 & Hl1 & A1). rewrite R1.
  set (t1 := t + List.length (answers w t (caption_images images s))).
  set (second := @caption_pdfs N (List.length images) (List.length files_) pdfs).
  assert (P2 : exists rep l2,
             run w t1 (second l1 s1) = Returned (set_reported rep s1) (l1 ++ l2)
             /\ map cf_file l2 = pdfs
             /\ Forall2 (fun f c =>
                           captioned (answers w t1 (second l1 s1))
                                     (List.length (heap s)) (CachesDirectoryPath s)
                                     (clock s) f (cf_caption c)) pdfs l2).
  { unfold second, caption_pdfs. destruct pdfs as [|p0 rest] eqn:Ep.
    - exists (reported s1), []. cbn. rewrite app_nil_r.
      split; [now destruct s1|]. split; [reflexivity|constructor].
    - change (0 <? List.length (p0 :: rest))%nat with true. cbv iota.
      match goal with |- context [run w t1 (for_loop (pdf_step ?a ?b ?c) 0 ?l l1 s1)] =>
        destruct (pdf_loop_exact a b c l 0 l1 s1 t1) as (rep & l2 & -> & Hf2 & Hl2) end.
      exists rep, l2. split; [reflexivity|]. split; [exact Hf2|].
      eapply Forall2_impl_in; [|exact Hl2]. intros f c Hin Hc.
      rewrite <- Ep in Hin. apply filter_In in Hin. destruct Hin as [_ Hin].
      unfold captioned. destruct (sel_type f); [discriminate|exact Hc]. }
  destruct P2 as (rep & l2 & -> & Hf2 & Hl2).
  exists (set_reported rep s1), (l1 ++ l2). split; [reflexivity|].
  split; [rewrite map_app, Hf1, Hf2; reflexivity|].
  split.
  - apply Forall2_app.
    + eapply Forall2_impl; [|exact Hl1]. intros f c.
      apply captioned_incl, incl_appl, incl_refl.
    + eapply Forall2_impl; [|exact Hl2]. intros f c.
      apply captioned_incl, incl_appr, incl_refl.
  - eapply models_apart_trans; [exact A1|apply models_apart_reported].
Qed.

Lemma embed_all_exact (captionedFiles : list CaptionedFile) s t :
  embeddingModelLoading s = false ->
  exists s1 embeddedFiles,
    run w t (embed_all captionedFiles s) = Returned s1 embeddedFiles
    /\ map (@ef_captioned N) embeddedFiles = captionedFiles
    /\ db s1 = db s /\ store s1 = store s /\ clock s1 = clock s.
Proof.
  intros L. unfold embed_all. rewrite run_bind_at, run_await_async.
  assert (P : exists s0 m,
             run w t (loadEmbeddingModel s) = Returned s0 tt
             /\ embeddingModel s0 = Some m
             /\ db s0 = db s /\ store s0 = store s /\ clock s0 = clock s).
  { destruct (embeddingModel s) as [m|] eqn:E.
    - exists s, m. unfold loadEmbeddingModel. cbn. rewrite E. auto.
    - destruct (loadEmbeddingModel_fresh s t E L loads)
        as (s0 & _ & -> & _ & _ & _ & E0 & _ & S0 & D0 & C0).
      exists s0, (List.length (heap s)). auto. }
  destruct P as (s0 & m & -> & E0 & D0 & S0 & C0).
  match goal with |- context [run w ?t' (for_loop _ 0 captionedFiles [] s0)] =>
    destruct (embed_loop_exact (List.length captionedFiles) captionedFiles 0 [] s0 t' E0)
      as (rep & l & -> & Hl) end.
  exists (set_reported rep s0), l. cbn. auto.
Qed.

Lemma save_all_exact n (embeddedFiles : list EmbeddedFile) s t :
  db s = true ->
  exists s',
    run w t (save_all n embeddedFiles s) = Returned s' tt
    /\ store s'
       = fold_left (fun st e => insert_file e (clock s) st) embeddedFiles (store s)
    /\ exists before, reported s' = before ++ [complete_progress n].
Proof.
  intros D. unfold save_all. rewrite run_bind_at.
  cbn [reportProgress modify run answers List.length].
  rewrite run_bind_at.
  match goal with |- context [run w ?t' (for_loop _ 0 embeddedFiles tt ?s1)] =>
    destruct (save_loop_exact (List.length embeddedFiles) embeddedFiles 0 s1 t' D)
      as (rep & ->) end.
  cbn [reportProgress modify run].
  eexists. split; [reflexivity|]. cbn. split; [reflexivity|].
  eexists. reflexivity.
Qed.

Lemma saved_records_captions (now n : nat) (l : list (@EmbeddedFile N)) :
  map caption (saved_records now n l)
  = map (fun e => Some (cf_caption (ef_captioned e))) l.
Proof.
  revert n. induction l as [|e l IH]; intros n; [reflexivity|].
  cbn [saved_records map saved_record caption]. now rewrite IH.
Qed.

Lemma Forall2_map_right {A B C : Type} (R : A -> C -> Prop) (g : B -> C) (l : list A) :
  forall l', Forall2 (fun a b => R a (g b)) l l' -> Forall2 R l (map g l').
Proof. induction l; intros l' F; inversion F; subst; cbn; constructor; auto. Qed.


End CaptionedBatch.


(** The rows of that batch. *)
Example two_pictures_captioner_down_rows :
  match run (fun _ => captioner_fails) 0
            (indexFiles two_pictures_and_a_document open_engine) with
  | Returned s' _ =>
      map (fun f => (id f, filename f, caption f)) (files (store s'))
      = [(1, "a.jpg", Some "Image file: resized.jpg");
         (2, "b.jpg", Some "Image file: resized.jpg");
         (3, "c.pdf", Some "PDF document: c")]
  | _ => False
  end.
Proof. vm_compute. reflexivity. Qed.


(** A picture whose resized copy has a path that ends in a slash: the
    fallback caption ends in "unknown". *)
Example caption_of_an_empty_segment :
  match run (fun _ => resized_into "/cache/out/" captioner_fails) 0
            (indexFiles [picture "a.jpg"] open_engine) with
  | Returned s' _ =>
      map (fun f => (filename f, caption f)) (files (store s'))
      = [("a.jpg", Some "Image file: unknown")]
  | _ => False
  end.
Proof. vm_compute. reflexivity. Qed.


(* ------------------------------------------------------------------ *)
(** ** Closing the engine *)
(* ------------------------------------------------------------------ *)

Section DestroyFacts.
Context {N : Type}.
Implicit Types (w : nat -> @World N) (s : @Engine N).

Lemma unloadVisionModel_fields w s t :
  destroys_succeed w ->
  exists s',
    run w t (unloadVisionModel s) = Returned s' tt
    /\ visionModel s' = None
    /\ embeddingModel s' = embeddingModel s
    /\ db s' = db s
    /\ store s' = store s
    /\ searchInProgress s' = searchInProgress s
    /\ searchQueue s' = searchQueue s
    /\ (forall x, destroyed_in (heap s) x -> destroyed_in (heap s') x)
    /\ (forall x, visionModel s = Some x ->
          In x (destroyed_models (answers w t (unloadVisionModel s)))
          /\ destroyed_in (heap s') x).
Proof.
  intros D. unfold unloadVisionModel, cactus_destroy.
  rewrite run_bind_at, answers_bind_at. cbn [get run answers List.length app].
  destruct (visionModel s) as [m|] eqn:V.
  - repeat run_go. rewrite !D. repeat run_go.
    eexists. split; [reflexivity|]. cbn.
    do 6 (split; [reflexivity|]).
    split; [intros x Hx; now apply destroyed_stays|].
    intros x [= <-]. split; [left; reflexivity|apply destroyed_update_nth].
  - exists s. cbn. do 8 (split; [auto|]). intros x [=].
Qed.

Lemma unloadEmbeddingModel_fields w s t :
  destroys_succeed w ->
  exists s',
    run w t (unloadEmbeddingModel s) = Returned s' tt
    /\ embeddingModel s' = None
    /\ visionModel s' = visionModel s
    /\ db s' = db s
    /\ store s' = store s
    /\ searchInProgress s' = searchInProgress s
    /\ searchQueue s' = searchQueue s
    /\ (forall x, destroyed_in (heap s) x -> destroyed_in (heap s') x)
    /\ (forall x, embeddingModel s = Some x ->
          In x (destroyed_models (answers w t (unloadEmbeddingModel s)))
          /\ destroyed_in (heap s') x).
Proof.
  intros D. unfold unloadEmbeddingModel, cactus_destroy.
  rewrite run_bind_at, answers_bind_at. cbn [get run answers List.length app].
  destruct (embeddingModel s) as [m|] eqn:V.
  - repeat run_go. rewrite !D. repeat run_go.
    eexists. split; [reflexivity|]. cbn.
    do 6 (split; [reflexivity|]).
    split; [intros x Hx; now apply destroyed_stays|].
    intros x [= <-]. split; [left; reflexivity|apply destroyed_update_nth].
  - exists s. cbn. do 8 (split; [auto|]). intros x [=].
Qed.

(** X20.  [destroy] run on its own, when the SDK carries out the [destroy]
    calls of the two models: it returns with both model handles null, every
    model the engine held destroyed, the database handle null and the engine
    no longer initialized; the tables and the state of the search
    coordinator are as they were.  When instead the SDK rejects the
    [destroy] of the vision model the engine holds, [destroy] throws that
    error: the handle is still set and the database is as it was. *)
Theorem X20_destroy_closes_and_keeps_the_rows w s t :
  (destroys_succeed w ->
   exists s',
     run w t (destroy s) = Returned s' tt
     /\ visionModel s' = None
     /\ embeddingModel s' = None
     /\ db s' = false
     /\ isInitialized s' = false
     /\ store s' = store s
     /\ searchInProgress s' = searchInProgress s
     /\ searchQueue s' = searchQueue s
     /\ forall x, holds s x ->
          In x (destroyed_models (answers w t (destroy s)))
          /\ destroyed_in (heap s') x)
  /\ (forall m e,
        visionModel s = Some m ->
        w t _ (Destroy m) = Rejected e ->
        exists s',
          run w t (destroy s) = Threw s' e
          /\ visionModel s' = Some m
          /\ heap s' = heap s
          /\ db s' = db s
          /\ isInitialized s' = isInitialized s).
Proof.
  split.
  - intros D. unfold destroy.
    rewrite run_bind_at, answers_bind_at, run_await_async.
    destruct (answers_await_async w unloadVisionModel s t) as (tick1 & -> & _).
    destruct (unloadVisionModel_fields s t D)
      as (s1 & -> & V1 & E1 & D1 & S1 & P1 & Q1 & K1 & H1).
    rewrite run_bind_at, answers_bind_at, run_await_async.
    match goal with |- context [run w ?t' (unloadEmbeddingModel s1)] =>
      destruct (answers_await_async w unloadEmbeddingModel s1 t') as (tick2 & -> & _);
      destruct (unloadEmbeddingModel_fields s1 t' D)
        as (s2 & -> & E2 & V2 & D2 & S2 & P2 & Q2 & K2 & H2)
    end.
    rewrite run_bind_at. cbn [modify run answers List.length].
    rewrite V1 in V2. rewrite S1 in S2. rewrite P1 in P2. rewrite Q1 in Q2.
    assert (Hh : forall x, holds s x ->
                   In x (destroyed_models
                           ((answers w t (unloadVisionModel s) ++ tick1)
                            ++ (answers w (t + List.length (answers w t (unloadVisionModel s)
                                                            ++ tick1))
                                        (unloadEmbeddingModel s1) ++ tick2)
                            ++ []))
                   /\ destroyed_in (heap s2) x).
    { intros x [Hx|Hx].
      - destruct (H1 x Hx) as [I1 J1]. split; [|apply K2, J1].
        rewrite !destroyed_models_app, !in_app_iff. auto.
      - assert (Hx' : embeddingModel s1 = Some x) by (rewrite E1; exact Hx).
        destruct (H2 x Hx') as [I2 J2]. split; [|exact J2].
        rewrite !destroyed_models_app, !in_app_iff. auto. }
    eexists. split; [reflexivity|].
    destruct (db s2) eqn:Db; cbn; rewrite ?Db; cbn;
      (split; [exact V2|]); (split; [exact E2|]); (split; [reflexivity|]);
      (split; [reflexivity|]); (split; [exact S2|]); (split; [exact P2|]);
      (split; [exact Q2|]); exact Hh.
  - intros m e V R. unfold destroy.
    rewrite run_bind_at, run_await_async.
    unfold unloadVisionModel, cactus_destroy.
    repeat run_go. rewrite V. repeat run_go. rewrite ?Nat.add_0_r, R.
    repeat run_go. eexists. split; [reflexivity|]. cbn. auto.
Qed.

End DestroyFacts.

(* ------------------------------------------------------------------ *)
(** ** Picking and validating files *)
(* ------------------------------------------------------------------ *)

Section PickingFacts.

Lemma pick_loop_firstn (results : list DocumentPickerResponse) :
  forall selectedFiles,
    (List.length selectedFiles < MAX_FILES)%nat ->
    pick_loop results selectedFiles
    = selectedFiles
      ++ firstn (MAX_FILES - List.length selectedFiles) (supported results).
Proof.
  induction results as [|doc rest IH]; intros acc Hacc; cbn [pick_loop supported flat_map].
  - now rewrite firstn_nil, app_nil_r.
  - fold (supported rest).
    destruct (toSelectedFile (with_copy_uri doc)) as [selected|].
    + destruct (Nat.leb_spec MAX_FILES (List.length (acc ++ [selected]))) as [L|L];
        rewrite length_app in L; cbn [List.length] in L.
      * replace (MAX_FILES - List.length acc) with 1 by lia.
        cbn [app firstn]. reflexivity.
      * rewrite IH by (rewrite length_app; cbn; lia).
        rewrite length_app. cbn [List.length].
        replace (MAX_FILES - List.length acc)
          with (S (MAX_FILES - (List.length acc + 1))) by lia.
        cbn [app firstn]. now rewrite <- app_assoc.
    + destruct (Nat.leb_spec MAX_FILES (List.length acc)) as [L|L]; [lia|].
      cbn [app]. now apply IH.
Qed.

Lemma supported_types (results : list DocumentPickerResponse) :
  Forall (fun f => getFileType (sel_mimeType f) = Some (sel_type f)) (supported results).
Proof.
  induction results as [|doc rest IH]; [constructor|].
  cbn [supported flat_map]. fold (supported rest). unfold toSelectedFile.
  destruct (getFileType _) eqn:E; cbn [app]; [|exact IH].
  constructor; [exact E|exact IH].
Qed.

Lemma pickFiles_resolved (isCancel : Error -> bool)
      (results : list DocumentPickerResponse) :
  pickFiles isCancel (Resolved results) = Resolved (firstn MAX_FILES (supported results)).
Proof.
  cbn [pickFiles]. rewrite pick_loop_firstn by (cbn; unfold MAX_FILES; lia).
  cbn [List.length app]. now rewrite Nat.sub_0_r.
Qed.

(** X21.  When the picker resolves, [pickFiles] resolves with the first
    MAX_FILES documents of a supported type, in the picker's order, each
    with the uri of its copy when there is one: never more than MAX_FILES
    files, and each with the file type of its MIME type.  When the picker is
    cancelled it resolves with the empty list, and it rejects with any other
    error of the picker. *)
Theorem X21_pickFiles_keeps_the_first_supported
        (isCancel : Error -> bool) (picked : Reply (list DocumentPickerResponse)) :
  match picked with
  | Resolved results =>
      pickFiles isCancel picked = Resolved (firstn MAX_FILES (supported results))
      /\ (List.length (firstn MAX_FILES (supported results)) <= MAX_FILES)%nat
      /\ Forall (fun f => getFileType (sel_mimeType f) = Some (sel_type f))
                (firstn MAX_FILES (supported results))
  | Rejected err =>
      pickFiles isCancel picked
      = if isCancel err then Resolved [] else Rejected err
  end.
Proof.
  destruct picked as [results|err]; [|reflexivity].
  split; [|split].
  - apply pickFiles_resolved.
  - apply firstn_le_length.
  - pose proof (supported_types results) as H. rewrite Forall_forall in *.
    intros f Hf. apply H. rewrite <- (firstn_skipn MAX_FILES (supported results)).
    apply in_or_app. now left.
Qed.

Lemma no_unsupported (files_ : list SelectedFile) :
  filter (fun f => negb (existsb (FileType_eqb (sel_type f)) [image; pdf])) files_ = [].
Proof.
  induction files_ as [|f l IH]; [reflexivity|].
  cbn [filter]. destruct (sel_type f); cbn; exact IH.
Qed.

Lemma validateFiles_cases (files_ : list SelectedFile) :
  validateFiles files_
  = if (List.length files_ =? 0)%nat
    then {| valid := false; errors := ["No files selected"] |}
    else if (MAX_FILES <? List.length files_)%nat
         then {| valid := false; errors := ["Maximum 50 files allowed"] |}
         else {| valid := true; errors := [] |}.
Proof.
  unfold validateFiles. cbv zeta. rewrite no_unsupported.
  change (0 <? List.length (@nil SelectedFile))%nat with false. cbv iota.
  destruct (Nat.eqb_spec (List.length files_) 0) as [E|E].
  - rewrite E. reflexivity.
  - destruct (MAX_FILES <? List.length files_)%nat; reflexivity.
Qed.

(** X22.  [validateFiles] accepts a selection exactly when it has between 1
    and MAX_FILES files; it reports "No files selected" for the empty
    selection and "Maximum 50 files allowed" for one that is too long, and
    never an unsupported file.  So the list that [pickFiles] resolves with is
    rejected only when it is empty. *)
Theorem X22_validateFiles_checks_the_count (files_ : list SelectedFile) :
  (valid (validateFiles files_) = true
   <-> (1 <= List.length files_ <= MAX_FILES)%nat)
  /\ errors (validateFiles files_)
     = (if (List.length files_ =? 0)%nat then ["No files selected"]
        else if (MAX_FILES <? List.length files_)%nat then ["Maximum 50 files allowed"]
        else [])
  /\ (forall isCancel picked,
        pickFiles isCancel picked = Resolved files_ ->
        valid (validateFiles files_) = negb (List.length files_ =? 0)%nat).
Proof.
  rewrite validateFiles_cases. split; [|split].
  - destruct (Nat.eqb_spec (List.length files_) 0) as [E|E]; cbn [valid].
    + split; [discriminate|lia].
    + destruct (Nat.ltb_spec MAX_FILES (List.length files_)); cbn [valid];
        split; try discriminate; try lia; auto.
  - destruct (List.length files_ =? 0)%nat; [reflexivity|].
    destruct (MAX_FILES <? List.length files_)%nat; reflexivity.
  - intros isCancel picked H.
    assert (L : (List.length files_ <= MAX_FILES)%nat).
    { destruct picked as [results|err].
      - rewrite pickFiles_resolved in H.
        assert (E : files_ = firstn MAX_FILES (supported results)) by congruence.
        rewrite E. apply firstn_le_length.
      - cbn [pickFiles] in H. destruct (isCancel err); [|discriminate].
        injection H as <-. cbn. unfold MAX_FILES. lia. }
    destruct (Nat.eqb_spec (List.length files_) 0) as [E|E]; [reflexivity|].
    destruct (Nat.ltb_spec MAX_FILES (List.length files_)); [lia|reflexivity].
Qed.

End PickingFacts.

(* ------------------------------------------------------------------ *)
(** ** The further properties on concrete inputs *)
(* ------------------------------------------------------------------ *)

(** The first document saved into empty tables. *)
Lemma X7_first_document_saved :
  store_ok (insert_file embedded_document 0 empty_store)
  /\ select_files_with_vectors (insert_file embedded_document 0 empty_store)
     = select_files_with_vectors empty_store
       ++ [ {| row_file := saved_record embedded_document 0 0;
               row_embedding := map float_json [1%float] |} ]
  /\ (Forall (fun x => float_json x = x) [1%float] ->
      map float_json [1%float] = [1%float])
  /\ map row_file (select_files_with_vectors (@empty_store float)) = [].
Proof.
  apply (@X7_saved_file_is_searchable float Binary64 embedded_document 0 empty_store).
  exact (store_ok_cleared 0).
Defined.

(** A vector with an infinity and a negative zero, as it comes back from
    the database. *)
Example infinity_comes_back_as_zero :
  @vectorToJson float Binary64 [PrimFloat.infinity; (-0)%float; 1%float; PrimFloat.nan]
  = [0%float; 0%float; 1%float; 0%float]
  /\ PrimFloat.get_sign (float_json (-0)%float) = false.
Proof. vm_compute. split; reflexivity. Qed.

(** A clear in the middle of a batch: the tables agree afterwards. *)
Lemma X8_clear_during_batch :
  exists sys,
    exec (boot empty_store "/cache" 0) clear_during_batch = Some sys
    /\ store_ok (store (engine sys))
    /\ map row_file (select_files_with_vectors (store (engine sys)))
       = files (store (engine sys)).
Proof.
  destruct (exec (boot empty_store "/cache" 0) clear_during_batch) as [sys|] eqn:E.
  - exists sys. split; [reflexivity|].
    apply (@X8_tables_agree_in_every_reachable_state
             float Binary64 empty_store "/cache" 0 sys).
    + exact (store_ok_cleared 0).
    + exists clear_during_batch. exact E.
  - apply (f_equal is_some) in E. vm_compute in E. discriminate.
Defined.

(** There the second document alone is stored, under the id 2. *)
Example clear_during_batch_tables :
  option_map
    (fun sys => (map (fun f => (id f, filename f)) (files (store (engine sys))),
                 map fst (file_vectors (store (engine sys))),
                 last_id (store (engine sys))))
    (exec (boot empty_store "/cache" 0) clear_during_batch)
  = Some ([(2, "b.pdf")], [2], 2).
Proof. vm_compute. reflexivity. Qed.

(** The ranking of the four pictures for "white cat". *)
Lemma X9_four_pictures_ranked :
  NoDup (map (fun r => id (record r))
             (rank "white cat" [] (select_files_with_vectors pets)))
  /\ forall r,
       In r (rank "white cat" [] (select_files_with_vectors pets)) ->
       In (record r) (files pets).
Proof.
  apply (@X9_results_are_distinct_stored_files float Binary64 "white cat" [] pets).
  split; [reflexivity|]. split.
  - repeat (constructor; [cbn; intuition discriminate|]). constructor.
  - repeat constructor.
Defined.

(** A search over the four pictures, the embedding model being resident. *)
Lemma X10_white_cat_among_four_pictures :
  match run (fun _ => quiet_world) 0 (search "white cat" pets_ready) with
  | Returned s' results =>
      store s' = pets
      /\ searchInProgress s' = false
      /\ (Js.trim "white cat" = "" -> s' = pets_ready /\ results = [])
      /\ (results = []
          \/ exists queryEmbedding m (t' : nat),
               @quiet_world float _ (Embed m "white cat") = Resolved queryEmbedding
               /\ results
                  = rank "white cat" queryEmbedding (select_files_with_vectors pets))
  | Threw _ _ => False
  | Blocked _ => Js.trim "white cat" <> ""
  end
  /\ (searchInProgress pets_ready = false -> searchQueue pets_ready = [] ->
      embeddingModel pets_ready <> None ->
      exists s' results,
        run (fun _ => quiet_world) 0 (search "white cat" pets_ready) = Returned s' results).
Proof.
  exact (@X10_search_on_its_own float Binary64 (fun _ => quiet_world) "white cat"
           pets_ready 0 eq_refl).
Defined.

Lemma X11_four_pictures_listed :
  exists listed,
    getAllFiles pets_open = Done pets_open listed
    /\ Permutation listed (files pets)
    /\ StronglySorted (fun a b => created_at b <= created_at a) listed
    /\ getFileCount pets_open = Done pets_open (List.length listed).
Proof.
  apply (@X11_listing_and_count_agree float pets_open). reflexivity.
Defined.

Lemma X12_four_pictures_cleared :
  exists s',
    run (fun _ => quiet_world) 0 (clearAll pets_open) = Returned s' tt
    /\ db s' = true
    /\ files (store s') = []
    /\ file_vectors (store s') = []
    /\ last_id (store s') = 4
    /\ getFileCount s' = Done s' 0
    /\ getAllFiles s' = Done s' []
    /\ forall w' t' query,
         match run w' t' (search query s') with
         | Returned _ results => results = []
         | Threw _ _ => False
         | Blocked _ => True
         end.
Proof.
  eexists. split; [reflexivity|].
  apply (@X12_nothing_left_after_clearAll float Binary64 (fun _ => quiet_world) pets_open 0).
  reflexivity.
Defined.

Lemma X13_new_engine_loads_embedder :
  exists s',
    embeddingModelLoading s' = false
    /\ visionModel s' = None
    /\ store s' = empty_store
    /\ run (fun _ => quiet_world) 0
           (loadEmbeddingModel (new_engine (@empty_store float) "/cache" 0))
       = Returned s' tt
    /\ embeddingModel s' = Some 0
    /\ heap s' = [ {| model := EMBEDDING_MODEL; contextSize := EMBEDDING_CONTEXT_SIZE;
                      initialized := true; destroyed := false |} ].
Proof.
  exact (@X13_embedding_load_succeeds_or_resets
           float (fun _ => quiet_world) (new_engine empty_store "/cache" 0) 0
           eq_refl eq_refl).
Defined.


(** [destroy] on an engine that holds its vision model. *)
Lemma X20_vision_model_destroyed :
  exists s',
    run (fun _ => quiet_world) 0 (destroy vision_loaded) = Returned s' tt
    /\ visionModel s' = None
    /\ embeddingModel s' = None
    /\ db s' = false
    /\ isInitialized s' = false
    /\ store s' = empty_store
    /\ searchInProgress s' = false
    /\ searchQueue s' = []
    /\ forall x, holds vision_loaded x ->
         In x (destroyed_models (answers (fun _ => quiet_world) 0 (destroy vision_loaded)))
         /\ destroyed_in (heap s') x.
Proof.
  apply (proj1 (@X20_destroy_closes_and_keeps_the_rows
                  float (fun _ => quiet_world) vision_loaded 0)).
  intros t m. reflexivity.
Defined.

(** The same when the SDK rejects [destroy]. *)
Example destroy_rejected :
  exists s',
    run (fun _ => destroy_fails quiet_world) 0 (destroy vision_loaded)
    = Threw s' "Error: destroy failed"
    /\ visionModel s' = Some 0 /\ db s' = true /\ isInitialized s' = true.
Proof. eexists. split; [vm_compute; reflexivity|]. auto. Qed.

Lemma X16_document_and_picture_indexed :
  exists s',
    run (fun _ => quiet_world) 0
        (indexFiles [document "b.pdf"; picture "a.jpg"]
                    (new_engine (@empty_store float) "/cache" 0))
    = Returned s' tt
    /\ Permutation [picture "a.jpg"; document "b.pdf"] [document "b.pdf"; picture "a.jpg"]
    /\ exists rows vectors,
         files (store s') = [] ++ rows
         /\ file_vectors (store s') = [] ++ vectors
         /\ last_id (store s') = 2
         /\ map id rows = [1; 2]
         /\ map fst vectors = map id rows
         /\ map uri rows = ["content://media/a.jpg"; "/documents/b.pdf"]
         /\ map filename rows = ["a.jpg"; "b.pdf"]
         /\ map file_type rows = [image; pdf]
         /\ Forall (fun r => caption r <> None) rows
         /\ exists before, reported s' = before ++ [complete_progress 2].
Proof.
  eexists. split; [vm_compute; reflexivity|].
  apply (@X16_indexed_files_are_saved_in_order
           float Binary64 (fun _ => quiet_world) [document "b.pdf"; picture "a.jpg"]
           (new_engine empty_store "/cache" 0) 0).
  vm_compute. reflexivity.
Defined.

Lemma X17_document_and_picture_searchable :
  exists s',
    run (fun _ => quiet_world) 0
        (indexFiles [document "b.pdf"; picture "a.jpg"]
                    (new_engine (@empty_store float) "/cache" 0))
    = Returned s' tt
    /\ store_ok (store s')
    /\ exists rows,
         map row_file (select_files_with_vectors (store s')) = [] ++ rows
         /\ map filename rows = ["a.jpg"; "b.pdf"]
         /\ map uri rows = ["content://media/a.jpg"; "/documents/b.pdf"].
Proof.
  eexists. split; [vm_compute; reflexivity|].
  apply (@X17_indexed_files_become_searchable
           float Binary64 (fun _ => quiet_world) [document "b.pdf"; picture "a.jpg"]
           (new_engine empty_store "/cache" 0) 0).
  - exact (store_ok_cleared 0).
  - vm_compute. reflexivity.
Defined.

(** The rows of that batch: the picture with the caption of the vision
    model, the document with the caption made of its name. *)
Example document_and_picture_rows :
  match run (fun _ => quiet_world) 0
            (indexFiles [document "b.pdf"; picture "a.jpg"]
                        (new_engine (@empty_store float) "/cache" 0)) with
  | Returned s' _ =>
      map (fun f => (id f, filename f, caption f)) (files (store s'))
      = [(1, "a.jpg", Some "a red bicycle"); (2, "b.pdf", Some "PDF document: b")]
  | _ => False
  end.
Proof. vm_compute. reflexivity. Qed.
